(** * Tempesta TLS: the MPI engine and the server handshake parser

    A shallow embedding of [tls/bignum.c] and of the ClientHello /
    ClientKeyExchange parsing code of [tls/tls_srv.c], with the properties the
    specification states about them.

    Conventions.
    - C integers are [Z]; every wrap-around of the source is written out
      ([wrap64], [u32], [u8], ...).
    - Byte buffers are [list Z] whose elements are in [0, 256).
    - A function that mutates [*tls] takes the context and returns the new one.
    - [ttls_send_alert] is an external effect; it is recorded in the
      [alerts] log of the context, most recent last. *)

From Stdlib Require Import ZArith List Lia Bool.
Import ListNotations.
Local Open Scope Z_scope.

(** ** Machine integers *)

Definition u8 (z : Z) : Z := z mod 2 ^ 8.
Definition u16 (z : Z) : Z := z mod 2 ^ 16.
Definition u32 (z : Z) : Z := z mod 2 ^ 32.

Definition is_byte (z : Z) : Prop := 0 <= z < 256.
Definition bytes (l : list Z) : Prop := Forall is_byte l.

(** [memcpy(dst, src, n)] on arrays modelled as lists: the first [n] cells of
    [dst] are replaced by those of [src]. *)
Definition memcpy (dst src : list Z) (n : nat) : list Z :=
  firstn n src ++ skipn n dst.

(** [a[i] = v] inside the array; nothing is written outside of it. *)
Fixpoint upd (l : list Z) (i : nat) (v : Z) : list Z :=
  match l, i with
  | [], _ => []
  | _ :: t, O => v :: t
  | h :: t, S i' => h :: upd t i' v
  end.

Module TlsSrv.

(** ** Return codes and alerts

    The numeric values live in [ttls.h] and [lib/fsm.h]; only their identity
    matters here.  [T_OK] is the value 0 that the code also writes as a plain
    [return 0]. *)
Inductive retcode :=
| T_OK
| T_POSTPONE
| TTLS_ERR_BAD_HS_CLIENT_HELLO
| TTLS_ERR_BAD_HS_PROTOCOL_VERSION
| TTLS_ERR_PRIVATE_KEY_REQUIRED
| TTLS_ERR_BAD_HS_CLIENT_KEY_EXCHANGE
| TTLS_ERR_INTERNAL_ERROR
| EINVAL.

Inductive alert_level := TTLS_ALERT_LEVEL_WARNING | TTLS_ALERT_LEVEL_FATAL.

Inductive alert_msg :=
| TTLS_ALERT_MSG_DECODE_ERROR
| TTLS_ALERT_MSG_ILLEGAL_PARAMETER
| TTLS_ALERT_MSG_PROTOCOL_VERSION
| TTLS_ALERT_MSG_INAPROPRIATE_FALLBACK
| TTLS_ALERT_MSG_HANDSHAKE_FAILURE.

(** ** Constants *)

Definition TTLS_ECP_PF_UNCOMPRESSED : Z := 0.   (* ecp.h:232 *)
Definition TTLS_ECP_PF_COMPRESSED : Z := 1.     (* ecp.h:233 *)

(** RFC 5246 / RFC 7507 / RFC 5746 code points used by [tls_srv.c]. *)
Definition TTLS_MAJOR_VERSION_3 : Z := 3.
Definition TTLS_MINOR_VERSION_3 : Z := 3.
Definition TTLS_MAX_MAJOR_VERSION : Z := 3.
Definition TTLS_FALLBACK_SCSV_VALUE : Z := 0x5600.
Definition TTLS_EMPTY_RENEGOTIATION_INFO : Z := 0xFF.
Definition TTLS_HS_CLIENT_HELLO : Z := 1.

(** ** Data model *)

(** [TlsSess]: the fields the parser touches, and [sess_rest] for everything
    else a ticket restores (master secret, start time, peer certificate). *)
Record TlsSess := mkSess {
  id_len : Z;
  id : list Z;
  ciphersuite : Z;
  sess_rest : list Z
}.

Record TlsConf := mkConf {
  max_minor_ver : Z;
  (** [f_ticket_parse(p_ticket, &session, buf, len)]: the return value and the
      session it fills in, or [None] for a NULL callback. *)
  f_ticket_parse : option (list Z -> Z * TlsSess);
  (** only whether the callback is set matters to the parser *)
  f_ticket_write : bool
}.

Record TlsHandshake := mkHs {
  randbytes : list Z;
  css : list Z;
  cs_total_len : Z;
  cs_cur_len : Z;
  secure_renegotiation : Z;
  extended_ms : Z;
  cli_exts : Z;
  curves_ext : Z;
  resume : Z;
  new_session_ticket : Z;
  point_format : Z;            (* ecdh_ctx.point_format *)
  premaster : list Z;
  pmslen : Z
}.

Record TlsIOCtx := mkIO {
  hstype : Z;
  hslen : Z;
  rlen : Z
}.

(** Sub-states of the ClientHello parser, stored in [tls->state]. *)
Inductive ch_state :=
| TTLS_CH_HS_VER
| TTLS_CH_HS_RND
| TTLS_CH_HS_SLEN
| TTLS_CH_HS_SESS
| TTLS_CH_HS_CSLEN
| TTLS_CH_HS_CS
| TTLS_CH_HS_CS_SKIP
| TTLS_CH_HS_COMPN.

Record TlsCtx := mkTls {
  major : Z;
  minor : Z;
  conf : TlsConf;
  sess : TlsSess;
  hs : TlsHandshake;
  io_in : TlsIOCtx;
  substate : ch_state;
  alerts : list (alert_level * alert_msg)
}.

Definition set_hs (tls : TlsCtx) (h : TlsHandshake) : TlsCtx :=
  mkTls (major tls) (minor tls) (conf tls) (sess tls) h (io_in tls)
        (substate tls) (alerts tls).

Definition set_sess (tls : TlsCtx) (s : TlsSess) : TlsCtx :=
  mkTls (major tls) (minor tls) (conf tls) s (hs tls) (io_in tls)
        (substate tls) (alerts tls).

Definition set_io (tls : TlsCtx) (io : TlsIOCtx) : TlsCtx :=
  mkTls (major tls) (minor tls) (conf tls) (sess tls) (hs tls) io
        (substate tls) (alerts tls).

Definition set_major (tls : TlsCtx) (v : Z) : TlsCtx :=
  mkTls v (minor tls) (conf tls) (sess tls) (hs tls) (io_in tls)
        (substate tls) (alerts tls).

Definition set_minor (tls : TlsCtx) (v : Z) : TlsCtx :=
  mkTls (major tls) v (conf tls) (sess tls) (hs tls) (io_in tls)
        (substate tls) (alerts tls).

Definition set_substate (tls : TlsCtx) (st : ch_state) : TlsCtx :=
  mkTls (major tls) (minor tls) (conf tls) (sess tls) (hs tls) (io_in tls)
        st (alerts tls).

(** [ttls_send_alert(tls, level, msg)] *)
Definition ttls_send_alert (tls : TlsCtx) (l : alert_level) (m : alert_msg)
  : TlsCtx :=
  mkTls (major tls) (minor tls) (conf tls) (sess tls) (hs tls) (io_in tls)
        (substate tls) (alerts tls ++ [(l, m)]).

Definition set_point_format (h : TlsHandshake) (v : Z) : TlsHandshake :=
  mkHs (randbytes h) (css h) (cs_total_len h) (cs_cur_len h)
       (secure_renegotiation h) (extended_ms h) (cli_exts h) (curves_ext h)
       (resume h) (new_session_ticket h) v (premaster h) (pmslen h).

Definition set_cli_exts (h : TlsHandshake) (v : Z) : TlsHandshake :=
  mkHs (randbytes h) (css h) (cs_total_len h) (cs_cur_len h)
       (secure_renegotiation h) (extended_ms h) v (curves_ext h)
       (resume h) (new_session_ticket h) (point_format h) (premaster h)
       (pmslen h).

Definition set_secure_renegotiation (h : TlsHandshake) (v : Z)
  : TlsHandshake :=
  mkHs (randbytes h) (css h) (cs_total_len h) (cs_cur_len h)
       v (extended_ms h) (cli_exts h) (curves_ext h)
       (resume h) (new_session_ticket h) (point_format h) (premaster h)
       (pmslen h).

Definition set_resume (h : TlsHandshake) (v : Z) : TlsHandshake :=
  mkHs (randbytes h) (css h) (cs_total_len h) (cs_cur_len h)
       (secure_renegotiation h) (extended_ms h) (cli_exts h) (curves_ext h)
       v (new_session_ticket h) (point_format h) (premaster h) (pmslen h).

Definition set_new_session_ticket (h : TlsHandshake) (v : Z)
  : TlsHandshake :=
  mkHs (randbytes h) (css h) (cs_total_len h) (cs_cur_len h)
       (secure_renegotiation h) (extended_ms h) (cli_exts h) (curves_ext h)
       (resume h) v (point_format h) (premaster h) (pmslen h).

Definition set_premaster (h : TlsHandshake) (pm : list Z) (n : Z)
  : TlsHandshake :=
  mkHs (randbytes h) (css h) (cs_total_len h) (cs_cur_len h)
       (secure_renegotiation h) (extended_ms h) (cli_exts h) (curves_ext h)
       (resume h) (new_session_ticket h) (point_format h) pm n.

Definition set_randbytes (h : TlsHandshake) (rb : list Z) : TlsHandshake :=
  mkHs rb (css h) (cs_total_len h) (cs_cur_len h)
       (secure_renegotiation h) (extended_ms h) (cli_exts h) (curves_ext h)
       (resume h) (new_session_ticket h) (point_format h) (premaster h)
       (pmslen h).

Definition set_css (h : TlsHandshake) (c : list Z) : TlsHandshake :=
  mkHs (randbytes h) c (cs_total_len h) (cs_cur_len h)
       (secure_renegotiation h) (extended_ms h) (cli_exts h) (curves_ext h)
       (resume h) (new_session_ticket h) (point_format h) (premaster h)
       (pmslen h).

Definition set_cs_total_len (h : TlsHandshake) (v : Z) : TlsHandshake :=
  mkHs (randbytes h) (css h) v (cs_cur_len h)
       (secure_renegotiation h) (extended_ms h) (cli_exts h) (curves_ext h)
       (resume h) (new_session_ticket h) (point_format h) (premaster h)
       (pmslen h).

Definition set_cs_cur_len (h : TlsHandshake) (v : Z) : TlsHandshake :=
  mkHs (randbytes h) (css h) (cs_total_len h) v
       (secure_renegotiation h) (extended_ms h) (cli_exts h) (curves_ext h)
       (resume h) (new_session_ticket h) (point_format h) (premaster h)
       (pmslen h).

(** ** Extension handlers *)

(** The scan loop of [ttls_parse_supported_point_formats]
    (tls_srv.c:242-250): [list_size] entries starting at [p]; the first entry
    that is the uncompressed or the compressed format is stored and ends the
    scan.  [None] means that the loop ran to its end without storing. *)
Fixpoint point_formats_scan (list_size : nat) (p : list Z) : option Z :=
  match list_size with
  | O => None
  | S n =>
      match p with
      | [] => None
      | p0 :: p' =>
          if (p0 =? TTLS_ECP_PF_UNCOMPRESSED) || (p0 =? TTLS_ECP_PF_COMPRESSED)
          then Some p0
          else point_formats_scan n p'
      end
  end.

(** tls_srv.c:227-253 *)
Definition ttls_parse_supported_point_formats (tls : TlsCtx) (buf : list Z)
  : retcode * TlsCtx :=
  let len := Z.of_nat (length buf) in
  if (len =? 0) || negb (nth 0 buf 0 + 1 =? len) then
    (TTLS_ERR_BAD_HS_CLIENT_HELLO,
     ttls_send_alert tls TTLS_ALERT_LEVEL_FATAL TTLS_ALERT_MSG_DECODE_ERROR)
  else
    let tls1 := set_hs tls (set_cli_exts (hs tls) 1) in
    match point_formats_scan (Z.to_nat (nth 0 buf 0)) (tl buf) with
    | Some pf => (T_OK, set_hs tls1 (set_point_format (hs tls1) pf))
    | None => (T_OK, tls1)
    end.

(** tls_srv.c:271-320.  The local [session] is zeroed, filled by the
    callback, then given the id the context already holds
    ([memcpy(&session.id, tls->sess.id, session.id_len)]) and copied over
    [tls->sess]. *)
Definition ttls_parse_session_ticket_ext (tls : TlsCtx) (buf : list Z)
  : retcode * TlsCtx :=
  match f_ticket_parse (conf tls) with
  | None => (T_OK, tls)
  | Some parse =>
      if negb (f_ticket_write (conf tls)) then (T_OK, tls)
      else
        let tls1 := set_hs tls (set_new_session_ticket (hs tls) 1) in
        if Z.of_nat (length buf) =? 0 then (T_OK, tls1)
        else
          let '(r, session) := parse buf in
          if negb (r =? 0) then (T_OK, tls1)
          else
            let session' :=
              mkSess (id_len (sess tls1))
                     (memcpy (id session) (id (sess tls1))
                             (Z.to_nat (id_len (sess tls1))))
                     (ciphersuite session) (sess_rest session) in
            let tls2 := set_sess tls1 session' in
            let tls3 := set_hs tls2 (set_resume (hs tls2) 1) in
            (T_OK, set_hs tls3 (set_new_session_ticket (hs tls3) 0))
  end.


(** ** SCSV check (tls_srv.c:32-51) *)
Definition ttls_check_scsvs (tls : TlsCtx) (cipher_suite : Z)
  : retcode * TlsCtx :=
  if cipher_suite =? TTLS_FALLBACK_SCSV_VALUE then
    if minor tls <? max_minor_ver (conf tls) then
      (TTLS_ERR_BAD_HS_CLIENT_HELLO,
       ttls_send_alert tls TTLS_ALERT_LEVEL_FATAL
                       TTLS_ALERT_MSG_INAPROPRIATE_FALLBACK)
    else (T_OK, tls)
  else if cipher_suite =? TTLS_EMPTY_RENEGOTIATION_INFO then
    (T_OK, set_hs tls (set_secure_renegotiation (hs tls) 1))
  else (T_OK, tls).

(** ** The ClientHello parser (tls_srv.c:620-809)

    One call of [ttls_parse_client_hello] works on the chunk [buf, buf + len).
    [e_p] holds the bytes from [p] to [buf + len], [e_off] is [p - buf] and
    [e_state_off] is [state_p - buf]. *)
Record ch_env := mkEnv {
  e_tls : TlsCtx;
  e_p : list Z;
  e_off : Z;
  e_state_off : Z
}.

(** What a state body does when it ends. *)
Inductive ch_next :=
| Jmp (st : ch_state) (e : ch_env)     (* T_FSM_JMP(st) *)
| Exit (st : ch_state) (e : ch_env)    (* T_FSM_EXIT(), next entry at [st] *)
| Ret (r : retcode) (tls : TlsCtx)     (* return r *)
| Bug                                  (* a BUG_ON fired *)
| Fault.                               (* [*p] read at [buf + len] *)

Definition env_tls (e : ch_env) (tls : TlsCtx) : ch_env :=
  mkEnv tls (e_p e) (e_off e) (e_state_off e).

(** [p += n] *)
Definition env_advance (e : ch_env) (n : nat) : ch_env :=
  mkEnv (e_tls e) (skipn n (e_p e)) (e_off e + Z.of_nat n) (e_state_off e).

Definition set_rlen (tls : TlsCtx) (v : Z) : TlsCtx :=
  set_io tls (mkIO (hstype (io_in tls)) (hslen (io_in tls)) v).

(** [io->hslen -= n].  [hslen] is declared in [ttls.h], which is not among
    the sources; the parser prints it with [%u] (tls_srv.c:871), as an
    [unsigned int], so the subtraction wraps at [2 ^ 32]. *)
Definition sub_hslen (tls : TlsCtx) (n : Z) : TlsCtx :=
  set_io tls (mkIO (hstype (io_in tls)) (u32 (hslen (io_in tls) - n))
                   (rlen (io_in tls))).

(** Modelled from the spec: the macro [TTLS_HS_FSM_MOVE] of
    [tls_internal.h], which is not among the sources.  The field just read is
    complete: the per-field byte counter [io->rlen] restarts, [state_p]
    follows [p], and when the chunk is used up the parser leaves with
    need-more-bytes and resumes at [st] on the next call; otherwise it goes on
    with [st] at once. *)
Definition TTLS_HS_FSM_MOVE (st : ch_state) (e : ch_env) : ch_next :=
  let e' := mkEnv (set_rlen (e_tls e) 0) (e_p e) (e_off e) (e_off e) in
  match e_p e' with
  | [] => Exit st e'
  | _ :: _ => Jmp st e'
  end.

(** Modelled from the spec: the macro [TTLS_HS_FSM_FINISH] of
    [tls_internal.h]: the sub-state is stored, [*read] grows by the bytes
    consumed in this call and [io->rlen] by those consumed in the unfinished
    field.  The result is the pair of the context and of the increment of
    [*read]. *)
Definition TTLS_HS_FSM_FINISH (st : ch_state) (e : ch_env) : TlsCtx * Z :=
  let tls := set_substate (e_tls e) st in
  (set_rlen tls (rlen (io_in tls) + (e_off e - e_state_off e)), e_off e).

(** A field of two bytes [high << 8 | low] read across chunks
    (tls_srv.c:729-739, 771-782): [get] and [set] access the 16-bit
    destination.  [inl] is the early [T_FSM_EXIT()] after the first byte. *)
Definition read_u16_field (st : ch_state) (e : ch_env)
    (get : TlsCtx -> Z) (set : TlsCtx -> Z -> TlsCtx)
  : ch_next + ch_env :=
  let tls := e_tls e in
  if negb (rlen (io_in tls) =? 0) then
    match e_p e with
    | [] => inl Fault
    | b :: _ => inr (env_advance (env_tls e (set tls (u16 (get tls + b)))) 1)
    end
  else
    match e_p e with
    | [] => inl Fault
    | [b] =>
        inl (Exit st (env_advance (env_tls e (set tls (u16 (Z.shiftl b 8)))) 1))
    | b0 :: b1 :: _ =>
        inr (env_advance (env_tls e (set tls (u16 (Z.shiftl b0 8 + b1)))) 2)
    end.

Section ClientHello.

(** Number of entries of [tls->hs->css]; [sizeof(tls->hs->css)] is twice
    that.  The array is declared in [ttls.h]. *)
Variable TTLS_HS_CS_MAX_SZ : Z.

Definition sizeof_css : Z := 2 * TTLS_HS_CS_MAX_SZ.

Definition st_ver (e : ch_env) : ch_next :=
  let tls := e_tls e in
  if 2 <=? rlen (io_in tls) then Bug
  else
    let after (e1 : ch_env) : ch_next :=
      let tls1 := sub_hslen (e_tls e1) 2 in
      if negb (major tls1 =? TTLS_MAJOR_VERSION_3)
         || negb (minor tls1 =? TTLS_MINOR_VERSION_3)
      then Ret TTLS_ERR_BAD_HS_PROTOCOL_VERSION
               (ttls_send_alert tls1 TTLS_ALERT_LEVEL_FATAL
                                TTLS_ALERT_MSG_PROTOCOL_VERSION)
      else TTLS_HS_FSM_MOVE TTLS_CH_HS_RND (env_tls e1 tls1) in
    if negb (rlen (io_in tls) =? 0) then
      match e_p e with
      | [] => Fault
      | b :: _ => after (env_advance (env_tls e (set_minor tls b)) 1)
      end
    else
      match e_p e with
      | [] => Fault
      | [b] => Exit TTLS_CH_HS_VER (env_advance (env_tls e (set_major tls b)) 1)
      | b0 :: b1 :: _ =>
          after (env_advance (env_tls e (set_minor (set_major tls b0) b1)) 2)
      end.

Definition st_rnd (e : ch_env) : ch_next :=
  let tls := e_tls e in
  let r := rlen (io_in tls) in
  if 32 <=? r then Bug
  else
    let n := Z.min (32 - r) (Z.of_nat (length (e_p e))) in
    let rb := firstn (Z.to_nat r) (randbytes (hs tls))
              ++ memcpy (skipn (Z.to_nat r) (randbytes (hs tls)))
                        (e_p e) (Z.to_nat n) in
    let tls1 := sub_hslen (set_hs tls (set_randbytes (hs tls) rb)) n in
    let e1 := env_advance (env_tls e tls1) (Z.to_nat n) in
    if r + n <? 32 then Exit TTLS_CH_HS_RND e1
    else TTLS_HS_FSM_MOVE TTLS_CH_HS_SLEN e1.

Definition st_slen (e : ch_env) : ch_next :=
  let tls := e_tls e in
  match e_p e with
  | [] => Fault
  | n :: _ =>
      if (32 <? n) || (hslen (io_in tls) <? n + 9) then
        Ret TTLS_ERR_BAD_HS_CLIENT_HELLO
            (ttls_send_alert tls TTLS_ALERT_LEVEL_FATAL
                             TTLS_ALERT_MSG_DECODE_ERROR)
      else
        let s := sess tls in
        let tls1 := sub_hslen
                      (set_sess tls (mkSess n (id s) (ciphersuite s)
                                            (sess_rest s))) 1 in
        let e1 := env_advance (env_tls e tls1) 1 in
        if negb (n =? 0) then TTLS_HS_FSM_MOVE TTLS_CH_HS_SESS e1
        else TTLS_HS_FSM_MOVE TTLS_CH_HS_CSLEN e1
  end.

(** The source compares ([memcmp_fast]) the session id with the incoming
    bytes and drops the result; [tls->sess.id] is not written. *)
Definition st_sess (e : ch_env) : ch_next :=
  let tls := e_tls e in
  let r := rlen (io_in tls) in
  if id_len (sess tls) <=? r then Bug
  else
    let n := Z.min (id_len (sess tls) - r) (Z.of_nat (length (e_p e))) in
    let e1 := env_advance (env_tls e (sub_hslen tls n)) (Z.to_nat n) in
    if r + n <? id_len (sess tls) then Exit TTLS_CH_HS_SESS e1
    else TTLS_HS_FSM_MOVE TTLS_CH_HS_CSLEN e1.

Definition st_cslen (e : ch_env) : ch_next :=
  if 2 <=? rlen (io_in (e_tls e)) then Bug
  else
    match read_u16_field TTLS_CH_HS_CSLEN e
            (fun tls => cs_total_len (hs tls))
            (fun tls v => set_hs tls (set_cs_total_len (hs tls) v)) with
    | inl nx => nx
    | inr e1 =>
        let tls := e_tls e1 in
        let n := cs_total_len (hs tls) in
        let tls1 := sub_hslen (set_hs tls (set_cs_cur_len (hs tls) 0)) 2 in
        if (n <? 2) || (hslen (io_in tls1) <? n + 1) || Z.odd n then
          Ret TTLS_ERR_BAD_HS_CLIENT_HELLO
              (ttls_send_alert tls1 TTLS_ALERT_LEVEL_FATAL
                               TTLS_ALERT_MSG_DECODE_ERROR)
        else TTLS_HS_FSM_MOVE TTLS_CH_HS_CS (env_tls e1 tls1)
    end.

Definition st_cs (e : ch_env) : ch_next :=
  let tls := e_tls e in
  let n := cs_total_len (hs tls) in
  if 2 <=? rlen (io_in tls) then Bug
  else if sizeof_css <=? cs_cur_len (hs tls) then
    TTLS_HS_FSM_MOVE TTLS_CH_HS_CS_SKIP e
  else
    let slot := Z.to_nat (cs_cur_len (hs tls) / 2) in
    match read_u16_field TTLS_CH_HS_CS e
            (fun tls => nth slot (css (hs tls)) 0)
            (fun tls v => set_hs tls (set_css (hs tls)
                                              (upd (css (hs tls)) slot v)))
    with
    | inl nx => nx
    | inr e1 =>
        let tls := e_tls e1 in
        let cs := nth slot (css (hs tls)) 0 in
        match ttls_check_scsvs tls cs with
        | (T_OK, tls1) =>
            let tls2 := sub_hslen tls1 2 in
            let tls3 :=
              set_hs tls2 (set_cs_cur_len (hs tls2)
                                          (cs_cur_len (hs tls2) + 2)) in
            if cs_cur_len (hs tls3) =? n
            then TTLS_HS_FSM_MOVE TTLS_CH_HS_COMPN (env_tls e1 tls3)
            else TTLS_HS_FSM_MOVE TTLS_CH_HS_CS (env_tls e1 tls3)
        | (_, tls1) => Ret TTLS_ERR_BAD_HS_CLIENT_HELLO tls1
        end
    end.

Definition st_cs_skip (e : ch_env) : ch_next :=
  let tls := e_tls e in
  let n := cs_total_len (hs tls) in
  let delta :=
    u16 (Z.min (Z.of_nat (length (e_p e))) (n - cs_cur_len (hs tls))) in
  let tls1 := sub_hslen tls delta in
  let tls2 :=
    set_hs tls1 (set_cs_cur_len (hs tls1) (cs_cur_len (hs tls1) + delta)) in
  let e1 := env_advance (env_tls e tls2) (Z.to_nat delta) in
  if cs_cur_len (hs tls2) =? n then
    TTLS_HS_FSM_MOVE TTLS_CH_HS_COMPN
      (env_tls e1 (set_hs tls2 (set_cs_total_len (hs tls2) sizeof_css)))
  else TTLS_HS_FSM_MOVE TTLS_CH_HS_CS_SKIP e1.

(** Result of one call, for the part of the parser that is modelled. *)
Inductive ch_result :=
| Returned (r : retcode) (tls : TlsCtx)
    (* the function returned [r] from inside a state *)
| Postponed (tls : TlsCtx) (read : Z)
    (* [T_FSM_EXIT()]: need-more-bytes, [*read] grew by [read] *)
| Compression (e : ch_env)
    (* control reached [TTLS_CH_HS_COMPN] inside the chunk: the compression
       methods and the extensions follow *)
| Crashed      (* BUG_ON or a read past the chunk *)
| Unfinished.  (* the step budget of [ch_run] was used up *)

Definition ch_step (st : ch_state) (e : ch_env) : ch_next :=
  match st with
  | TTLS_CH_HS_VER => st_ver e
  | TTLS_CH_HS_RND => st_rnd e
  | TTLS_CH_HS_SLEN => st_slen e
  | TTLS_CH_HS_SESS => st_sess e
  | TTLS_CH_HS_CSLEN => st_cslen e
  | TTLS_CH_HS_CS => st_cs e
  | TTLS_CH_HS_CS_SKIP => st_cs_skip e
  | TTLS_CH_HS_COMPN => Jmp TTLS_CH_HS_COMPN e
  end.

(** The [switch]/[goto] machine: states are run until one leaves. *)
Fixpoint ch_run (fuel : nat) (st : ch_state) (e : ch_env) : ch_result :=
  match st with
  | TTLS_CH_HS_COMPN => Compression e
  | _ =>
      match fuel with
      | O => Unfinished
      | S fuel' =>
          match ch_step st e with
          | Jmp st' e' => ch_run fuel' st' e'
          | Exit st' e' =>
              let '(tls, rd) := TTLS_HS_FSM_FINISH st' e' in Postponed tls rd
          | Ret r tls => Returned r tls
          | Bug | Fault => Crashed
          end
      end
  end.

(** Every state but the jump from [CS] to [CS_SKIP] consumes a byte, so
    twice the chunk length and a margin bound the number of states run. *)
Definition ttls_parse_client_hello (tls : TlsCtx) (buf : list Z)
  : ch_result :=
  if negb (hstype (io_in tls) =? TTLS_HS_CLIENT_HELLO) then
    Returned TTLS_ERR_BAD_HS_CLIENT_HELLO tls
  else ch_run (2 * length buf + 8) (substate tls) (mkEnv tls buf 0 0).

End ClientHello.

(** ** Suite selection (tls_srv.c:556-613) *)
Section ChooseCiphersuite.

(** [ttls_ciphersuite_match(tls, suite_id, &ci)] (tls_srv.c:500-554) consults
    the suite table, the negotiated curves and hashes and the configured
    certificates, all held outside the modelled context: its return value,
    the suite it stores in [*ci] if any, and the context it leaves. *)
Variable ttls_ciphersuite_match : TlsCtx -> Z -> Z * option Z * TlsCtx.

Inductive cs_scan :=
| ScanErr (r : Z) (tls : TlsCtx)          (* [return r] *)
| ScanFound (ci : Z) (tls : TlsCtx)       (* [goto have_ciphersuite] *)
| ScanNone (got_common_suite : bool) (tls : TlsCtx).

(** The inner loop: [cs] walks [css + idx .. css + cs_cnt). *)
Fixpoint choose_scan_peer (tls : TlsCtx) (suite : Z) (todo : nat) (idx : nat)
    (got : bool) : cs_scan :=
  match todo with
  | O => ScanNone got tls
  | S todo' =>
      if negb (nth idx (css (hs tls)) 0 =? suite) then
        choose_scan_peer tls suite todo' (S idx) got
      else
        match ttls_ciphersuite_match tls suite with
        | (r, ci, tls1) =>
            if negb (r =? 0) then ScanErr r tls1
            else match ci with
                 | Some c => ScanFound c tls1
                 | None => choose_scan_peer tls1 suite todo' (S idx) true
                 end
        end
  end.

(** The outer loop over the zero-terminated preference list. *)
Fixpoint choose_scan_own (tls : TlsCtx) (ciphersuites : list Z) (cs_cnt : nat)
    (got : bool) : cs_scan * Z :=
  match ciphersuites with
  | [] => (ScanNone got tls, 0)
  | suite :: rest =>
      if suite =? 0 then (ScanNone got tls, 0)
      else
        match choose_scan_peer tls suite cs_cnt 0 got with
        | ScanNone got' tls1 => choose_scan_own tls1 rest cs_cnt got'
        | res => (res, suite)
        end
  end.

Definition ttls_choose_ciphersuite (tls : TlsCtx) (ciphersuites : list Z)
  : Z + retcode * TlsCtx * option Z :=
  let cs_cnt := Z.to_nat (cs_total_len (hs tls) / 2) in
  match choose_scan_own tls ciphersuites cs_cnt false with
  | (ScanErr r _, _) => inl r
  | (ScanFound ci tls1, suite) =>
      let s := sess tls1 in
      inr (T_OK,
           set_sess tls1 (mkSess (id_len s) (id s) suite (sess_rest s)),
           Some ci)
  | (ScanNone _ tls1, _) =>
      inr (EINVAL,
           ttls_send_alert tls1 TTLS_ALERT_LEVEL_FATAL
                           TTLS_ALERT_MSG_HANDSHAKE_FAILURE,
           None)
  end.

End ChooseCiphersuite.

(** ** RSA ClientKeyExchange (tls_srv.c:1772-1827) *)

(** [mask = -((diff | -diff) >> (sizeof(unsigned int) * 8 - 1))], an
    [unsigned char]. *)
Definition pms_mask (diff : Z) : Z :=
  u8 (u32 (- Z.shiftr (Z.lor diff (u32 (- diff))) 31)).

(** [pms[i] = (mask & fake_pms[i]) | ((~mask) & peer_pms[i])] *)
Definition pms_select (mask f p : Z) : Z :=
  u8 (Z.lor (Z.land mask f) (Z.land (Z.lnot mask) p)).

Fixpoint pms_mix (mask : Z) (fake peer : list Z) : list Z :=
  match fake, peer with
  | f :: fake', p :: peer' => pms_select mask f p :: pms_mix mask fake' peer'
  | _, _ => []
  end.

(** The server key as the function sees it. *)
Record own_key := mkKey {
  can_do_rsa : bool;     (* ttls_pk_can_do(ttls_own_key(tls), TTLS_PK_RSA) *)
  pk_len : Z             (* ttls_pk_get_len(ttls_own_key(tls)) *)
}.

(** [msg] holds the bytes from [p] to [end].  [fake_pms] is what [ttls_rnd]
    delivers (48 bytes).  [decrypt] stands for [ttls_pk_decrypt] with output
    size 48: its return value (an [int]), the length it reports (a
    [size_t]) and the 48 bytes of [peer_pms] after the call.  [None]: the
    length check reads a byte at or past [end]. *)
Definition ttls_parse_encrypted_pms (tls : TlsCtx) (key : own_key)
    (msg : list Z) (fake_pms : list Z)
    (decrypt : list Z -> Z * Z * list Z)
  : option (retcode * TlsCtx) :=
  let len := pk_len key in
  if negb (can_do_rsa key) then Some (TTLS_ERR_PRIVATE_KEY_REQUIRED, tls)
  else
    match msg with
    | [] => None
    | b0 :: msg1 =>
        if negb (b0 =? Z.land (Z.shiftr len 8) 0xFF)
        then Some (TTLS_ERR_BAD_HS_CLIENT_KEY_EXCHANGE, tls)
        else
          match msg1 with
          | [] => None
          | b1 :: body =>
              if negb (b1 =? Z.land len 0xFF)
                 || negb (Z.of_nat (length body) =? len)
              then Some (TTLS_ERR_BAD_HS_CLIENT_KEY_EXCHANGE, tls)
              else
                let ver0 := TTLS_MAX_MAJOR_VERSION in
                let ver1 := max_minor_ver (conf tls) in
                let '(r, peer_pmslen, peer_pms) := decrypt body in
                let diff := u32 r in
                let diff := u32 (Z.lor diff (Z.lxor peer_pmslen 48)) in
                let diff := u32 (Z.lor diff (Z.lxor (nth 0 peer_pms 0) ver0)) in
                let diff := u32 (Z.lor diff (Z.lxor (nth 1 peer_pms 0) ver1)) in
                let mask := pms_mask diff in
                let pms := pms_mix mask (firstn 48 fake_pms)
                                   (firstn 48 peer_pms) in
                Some (T_OK,
                      set_hs tls
                        (set_premaster (hs tls)
                           (memcpy (premaster (hs tls)) pms 48) 48))
          end
    end.

End TlsSrv.

(** * The multi-precision integer library (bignum.c) *)

Module Bignum.

(** ** Limbs *)

Definition BIL : Z := 64.      (* bits in limb *)
Definition BIH : Z := 32.      (* half limb size *)
Definition CIL : Z := 8.       (* chars in limb *)
Definition BSHIFT : Z := 6.
Definition LSHIFT : Z := 3.
Definition BMASK : Z := 63.
Definition MPI_W_SZ : Z := 6.

(** [unsigned long] arithmetic *)
Definition wrap64 (z : Z) : Z := z mod 2 ^ 64.

Definition b2z (b : bool) : Z := if b then 1 else 0.

Definition BITS_TO_LIMBS (n : Z) : Z := Z.shiftr (n + BIL - 1) BSHIFT.
Definition CHARS_TO_LIMBS (n : Z) : Z := Z.shiftr (n + CIL - 1) LSHIFT.

(** [fls64]: 1-based index of the most significant set bit, 0 for 0. *)
Definition fls64 (x : Z) : Z := if x =? 0 then 0 else Z.log2 x + 1.

(** ** Outcomes

    [Ok]: the function returned 0 and left the given state.  [Err]: it
    returned the negated errno.  [Trap]: a [BUG_ON] fired or a limb outside
    its array was accessed.  [Diverge]: a loop without a syntactic bound did
    not end within [loop_budget] rounds. *)
Inductive errno := ENOMEM | EINVAL | ENOSPC.

Inductive res (A : Type) : Type :=
| Ok (a : A)
| Err (e : errno)
| Trap
| Diverge.
Arguments Ok {A} a.
Arguments Err {A} e.
Arguments Trap {A}.
Arguments Diverge {A}.

Definition bind {A B : Type} (m : res A) (k : A -> res B) : res B :=
  match m with
  | Ok a => k a
  | Err e => Err e
  | Trap => Trap
  | Diverge => Diverge
  end.

Notation "x <- m ;; k" := (bind m (fun x => k))
  (at level 61, m at next level, right associativity).
Notation "' pat <- m ;; k" := (bind m (fun x => match x with pat => k end))
  (at level 61, pat pattern, m at next level, right associativity).

(** [a[i]] and [a[i] = v], trapping outside of the array. *)
Definition rd (a : list Z) (i : Z) : res Z :=
  if (0 <=? i) && (i <? Z.of_nat (length a))
  then Ok (nth (Z.to_nat i) a 0) else Trap.

Definition wr (a : list Z) (i : Z) (v : Z) : res (list Z) :=
  if (0 <=? i) && (i <? Z.of_nat (length a))
  then Ok (upd a (Z.to_nat i) v) else Trap.

(** ** Loops without a syntactic bound

    [loop n body st] runs [body] from [st] until it answers [inr], at most
    [n] times; [None] when the budget is used up. *)
Fixpoint loop {S R : Type} (n : positive) (body : S -> res (S + R)) (st : S)
  : res (S + R) :=
  match n with
  | xH => body st
  | xO n' =>
      r <- loop n' body st ;;
      match r with
      | inl st' => loop n' body st'
      | inr x => Ok (inr x)
      end
  | xI n' =>
      r0 <- body st ;;
      match r0 with
      | inr x => Ok (inr x)
      | inl st0 =>
          r <- loop n' body st0 ;;
          match r with
          | inl st' => loop n' body st'
          | inr x => Ok (inr x)
          end
      end
  end.

Definition loop_budget : positive := 2 ^ 64.

Definition while {S R : Type} (body : S -> res (S + R)) (st : S) : res R :=
  r <- loop loop_budget body st ;;
  match r with
  | inr x => Ok x
  | inl _ => Diverge
  end.

(** ** The MPI *)

Record TlsMpi := mkMpi {
  s : Z;            (* sign: 1 or -1 *)
  used : Z;         (* number of limbs in use *)
  limbs : Z;        (* number of limbs allocated *)
  p : list Z        (* the limb array; [[]] stands for NULL *)
}.

Definition set_s (X : TlsMpi) (v : Z) : TlsMpi :=
  mkMpi v (used X) (limbs X) (p X).
Definition set_used (X : TlsMpi) (v : Z) : TlsMpi :=
  mkMpi (s X) v (limbs X) (p X).
Definition set_p (X : TlsMpi) (l : list Z) : TlsMpi :=
  mkMpi (s X) (used X) (limbs X) l.

Definition is_null (l : list Z) : bool :=
  match l with [] => true | _ => false end.

Section Heap.

(** What a fresh [kmalloc] block holds: limb [i] of it is [junk i], any
    64-bit pattern.  Allocation itself is taken to succeed. *)
Variable junk : nat -> Z.

(** Bounds of [bignum.h], which is not among the sources. *)
Variable TTLS_MPI_MAX_LIMBS : Z.
Variable TTLS_MPI_MAX_SIZE : Z.

Definition kmalloc (n : Z) : list Z :=
  map (fun i => wrap64 (junk i)) (seq 0 (Z.to_nat n)).

(** bignum.c:63-73 *)
Definition ttls_mpi_init : TlsMpi := mkMpi 1 0 0 [].

(** bignum.c:75-87 *)
Definition ttls_mpi_free (X : TlsMpi) : TlsMpi := ttls_mpi_init.

(** bignum.c:99-124 *)
Definition __mpi_realloc (X : TlsMpi) (nblimbs : Z) (copy zero : bool)
  : res TlsMpi :=
  if TTLS_MPI_MAX_LIMBS <? nblimbs then Err ENOMEM
  else if nblimbs <=? limbs X then Ok X
  else
    let p0 := kmalloc nblimbs in
    let p1 := if negb (is_null (p X)) && copy
              then memcpy p0 (p X) (Z.to_nat (used X)) else p0 in
    let p2 := if zero
              then firstn (Z.to_nat (used X)) p1
                   ++ repeat 0 (Z.to_nat (nblimbs - used X))
              else p1 in
    Ok (mkMpi (s X) (used X) nblimbs p2).

(** Modelled from the spec: [ttls_mpi_grow] of [bignum.h], which is not
    among the sources: grow to at least [nblimbs] limbs, bounded by
    [TTLS_MPI_MAX_LIMBS], keeping the old contents and clearing the new
    limbs. *)
Definition ttls_mpi_grow (X : TlsMpi) (nblimbs : Z) : res TlsMpi :=
  __mpi_realloc X nblimbs true true.

(** The scan of [mpi_fixup_used]: [u] is the candidate [X->used]. *)
Fixpoint fixup_scan (l : list Z) (u : nat) : nat :=
  match u with
  | O => O
  | S u' =>
      match u' with
      | O => u
      | S _ => if nth u' l 0 =? 0 then fixup_scan l u' else u
      end
  end.

(** bignum.c:129-140 *)
Definition mpi_fixup_used (X : TlsMpi) (n : Z) : TlsMpi :=
  let n := if limbs X <? n then limbs X else n in
  set_used X (Z.of_nat (fixup_scan (p X) (Z.to_nat n))).

(** bignum.c:171-189.  [X == Y] leaves [X], which has the value of [Y]. *)
Definition ttls_mpi_copy (X Y : TlsMpi) : res TlsMpi :=
  if is_null (p Y) then Ok (ttls_mpi_free X)
  else
    X1 <- (if limbs X <? used Y then __mpi_realloc X (used Y) false false
           else Ok X) ;;
    Ok (mkMpi (s Y) (used Y) (limbs X1)
              (memcpy (p X1) (p Y) (Z.to_nat (used Y)))).

(** bignum.c:263-279; [z] is a [long]. *)
Definition ttls_mpi_lset (X : TlsMpi) (z : Z) : res TlsMpi :=
  X1 <- __mpi_realloc X 1 false false ;;
  if z <? 0 then
    p1 <- wr (p X1) 0 (wrap64 (- z)) ;; Ok (mkMpi (-1) 1 (limbs X1) p1)
  else
    p1 <- wr (p X1) 0 (wrap64 z) ;; Ok (mkMpi 1 1 (limbs X1) p1).

(** bignum.c:341-351 *)
Definition ttls_mpi_bitlen (X : TlsMpi) : res Z :=
  if used X =? 0 then Ok 0
  else
    top <- rd (p X) (used X - 1) ;;
    if top =? 0 then Ok 0
    else Ok ((used X - 1) * BIL + fls64 top).

(** bignum.c:356-360 *)
Definition ttls_mpi_size (X : TlsMpi) : res Z :=
  n <- ttls_mpi_bitlen X ;; Ok (Z.shiftr (n + 7) 3).


(** ** Comparison *)

(** The scan [for (i = used - 1; i >= 0; i--)] of the comparison routines:
    the sign of the first difference from the top, as [1], [-1] or [0]. *)
Fixpoint cmp_limbs (x y : list Z) (i : nat) : Z :=
  match i with
  | O => 0
  | S i' =>
      if nth i' x 0 =? nth i' y 0 then cmp_limbs x y i'
      else if nth i' y 0 <? nth i' x 0 then 1 else -1
  end.

(** bignum.c:574-594 *)
Definition ttls_mpi_cmp_abs (X Y : TlsMpi) : Z :=
  if (used X =? 0) && (used Y =? 0) then 0
  else if used Y <? used X then 1
  else if used X <? used Y then -1
  else cmp_limbs (p X) (p Y) (Z.to_nat (used X)).

(** bignum.c:599-624 *)
Definition ttls_mpi_cmp_mpi (X Y : TlsMpi) : Z :=
  if (used X =? 0) && (used Y =? 0) then 0
  else if used Y <? used X then s X
  else if used X <? used Y then - s Y
  else if (0 <? s X) && (s Y <? 0) then 1
  else if (0 <? s Y) && (s X <? 0) then -1
  else cmp_limbs (p X) (p Y) (Z.to_nat (used X)) * s X.

(** bignum.c:629-648; [z] is a [long].  The last line compares the
    [unsigned long] limb with [z] converted to [unsigned long]. *)
Definition ttls_mpi_cmp_int (X : TlsMpi) (z : Z) : Z :=
  if 1 <? used X then s X
  else if used X =? 0 then
    (if z =? 0 then 0 else if z <? 0 then 1 else -1)
  else if (z <? 0) && (0 <? s X) then 1
  else if negb (z <? 0) && (s X <? 0) then -1
  else
    let z' := wrap64 (Z.abs z) in
    let x0 := nth 0 (p X) 0 in
    if z' =? x0 then 0 else if z' <? x0 then s X else - s X.

(** ** Shifts *)

(** [for (i = X->used; i > v0; i--) p[i - 1] = X->p[i - v0 - 1]] followed by
    [for ( ; i > 0; i--) p[i - 1] = 0] (bignum.c:388-391).  [dst] is [p];
    limbs are read from [old], the array [X->p] before the call, when [p] is
    a fresh block, and from [dst] itself when the shift is done in place. *)
Fixpoint shl_limbs (fresh : bool) (dst old : list Z) (v0 : Z) (i : nat)
  : res (list Z) :=
  match i with
  | O => Ok dst
  | S i' =>
      if v0 <? Z.of_nat i then
        x <- rd (if fresh then old else dst) (Z.of_nat i' - v0) ;;
        dst1 <- wr dst (Z.of_nat i') x ;;
        shl_limbs fresh dst1 old v0 i'
      else
        dst1 <- wr dst (Z.of_nat i') 0 ;;
        shl_limbs fresh dst1 old v0 i'
  end.

(** [for (i = v0; i < X->used; i++)] of bignum.c:401-406; [todo] limbs
    are left from index [i], [r0] is the carry. *)
Fixpoint shl_bits (a : list Z) (t1 : Z) (i : Z) (todo : nat) (r0 : Z)
  : res (list Z) :=
  match todo with
  | O => Ok a
  | S todo' =>
      x <- rd a i ;;
      let r1 := Z.shiftr x (BIL - t1) in
      a1 <- wr a i (Z.lor (wrap64 (Z.shiftl x t1)) r0) ;;
      shl_bits a1 t1 (i + 1) todo' r1
  end.

(** bignum.c:367-416; [count] and [i] are [size_t]: the sum [i += count]
    wraps at [2^64]. *)
Definition ttls_mpi_shift_l (X : TlsMpi) (count : Z) : res TlsMpi :=
  let old_used := used X in
  i <- ttls_mpi_bitlen X ;;
  if i =? 0 then Ok X
  else
    let v0 := Z.shiftr count BSHIFT in
    let t1 := Z.land count BMASK in
    let i := wrap64 (i + count) in
    let fresh := Z.shiftl (limbs X) BSHIFT <? i in
    let p0 := if fresh then kmalloc (BITS_TO_LIMBS i) else p X in
    let new_used := BITS_TO_LIMBS i in
    p1 <- (if 0 <? v0 then shl_limbs fresh p0 (p X) v0 (Z.to_nat new_used)
           else if fresh then wr (memcpy p0 (p X) (Z.to_nat old_used)) old_used 0
           else Ok p0) ;;
    p2 <- (if 0 <? t1
           then shl_bits p1 t1 v0 (Z.to_nat (new_used - v0)) 0
           else Ok p1) ;;
    Ok (mkMpi (s X) new_used (if fresh then new_used else limbs X) p2).

(** [for (i = 0; i < X->used; i++) X->p[i] = X->p[i + v0]]
    (bignum.c:446-447) *)
Fixpoint shr_limbs (a : list Z) (v0 : Z) (i : Z) (todo : nat)
  : res (list Z) :=
  match todo with
  | O => Ok a
  | S todo' =>
      x <- rd a (i + v0) ;;
      a1 <- wr a i x ;;
      shr_limbs a1 v0 (i + 1) todo'
  end.

(** [for (i = X->used; i > 0; i--)] of bignum.c:452-457 *)
Fixpoint shr_bits (a : list Z) (v1 : Z) (i : nat) (r0 : Z) : res (list Z) :=
  match i with
  | O => Ok a
  | S i' =>
      x <- rd a (Z.of_nat i') ;;
      let r1 := wrap64 (Z.shiftl x (BIL - v1)) in
      a1 <- wr a (Z.of_nat i') (Z.lor (Z.shiftr x v1) r0) ;;
      shr_bits a1 v1 i' r1
  end.

(** bignum.c:423-463 *)
Definition ttls_mpi_shift_r (X : TlsMpi) (count : Z) : res TlsMpi :=
  if used X =? 0 then Ok X
  else
    top <- rd (p X) (used X - 1) ;;
    if top =? 0 then Ok X
    else
      let v0 := Z.shiftr count BSHIFT in
      let v1 := Z.land count BMASK in
      if (used X <? v0) || ((v0 =? used X) && (0 <? v1))
      then ttls_mpi_lset X 0
      else
        let u1 := if 0 <? v0 then used X - v0 else used X in
        p1 <- (if 0 <? v0 then shr_limbs (p X) v0 0 (Z.to_nat u1)
               else Ok (p X)) ;;
        if 0 <? v1 then
          p2 <- shr_bits p1 v1 (Z.to_nat u1) 0 ;;
          top' <- rd p2 (u1 - 1) ;;
          Ok (mkMpi (s X) (if top' =? 0 then u1 - 1 else u1) (limbs X) p2)
        else Ok (mkMpi (s X) u1 (limbs X) p1).

(** ** Addition and subtraction *)

(** The destination of a three-operand routine: the object [A] itself
    ([X == A]), the object [B] itself ([X == B]), or a third MPI. *)
Inductive dest :=
| DestA
| DestB
| DestX (X : TlsMpi).

Definition dest_mpi (d : dest) (A B : TlsMpi) : TlsMpi :=
  match d with
  | DestA => A
  | DestB => B
  | DestX X => X
  end.

(** First loop of [ttls_mpi_add_abs] (bignum.c:687-697).  [x] is [X->p] and
    [xu] is [X->used]; [a] is [A->p], which is [x] itself when [alias]
    holds. *)
Fixpoint add_loop1 (alias : bool) (a b x : list Z) (xu : Z) (i : Z)
    (todo : nat) (c : Z) : res (list Z * Z * Z) :=
  match todo with
  | O => Ok (x, xu, c)
  | S todo' =>
      '(x1, xu1) <-
        (if i =? xu then x' <- wr x i c ;; Ok (x', xu + 1)
         else ai <- rd (if alias then x else a) i ;;
              x' <- wr x i (wrap64 (ai + c)) ;; Ok (x', xu)) ;;
      xi <- rd x1 i ;;
      let c1 := b2z (xi <? c) in
      bi <- rd b i ;;
      let xi' := wrap64 (xi + bi) in
      x2 <- wr x1 i xi' ;;
      add_loop1 alias a b x2 xu1 (i + 1) todo' (c1 + b2z (xi' <? bi))
  end.

(** Second loop (bignum.c:698-707): the carry runs on while it is set;
    [room] is [X->limbs - i], and [BUG_ON(i >= X->limbs)] fires when it is
    used up. *)
Fixpoint add_loop2 (alias : bool) (a x : list Z) (xu : Z) (i : Z)
    (room : nat) (c : Z) : res (list Z * Z * Z) :=
  if c =? 0 then Ok (x, xu, i)
  else
    match room with
    | O => Trap
    | S room' =>
        '(x1, xu1) <-
          (if i =? xu then x' <- wr x i c ;; Ok (x', xu + 1)
           else ai <- rd (if alias then x else a) i ;;
                x' <- wr x i (wrap64 (ai + c)) ;; Ok (x', xu)) ;;
        xi <- rd x1 i ;;
        add_loop2 alias a x1 xu1 (i + 1) room' (b2z (xi <? c))
    end.

Definition top_bit (x : Z) : bool := Z.testbit x 63.

(** bignum.c:655-712.  [A] and [B] are distinct objects ([BUG_ON(A == B)]). *)
Definition ttls_mpi_add_abs (d : dest) (A B : TlsMpi) : res TlsMpi :=
  let X := dest_mpi d A B in
  let '(A, B, alias) :=
    match d with
    | DestB => (B, A, true)
    | DestA => (A, B, true)
    | DestX _ => (A, B, false)
    end in
  let n := Z.max (used A) (used B) in
  grow <-
    (if used B <? used A then
       t <- rd (p A) (n - 1) ;; Ok (top_bit t)
     else if used A <? used B then
       t <- rd (p B) (n - 1) ;; Ok (top_bit t)
     else
       ta <- rd (p A) (n - 1) ;; tb <- rd (p B) (n - 1) ;;
       Ok (top_bit (Z.lor ta tb))) ;;
  let n := if grow : bool then n + 1 else n in
  X1 <- __mpi_realloc (set_s X 1) n alias false ;;
  '(x1, xu1, c) <-
    add_loop1 alias (p A) (p B) (p X1) (used A) 0 (Z.to_nat (used B)) 0 ;;
  '(x2, xu2, i) <-
    add_loop2 alias (p A) x1 xu1 (used B) (Z.to_nat (limbs X1 - used B)) c ;;
  let x3 := if negb alias && (i <? xu2)
            then firstn (Z.to_nat i) x2
                 ++ memcpy (skipn (Z.to_nat i) x2) (skipn (Z.to_nat i) (p A))
                           (Z.to_nat (xu2 - i))
            else x2 in
  Ok (mkMpi 1 xu2 (limbs X1) x3).

(** First loop of [__mpi_sub] (bignum.c:726-732).  [r] may be the array [a]
    or the array [b]: limb [i] of both is read before limb [i] of [r] is
    written, and no limb below [i] is read again. *)
Fixpoint sub_loop1 (a b r : list Z) (i : Z) (todo : nat) (c : Z)
  : res (list Z * Z) :=
  match todo with
  | O => Ok (r, c)
  | S todo' =>
      ai <- rd a i ;;
      bi <- rd b i ;;
      let z := b2z (ai <? c) in
      let ri := wrap64 (ai - c) in
      let c' := b2z (ri <? bi) + z in
      r1 <- wr r i (wrap64 (ri - bi)) ;;
      sub_loop1 a b r1 (i + 1) todo' c'
  end.

(** Second loop (bignum.c:733-739): the borrow runs on while it is set.
    [room] is [a_end - a]; running past [a_end] ends in
    [BUG_ON(a > a_end)]. *)
Fixpoint sub_loop2 (a r : list Z) (i : Z) (room : nat) (c : Z)
  : res (list Z * Z) :=
  if c =? 0 then Ok (r, i)
  else
    match room with
    | O => Trap
    | S room' =>
        ai <- rd a i ;;
        r1 <- wr r i (wrap64 (ai - c)) ;;
        sub_loop2 a r1 (i + 1) room' (b2z (ai <? c))
    end.

(** bignum.c:718-742 *)
Definition __mpi_sub (a : list Z) (a_len : Z) (b : list Z) (b_len : Z)
    (r : list Z) : res (list Z) :=
  if a_len <? b_len then Trap
  else
    '(r1, c) <- sub_loop1 a b r 0 (Z.to_nat b_len) 0 ;;
    '(r2, i) <- sub_loop2 a r1 b_len (Z.to_nat (a_len - b_len)) c ;;
    Ok (firstn (Z.to_nat i) r2
        ++ memcpy (skipn (Z.to_nat i) r2) (skipn (Z.to_nat i) a)
                  (Z.to_nat (a_len - i))).

(** bignum.c:748-773 *)
Definition ttls_mpi_sub_abs (X A B : TlsMpi) : res TlsMpi :=
  if ttls_mpi_cmp_abs A B <? 0 then Err EINVAL
  else
    let fresh := limbs X <? used A in
    let p0 := if fresh then kmalloc (used A) else p X in
    p1 <- __mpi_sub (p A) (used A) (p B) (used B) p0 ;;
    Ok (mpi_fixup_used
          (mkMpi 1 (used X) (if fresh then used A else limbs X) p1)
          (used A)).

(** bignum.c:778-800 *)
Definition ttls_mpi_add_mpi (d : dest) (A B : TlsMpi) : res TlsMpi :=
  let X := dest_mpi d A B in
  let s0 := s A in
  if s A * s B <? 0 then
    if 0 <=? ttls_mpi_cmp_abs A B then
      X1 <- ttls_mpi_sub_abs X A B ;; Ok (set_s X1 s0)
    else
      X1 <- ttls_mpi_sub_abs X B A ;; Ok (set_s X1 (- s0))
  else
    X1 <- ttls_mpi_add_abs d A B ;; Ok (set_s X1 s0).

(** bignum.c:805-827 *)
Definition ttls_mpi_sub_mpi (d : dest) (A B : TlsMpi) : res TlsMpi :=
  let X := dest_mpi d A B in
  let s0 := s A in
  if 0 <? s A * s B then
    if 0 <=? ttls_mpi_cmp_abs A B then
      X1 <- ttls_mpi_sub_abs X A B ;; Ok (set_s X1 s0)
    else
      X1 <- ttls_mpi_sub_abs X B A ;; Ok (set_s X1 (- s0))
  else
    X1 <- ttls_mpi_add_abs d A B ;; Ok (set_s X1 s0).

(** ** Multiplication *)

(** One [MULADDC_CORE] (bignum.c:869-879): [*d += *s * b + c] with the carry
    out in [c]; the registers are written out. *)
Definition muladdc_core (si di b c : Z) : Z * Z :=
  let rax := wrap64 (si * b) in
  let rdx := Z.shiftr (si * b) 64 in
  let rax1 := wrap64 (rax + c) in
  let rdx1 := wrap64 (rdx + b2z (rax1 <? c)) in
  let di1 := wrap64 (di + rax1) in
  let rcx := wrap64 (rdx1 + b2z (di1 <? rax1)) in
  (di1, rcx).

(** The three unrolled loops of [__mpi_mul] run the core once per limb of
    [s]; [off] is the index of [d] inside its array. *)
Fixpoint mul_core (sl : list Z) (dl : list Z) (off : Z) (b : Z) (i : Z)
    (todo : nat) (c : Z) : res (list Z * Z) :=
  match todo with
  | O => Ok (dl, c)
  | S todo' =>
      si <- rd sl i ;;
      di <- rd dl (off + i) ;;
      let '(di1, c1) := muladdc_core si di b c in
      dl1 <- wr dl (off + i) di1 ;;
      mul_core sl dl1 off b (i + 1) todo' c1
  end.

(** [do { *d += c; c = *d < c; d++; } while (c)] (bignum.c:923-927);
    [room] is the number of limbs from [d] to the end of the array. *)
Fixpoint mul_carry (dl : list Z) (i : Z) (room : nat) (c : Z)
  : res (list Z) :=
  match room with
  | O => Trap
  | S room' =>
      di <- rd dl i ;;
      let v := wrap64 (di + c) in
      dl1 <- wr dl i v ;;
      if v <? c then mul_carry dl1 (i + 1) room' 1 else Ok dl1
  end.

(** bignum.c:890-928, with [d] at index [off] of [dl] *)
Definition __mpi_mul (n : Z) (sl : list Z) (dl : list Z) (off : Z) (b : Z)
  : res (list Z) :=
  '(dl1, c) <- mul_core sl dl off b 0 (Z.to_nat n) 0 ;;
  mul_carry dl1 (off + n) (length dl1 - Z.to_nat (off + n)) c.

(** [for ( ; j > 0; j--) __mpi_mul(i, A->p, X->p + j - 1, B->p[j - 1])] *)
Fixpoint mul_rows (i : Z) (a b x : list Z) (j : nat) : res (list Z) :=
  match j with
  | O => Ok x
  | S j' =>
      bj <- rd b (Z.of_nat j') ;;
      x1 <- __mpi_mul i a x (Z.of_nat j') bj ;;
      mul_rows i a b x1 j'
  end.

(** bignum.c:935-974.  With [X == A] or [X == B] the aliased operand is
    first copied to the temporary [T]. *)
Definition ttls_mpi_mul_mpi (d : dest) (A B : TlsMpi) : res TlsMpi :=
  let X := dest_mpi d A B in
  let i := used A in
  let j := used B in
  '(A, B) <-
    match d with
    | DestA => T <- ttls_mpi_copy ttls_mpi_init A ;; Ok (T, B)
    | DestB => T <- ttls_mpi_copy ttls_mpi_init B ;; Ok (A, T)
    | DestX _ => Ok (A, B)
    end ;;
  X1 <- __mpi_realloc X (i + j) false false ;;
  let x0 := repeat 0 (Z.to_nat (i + j)) ++ skipn (Z.to_nat (i + j)) (p X1) in
  x1 <- mul_rows i (p A) (p B) x0 (Z.to_nat j) ;;
  let X2 := mpi_fixup_used (mkMpi (s X1) (i + j) (limbs X1) x1) (i + j) in
  Ok (set_s X2 (s A * s B)).

(** bignum.c:979-991 *)
Definition ttls_mpi_mul_uint (d : dest) (A : TlsMpi) (b : Z) : res TlsMpi :=
  ttls_mpi_mul_mpi d A (mkMpi 1 1 1 [b]).

(** ** Division *)

(** The correction loop of [ttls_int_div_int] (bignum.c:1037-1042 and
    1048-1053) on [(q, r0)]. *)
Definition div_adjust (d0 d1 u : Z) (st : Z * Z) : res (Z * Z + Z * Z) :=
  let radix := 2 ^ BIH in
  let '(q, r0) := st in
  if (radix <=? q) || (wrap64 (radix * r0 + u) <? wrap64 (q * d0)) then
    let q' := wrap64 (q - 1) in
    let r0' := wrap64 (r0 + d1) in
    if radix <=? r0' then Ok (inr (q', r0')) else Ok (inl (q', r0'))
  else Ok (inr (q, r0)).

(** bignum.c:997-1059: the quotient and the value stored through [r]. *)
Definition ttls_int_div_int (u1 u0 d : Z) : res (Z * Z) :=
  let radix := 2 ^ BIH in
  let uint_halfword_mask := 2 ^ BIH - 1 in
  if (d =? 0) || (d <=? u1) then Ok (2 ^ 64 - 1, 2 ^ 64 - 1)
  else
    let sh := BIL - fls64 d in
    let d := wrap64 (Z.shiftl d sh) in
    let u1 := wrap64 (Z.shiftl u1 sh) in
    let u1 := Z.lor u1 (Z.land (Z.shiftr u0 (BIL - sh))
                               (if sh =? 0 then 0 else 2 ^ 64 - 1)) in
    let u0 := wrap64 (Z.shiftl u0 sh) in
    let d1 := Z.shiftr d BIH in
    let d0 := Z.land d uint_halfword_mask in
    let u0_msw := Z.shiftr u0 BIH in
    let u0_lsw := Z.land u0 uint_halfword_mask in
    let q1 := u1 / d1 in
    let r0 := wrap64 (u1 - wrap64 (d1 * q1)) in
    '(q1, _) <- while (div_adjust d0 d1 u0_msw) (q1, r0) ;;
    let rAX := wrap64 (wrap64 (u1 * radix) + wrap64 (u0_msw - wrap64 (q1 * d))) in
    let q0 := rAX / d1 in
    let r0 := wrap64 (rAX - wrap64 (q0 * d1)) in
    '(q0, _) <- while (div_adjust d0 d1 u0_lsw) (q0, r0) ;;
    Ok (wrap64 (wrap64 (q1 * radix) + q0),
        Z.shiftr (wrap64 (wrap64 (rAX * radix) + u0_lsw - wrap64 (q0 * d))) sh).

(** Inside [ttls_mpi_div_mpi] every failure leaves through [cleanup] with
    [r = -ENOMEM]. *)
Definition or_enomem {A : Type} (m : res A) : res A :=
  match m with
  | Err _ => Err ENOMEM
  | _ => m
  end.

(** [while (ttls_mpi_cmp_mpi(&X, &Y) >= 0)] (bignum.c:1139-1143) on
    [(Q->p, X)]. *)
Definition div_presub (Y : TlsMpi) (nt : Z) (st : list Z * TlsMpi)
  : res (list Z * TlsMpi + list Z * TlsMpi) :=
  let '(q, X) := st in
  if 0 <=? ttls_mpi_cmp_mpi X Y then
    qi <- rd q nt ;;
    q1 <- wr q nt (wrap64 (qi + 1)) ;;
    X1 <- or_enomem (ttls_mpi_sub_mpi DestA X Y) ;;
    Ok (inl (q1, X1))
  else Ok (inr (q, X)).

(** The [do ... while (ttls_mpi_cmp_mpi(&T1, &T2) > 0)] of
    bignum.c:1163-1173 on [(Q->p, T1)]; [qi] is the index [i - t - 1]. *)
Definition div_estimate (Y T2 : TlsMpi) (t qi : Z) (st : list Z * TlsMpi)
  : res (list Z * TlsMpi + list Z * TlsMpi) :=
  let '(q, T1) := st in
  qv <- rd q qi ;;
  q1 <- wr q qi (wrap64 (qv - 1)) ;;
  y1 <- (if t <? 1 then Ok 0 else rd (p Y) (t - 1)) ;;
  t0 <- wr (p T1) 0 y1 ;;
  y2 <- rd (p Y) t ;;
  t1 <- wr t0 1 y2 ;;
  let T1a := mpi_fixup_used (mkMpi 1 2 (limbs T1) t1) 2 in
  T1b <- or_enomem (ttls_mpi_mul_uint DestA T1a (wrap64 (qv - 1))) ;;
  if 0 <? ttls_mpi_cmp_mpi T1b T2 then Ok (inl (q1, T1b))
  else Ok (inr (q1, T1b)).

(** The body of [for (i = n; i > t; i--)] (bignum.c:1147-1187) on
    [(Q->p, X, T1)]; [todo] is [i - t]. *)
Fixpoint div_digits (Y : TlsMpi) (t : Z) (todo : nat)
    (st : list Z * TlsMpi * TlsMpi) : res (list Z * TlsMpi * TlsMpi) :=
  match todo with
  | O => Ok st
  | S todo' =>
      let '(q, X, T1) := st in
      let i := t + Z.of_nat todo in
      xi <- rd (p X) i ;;
      yt <- rd (p Y) t ;;
      q0 <- (if yt <=? xi then Ok 0
             else xi1 <- rd (p X) (i - 1) ;;
                  '(qq, _) <- ttls_int_div_int xi xi1 yt ;;
                  Ok (wrap64 (qq + 1))) ;;
      q1 <- wr q (i - t - 1) q0 ;;
      x2 <- (if i <? 2 then Ok 0 else rd (p X) (i - 2)) ;;
      x1 <- (if i <? 1 then Ok 0 else rd (p X) (i - 1)) ;;
      let T2 := mpi_fixup_used (mkMpi 1 0 3 [x2; x1; xi]) 3 in
      '(q2, T1a) <- while (div_estimate Y T2 t (i - t - 1)) (q1, T1) ;;
      qv <- rd q2 (i - t - 1) ;;
      T1b <- or_enomem (ttls_mpi_mul_uint (DestX T1a) Y qv) ;;
      T1c <- or_enomem (ttls_mpi_shift_l T1b (BIL * (i - t - 1))) ;;
      X1 <- or_enomem (ttls_mpi_sub_mpi DestA X T1c) ;;
      if ttls_mpi_cmp_int X1 0 <? 0 then
        T1d <- or_enomem (ttls_mpi_copy T1c Y) ;;
        T1e <- or_enomem (ttls_mpi_shift_l T1d (BIL * (i - t - 1))) ;;
        X2 <- or_enomem (ttls_mpi_add_mpi DestA X1 T1e) ;;
        q3 <- wr q2 (i - t - 1) (wrap64 (qv - 1)) ;;
        div_digits Y t todo' (q3, X2, T1e)
      else div_digits Y t todo' (q2, X1, T1c)
  end.

(** bignum.c:1069-1213.  [Q] and [R] are [None] for NULL; otherwise they
    are objects distinct from [A] and [B], or [R] is [A] itself, which the
    code only writes after its last use of [A]. *)
Definition ttls_mpi_div_mpi (Q R : option TlsMpi) (A B : TlsMpi)
  : res (option TlsMpi * option TlsMpi) :=
  if ttls_mpi_cmp_int B 0 =? 0 then Err EINVAL
  else if ttls_mpi_cmp_int B 1 =? 0 then
    Q1 <- match Q with
          | Some q => q' <- or_enomem (ttls_mpi_copy q A) ;; Ok (Some q')
          | None => Ok None
          end ;;
    R1 <- match R with
          | Some r => r' <- or_enomem (ttls_mpi_lset r 0) ;; Ok (Some r')
          | None => Ok None
          end ;;
    Ok (Q1, R1)
  else if ttls_mpi_cmp_abs A B <? 0 then
    Q1 <- match Q with
          | Some q => q' <- or_enomem (ttls_mpi_lset q 0) ;; Ok (Some q')
          | None => Ok None
          end ;;
    R1 <- match R with
          | Some r => r' <- or_enomem (ttls_mpi_copy r A) ;; Ok (Some r')
          | None => Ok None
          end ;;
    Ok (Q1, R1)
  else
    let Qw := match Q with Some q => q | None => ttls_mpi_init end in
    X <- or_enomem (ttls_mpi_copy ttls_mpi_init A) ;;
    Y <- or_enomem (ttls_mpi_copy ttls_mpi_init B) ;;
    T1 <- or_enomem (__mpi_realloc ttls_mpi_init 2 false false) ;;
    let X := set_s X 1 in
    let Y := set_s Y 1 in
    Qw <- or_enomem (__mpi_realloc Qw (used A) false false) ;;
    let q := repeat 0 (Z.to_nat (used A))
             ++ skipn (Z.to_nat (used A)) (p Qw) in
    yb <- ttls_mpi_bitlen Y ;;
    let k := Z.land yb BMASK in
    '(k, X, Y) <-
      (if k <? BIL - 1 then
         let k := BIL - 1 - k in
         X' <- or_enomem (ttls_mpi_shift_l X k) ;;
         Y' <- or_enomem (ttls_mpi_shift_l Y k) ;;
         Ok (k, X', Y')
       else Ok (0, X, Y)) ;;
    let n := used X - 1 in
    let t := used Y - 1 in
    Y <- or_enomem (ttls_mpi_shift_l Y (BIL * (n - t))) ;;
    '(q, X) <- while (div_presub Y (n - t)) (q, X) ;;
    Y <- or_enomem (ttls_mpi_shift_r Y (BIL * (n - t))) ;;
    '(q, X, T1) <- div_digits Y t (Z.to_nat (n - t)) (q, X, T1) ;;
    let Q1 := match Q with
              | Some _ =>
                  Some (mpi_fixup_used
                          (mkMpi (s A * s B) (used A) (limbs Qw) q) (used A))
              | None => None
              end in
    match R with
    | None => Ok (Q1, None)
    | Some r =>
        X <- or_enomem (ttls_mpi_shift_r X k) ;;
        let X := set_s (mpi_fixup_used X (used X)) (s A) in
        r1 <- or_enomem (ttls_mpi_copy r X) ;;
        let r2 := if ttls_mpi_cmp_int r1 0 =? 0 then set_s r1 1 else r1 in
        Ok (Q1, Some r2)
    end.

(** [while (ttls_mpi_cmp_int(R, 0) < 0)] (bignum.c:1235-1237); the second
    component counts the additions done. *)
Definition mod_fix_neg (B : TlsMpi) (st : TlsMpi * nat)
  : res (TlsMpi * nat + TlsMpi * nat) :=
  let '(R, cnt) := st in
  if ttls_mpi_cmp_int R 0 <? 0 then
    R1 <- ttls_mpi_add_mpi DestA R B ;; Ok (inl (R1, S cnt))
  else Ok (inr (R, cnt)).

(** [while (ttls_mpi_cmp_mpi(R, B) >= 0)] (bignum.c:1239-1241); the second
    component counts the subtractions done. *)
Definition mod_fix_big (B : TlsMpi) (st : TlsMpi * nat)
  : res (TlsMpi * nat + TlsMpi * nat) :=
  let '(R, cnt) := st in
  if 0 <=? ttls_mpi_cmp_mpi R B then
    R1 <- ttls_mpi_sub_mpi DestA R B ;; Ok (inl (R1, S cnt))
  else Ok (inr (R, cnt)).

(** bignum.c:1222-1244, with the number of corrective additions and
    subtractions as a second result.  [R] is distinct from [B]. *)
Definition mod_mpi_counted (R A B : TlsMpi) : res (TlsMpi * nat) :=
  if ttls_mpi_cmp_int B 0 <? 0 then Err EINVAL
  else
    '(_, R1) <- ttls_mpi_div_mpi None (Some R) A B ;;
    match R1 with
    | None => Trap
    | Some R1 =>
        st <- while (mod_fix_neg B) (R1, O) ;;
        while (mod_fix_big B) st
    end.

Definition ttls_mpi_mod_mpi (R A B : TlsMpi) : res TlsMpi :=
  '(R1, _) <- mod_mpi_counted R A B ;; Ok R1.

(** ** Montgomery multiplication *)

(** [for (i = BIL; i >= 8; i /= 2) x *= 2 - (m0 * x)] *)
Fixpoint montg_lift (fuel : nat) (i m0 x : Z) : Z :=
  match fuel with
  | O => x
  | S fuel' =>
      if 8 <=? i
      then montg_lift fuel' (i / 2) m0
                      (wrap64 (x * wrap64 (2 - wrap64 (m0 * x))))
      else x
  end.

(** bignum.c:1249-1262 *)
Definition __mpi_montg_init (N : TlsMpi) : Z :=
  let m0 := nth 0 (p N) 0 in
  let x := wrap64 (m0 + Z.shiftl (Z.land (wrap64 (m0 + 2)) 4) 1) in
  wrap64 (- montg_lift 8 BIL m0 x).

(** The loop of [__mpi_montmul] (bignum.c:1281-1291); [d] is at index [i]
    of [T->p]. *)
Fixpoint montmul_rows (a b nl : list Z) (m n mm : Z) (tl : list Z) (i : Z)
    (todo : nat) : res (list Z) :=
  match todo with
  | O => Ok tl
  | S todo' =>
      u0 <- rd a i ;;
      d0 <- rd tl i ;;
      b0 <- rd b 0 ;;
      let u1 := wrap64 (wrap64 (d0 + wrap64 (u0 * b0)) * mm) in
      t1 <- __mpi_mul m b tl i u0 ;;
      t2 <- __mpi_mul n nl t1 i u1 ;;
      t3 <- wr t2 i u0 ;;
      t4 <- wr t3 (i + 1 + n + 1) 0 ;;
      montmul_rows a b nl m n mm t4 (i + 1) todo'
  end.

(** bignum.c:1267-1307: the new [A] and the scratch [T].  [B] may be [A]
    itself: [A] is written only after the loop has read [B]. *)
Definition __mpi_montmul (A B N : TlsMpi) (mm : Z) (T : TlsMpi)
  : res (TlsMpi * TlsMpi) :=
  if (limbs T <? used N + 1) || is_null (p T) then Trap
  else
    let n := used N in
    let m := if used B <? n then used B else n in
    tl <- montmul_rows (p A) (p B) (p N) m n mm (map (fun _ => 0) (p T)) 0
                       (Z.to_nat n) ;;
    let T1 := mpi_fixup_used (set_p T tl) (limbs T) in
    if Z.of_nat (length (p A)) <? n + 1 then Trap
    else
      let A1 := mpi_fixup_used
                  (set_p A (memcpy (p A) (skipn (Z.to_nat n) tl)
                                   (Z.to_nat (n + 1))))
                  (n + 1) in
      if 0 <=? ttls_mpi_cmp_abs A1 N then
        a' <- __mpi_sub (p A1) (used A1) (p N) (used N) (p A1) ;;
        Ok (mpi_fixup_used (set_p A1 a') (used A1), T1)
      else
        t' <- __mpi_sub (p T1) (used T1) (p A1) (used A1) (p T1) ;;
        Ok (A1, mpi_fixup_used (set_p T1 t') (used T1)).

(** bignum.c:1312-1323 *)
Definition __mpi_montred (A N : TlsMpi) (mm : Z) (T : TlsMpi)
  : res (TlsMpi * TlsMpi) :=
  __mpi_montmul A (mkMpi 1 1 1 [1]) N mm T.

(** ** Modular exponentiation *)

(** The per-cpu window table after [memset(W, 0, ...)]. *)
Definition zero_mpi : TlsMpi := mkMpi 0 0 0 [].

Definition W_init : list TlsMpi :=
  repeat zero_mpi (Z.to_nat (Z.shiftl 1 MPI_W_SZ)).

Definition W_get (W : list TlsMpi) (i : Z) : res TlsMpi :=
  if (0 <=? i) && (i <? Z.of_nat (length W))
  then Ok (nth (Z.to_nat i) W zero_mpi) else Trap.

Fixpoint W_upd (W : list TlsMpi) (i : nat) (v : TlsMpi) : list TlsMpi :=
  match W, i with
  | [], _ => []
  | _ :: t, O => v :: t
  | h :: t, S i' => h :: W_upd t i' v
  end.

Definition W_set (W : list TlsMpi) (i : Z) (v : TlsMpi)
  : res (list TlsMpi) :=
  if (0 <=? i) && (i <? Z.of_nat (length W))
  then Ok (W_upd W (Z.to_nat i) v) else Trap.

(** [for (i = 0; i < k; i++) __mpi_montmul(X, X, N, mm, &T)] *)
Fixpoint montsqr_n (k : nat) (X N : TlsMpi) (mm : Z) (T : TlsMpi)
  : res (TlsMpi * TlsMpi) :=
  match k with
  | O => Ok (X, T)
  | S k' =>
      '(X1, T1) <- __mpi_montmul X X N mm T ;;
      montsqr_n k' X1 N mm T1
  end.

(** [for (i = j + 1; i < (one << wsize); i++)] (bignum.c:1421-1426);
    [todo] entries are left from index [i]. *)
Fixpoint exp_fill_table (W : list TlsMpi) (N : TlsMpi) (mm : Z) (T : TlsMpi)
    (i : Z) (todo : nat) : res (list TlsMpi * TlsMpi) :=
  match todo with
  | O => Ok (W, T)
  | S todo' =>
      Wi <- W_get W i ;;
      Wi1 <- ttls_mpi_grow Wi (used N + 1) ;;
      Wp <- W_get W (i - 1) ;;
      Wi2 <- ttls_mpi_copy Wi1 Wp ;;
      W1 <- W_get W 1 ;;
      '(Wi3, T1) <- __mpi_montmul Wi2 W1 N mm T ;;
      W' <- W_set W i Wi3 ;;
      exp_fill_table W' N mm T1 (i + 1) todo'
  end.

(** The variables of the bit scan of [ttls_mpi_exp_mod]. *)
Record exp_scan := mkScan {
  sc_nblimbs : Z;
  sc_bufsize : Z;
  sc_state : Z;
  sc_nbits : Z;
  sc_wbits : Z;
  sc_X : TlsMpi;
  sc_T : TlsMpi
}.

(** One round of [while (1)] (bignum.c:1430-1473). *)
Definition exp_scan_step (E N : TlsMpi) (W : list TlsMpi) (mm wsize : Z)
    (st : exp_scan) : res (exp_scan + exp_scan) :=
  let nblimbs := sc_nblimbs st in
  let bufsize := sc_bufsize st in
  if (bufsize =? 0) && (nblimbs =? 0) then Ok (inr st)
  else
    let '(nblimbs, bufsize) :=
      if bufsize =? 0 then (nblimbs - 1, BIL) else (nblimbs, bufsize) in
    let bufsize := bufsize - 1 in
    el <- rd (p E) nblimbs ;;
    let ei := Z.land (Z.shiftr el bufsize) 1 in
    if (ei =? 0) && (sc_state st =? 0) then
      Ok (inl (mkScan nblimbs bufsize (sc_state st) (sc_nbits st)
                      (sc_wbits st) (sc_X st) (sc_T st)))
    else if (ei =? 0) && (sc_state st =? 1) then
      '(X1, T1) <- __mpi_montmul (sc_X st) (sc_X st) N mm (sc_T st) ;;
      Ok (inl (mkScan nblimbs bufsize (sc_state st) (sc_nbits st)
                      (sc_wbits st) X1 T1))
    else
      let nbits := sc_nbits st + 1 in
      let wbits := Z.lor (sc_wbits st) (Z.shiftl ei (wsize - nbits)) in
      if nbits =? wsize then
        '(X1, T1) <- montsqr_n (Z.to_nat wsize) (sc_X st) N mm (sc_T st) ;;
        Ww <- W_get W wbits ;;
        '(X2, T2) <- __mpi_montmul X1 Ww N mm T1 ;;
        Ok (inl (mkScan nblimbs bufsize 1 0 0 X2 T2))
      else
        Ok (inl (mkScan nblimbs bufsize 2 nbits wbits (sc_X st) (sc_T st))).

(** [for (i = 0; i < nbits; i++)] (bignum.c:1476-1484) *)
Fixpoint exp_tail (todo : nat) (W1 N : TlsMpi) (mm wsize wbits : Z)
    (X T : TlsMpi) : res (TlsMpi * TlsMpi) :=
  match todo with
  | O => Ok (X, T)
  | S todo' =>
      '(X1, T1) <- __mpi_montmul X X N mm T ;;
      let wbits := wrap64 (Z.shiftl wbits 1) in
      if negb (Z.land wbits (Z.shiftl 1 wsize) =? 0) then
        '(X2, T2) <- __mpi_montmul X1 W1 N mm T1 ;;
        exp_tail todo' W1 N mm wsize wbits X2 T2
      else exp_tail todo' W1 N mm wsize wbits X1 T1
  end.

(** bignum.c:1337-1504: the new [X] and the new [RR].  [X] is an object
    distinct from [A], [E] and [N]. *)
Definition ttls_mpi_exp_mod (X A E N RR : TlsMpi)
  : res (TlsMpi * TlsMpi) :=
  if (ttls_mpi_cmp_int N 0 <=? 0) || (Z.land (nth 0 (p N) 0) 1 =? 0)
  then Err EINVAL
  else if ttls_mpi_cmp_int E 0 <? 0 then Err EINVAL
  else
    let mm := __mpi_montg_init N in
    let T := ttls_mpi_init in
    let Apos := ttls_mpi_init in
    let W := W_init in
    i <- ttls_mpi_bitlen E ;;
    let wsize := if 671 <? i then 6
                 else if 239 <? i then 5
                 else if 79 <? i then 4
                 else if 23 <? i then 3
                 else 1 in
    let j := used N + 1 in
    X <- or_enomem (ttls_mpi_grow X j) ;;
    W1 <- W_get W 1 ;;
    W1 <- or_enomem (__mpi_realloc W1 j false false) ;;
    T <- or_enomem (__mpi_realloc T (j * 2) false false) ;;
    let neg := s A =? -1 in
    A <- (if neg then Apos <- ttls_mpi_copy Apos A ;; Ok (set_s Apos 1)
          else Ok A) ;;
    RR <- (if is_null (p RR) then
             RR1 <- ttls_mpi_lset RR 1 ;;
             RR2 <- ttls_mpi_shift_l RR1 (used N * 2 * BIL) ;;
             ttls_mpi_mod_mpi RR2 RR2 N
           else Ok RR) ;;
    W1 <- (if 0 <=? ttls_mpi_cmp_mpi A N then ttls_mpi_mod_mpi W1 A N
           else ttls_mpi_copy W1 A) ;;
    '(W1, T) <- __mpi_montmul W1 RR N mm T ;;
    W <- W_set W 1 W1 ;;
    X <- ttls_mpi_copy X RR ;;
    '(X, T) <- __mpi_montred X N mm T ;;
    '(W, T) <-
      (if 1 <? wsize then
         let j := Z.shiftl 1 (wsize - 1) in
         Wj <- W_get W j ;;
         Wj <- ttls_mpi_grow Wj (used N + 1) ;;
         Wj <- ttls_mpi_copy Wj W1 ;;
         '(Wj, T) <- montsqr_n (Z.to_nat (wsize - 1)) Wj N mm T ;;
         W <- W_set W j Wj ;;
         exp_fill_table W N mm T (j + 1)
                        (Z.to_nat (Z.shiftl 1 wsize - (j + 1)))
       else Ok (W, T)) ;;
    st <- while (exp_scan_step E N W mm wsize)
                (mkScan (used E) 0 0 0 0 X T) ;;
    '(X, T) <- exp_tail (Z.to_nat (sc_nbits st)) W1 N mm wsize (sc_wbits st)
                        (sc_X st) (sc_T st) ;;
    '(X, T) <- __mpi_montred X N mm T ;;
    X <- (if neg && negb (used E =? 0)
             && negb (Z.land (nth 0 (p E) 0) 1 =? 0)
          then ttls_mpi_add_mpi DestB N (set_s X (-1))
          else Ok X) ;;
    Ok (X, RR).

(** ** Binary import and export *)







(** ** Random fill *)

(** The limb stored in eight consecutive bytes of memory (x86-64). *)
Definition le64 (bs : list Z) : Z :=
  fold_right (fun b acc => Z.lor b (Z.shiftl acc 8)) 0 bs.

(** The first [n] limbs of the memory that holds the bytes [bs]. *)
Fixpoint limbs_of_bytes (bs : list Z) (n : nat) : list Z :=
  match n with
  | O => []
  | S n' => le64 (firstn 8 bs) :: limbs_of_bytes (skipn 8 bs) n'
  end.

(** bignum.c:550-569.  [rnd] is what [ttls_rnd(X->p, size)] writes: [size]
    bytes. *)
Definition ttls_mpi_fill_random (X : TlsMpi) (size : Z) (rnd : list Z)
  : res TlsMpi :=
  let nlimbs := CHARS_TO_LIMBS size in
  let rem := nlimbs * CIL - size in
  if TTLS_MPI_MAX_SIZE <? size then Err EINVAL
  else
    X1 <- __mpi_realloc X nlimbs false false ;;
    let mem := firstn (Z.to_nat size) rnd ++ repeat 0 (Z.to_nat rem) in
    let p1 := limbs_of_bytes mem (Z.to_nat nlimbs)
              ++ skipn (Z.to_nat nlimbs) (p X1) in
    Ok (mkMpi 1 nlimbs (limbs X1) p1).

End Heap.
End Bignum.

(** * Further routines of the MPI library *)

Module BignumMore.
Import Bignum.

(** [__ffs] of [linux/bitops.h]: the index of the least significant set bit
    of a non-zero word. *)
Fixpoint ctz (q : positive) : Z :=
  match q with
  | xO q' => 1 + ctz q'
  | _ => 0
  end.

Definition __ffs (x : Z) : Z :=
  match x with
  | Zpos q => ctz q
  | _ => 0
  end.

(** [memset(&a[i], 0, n * CIL)]; writing past the array traps. *)
Definition memset0 (a : list Z) (i n : Z) : res (list Z) :=
  if (0 <=? i) && (0 <=? n) && (i + n <=? Z.of_nat (length a))
  then Ok (firstn (Z.to_nat i) a ++ repeat 0 (Z.to_nat n)
           ++ skipn (Z.to_nat (i + n)) a)
  else Trap.

(** The scan of [ttls_mpi_lsb] (bignum.c:332-336); [todo] limbs are left
    from index [i]. *)
Fixpoint lsb_scan (a : list Z) (i : Z) (todo : nat) : res Z :=
  match todo with
  | O => Ok 0
  | S todo' =>
      x <- rd a i ;;
      if x =? 0 then lsb_scan a (i + 1) todo'
      else Ok (i * BIL + __ffs x)
  end.

(** bignum.c:327-339 *)
Definition ttls_mpi_lsb (X : TlsMpi) : res Z :=
  lsb_scan (p X) 0 (Z.to_nat (used X)).

(** bignum.c:281-288; [pos] is a [size_t]. *)
Definition ttls_mpi_get_bit (X : TlsMpi) (pos : Z) : res Z :=
  if Z.shiftl (used X) BSHIFT <=? pos then Ok 0
  else
    x <- rd (p X) (Z.shiftr pos BSHIFT) ;;
    Ok (Z.land (Z.shiftr x (Z.land pos BMASK)) 1).



(** [(b | (unsigned char)-b) >> 7] for an [unsigned char] [b]
    (bignum.c:205, 234): 1 for every [b] that is not 0. *)
Definition ct_flag (b : Z) : Z := Z.shiftr (Z.lor b (u8 (- b))) 7.

Section HeapMore.

Variable junk : nat -> Z.
Variable TTLS_MPI_MAX_LIMBS : Z.


(** bignum.c:296-318; [pos] is a [size_t] and [val] an [unsigned char]. *)
Definition ttls_mpi_set_bit (X : TlsMpi) (pos val : Z) : res TlsMpi :=
  let off := Z.shiftr pos BSHIFT in
  let idx := Z.land pos BMASK in
  let beyond := Z.shiftl (used X) BSHIFT <=? pos in
  if beyond && (val =? 0) then Ok X
  else
    X1 <- (if beyond then
             X0 <- (if Z.shiftl (limbs X) BSHIFT <=? pos
                    then or_enomem
                           (ttls_mpi_grow junk TTLS_MPI_MAX_LIMBS X (off + 1))
                    else Ok X) ;;
             p1 <- memset0 (p X0) (used X0) (off - used X0 + 1) ;;
             Ok (mkMpi (s X0) (off + 1) (limbs X0) p1)
           else Ok X) ;;
    x <- rd (p X1) off ;;
    let x1 := Z.land x (wrap64 (Z.lnot (Z.shiftl 1 idx))) in
    p2 <- wr (p X1) off (Z.lor x1 (wrap64 (Z.shiftl val idx))) ;;
    Ok (set_p X1 p2).

(** [for (i = 0; i < Y->used; i++)
      X->p[i] = X->p[i] * (1 - assign) + Y->p[i] * assign]
    (bignum.c:213-214), in [unsigned long] arithmetic. *)
Fixpoint cond_assign_limbs (xp yp : list Z) (assign : Z) (i : Z) (todo : nat)
  : res (list Z) :=
  match todo with
  | O => Ok xp
  | S todo' =>
      x <- rd xp i ;;
      y <- rd yp i ;;
      xp1 <- wr xp i (wrap64 (x * (1 - assign) + y * assign)) ;;
      cond_assign_limbs xp1 yp assign (i + 1) todo'
  end.

(** bignum.c:199-217; [assign] is an [unsigned char]. *)
Definition ttls_mpi_safe_cond_assign (X Y : TlsMpi) (assign : Z)
  : res TlsMpi :=
  let assign := ct_flag assign in
  X1 <- or_enomem (ttls_mpi_grow junk TTLS_MPI_MAX_LIMBS X (used Y)) ;;
  let s1 := s X1 * (1 - assign) + s Y * assign in
  let u1 := used X1 * (1 - assign) + used Y * assign in
  p1 <- cond_assign_limbs (p X1) (p Y) assign 0 (Z.to_nat (used Y)) ;;
  Ok (mkMpi s1 u1 (limbs X1) p1).

(** The loop of [ttls_mpi_safe_cond_swap] (bignum.c:251-255). *)
Fixpoint cond_swap_limbs (xp yp : list Z) (swap : Z) (i : Z) (todo : nat)
  : res (list Z * list Z) :=
  match todo with
  | O => Ok (xp, yp)
  | S todo' =>
      tmp <- rd xp i ;;
      y <- rd yp i ;;
      xp1 <- wr xp i (wrap64 (tmp * (1 - swap) + y * swap)) ;;
      yp1 <- wr yp i (wrap64 (y * (1 - swap) + tmp * swap)) ;;
      cond_swap_limbs xp1 yp1 swap (i + 1) todo'
  end.

(** bignum.c:225-258 for two distinct objects ([X == Y] returns at once);
    [swap] is an [unsigned char]. *)
Definition ttls_mpi_safe_cond_swap (X Y : TlsMpi) (swap : Z)
  : res (TlsMpi * TlsMpi) :=
  let swap := ct_flag swap in
  X1 <- or_enomem (ttls_mpi_grow junk TTLS_MPI_MAX_LIMBS X (used Y)) ;;
  Y1 <- or_enomem (ttls_mpi_grow junk TTLS_MPI_MAX_LIMBS Y (used X1)) ;;
  let sx := s X1 * (1 - swap) + s Y1 * swap in
  let sy := s Y1 * (1 - swap) + s X1 * swap in
  let ux := used X1 * (1 - swap) + used Y1 * swap in
  let uy := used Y1 * (1 - swap) + used X1 * swap in
  let n := if ux <? uy then uy else ux in
  '(xp, yp) <- cond_swap_limbs (p X1) (p Y1) swap 0 (Z.to_nat n) ;;
  Ok (mkMpi sx ux (limbs X1) xp, mkMpi sy uy (limbs Y1) yp).





End HeapMore.

End BignumMore.

(** * Further routines of the handshake parser *)

Module TlsSrvMore.
Import TlsSrv.

Definition TTLS_ECP_DP_MAX : Z := 12.   (* ecp.h:100 *)

Definition set_curves_ext (h : TlsHandshake) (v : Z) : TlsHandshake :=
  mkHs (randbytes h) (css h) (cs_total_len h) (cs_cur_len h)
       (secure_renegotiation h) (extended_ms h) (cli_exts h) v
       (resume h) (new_session_ticket h) (point_format h) (premaster h)
       (pmslen h).

(** ** The supported curves extension (tls_srv.c:178-225) *)
Section SupportedCurves.

(** [ttls_ecp_curve_info_from_tls_id] (ecp.h:265) looks a TLS id up in the
    curve table of [ecp.c]; [None] is its NULL. *)
Variable TlsEcpCurveInfo : Type.
Variable ttls_ecp_curve_info_from_tls_id : Z -> option TlsEcpCurveInfo.

(** [curves[c] = ci] *)
Fixpoint curves_upd (l : list (option TlsEcpCurveInfo)) (c : nat)
    (ci : TlsEcpCurveInfo) : list (option TlsEcpCurveInfo) :=
  match l, c with
  | [], _ => []
  | _ :: l', O => Some ci :: l'
  | x :: l', S c' => x :: curves_upd l' c' ci
  end.

(** [tls->hs->curves] is kept beside the context, as the array it is; [buf]
    holds the bytes from the pointer [buf] to the end of the object it points
    into, of which the first [len] are the extension. *)
Inductive curves_result :=
| CurvesRet (r : retcode) (tls : TlsCtx)
            (curves : list (option TlsEcpCurveInfo))
| CurvesReadPast      (* a byte read lies past the object *)
| CurvesWritePast.    (* [curves[c]] lies past the array *)

(** [for (c = i = 0, p = buf + 2; i < list_size; ++i)] (tls_srv.c:215-222);
    [todo] is [list_size - i]. *)
Fixpoint curves_scan (todo : nat) (p : list Z)
    (curves : list (option TlsEcpCurveInfo)) (c : nat)
  : option (option (list (option TlsEcpCurveInfo))) :=
  match todo with
  | O => Some (Some curves)
  | S todo' =>
      match p with
      | p0 :: p1 :: p' =>
          match ttls_ecp_curve_info_from_tls_id
                  (u16 (Z.lor (Z.shiftl p0 8) p1)) with
          | Some ci =>
              if (c <? length curves)%nat
              then curves_scan todo' p' (curves_upd curves c ci) (S c)
              else Some None
          | None => curves_scan todo' p' curves c
          end
      | _ => None
      end
  end.

Definition ttls_parse_supported_elliptic_curves (tls : TlsCtx)
    (curves : list (option TlsEcpCurveInfo)) (buf : list Z) (len : Z)
  : curves_result :=
  let bad :=
    CurvesRet TTLS_ERR_BAD_HS_CLIENT_HELLO
              (ttls_send_alert tls TTLS_ALERT_LEVEL_FATAL
                               TTLS_ALERT_MSG_DECODE_ERROR)
              curves in
  if len <? 2 then bad
  else
    match buf with
    | b0 :: b1 :: p =>
        let list_size := Z.lor (Z.shiftl b0 8) b1 in
        if negb (list_size + 2 =? len) || negb (list_size mod 2 =? 0)
        then bad
        else if negb (curves_ext (hs tls) =? 0) then bad
        else
          let tls1 := set_hs tls (set_curves_ext (hs tls) 1) in
          let list_size :=
            if TTLS_ECP_DP_MAX <? list_size / 2 + 1
            then TTLS_ECP_DP_MAX - 1 else list_size in
          match curves_scan (Z.to_nat list_size) p curves 0 with
          | Some (Some curves1) => CurvesRet T_OK tls1 curves1
          | Some None => CurvesWritePast
          | None => CurvesReadPast
          end
    | _ => CurvesReadPast
    end.

End SupportedCurves.

End TlsSrvMore.

(** * Arrays as lists *)

Module ListFacts.

Lemma upd_length : forall l i v, length (upd l i v) = length l.
Proof. induction l; destruct i; simpl; auto. Qed.

Lemma nth_upd_same : forall l i v d,
  (i < length l)%nat -> nth i (upd l i v) d = v.
Proof.
  induction l; destruct i; simpl; intros; try lia; auto.
  apply IHl; lia.
Qed.

Lemma nth_upd_other : forall l i j v d,
  i <> j -> nth j (upd l i v) d = nth j l d.
Proof.
  induction l; destruct i, j; simpl; intros; try congruence; auto.
Qed.

Lemma firstn_upd_ge : forall l i v n,
  (n <= i)%nat -> firstn n (upd l i v) = firstn n l.
Proof.
  induction l; destruct i, n; simpl; intros; try lia; auto.
  f_equal. apply IHl. lia.
Qed.

Lemma firstn_snoc_nth : forall (l : list Z) i d,
  (i < length l)%nat -> firstn (S i) l = firstn i l ++ [nth i l d].
Proof.
  induction l as [|a l IH]; intros i d Hi; [cbn in Hi; lia|].
  destruct i as [|i]; [reflexivity|].
  cbn [firstn nth app]. f_equal. apply IH. cbn [length] in Hi. lia.
Qed.

Lemma nth_firstn_lt : forall (l : list Z) n i d,
  (i < n)%nat -> nth i (firstn n l) d = nth i l d.
Proof.
  induction l as [|a l IH]; intros n i d Hi.
  - rewrite firstn_nil. reflexivity.
  - destruct n as [|n]; [lia|]. destruct i as [|i]; [reflexivity|].
    cbn [firstn nth]. apply IH. lia.
Qed.


Lemma Forall_upd : forall (P : Z -> Prop) l i v,
  Forall P l -> P v -> Forall P (upd l i v).
Proof.
  intros P l i v H Hv. revert i.
  induction H as [|x t Hx Ht IH]; intros [|i]; cbn [upd];
    constructor; auto.
Qed.

End ListFacts.

(** * Properties of the handshake parser *)

Module TlsSrvProofs.
Import TlsSrv TlsSrvMore ListFacts.

(** ** Supported point formats *)

(** The first entry of a format list that the handler recognises. *)
Definition first_known_format (l : list Z) : option Z :=
  find (fun f => (f =? TTLS_ECP_PF_UNCOMPRESSED)
                 || (f =? TTLS_ECP_PF_COMPRESSED)) l.

Lemma point_formats_scan_find : forall l n,
  (length l <= n)%nat -> point_formats_scan n l = first_known_format l.
Proof.
  induction l as [|f l IH]; intros n Hn.
  - destruct n; reflexivity.
  - destruct n; simpl in Hn; [lia|].
    simpl. unfold first_known_format in *. simpl.
    destruct ((f =? TTLS_ECP_PF_UNCOMPRESSED) || (f =? TTLS_ECP_PF_COMPRESSED));
      [reflexivity|].
    apply IH. lia.
Qed.

(** A well-formed extension body: a length byte followed by exactly that
    many format bytes. *)
Definition point_formats_wf (buf : list Z) : Prop :=
  buf <> [] /\ nth 0 buf 0 + 1 = Z.of_nat (length buf).

(** The claim as the specification words it. *)
Definition point_formats_prefers_uncompressed : Prop :=
  forall tls buf,
    point_formats_wf buf ->
    In TTLS_ECP_PF_UNCOMPRESSED (tl buf) ->
    point_format (hs (snd (ttls_parse_supported_point_formats tls buf)))
    = TTLS_ECP_PF_UNCOMPRESSED.

Definition tls0 : TlsCtx :=
  mkTls 0 0 (mkConf 3 None false) (mkSess 0 (repeat 0 32%nat) 0 [])
        (mkHs (repeat 0 32%nat) (repeat 0 4%nat) 0 0 0 0 0 0 0 0 0
              (repeat 0 48%nat) 0)
        (mkIO TTLS_HS_CLIENT_HELLO 100 0) TTLS_CH_HS_VER [].

(** C5, counterexample: a client that offers the compressed format before
    the uncompressed one gets the compressed format selected. *)
Lemma point_formats_compressed_first :
  ~ point_formats_prefers_uncompressed.
Proof.
  intro H.
  specialize (H tls0 [2; TTLS_ECP_PF_COMPRESSED; TTLS_ECP_PF_UNCOMPRESSED]).
  assert (Hwf : point_formats_wf
                  [2; TTLS_ECP_PF_COMPRESSED; TTLS_ECP_PF_UNCOMPRESSED])
    by (split; [discriminate | reflexivity]).
  specialize (H Hwf (or_intror (or_introl eq_refl))).
  vm_compute in H. discriminate H.
Qed.

(** C5, as amended: on a non-empty well-formed list the handler never fails
    and raises no alert; it selects the first offered format that is the
    uncompressed or the compressed one, and leaves the format unchanged when
    the list holds neither. *)
Theorem point_formats_first_known :
  forall tls buf,
    point_formats_wf buf ->
    exists tls',
      ttls_parse_supported_point_formats tls buf = (T_OK, tls')
      /\ alerts tls' = alerts tls
      /\ cli_exts (hs tls') = 1
      /\ point_format (hs tls')
         = match first_known_format (tl buf) with
           | Some f => f
           | None => point_format (hs tls)
           end.
Proof.
  intros tls buf [Hne Hlen].
  unfold ttls_parse_supported_point_formats.
  destruct buf as [|b0 rest]; [congruence|].
  cbn [nth] in *. cbn [length tl] in *.
  replace (Z.of_nat (S (length rest)) =? 0) with false
    by (symmetry; apply Z.eqb_neq; lia).
  replace (b0 + 1 =? Z.of_nat (S (length rest))) with true
    by (symmetry; apply Z.eqb_eq; lia).
  cbn [orb negb].
  rewrite point_formats_scan_find by lia.
  destruct (first_known_format rest); eexists; repeat split; reflexivity.
Qed.

Lemma point_formats_first_known_witness :
  exists tls',
    ttls_parse_supported_point_formats tls0 [1; 7] = (T_OK, tls')
    /\ alerts tls' = alerts tls0
    /\ cli_exts (hs tls') = 1
    /\ point_format (hs tls')
       = match first_known_format (tl [1; 7]) with
         | Some f => f
         | None => point_format (hs tls0)
         end.
Proof.
  apply (point_formats_first_known tls0 [1; 7]).
  split; [discriminate | reflexivity].
Defined.

(** ** Session ticket *)

(** The ticket callbacks are configured and the ticket is not empty, so
    [f_ticket_parse] is run on the body. *)
Definition ticket_parsed (tls : TlsCtx) (buf : list Z) (r : Z)
    (session : TlsSess) : Prop :=
  exists parse,
    f_ticket_parse (conf tls) = Some parse
    /\ f_ticket_write (conf tls) = true
    /\ buf <> []
    /\ parse buf = (r, session).

Lemma memcpy_firstn : forall dst src n,
  (n <= length src)%nat -> firstn n (memcpy dst src n) = firstn n src.
Proof.
  intros. unfold memcpy.
  rewrite firstn_app, firstn_firstn, Nat.min_id.
  rewrite length_firstn, Nat.min_l by lia.
  rewrite Nat.sub_diag. simpl. apply app_nil_r.
Qed.

(** The handler always returns success.  When [f_ticket_parse] rejects
    the body the session is untouched, [resume] keeps its value (0 in a
    fresh handshake) and [new_session_ticket] is set.  When it accepts, the
    session becomes the one of the ticket with the id length and id bytes the
    context held, [resume] is 1 and [new_session_ticket] is 0.  The session
    and [resume] change in no other case. *)
Lemma session_ticket_ext_spec :
  forall tls buf,
    exists tls',
      ttls_parse_session_ticket_ext tls buf = (T_OK, tls')
      /\ alerts tls' = alerts tls
      /\ (forall r session,
            ticket_parsed tls buf r session -> r <> 0 ->
            sess tls' = sess tls
            /\ resume (hs tls') = resume (hs tls)
            /\ new_session_ticket (hs tls') = 1)
      /\ (forall session,
            ticket_parsed tls buf 0 session ->
            (0 <= id_len (sess tls) <= Z.of_nat (length (id (sess tls)))) ->
            id_len (sess tls') = id_len (sess tls)
            /\ firstn (Z.to_nat (id_len (sess tls))) (id (sess tls'))
               = firstn (Z.to_nat (id_len (sess tls))) (id (sess tls))
            /\ ciphersuite (sess tls') = ciphersuite session
            /\ sess_rest (sess tls') = sess_rest session
            /\ resume (hs tls') = 1
            /\ new_session_ticket (hs tls') = 0)
      /\ ((forall session, ~ ticket_parsed tls buf 0 session) ->
          sess tls' = sess tls /\ resume (hs tls') = resume (hs tls)).
Proof.
  intros tls buf.
  unfold ttls_parse_session_ticket_ext, ticket_parsed.
  destruct (f_ticket_parse (conf tls)) as [parse|] eqn:Hp.
  2:{ exists tls. split; [reflexivity|]. split; [reflexivity|].
      split; [|split].
      - intros r s1 (q & Hq & _); discriminate.
      - intros s1 (q & Hq & _); discriminate.
      - auto. }
  destruct (f_ticket_write (conf tls)) eqn:Hw; cbn [negb].
  2:{ exists tls. split; [reflexivity|]. split; [reflexivity|].
      split; [|split].
      - intros r s1 (q & _ & Hq & _); discriminate.
      - intros s1 (q & _ & Hq & _); discriminate.
      - auto. }
  destruct buf as [|b buf'].
  { cbn [length Z.of_nat Z.eqb]. eexists. split; [reflexivity|].
    split; [reflexivity|]. split; [|split].
    - intros r s1 (q & _ & _ & Hq & _); congruence.
    - intros s1 (q & _ & _ & Hq & _); congruence.
    - intros _. cbn. auto. }
  replace (Z.of_nat (length (b :: buf')) =? 0) with false
    by (symmetry; apply Z.eqb_neq; cbn [length]; lia).
  destruct (parse (b :: buf')) as [r session] eqn:Hres.
  destruct (Z.eqb_spec r 0) as [Hr|Hr]; cbn [negb].
  - subst r. eexists. split; [reflexivity|].
    split; [reflexivity|]. split; [|split].
    + intros r s1 (q & Hq & _ & _ & Hqr) Hne.
      assert (q = parse) by congruence. subst q.
      rewrite Hres in Hqr. congruence.
    + intros s1 (q & Hq & _ & _ & Hqr) Hid.
      assert (q = parse) by congruence. subst q.
      rewrite Hres in Hqr. inversion Hqr; subst s1.
      cbn. repeat split; auto.
      apply memcpy_firstn. lia.
    + intros Hno. exfalso. apply (Hno session).
      exists parse. repeat split; auto. discriminate.
  - eexists. split; [reflexivity|].
    split; [reflexivity|]. split; [|split].
    + intros r1 s1 _ _. cbn. auto.
    + intros s1 (q & Hq & _ & _ & Hqr) _.
      assert (q = parse) by congruence. subst q.
      rewrite Hres in Hqr. congruence.
    + intros _. cbn. auto.
Qed.

(** ** The session id across the ClientHello parser *)

(** The context a state body leaves holds the session id bytes [i]. *)
Definition next_id (nx : ch_next) (i : list Z) : Prop :=
  match nx with
  | Jmp _ e' | Exit _ e' => id (sess (e_tls e')) = i
  | Ret _ tls' => id (sess tls') = i
  | Bug | Fault => True
  end.

Lemma move_id : forall st e i,
  id (sess (e_tls e)) = i -> next_id (TTLS_HS_FSM_MOVE st e) i.
Proof.
  intros st e i H. unfold TTLS_HS_FSM_MOVE. cbn.
  destruct (e_p e); exact H.
Qed.

Lemma check_scsvs_id : forall tls v,
  id (sess (snd (ttls_check_scsvs tls v))) = id (sess tls).
Proof.
  intros tls v. unfold ttls_check_scsvs.
  destruct (v =? TTLS_FALLBACK_SCSV_VALUE);
    [destruct (minor tls <? max_minor_ver (conf tls)); reflexivity|].
  destruct (v =? TTLS_EMPTY_RENEGOTIATION_INFO); reflexivity.
Qed.

Lemma read_u16_field_id : forall st e get set,
  (forall t v, id (sess (set t v)) = id (sess t)) ->
  match read_u16_field st e get set with
  | inl nx => next_id nx (id (sess (e_tls e)))
  | inr e1 => id (sess (e_tls e1)) = id (sess (e_tls e))
  end.
Proof.
  intros st e get set Hset. unfold read_u16_field.
  destruct (negb (rlen (io_in (e_tls e)) =? 0)).
  - destruct (e_p e); cbn; [exact I | apply Hset].
  - destruct (e_p e) as [|b0 [|b1 rest]]; cbn; [exact I | apply Hset ..].
Qed.

Lemma ch_step_id : forall css_max st e,
  next_id (ch_step css_max st e) (id (sess (e_tls e))).
Proof.
  intros css_max st e. destruct st; cbn [ch_step].
  - unfold st_ver.
    destruct (2 <=? rlen (io_in (e_tls e))); [exact I|].
    destruct (negb (rlen (io_in (e_tls e)) =? 0)).
    + destruct (e_p e); [exact I|].
      match goal with |- context [if ?b then _ else _] => destruct b end;
        [reflexivity | apply move_id; reflexivity].
    + destruct (e_p e) as [|b0 [|b1 rest]]; [exact I | reflexivity |].
      match goal with |- context [if ?b then _ else _] => destruct b end;
        [reflexivity | apply move_id; reflexivity].
  - unfold st_rnd.
    destruct (32 <=? rlen (io_in (e_tls e))); [exact I|].
    match goal with |- context [if ?b then _ else _] => destruct b end;
      [reflexivity | apply move_id; reflexivity].
  - unfold st_slen. destruct (e_p e) as [|n rest]; [exact I|].
    match goal with |- context [if ?b then _ else _] => destruct b end;
      [reflexivity|].
    destruct (negb (n =? 0)); apply move_id; reflexivity.
  - unfold st_sess.
    destruct (id_len (sess (e_tls e)) <=? rlen (io_in (e_tls e)));
      [exact I|].
    match goal with |- context [if ?b then _ else _] => destruct b end;
      [reflexivity | apply move_id; reflexivity].
  - unfold st_cslen.
    destruct (2 <=? rlen (io_in (e_tls e))); [exact I|].
    pose proof (read_u16_field_id TTLS_CH_HS_CSLEN e
                  (fun tls => cs_total_len (hs tls))
                  (fun tls v => set_hs tls (set_cs_total_len (hs tls) v))
                  (fun _ _ => eq_refl)) as H.
    destruct (read_u16_field _ _ _ _) as [nx|e1]; [exact H|].
    match goal with |- context [if ?b then _ else _] => destruct b end;
      [exact H | apply move_id; exact H].
  - unfold st_cs.
    destruct (2 <=? rlen (io_in (e_tls e))); [exact I|].
    destruct (sizeof_css css_max <=? cs_cur_len (hs (e_tls e)));
      [apply move_id; reflexivity|].
    set (slot := Z.to_nat (cs_cur_len (hs (e_tls e)) / 2)).
    pose proof (read_u16_field_id TTLS_CH_HS_CS e
                  (fun tls => nth slot (css (hs tls)) 0)
                  (fun tls v => set_hs tls (set_css (hs tls)
                                              (upd (css (hs tls)) slot v)))
                  (fun _ _ => eq_refl)) as H.
    destruct (read_u16_field _ _ _ _) as [nx|e1]; [exact H|].
    pose proof (check_scsvs_id (e_tls e1) (nth slot (css (hs (e_tls e1))) 0))
      as Hc.
    destruct (ttls_check_scsvs _ _) as [r tls1]. cbn [snd] in Hc.
    destruct r; try (cbn; congruence).
    match goal with |- context [if ?b then _ else _] => destruct b end;
      apply move_id; cbn; congruence.
  - unfold st_cs_skip.
    match goal with |- context [if ?b then _ else _] => destruct b end;
      apply move_id; reflexivity.
  - reflexivity.
Qed.

(** The context one call of the parser leaves. *)
Definition result_tls (r : ch_result) : option TlsCtx :=
  match r with
  | Returned _ tls | Postponed tls _ => Some tls
  | Compression e => Some (e_tls e)
  | Crashed | Unfinished => None
  end.

Lemma ch_run_id : forall css_max fuel st e tls1,
  result_tls (ch_run css_max fuel st e) = Some tls1 ->
  id (sess tls1) = id (sess (e_tls e)).
Proof.
  intros css_max fuel. induction fuel as [|fuel IH]; intros st e tls1 H.
  - destruct st; cbn in H; try discriminate H. congruence.
  - destruct st;
      try (cbn [ch_run] in H;
           match type of H with
           | context [ch_step _ ?s _] =>
               pose proof (ch_step_id css_max s e) as Hs;
               destruct (ch_step css_max s e) as [st' e'|st' e'|r t| |];
               cbn [next_id] in Hs;
               [rewrite (IH _ _ _ H); exact Hs
               | cbn in H; injection H as <-; exact Hs
               | cbn in H; injection H as <-; exact Hs
               | discriminate H | discriminate H]
           end).
    cbn in H. congruence.
Qed.

Lemma parse_client_hello_id : forall css_max tls hello tls1,
  result_tls (ttls_parse_client_hello css_max tls hello) = Some tls1 ->
  id (sess tls1) = id (sess tls).
Proof.
  intros css_max tls hello tls1 H. unfold ttls_parse_client_hello in H.
  destruct (negb (hstype (io_in tls) =? TTLS_HS_CLIENT_HELLO)).
  - cbn in H. congruence.
  - apply (ch_run_id _ _ _ _ _ H).
Qed.

(** C7: a session ticket that fails to parse is not fatal, and a ticket
    that parses restores the session, but not with the session id the client
    sent.  After any call of [ttls_parse_client_hello], from any sub-state
    and on any bytes, [tls->sess.id] holds what it held before: the state
    [TTLS_CH_HS_SESS] compares the id of the client with it and stores
    nothing (tls_srv.c:716).  [ttls_parse_session_ticket_ext] then always
    returns 0 and raises no alert.  When [f_ticket_parse] rejects the body,
    the session is untouched, [resume] keeps its value and
    [new_session_ticket] is 1.  When it accepts, the session is the one of
    the ticket, [resume] is 1, [new_session_ticket] is 0, the id length is
    the one the client sent, and the id bytes are those the context held
    before the ClientHello was parsed.  The session and [resume] change in
    no other case. *)
Theorem session_ticket_restores_stale_session_id :
  forall css_max tls hello tls1 buf,
    result_tls (ttls_parse_client_hello css_max tls hello) = Some tls1 ->
    id (sess tls1) = id (sess tls)
    /\ exists tls',
         ttls_parse_session_ticket_ext tls1 buf = (T_OK, tls')
         /\ alerts tls' = alerts tls1
         /\ (forall r session,
               ticket_parsed tls1 buf r session -> r <> 0 ->
               sess tls' = sess tls1
               /\ resume (hs tls') = resume (hs tls1)
               /\ new_session_ticket (hs tls') = 1)
         /\ (forall session,
               ticket_parsed tls1 buf 0 session ->
               (0 <= id_len (sess tls1)
                  <= Z.of_nat (length (id (sess tls)))) ->
               id_len (sess tls') = id_len (sess tls1)
               /\ firstn (Z.to_nat (id_len (sess tls1))) (id (sess tls'))
                  = firstn (Z.to_nat (id_len (sess tls1))) (id (sess tls))
               /\ ciphersuite (sess tls') = ciphersuite session
               /\ sess_rest (sess tls') = sess_rest session
               /\ resume (hs tls') = 1
               /\ new_session_ticket (hs tls') = 0)
         /\ ((forall session, ~ ticket_parsed tls1 buf 0 session) ->
             sess tls' = sess tls1
             /\ resume (hs tls') = resume (hs tls1)).
Proof.
  intros css_max tls hello tls1 buf Hrun.
  pose proof (parse_client_hello_id css_max tls hello tls1 Hrun) as Hid.
  split; [exact Hid|].
  destruct (session_ticket_ext_spec tls1 buf)
    as (tls' & Hr & Ha & Hfail & Hok & Hno).
  exists tls'. split; [exact Hr|]. split; [exact Ha|].
  split; [exact Hfail|]. split; [|exact Hno].
  intros session Hp Hlen. rewrite <- Hid in Hlen |- *.
  apply (Hok session Hp Hlen).
Qed.

(** A ClientHello with the session id [AA BB CC DD] and one cipher suite,
    for a server whose ticket callback accepts every ticket. *)
Definition hello_with_id : list Z :=
  [3; 3] ++ repeat 7 32%nat ++ [4; 0xAA; 0xBB; 0xCC; 0xDD]
  ++ [0; 2; 0; 0x9C] ++ [1; 0].

Definition ticket_session : TlsSess := mkSess 0 (repeat 0 32%nat) 0x9C [1; 2; 3].

Definition tls_with_tickets : TlsCtx :=
  mkTls 0 0 (mkConf 3 (Some (fun _ => (0, ticket_session))) true)
        (mkSess 0 (repeat 0 32%nat) 0 [])
        (mkHs (repeat 0 32%nat) (repeat 0 4%nat) 0 0 0 0 0 0 0 0 0
              (repeat 0 48%nat) 0)
        (mkIO TTLS_HS_CLIENT_HELLO 100 0) TTLS_CH_HS_VER [].

Definition tls_after_hello : TlsCtx :=
  match result_tls (ttls_parse_client_hello 4 tls_with_tickets hello_with_id)
  with
  | Some t => t
  | None => tls_with_tickets
  end.

Lemma session_ticket_restores_stale_session_id_witness :
  id (sess tls_after_hello) = id (sess tls_with_tickets)
  /\ exists tls',
       ttls_parse_session_ticket_ext tls_after_hello [1] = (T_OK, tls')
       /\ alerts tls' = alerts tls_after_hello
       /\ (forall r session,
             ticket_parsed tls_after_hello [1] r session -> r <> 0 ->
             sess tls' = sess tls_after_hello
             /\ resume (hs tls') = resume (hs tls_after_hello)
             /\ new_session_ticket (hs tls') = 1)
       /\ (forall session,
             ticket_parsed tls_after_hello [1] 0 session ->
             (0 <= id_len (sess tls_after_hello)
                <= Z.of_nat (length (id (sess tls_with_tickets)))) ->
             id_len (sess tls') = id_len (sess tls_after_hello)
             /\ firstn (Z.to_nat (id_len (sess tls_after_hello)))
                       (id (sess tls'))
                = firstn (Z.to_nat (id_len (sess tls_after_hello)))
                         (id (sess tls_with_tickets))
             /\ ciphersuite (sess tls') = ciphersuite session
             /\ sess_rest (sess tls') = sess_rest session
             /\ resume (hs tls') = 1
             /\ new_session_ticket (hs tls') = 0)
       /\ ((forall session, ~ ticket_parsed tls_after_hello [1] 0 session) ->
           sess tls' = sess tls_after_hello
           /\ resume (hs tls') = resume (hs tls_after_hello)).
Proof.
  apply (session_ticket_restores_stale_session_id 4 tls_with_tickets
           hello_with_id tls_after_hello [1]).
  vm_compute. reflexivity.
Defined.

(** The run of the example: the parser reaches the compression methods with
    the id length 4 of the client, the ticket is accepted, and the session
    that is resumed has the id [00 00 00 00], not [AA BB CC DD]. *)
Lemma resumed_session_id_is_not_the_clients :
  exists e tls',
    ttls_parse_client_hello 4 tls_with_tickets hello_with_id = Compression e
    /\ e_p e = [1; 0]
    /\ id_len (sess (e_tls e)) = 4
    /\ ttls_parse_session_ticket_ext (e_tls e) [1] = (T_OK, tls')
    /\ resume (hs tls') = 1
    /\ new_session_ticket (hs tls') = 0
    /\ id_len (sess tls') = 4
    /\ firstn 4 (id (sess tls')) = [0; 0; 0; 0]
    /\ firstn 4 (skipn 35 hello_with_id) = [0xAA; 0xBB; 0xCC; 0xDD].
Proof.
  eexists. eexists.
  split; [vm_compute; reflexivity|].
  split; [reflexivity|]. split; [reflexivity|].
  split; [vm_compute; reflexivity|].
  repeat split.
Qed.

(** ** Protocol version *)

(** What a version rejection leaves behind: the alert, and neither the
    handshake state nor the session touched. *)
Definition version_rejected (tls tls' : TlsCtx) : Prop :=
  alerts tls' = alerts tls
                ++ [(TTLS_ALERT_LEVEL_FATAL, TTLS_ALERT_MSG_PROTOCOL_VERSION)]
  /\ hs tls' = hs tls
  /\ sess tls' = sess tls.

Lemma version_test : forall a b,
  a <> TTLS_MAJOR_VERSION_3 \/ b <> TTLS_MINOR_VERSION_3 ->
  negb (a =? TTLS_MAJOR_VERSION_3) || negb (b =? TTLS_MINOR_VERSION_3) = true.
Proof.
  intros a b [H|H].
  - apply Z.eqb_neq in H. rewrite H. reflexivity.
  - apply Z.eqb_neq in H. rewrite H. apply orb_true_r.
Qed.

(** One round of the state machine. *)
Lemma ch_run_step : forall css_max fuel st e,
  st <> TTLS_CH_HS_COMPN ->
  ch_run css_max (S fuel) st e
  = match ch_step css_max st e with
    | Jmp st' e' => ch_run css_max fuel st' e'
    | Exit st' e' =>
        let '(tls, rd) := TTLS_HS_FSM_FINISH st' e' in Postponed tls rd
    | Ret r tls => Returned r tls
    | Bug | Fault => Crashed
    end.
Proof. intros. destruct st; try congruence; reflexivity. Qed.

Lemma fuel_succ : forall (buf : list Z),
  (2 * length buf + 8 = S (2 * length buf + 7))%nat.
Proof. intros. lia. Qed.

Lemma st_ver_two_bytes : forall tls a b rest o so,
  rlen (io_in tls) = 0 ->
  a <> TTLS_MAJOR_VERSION_3 \/ b <> TTLS_MINOR_VERSION_3 ->
  st_ver (mkEnv tls (a :: b :: rest) o so)
  = Ret TTLS_ERR_BAD_HS_PROTOCOL_VERSION
        (ttls_send_alert (sub_hslen (set_minor (set_major tls a) b) 2)
                         TTLS_ALERT_LEVEL_FATAL
                         TTLS_ALERT_MSG_PROTOCOL_VERSION).
Proof.
  intros tls a b rest o so Hr Hver. unfold st_ver.
  cbn [e_tls e_p]. rewrite Hr.
  change (2 <=? 0) with false. change (negb (0 =? 0)) with false.
  cbv iota.
  change (major (sub_hslen (e_tls (env_advance (env_tls
            (mkEnv tls (a :: b :: rest) o so)
            (set_minor (set_major tls a) b)) 2)) 2)) with a.
  change (minor (sub_hslen (e_tls (env_advance (env_tls
            (mkEnv tls (a :: b :: rest) o so)
            (set_minor (set_major tls a) b)) 2)) 2)) with b.
  rewrite (version_test a b Hver). reflexivity.
Qed.

Lemma st_ver_first_byte : forall tls a o so,
  rlen (io_in tls) = 0 ->
  st_ver (mkEnv tls [a] o so)
  = Exit TTLS_CH_HS_VER (mkEnv (set_major tls a) [] (o + 1) so).
Proof.
  intros tls a o so Hr. unfold st_ver.
  cbn [e_tls e_p]. rewrite Hr. reflexivity.
Qed.

Lemma st_ver_second_byte : forall tls a b rest o so,
  rlen (io_in tls) = 1 ->
  major tls = a ->
  a <> TTLS_MAJOR_VERSION_3 \/ b <> TTLS_MINOR_VERSION_3 ->
  st_ver (mkEnv tls (b :: rest) o so)
  = Ret TTLS_ERR_BAD_HS_PROTOCOL_VERSION
        (ttls_send_alert (sub_hslen (set_minor tls b) 2)
                         TTLS_ALERT_LEVEL_FATAL
                         TTLS_ALERT_MSG_PROTOCOL_VERSION).
Proof.
  intros tls a b rest o so Hr Hmaj Hver. unfold st_ver.
  cbn [e_tls e_p]. rewrite Hr.
  change (2 <=? 1) with false. change (negb (1 =? 0)) with true.
  cbv iota.
  change (major (sub_hslen (e_tls (env_advance (env_tls
            (mkEnv tls (b :: rest) o so) (set_minor tls b)) 1)) 2))
    with (major tls).
  change (minor (sub_hslen (e_tls (env_advance (env_tls
            (mkEnv tls (b :: rest) o so) (set_minor tls b)) 1)) 2))
    with b.
  rewrite Hmaj, (version_test a b Hver). reflexivity.
Qed.

(** C10: a ClientHello whose version is not 3.3 is refused as soon as both
    version bytes are in, with a fatal protocol_version alert and the
    version error; nothing but the version fields and the length counter of
    the context has been written.  This holds whether the two bytes come in
    one chunk or in two. *)
Theorem client_hello_version_gate :
  forall css_max tls a b rest,
    hstype (io_in tls) = TTLS_HS_CLIENT_HELLO ->
    substate tls = TTLS_CH_HS_VER ->
    rlen (io_in tls) = 0 ->
    a <> TTLS_MAJOR_VERSION_3 \/ b <> TTLS_MINOR_VERSION_3 ->
    (exists tls',
        ttls_parse_client_hello css_max tls (a :: b :: rest)
        = Returned TTLS_ERR_BAD_HS_PROTOCOL_VERSION tls'
        /\ version_rejected tls tls')
    /\ (exists tls1,
           ttls_parse_client_hello css_max tls [a] = Postponed tls1 1
           /\ alerts tls1 = alerts tls
           /\ hs tls1 = hs tls
           /\ sess tls1 = sess tls
           /\ exists tls',
               ttls_parse_client_hello css_max tls1 (b :: rest)
               = Returned TTLS_ERR_BAD_HS_PROTOCOL_VERSION tls'
               /\ version_rejected tls tls').
Proof.
  intros css_max tls a b rest Hty Hst Hr Hver.
  assert (Hne : TTLS_CH_HS_VER <> TTLS_CH_HS_COMPN) by discriminate.
  split.
  - unfold ttls_parse_client_hello.
    rewrite Hty, Z.eqb_refl. cbv beta iota delta [negb].
    rewrite Hst, fuel_succ, ch_run_step by exact Hne.
    unfold ch_step. rewrite st_ver_two_bytes by assumption.
    eexists. split; [reflexivity|].
    unfold version_rejected. repeat split.
  - unfold ttls_parse_client_hello at 1.
    rewrite Hty, Z.eqb_refl. cbv beta iota delta [negb].
    rewrite Hst, fuel_succ, ch_run_step by exact Hne.
    unfold ch_step. rewrite st_ver_first_byte by assumption.
    unfold TTLS_HS_FSM_FINISH.
    cbv beta iota zeta delta [e_tls e_off e_state_off].
    set (tls1 := set_rlen _ _).
    assert (H1 : rlen (io_in tls1) = 1) by (subst tls1; cbn; rewrite Hr; reflexivity).
    assert (H2 : hstype (io_in tls1) = TTLS_HS_CLIENT_HELLO) by exact Hty.
    assert (H3 : substate tls1 = TTLS_CH_HS_VER) by reflexivity.
    assert (H4 : major tls1 = a) by reflexivity.
    exists tls1. split; [reflexivity|].
    split; [reflexivity|]. split; [reflexivity|]. split; [reflexivity|].
    unfold ttls_parse_client_hello.
    rewrite H2, Z.eqb_refl. cbv beta iota delta [negb].
    rewrite H3, fuel_succ, ch_run_step by exact Hne.
    unfold ch_step.
    rewrite (st_ver_second_byte _ a b) by auto.
    eexists. split; [reflexivity|].
    unfold version_rejected. repeat split.
Qed.

Definition tls_fresh : TlsCtx :=
  mkTls 0 0 (mkConf 3 None false) (mkSess 0 (repeat 0 32%nat) 0 [])
        (mkHs (repeat 0 32%nat) (repeat 0 4%nat) 0 0 0 0 0 0 0 0 0
              (repeat 0 48%nat) 0)
        (mkIO TTLS_HS_CLIENT_HELLO 100 0) TTLS_CH_HS_VER [].

Lemma client_hello_version_gate_witness :
  (exists tls',
      ttls_parse_client_hello 4 tls_fresh (3 :: 1 :: [0; 0])
      = Returned TTLS_ERR_BAD_HS_PROTOCOL_VERSION tls'
      /\ version_rejected tls_fresh tls')
  /\ (exists tls1,
         ttls_parse_client_hello 4 tls_fresh [3] = Postponed tls1 1
         /\ alerts tls1 = alerts tls_fresh
         /\ hs tls1 = hs tls_fresh
         /\ sess tls1 = sess tls_fresh
         /\ exists tls',
             ttls_parse_client_hello 4 tls1 (1 :: [0; 0])
             = Returned TTLS_ERR_BAD_HS_PROTOCOL_VERSION tls'
             /\ version_rejected tls_fresh tls').
Proof.
  apply (client_hello_version_gate 4 tls_fresh 3 1 [0; 0]).
  - reflexivity.
  - reflexivity.
  - reflexivity.
  - right. discriminate.
Defined.

(** The accepted version goes on to the client random. *)
Lemma client_hello_version_accepted :
  forall tls rest,
    rlen (io_in tls) = 0 ->
    exists e,
      st_ver (mkEnv tls (TTLS_MAJOR_VERSION_3 :: TTLS_MINOR_VERSION_3 :: rest)
                    0 0)
      = TTLS_HS_FSM_MOVE TTLS_CH_HS_RND e
      /\ alerts (e_tls e) = alerts tls.
Proof.
  intros tls rest Hr. unfold st_ver. cbn [e_tls e_p]. rewrite Hr.
  eexists. split; reflexivity.
Qed.

(** ** RSA premaster secret *)

Lemma lor_bound : forall a b n,
  0 <= n -> 0 <= a < 2 ^ n -> 0 <= b < 2 ^ n -> 0 <= Z.lor a b < 2 ^ n.
Proof.
  intros a b n Hn Ha Hb. split.
  - apply Z.lor_nonneg; lia.
  - destruct (Z.eq_dec (Z.lor a b) 0) as [->|Hz]; [lia|].
    apply Z.log2_lt_pow2.
    + assert (0 <= Z.lor a b) by (apply Z.lor_nonneg; lia). lia.
    + rewrite Z.log2_lor by lia.
      destruct (Z.eq_dec a 0) as [->|Ha0];
        destruct (Z.eq_dec b 0) as [->|Hb0].
      * simpl in Hz. congruence.
      * rewrite Z.max_r by (apply Z.log2_nonneg).
        apply Z.log2_lt_pow2; lia.
      * rewrite Z.max_l by (apply Z.log2_nonneg).
        apply Z.log2_lt_pow2; lia.
      * apply Z.max_lub_lt; apply Z.log2_lt_pow2; lia.
Qed.

Lemma lxor_bound : forall a b n,
  0 <= n -> 0 <= a < 2 ^ n -> 0 <= b < 2 ^ n -> 0 <= Z.lxor a b < 2 ^ n.
Proof.
  intros a b n Hn Ha Hb.
  assert (Hnn : 0 <= Z.lxor a b) by (apply Z.lxor_nonneg; lia).
  split; [exact Hnn|].
  destruct (Z.eq_dec (Z.lxor a b) 0) as [->|Hz]; [lia|].
  apply Z.log2_lt_pow2; [lia|].
  eapply Z.le_lt_trans; [apply Z.log2_lxor; lia|].
  destruct (Z.eq_dec a 0) as [->|Ha0]; destruct (Z.eq_dec b 0) as [->|Hb0].
  - simpl in Hz. congruence.
  - rewrite Z.max_r by (apply Z.log2_nonneg). apply Z.log2_lt_pow2; lia.
  - rewrite Z.max_l by (apply Z.log2_nonneg). apply Z.log2_lt_pow2; lia.
  - apply Z.max_lub_lt; apply Z.log2_lt_pow2; lia.
Qed.

Lemma lor_ge_l : forall a b, 0 <= a -> 0 <= b -> a <= Z.lor a b.
Proof.
  intros a b Ha Hb.
  assert (H : Z.lor a b = a + Z.ldiff b a).
  { rewrite Z.add_nocarry_lxor.
    - apply Z.bits_inj'. intros n Hn.
      rewrite Z.lxor_spec, Z.lor_spec, Z.ldiff_spec.
      destruct (Z.testbit a n), (Z.testbit b n); reflexivity.
    - apply Z.bits_inj'. intros n Hn.
      rewrite Z.land_spec, Z.ldiff_spec, Z.bits_0.
      destruct (Z.testbit a n), (Z.testbit b n); reflexivity. }
  rewrite H.
  assert (0 <= Z.ldiff b a) by (apply Z.ldiff_nonneg; lia). lia.
Qed.

(** The mask is all ones exactly when [diff] is not zero. *)
Lemma pms_mask_zero : pms_mask 0 = 0.
Proof. reflexivity. Qed.

Lemma pms_mask_nonzero : forall diff,
  0 < diff < 2 ^ 32 -> pms_mask diff = 255.
Proof.
  intros diff Hd. unfold pms_mask, u32, u8.
  assert (Hneg : (- diff) mod 2 ^ 32 = 2 ^ 32 - diff).
  { rewrite <- (Z.mod_add _ 1) by lia.
    rewrite Z.mod_small; lia. }
  rewrite Hneg.
  assert (Hb : 0 <= Z.lor diff (2 ^ 32 - diff) < 2 ^ 32)
    by (apply lor_bound; lia).
  assert (Hge : 2 ^ 31 <= Z.lor diff (2 ^ 32 - diff)).
  { destruct (Z_lt_le_dec diff (2 ^ 31)).
    - rewrite Z.lor_comm.
      etransitivity; [|apply lor_ge_l; lia]. lia.
    - etransitivity; [|apply lor_ge_l; lia]. lia. }
  assert (Hs : Z.shiftr (Z.lor diff (2 ^ 32 - diff)) 31 = 1).
  { rewrite Z.shiftr_div_pow2 by lia.
    symmetry. apply Z.div_unique with (r := Z.lor diff (2 ^ 32 - diff) - 2 ^ 31);
      lia. }
  rewrite Hs. reflexivity.
Qed.

Lemma pms_select_fake : forall f p,
  is_byte f -> is_byte p -> pms_select 255 f p = f.
Proof.
  intros f p Hf Hp. unfold pms_select, u8, is_byte in *.
  assert (H1 : Z.land 255 f = f).
  { rewrite Z.land_comm. change 255 with (Z.ones 8).
    rewrite Z.land_ones by lia. apply Z.mod_small. lia. }
  assert (H2 : Z.land (Z.lnot 255) p = 0).
  { rewrite Z.land_comm. rewrite <- Z.ldiff_land.
    change 255 with (Z.ones 8). rewrite Z.ldiff_ones_r by lia.
    rewrite Z.shiftr_div_pow2 by lia.
    rewrite Z.div_small by lia. reflexivity. }
  rewrite H1, H2, Z.lor_0_r. apply Z.mod_small. lia.
Qed.

Lemma pms_select_peer : forall f p,
  is_byte f -> is_byte p -> pms_select 0 f p = p.
Proof.
  intros f p Hf Hp. unfold pms_select, u8, is_byte in *.
  rewrite Z.land_0_l, Z.lor_0_l.
  change (Z.lnot 0) with (-1). rewrite Z.land_comm, Z.land_m1_r.
  apply Z.mod_small. lia.
Qed.

Lemma pms_mix_fake : forall fake peer,
  bytes fake -> bytes peer -> length fake = length peer ->
  pms_mix 255 fake peer = fake.
Proof.
  induction fake as [|f fake IH]; intros peer Hf Hp Hl.
  - reflexivity.
  - destruct peer as [|q peer]; [discriminate|].
    inversion Hf; inversion Hp; subst. simpl.
    rewrite pms_select_fake by assumption. f_equal.
    apply IH; auto.
Qed.

Lemma pms_mix_peer : forall fake peer,
  bytes fake -> bytes peer -> length fake = length peer ->
  pms_mix 0 fake peer = peer.
Proof.
  induction fake as [|f fake IH]; intros peer Hf Hp Hl.
  - destruct peer; [reflexivity|discriminate].
  - destruct peer as [|q peer]; [discriminate|].
    inversion Hf; inversion Hp; subst. simpl.
    rewrite pms_select_peer by assumption. f_equal.
    apply IH; auto.
Qed.

(** The accumulated difference of tls_srv.c:1814-1817. *)
Definition pms_diff (r peer_pmslen p0 p1 ver1 : Z) : Z :=
  u32 (Z.lor (u32 (Z.lor (u32 (Z.lor (u32 r) (Z.lxor peer_pmslen 48)))
                          (Z.lxor p0 TTLS_MAX_MAJOR_VERSION)))
             (Z.lxor p1 ver1)).

Lemma u32_range : forall z, 0 <= u32 z < 2 ^ 32.
Proof. intro z. unfold u32. apply Z.mod_pos_bound. lia. Qed.

Lemma u32_lor : forall a b, u32 (Z.lor a b) = Z.lor (u32 a) (u32 b).
Proof.
  intros. unfold u32. rewrite <- !Z.land_ones by lia.
  apply Z.land_lor_distr_l.
Qed.

Lemma u32_idem : forall a, u32 (u32 a) = u32 a.
Proof. intros. unfold u32. apply Z.mod_mod. lia. Qed.

Lemma pms_diff_spec : forall r n p0 p1 v,
  pms_diff r n p0 p1 v = 0
  <-> u32 r = 0 /\ u32 (Z.lxor n 48) = 0
      /\ u32 (Z.lxor p0 TTLS_MAX_MAJOR_VERSION) = 0
      /\ u32 (Z.lxor p1 v) = 0.
Proof.
  intros. unfold pms_diff.
  rewrite !u32_lor, !u32_idem.
  rewrite !Z.lor_eq_0_iff. tauto.
Qed.

Lemma u32_lxor_byte : forall a b,
  is_byte a -> is_byte b -> (u32 (Z.lxor a b) = 0 <-> a = b).
Proof.
  intros a b Ha Hb. unfold is_byte in *.
  assert (H : 0 <= Z.lxor a b < 2 ^ 8) by (apply lxor_bound; lia).
  unfold u32. rewrite Z.mod_small by lia.
  apply Z.lxor_eq_0_iff.
Qed.

(** What the code does with a well-formed message. *)
Lemma parse_encrypted_pms_eq :
  forall tls key body fake decrypt r n peer,
    can_do_rsa key = true ->
    Z.of_nat (length body) = pk_len key ->
    decrypt body = (r, n, peer) ->
    ttls_parse_encrypted_pms tls key
      (Z.land (Z.shiftr (pk_len key) 8) 0xFF :: Z.land (pk_len key) 0xFF
         :: body) fake decrypt
    = Some (T_OK,
            set_hs tls
              (set_premaster (hs tls)
                 (memcpy (premaster (hs tls))
                    (pms_mix (pms_mask (pms_diff r n (nth 0 peer 0)
                                                 (nth 1 peer 0)
                                                 (max_minor_ver (conf tls))))
                             (firstn 48 fake) (firstn 48 peer)) 48) 48)).
Proof.
  intros tls key body fake decrypt r n peer Hk Hlen Hdec.
  unfold ttls_parse_encrypted_pms. rewrite Hk. cbv beta iota delta [negb].
  rewrite !Z.eqb_refl. cbv beta iota delta [negb orb].
  rewrite Hlen, Z.eqb_refl. cbv beta iota delta [negb orb].
  rewrite Hdec. reflexivity.
Qed.

Lemma memcpy_exact : forall dst src n,
  length src = n -> (n <= length dst)%nat ->
  firstn n (memcpy dst src n) = src.
Proof.
  intros dst src n Hs Hd. unfold memcpy. subst n.
  rewrite firstn_all. rewrite firstn_app, firstn_all, Nat.sub_diag.
  simpl. apply app_nil_r.
Qed.

(** What C1 promises when [ttls_pk_decrypt] answers [(r, n, peer)] on the
    encrypted [body]. *)
Definition pms_outcome (tls : TlsCtx) (key : own_key) (body fake : list Z)
    (decrypt : list Z -> Z * Z * list Z) (r n : Z) (peer : list Z) : Prop :=
  exists tls',
    ttls_parse_encrypted_pms tls key
      (Z.land (Z.shiftr (pk_len key) 8) 0xFF :: Z.land (pk_len key) 0xFF
         :: body) fake decrypt
    = Some (T_OK, tls')
    /\ alerts tls' = alerts tls
    /\ pmslen (hs tls') = 48
    /\ ((r <> 0 \/ n <> 48
         \/ nth 0 peer 0 <> TTLS_MAX_MAJOR_VERSION
         \/ nth 1 peer 0 <> max_minor_ver (conf tls)) ->
        firstn 48 (premaster (hs tls')) = fake)
    /\ ((r = 0 /\ n = 48
         /\ nth 0 peer 0 = TTLS_MAX_MAJOR_VERSION
         /\ nth 1 peer 0 = max_minor_ver (conf tls)) ->
        firstn 48 (premaster (hs tls')) = peer).

(** C1: with an RSA-capable key and a well-formed length prefix the
    function returns success and sets the premaster length to 48, whatever
    [ttls_pk_decrypt] answers.  If the decryption fails, or the decrypted
    length is not 48, or the two version bytes differ from the expected
    ones, the premaster is the 48 random bytes; only otherwise is it the
    decrypted secret.  No alert is raised. *)
Theorem encrypted_pms_failure_is_masked :
  forall tls key body fake decrypt r n peer,
    can_do_rsa key = true ->
    Z.of_nat (length body) = pk_len key ->
    length fake = 48%nat -> bytes fake ->
    decrypt body = (r, n, peer) ->
    length peer = 48%nat -> bytes peer ->
    - 2 ^ 31 <= r < 2 ^ 31 ->
    (r = 0 -> 0 <= n < 2 ^ 32) ->
    is_byte (max_minor_ver (conf tls)) ->
    (48 <= length (premaster (hs tls)))%nat ->
    pms_outcome tls key body fake decrypt r n peer.
Proof.
  intros tls key body fake decrypt r n peer Hk Hlen Hfl Hfb Hdec Hpl Hpb
         Hr Hn Hv Hpm.
  unfold pms_outcome.
  rewrite (parse_encrypted_pms_eq tls key body fake decrypt r n peer)
    by assumption.
  eexists. split; [reflexivity|].
  split; [reflexivity|]. split; [reflexivity|].
  assert (Hf48 : firstn 48 fake = fake) by (rewrite <- Hfl; apply firstn_all).
  assert (Hp48 : firstn 48 peer = peer) by (rewrite <- Hpl; apply firstn_all).
  assert (Hb0 : is_byte (nth 0 peer 0)).
  { unfold bytes in Hpb. rewrite Forall_forall in Hpb.
    apply Hpb. apply nth_In. lia. }
  assert (Hb1 : is_byte (nth 1 peer 0)).
  { unfold bytes in Hpb. rewrite Forall_forall in Hpb.
    apply Hpb. apply nth_In. lia. }
  assert (Hmaj : is_byte TTLS_MAX_MAJOR_VERSION) by (unfold is_byte; cbv; split; congruence).
  set (diff := pms_diff r n (nth 0 peer 0) (nth 1 peer 0)
                        (max_minor_ver (conf tls))).
  assert (Hdr : 0 <= diff < 2 ^ 32) by (apply u32_range).
  cbn [premaster hs set_hs set_premaster].
  rewrite Hf48, Hp48.
  split.
  - intros Hbad.
    assert (Hnz : diff <> 0).
    { intro Hz. apply pms_diff_spec in Hz.
      destruct Hz as (Hz1 & Hz2 & Hz3 & Hz4).
      assert (r = 0).
      { unfold u32 in Hz1.
        destruct (Z_lt_le_dec r 0).
        - rewrite <- (Z.mod_add _ 1) in Hz1 by lia.
          rewrite Z.mod_small in Hz1; lia.
        - rewrite Z.mod_small in Hz1; lia. }
      specialize (Hn H).
      assert (n = 48).
      { apply Z.lxor_eq_0_iff.
        assert (0 <= Z.lxor n 48 < 2 ^ 32) by (apply lxor_bound; lia).
        unfold u32 in Hz2. rewrite Z.mod_small in Hz2; lia. }
      apply (u32_lxor_byte _ _ Hb0 Hmaj) in Hz3.
      apply (u32_lxor_byte _ _ Hb1 Hv) in Hz4.
      destruct Hbad as [Hb|[Hb|[Hb|Hb]]]; contradiction. }
    rewrite pms_mask_nonzero by lia.
    rewrite pms_mix_fake by (auto; congruence).
    apply memcpy_exact; auto.
  - intros (H1 & H2 & H3 & H4).
    assert (Hz : diff = 0).
    { apply pms_diff_spec. subst r n. rewrite H3, H4.
      rewrite !Z.lxor_nilpotent. repeat split; reflexivity. }
    rewrite Hz, pms_mask_zero.
    rewrite pms_mix_peer by (auto; congruence).
    apply memcpy_exact; auto.
Qed.

(** A context that waits for the ClientKeyExchange. *)
Definition tls_at_kex : TlsCtx :=
  mkTls 3 3 (mkConf 3 None false) (mkSess 0 (repeat 0 32%nat) 0 [])
        (mkHs (repeat 0 32%nat) [] 0 0 0 0 0 0 0 0 0 (repeat 0 48%nat) 0)
        (mkIO 16 6 0) TTLS_CH_HS_VER [].

Lemma encrypted_pms_failure_is_masked_witness :
  pms_outcome tls_at_kex (mkKey true 4) [1; 2; 3; 4] (repeat 7 48%nat)
              (fun _ => (-1, 0, repeat 0 48%nat)) (-1) 0 (repeat 0 48%nat).
Proof.
  apply (encrypted_pms_failure_is_masked tls_at_kex (mkKey true 4)
           [1; 2; 3; 4] (repeat 7 48%nat)
           (fun _ => (-1, 0, repeat 0 48%nat)) (-1) 0 (repeat 0 48%nat)).
  - reflexivity.
  - reflexivity.
  - reflexivity.
  - apply Forall_forall. intros x Hx. apply repeat_spec in Hx. subst x.
    unfold is_byte. lia.
  - reflexivity.
  - reflexivity.
  - apply Forall_forall. intros x Hx. apply repeat_spec in Hx. subst x.
    unfold is_byte. lia.
  - lia.
  - lia.
  - unfold is_byte. cbn. lia.
  - cbn. lia.
Defined.

(** ** The cipher-suite list *)

(** The context while the list is parsed, as a function of what the parser
    has written: every other field is the one of [t0], the context at the
    first byte of the list. *)
Definition cs_tls (t0 : TlsCtx) (cssv : list Z) (cur total reneg hl r : Z)
    (sub : ch_state) : TlsCtx :=
  let h := hs t0 in
  mkTls (major t0) (minor t0) (conf t0) (sess t0)
        (mkHs (randbytes h) cssv total cur reneg (extended_ms h) (cli_exts h)
              (curves_ext h) (resume h) (new_session_ticket h)
              (point_format h) (premaster h) (pmslen h))
        (mkIO (hstype (io_in t0)) hl r) sub (alerts t0).

(** The effect of [ttls_check_scsvs] on a suite value. *)
Definition scsv_fails (t0 : TlsCtx) (v : Z) : bool :=
  (v =? TTLS_FALLBACK_SCSV_VALUE) && (minor t0 <? max_minor_ver (conf t0)).

Definition scsv_reneg (reneg v : Z) : Z :=
  if v =? TTLS_EMPTY_RENEGOTIATION_INFO then 1 else reneg.

Lemma check_scsvs_cs_tls : forall t0 cssv cur total reneg hl r sub v,
  ttls_check_scsvs (cs_tls t0 cssv cur total reneg hl r sub) v
  = if scsv_fails t0 v
    then (TTLS_ERR_BAD_HS_CLIENT_HELLO,
          ttls_send_alert (cs_tls t0 cssv cur total reneg hl r sub)
                          TTLS_ALERT_LEVEL_FATAL
                          TTLS_ALERT_MSG_INAPROPRIATE_FALLBACK)
    else (T_OK, cs_tls t0 cssv cur total (scsv_reneg reneg v) hl r sub).
Proof.
  intros. unfold ttls_check_scsvs, scsv_fails, scsv_reneg.
  change (minor (cs_tls t0 cssv cur total reneg hl r sub)) with (minor t0).
  change (conf (cs_tls t0 cssv cur total reneg hl r sub)) with (conf t0).
  destruct (Z.eqb_spec v TTLS_FALLBACK_SCSV_VALUE) as [->|Hne].
  - destruct (minor t0 <? max_minor_ver (conf t0)); reflexivity.
  - cbv beta iota delta [andb].
    destruct (v =? TTLS_EMPTY_RENEGOTIATION_INFO); reflexivity.
Qed.

(** [TTLS_HS_FSM_MOVE] on such a context. *)
Lemma move_cs_tls : forall st t0 cssv cur total reneg hl r sub pl off soff,
  TTLS_HS_FSM_MOVE st
    (mkEnv (cs_tls t0 cssv cur total reneg hl r sub) pl off soff)
  = match pl with
    | [] => Exit st (mkEnv (cs_tls t0 cssv cur total reneg hl 0 sub)
                           pl off off)
    | _ :: _ => Jmp st (mkEnv (cs_tls t0 cssv cur total reneg hl 0 sub)
                              pl off off)
    end.
Proof. intros. destruct pl; reflexivity. Qed.

Section Steps.

Variable css_max : Z.
Variable t0 : TlsCtx.

(** A whole suite is in the chunk. *)
Lemma st_cs_full : forall cssv cur total reneg hl sub b0 b1 rest off soff,
  cur < sizeof_css css_max ->
  (Z.to_nat (cur / 2) < length cssv)%nat ->
  let v := u16 (Z.shiftl b0 8 + b1) in
  st_cs css_max
    (mkEnv (cs_tls t0 cssv cur total reneg hl 0 sub) (b0 :: b1 :: rest)
           off soff)
  = if scsv_fails t0 v then
      Ret TTLS_ERR_BAD_HS_CLIENT_HELLO
          (ttls_send_alert
             (cs_tls t0 (upd cssv (Z.to_nat (cur / 2)) v) cur total reneg
                     hl 0 sub)
             TTLS_ALERT_LEVEL_FATAL TTLS_ALERT_MSG_INAPROPRIATE_FALLBACK)
    else
      TTLS_HS_FSM_MOVE
        (if cur + 2 =? total then TTLS_CH_HS_COMPN else TTLS_CH_HS_CS)
        (mkEnv (cs_tls t0 (upd cssv (Z.to_nat (cur / 2)) v) (cur + 2) total
                       (scsv_reneg reneg v) (u32 (hl - 2)) 0 sub)
               rest (off + 2) soff).
Proof.
  intros cssv cur total reneg hl sub b0 b1 rest off soff Hcur Hslot v.
  unfold st_cs.
  cbv beta iota zeta delta [e_tls].
  change (rlen (io_in (cs_tls t0 cssv cur total reneg hl 0 sub))) with 0.
  change (cs_cur_len (hs (cs_tls t0 cssv cur total reneg hl 0 sub)))
    with cur.
  change (2 <=? 0) with false. cbv iota.
  replace (sizeof_css css_max <=? cur) with false
    by (symmetry; apply Z.leb_gt; exact Hcur).
  cbv iota.
  unfold read_u16_field.
  cbv beta iota zeta delta [e_tls e_p].
  change (rlen (io_in (cs_tls t0 cssv cur total reneg hl 0 sub))) with 0.
  change (negb (0 =? 0)) with false. cbv iota.
  cbv beta iota zeta delta [env_advance env_tls e_tls e_p e_off e_state_off].
  change (set_hs (cs_tls t0 cssv cur total reneg hl 0 sub)
            (set_css (hs (cs_tls t0 cssv cur total reneg hl 0 sub))
               (upd (css (hs (cs_tls t0 cssv cur total reneg hl 0 sub)))
                    (Z.to_nat (cur / 2)) (u16 (Z.shiftl b0 8 + b1)))))
    with (cs_tls t0 (upd cssv (Z.to_nat (cur / 2)) v) cur total reneg hl 0 sub).
  change (css (hs (cs_tls t0 (upd cssv (Z.to_nat (cur / 2)) v) cur total
                          reneg hl 0 sub)))
    with (upd cssv (Z.to_nat (cur / 2)) v).
  rewrite nth_upd_same by exact Hslot.
  rewrite check_scsvs_cs_tls.
  destruct (scsv_fails t0 v); [reflexivity|].
  change (cs_total_len (hs (cs_tls t0 cssv cur total reneg hl 0 sub)))
    with total.
  cbv beta iota zeta.
  match goal with
  | |- context [cs_cur_len (hs (set_hs ?a ?b)) =? total] =>
      change (cs_cur_len (hs (set_hs a b))) with (cur + 2)
  end.
  destruct (cur + 2 =? total); reflexivity.
Qed.

(** Only the first byte of a suite is in the chunk. *)
Lemma st_cs_first : forall cssv cur total reneg hl sub b0 off soff,
  cur < sizeof_css css_max ->
  st_cs css_max
    (mkEnv (cs_tls t0 cssv cur total reneg hl 0 sub) [b0] off soff)
  = Exit TTLS_CH_HS_CS
         (mkEnv (cs_tls t0 (upd cssv (Z.to_nat (cur / 2))
                                (u16 (Z.shiftl b0 8)))
                        cur total reneg hl 0 sub)
                [] (off + 1) soff).
Proof.
  intros cssv cur total reneg hl sub b0 off soff Hcur.
  unfold st_cs.
  cbv beta iota zeta delta [e_tls].
  change (rlen (io_in (cs_tls t0 cssv cur total reneg hl 0 sub))) with 0.
  change (cs_cur_len (hs (cs_tls t0 cssv cur total reneg hl 0 sub)))
    with cur.
  change (2 <=? 0) with false. cbv iota.
  replace (sizeof_css css_max <=? cur) with false
    by (symmetry; apply Z.leb_gt; exact Hcur).
  reflexivity.
Qed.

(** The second byte of a suite opens the chunk. *)
Lemma st_cs_second : forall cssv cur total reneg hl sub b1 rest off soff,
  cur < sizeof_css css_max ->
  (Z.to_nat (cur / 2) < length cssv)%nat ->
  let v := u16 (nth (Z.to_nat (cur / 2)) cssv 0 + b1) in
  st_cs css_max
    (mkEnv (cs_tls t0 cssv cur total reneg hl 1 sub) (b1 :: rest) off soff)
  = if scsv_fails t0 v then
      Ret TTLS_ERR_BAD_HS_CLIENT_HELLO
          (ttls_send_alert
             (cs_tls t0 (upd cssv (Z.to_nat (cur / 2)) v) cur total reneg
                     hl 1 sub)
             TTLS_ALERT_LEVEL_FATAL TTLS_ALERT_MSG_INAPROPRIATE_FALLBACK)
    else
      TTLS_HS_FSM_MOVE
        (if cur + 2 =? total then TTLS_CH_HS_COMPN else TTLS_CH_HS_CS)
        (mkEnv (cs_tls t0 (upd cssv (Z.to_nat (cur / 2)) v) (cur + 2) total
                       (scsv_reneg reneg v) (u32 (hl - 2)) 1 sub)
               rest (off + 1) soff).
Proof.
  intros cssv cur total reneg hl sub b1 rest off soff Hcur Hslot v.
  unfold st_cs.
  cbv beta iota zeta delta [e_tls].
  change (rlen (io_in (cs_tls t0 cssv cur total reneg hl 1 sub))) with 1.
  change (cs_cur_len (hs (cs_tls t0 cssv cur total reneg hl 1 sub)))
    with cur.
  change (2 <=? 1) with false. cbv iota.
  replace (sizeof_css css_max <=? cur) with false
    by (symmetry; apply Z.leb_gt; exact Hcur).
  cbv iota.
  unfold read_u16_field.
  cbv beta iota zeta delta [e_tls e_p].
  change (rlen (io_in (cs_tls t0 cssv cur total reneg hl 1 sub))) with 1.
  change (negb (1 =? 0)) with true. cbv iota.
  cbv beta iota zeta delta [env_advance env_tls e_tls e_p e_off e_state_off].
  change (set_hs (cs_tls t0 cssv cur total reneg hl 1 sub)
            (set_css (hs (cs_tls t0 cssv cur total reneg hl 1 sub))
               (upd (css (hs (cs_tls t0 cssv cur total reneg hl 1 sub)))
                    (Z.to_nat (cur / 2))
                    (u16 (nth (Z.to_nat (cur / 2))
                              (css (hs (cs_tls t0 cssv cur total reneg hl 1
                                               sub))) 0 + b1)))))
    with (cs_tls t0 (upd cssv (Z.to_nat (cur / 2)) v) cur total reneg hl 1 sub).
  change (css (hs (cs_tls t0 (upd cssv (Z.to_nat (cur / 2)) v) cur total
                          reneg hl 1 sub)))
    with (upd cssv (Z.to_nat (cur / 2)) v).
  rewrite nth_upd_same by exact Hslot.
  rewrite check_scsvs_cs_tls.
  destruct (scsv_fails t0 v); [reflexivity|].
  change (cs_total_len (hs (cs_tls t0 cssv cur total reneg hl 1 sub)))
    with total.
  cbv beta iota zeta.
  match goal with
  | |- context [cs_cur_len (hs (set_hs ?a ?b)) =? total] =>
      change (cs_cur_len (hs (set_hs a b))) with (cur + 2)
  end.
  destruct (cur + 2 =? total); reflexivity.
Qed.

(** The storage is full: the rest of the list is skipped. *)
Lemma st_cs_overflow : forall cssv cur total reneg hl sub pl off soff,
  sizeof_css css_max <= cur ->
  st_cs css_max (mkEnv (cs_tls t0 cssv cur total reneg hl 0 sub) pl off soff)
  = TTLS_HS_FSM_MOVE TTLS_CH_HS_CS_SKIP
      (mkEnv (cs_tls t0 cssv cur total reneg hl 0 sub) pl off soff).
Proof.
  intros cssv cur total reneg hl sub pl off soff Hcur.
  unfold st_cs.
  cbv beta iota zeta delta [e_tls].
  change (rlen (io_in (cs_tls t0 cssv cur total reneg hl 0 sub))) with 0.
  change (cs_cur_len (hs (cs_tls t0 cssv cur total reneg hl 0 sub)))
    with cur.
  change (2 <=? 0) with false. cbv iota.
  replace (sizeof_css css_max <=? cur) with true
    by (symmetry; apply Z.leb_le; exact Hcur).
  reflexivity.
Qed.

Lemma st_cs_skip_eq : forall cssv cur total reneg hl r sub pl off soff,
  let delta := u16 (Z.min (Z.of_nat (length pl)) (total - cur)) in
  st_cs_skip css_max
    (mkEnv (cs_tls t0 cssv cur total reneg hl r sub) pl off soff)
  = if cur + delta =? total then
      TTLS_HS_FSM_MOVE TTLS_CH_HS_COMPN
        (mkEnv (cs_tls t0 cssv (cur + delta) (sizeof_css css_max) reneg
                       (u32 (hl - delta)) r sub)
               (skipn (Z.to_nat delta) pl) (off + Z.of_nat (Z.to_nat delta))
               soff)
    else
      TTLS_HS_FSM_MOVE TTLS_CH_HS_CS_SKIP
        (mkEnv (cs_tls t0 cssv (cur + delta) total reneg (u32 (hl - delta))
                       r sub)
               (skipn (Z.to_nat delta) pl) (off + Z.of_nat (Z.to_nat delta))
               soff).
Proof.
  intros. unfold st_cs_skip.
  cbv beta iota zeta delta [e_tls e_p].
  change (cs_total_len (hs (cs_tls t0 cssv cur total reneg hl r sub)))
    with total.
  change (cs_cur_len (hs (cs_tls t0 cssv cur total reneg hl r sub)))
    with cur.
  fold delta.
  change (cs_cur_len (hs (set_hs (sub_hslen (cs_tls t0 cssv cur total reneg
                                                    hl r sub) delta)
                       (set_cs_cur_len
                          (hs (sub_hslen (cs_tls t0 cssv cur total reneg hl
                                                 r sub) delta))
                          (cs_cur_len
                             (hs (sub_hslen (cs_tls t0 cssv cur total reneg
                                                    hl r sub) delta))
                           + delta)))))
    with (cur + delta).
  destruct (cur + delta =? total); reflexivity.
Qed.

End Steps.

Definition inappropriate_fallback : alert_level * alert_msg :=
  (TTLS_ALERT_LEVEL_FATAL, TTLS_ALERT_MSG_INAPROPRIATE_FALLBACK).

(** The bytes of a suite list on the wire: two bytes per suite, high byte
    first. *)
Definition suite_bytes (suites : list Z) : list Z :=
  flat_map (fun v => [v / 256; v mod 256]) suites.

Definition suite_range (v : Z) : Prop := 0 <= v < 2 ^ 16.

Lemma u16_join : forall v,
  suite_range v -> u16 (Z.shiftl (v / 256) 8 + v mod 256) = v.
Proof.
  intros v Hv. unfold suite_range in Hv. unfold u16.
  rewrite Z.shiftl_mul_pow2 by lia. change (2 ^ 8) with 256.
  rewrite Z.mul_comm, <- Z.div_mod by lia.
  apply Z.mod_small. lia.
Qed.

Lemma u16_high : forall v,
  suite_range v -> u16 (Z.shiftl (v / 256) 8) = 256 * (v / 256).
Proof.
  intros v Hv. unfold suite_range in Hv. unfold u16.
  rewrite Z.shiftl_mul_pow2 by lia. change (2 ^ 8) with 256.
  rewrite Z.mul_comm. apply Z.mod_small.
  assert (0 <= v / 256 < 256).
  { split; [apply Z.div_pos; lia | apply Z.div_lt_upper_bound; lia]. }
  lia.
Qed.

Lemma u16_low : forall v,
  suite_range v -> u16 (256 * (v / 256) + v mod 256) = v.
Proof.
  intros v Hv. unfold suite_range in Hv. unfold u16.
  rewrite <- Z.div_mod by lia. apply Z.mod_small. lia.
Qed.

(** Successive calls of the parser on successive chunks, as the receive path
    makes them, until a call does not ask for more bytes or the chunks are
    used up: the result of the last call made and the number of bytes read
    by the calls before it. *)
Fixpoint ch_feed (css_max : Z) (tls : TlsCtx) (chunks : list (list Z))
  : ch_result * Z :=
  match chunks with
  | [] => (Postponed tls 0, 0)
  | c :: cs =>
      match cs with
      | [] => (ttls_parse_client_hello css_max tls c, 0)
      | _ :: _ =>
          match ttls_parse_client_hello css_max tls c with
          | Postponed tls' rd =>
              let '(R, n) := ch_feed css_max tls' cs in (R, rd + n)
          | R => (R, 0)
          end
      end
  end.

Lemma ch_feed_cons : forall css_max tls c c2 cs,
  ch_feed css_max tls (c :: c2 :: cs)
  = match ttls_parse_client_hello css_max tls c with
    | Postponed tls' rd =>
        let '(R, n) := ch_feed css_max tls' (c2 :: cs) in (R, rd + n)
    | R => (R, 0)
    end.
Proof. reflexivity. Qed.

Section SuiteList.

Variable css_max : Z.
Variable t0 : TlsCtx.
Variable suites : list Z.

Hypothesis css_max_pos : 0 < css_max.
Hypothesis suites_ok : Forall suite_range suites.

(** Declared length of the list in bytes, size of the storage in bytes, and
    number of bytes that are stored. *)
Definition LL : Z := 2 * Z.of_nat (length suites).
Definition SS : Z := sizeof_css css_max.
Definition MM : Z := Z.min LL SS.

Hypothesis LL_16 : LL < 2 ^ 16.

Definition suite_at (i : Z) : Z := nth (Z.to_nat i) suites 0.

Definition wire_byte (i : Z) : Z :=
  if Z.even i then suite_at (i / 2) / 256 else suite_at (i / 2) mod 256.

(** The bytes [pl] are those of the list from position [k] on, as far as
    the list goes. *)
Definition agrees (pl : list Z) (k : Z) : Prop :=
  forall i, (i < length pl)%nat -> k + Z.of_nat i < LL ->
            nth i pl 0 = wire_byte (k + Z.of_nat i).

Definition no_fail_before (j : Z) : Prop :=
  forall i, 0 <= i < j -> i < css_max -> scsv_fails t0 (suite_at i) = false.

Fixpoint reneg_upto (j : nat) : Z :=
  match j with
  | O => secure_renegotiation (hs t0)
  | S j' => scsv_reneg (reneg_upto j') (nth j' suites 0)
  end.

Definition stored (cssv : list Z) (j : Z) : Prop :=
  Z.of_nat (length cssv) = css_max
  /\ forall i, 0 <= i < j -> nth (Z.to_nat i) cssv 0 = suite_at i.

Definition cs_phase (k : Z) (st : ch_state) (cssv : list Z)
    (cur reneg r : Z) : Prop :=
  (k < MM /\ st = TTLS_CH_HS_CS /\ cur = 2 * (k / 2) /\ r = k mod 2
   /\ stored cssv (k / 2)
   /\ (r = 1 -> nth (Z.to_nat (k / 2)) cssv 0 = 256 * (suite_at (k / 2) / 256))
   /\ reneg = reneg_upto (Z.to_nat (k / 2)))
  \/ (MM <= k
      /\ (st = TTLS_CH_HS_CS_SKIP \/ (st = TTLS_CH_HS_CS /\ k = SS))
      /\ cur = k /\ r = 0
      /\ stored cssv css_max
      /\ reneg = reneg_upto (Z.to_nat css_max)).

Definition hl0 : Z := hslen (io_in t0).

(** [io->hslen] once [c] bytes of the list are counted off. *)
Definition hl_at (c : Z) : Z := if c =? 0 then hl0 else u32 (hl0 - c).

(** The context between two calls, [k] bytes into the list. *)
Definition cs_inv (k : Z) (tls : TlsCtx) : Prop :=
  exists cssv cur reneg r,
    tls = cs_tls t0 cssv cur LL reneg (hl_at cur) r (substate tls)
    /\ cs_phase k (substate tls) cssv cur reneg r
    /\ no_fail_before (k / 2).

(** The context once the whole list is in. *)
Definition cs_done (tls : TlsCtx) : Prop :=
  exists cssv sub,
    tls = cs_tls t0 cssv LL MM (reneg_upto (Z.to_nat (MM / 2)))
                 (hl_at LL) 0 sub
    /\ stored cssv (MM / 2).

Definition cs_result (R : ch_result) (k n off : Z) (pl : list Z) : Prop :=
  (exists tls' j,
      R = Returned TTLS_ERR_BAD_HS_CLIENT_HELLO tls'
      /\ alerts tls' = alerts t0 ++ [inappropriate_fallback]
      /\ 0 <= j < css_max /\ 2 * j + 2 <= k + n /\ 2 * j + 2 <= LL
      /\ scsv_fails t0 (suite_at j) = true
      /\ no_fail_before j)
  \/ (no_fail_before (Z.min ((k + n) / 2) (LL / 2))
      /\ ((k + n < LL
           /\ exists tls', R = Postponed tls' (off + n) /\ cs_inv (k + n) tls')
          \/ (k + n = LL
              /\ exists tls', R = Postponed tls' (off + n)
                              /\ cs_done tls'
                              /\ substate tls' = TTLS_CH_HS_COMPN)
          \/ (LL < k + n
              /\ exists e', R = Compression e'
                            /\ cs_done (e_tls e')
                            /\ e_off e' = off + (LL - k)
                            /\ e_p e' = skipn (Z.to_nat (LL - k)) pl))).

Lemma hl_at_sub : forall c d,
  0 <= c -> 0 < d -> u32 (hl_at c - d) = hl_at (c + d).
Proof.
  intros c d Hc Hd. unfold hl_at.
  replace (c + d =? 0) with false by (symmetry; apply Z.eqb_neq; lia).
  destruct (Z.eqb_spec c 0) as [->|Hne].
  - reflexivity.
  - unfold u32. rewrite Zminus_mod_idemp_l. f_equal. lia.
Qed.

Lemma LL_even : LL mod 2 = 0.
Proof. unfold LL. rewrite Z.mul_comm. apply Z.mod_mul. lia. Qed.

Lemma LL_half : LL / 2 = Z.of_nat (length suites).
Proof. unfold LL. rewrite Z.mul_comm. apply Z.div_mul. lia. Qed.

Lemma SS_eq : SS = 2 * css_max.
Proof. reflexivity. Qed.

Lemma suite_at_range : forall i,
  0 <= i < LL / 2 -> suite_range (suite_at i).
Proof.
  intros i Hi. rewrite LL_half in Hi. unfold suite_at.
  rewrite Forall_forall in suites_ok. apply suites_ok.
  apply nth_In. lia.
Qed.

Lemma agrees_skip : forall pl k m,
  agrees pl k -> agrees (skipn m pl) (k + Z.of_nat m).
Proof.
  intros pl k m H i Hi Hk.
  rewrite length_skipn in Hi.
  rewrite nth_skipn.
  replace (k + Z.of_nat m + Z.of_nat i) with (k + Z.of_nat (m + i)) by lia.
  apply H; lia.
Qed.

Lemma agrees_head : forall b pl k,
  agrees (b :: pl) k -> k < LL -> b = wire_byte k.
Proof.
  intros b pl k H Hk.
  specialize (H O). cbn [nth length] in H.
  rewrite Z.add_0_r in H. apply H; lia.
Qed.

Lemma agrees_tail : forall b pl k,
  agrees (b :: pl) k -> agrees pl (k + 1).
Proof.
  intros b pl k H. apply (agrees_skip (b :: pl) k 1) in H. exact H.
Qed.

Lemma stored_upd : forall cssv j v,
  stored cssv j -> 0 <= j < css_max -> v = suite_at j ->
  stored (upd cssv (Z.to_nat j) v) (j + 1).
Proof.
  intros cssv j v [Hlen Hst] Hj Hv. split.
  - rewrite upd_length. exact Hlen.
  - intros i Hi. destruct (Z.eq_dec i j) as [->|Hne].
    + rewrite nth_upd_same by lia. exact Hv.
    + rewrite nth_upd_other by lia. apply Hst. lia.
Qed.

Lemma stored_upd_high : forall cssv j v,
  stored cssv j -> 0 <= j < css_max ->
  stored (upd cssv (Z.to_nat j) v) j.
Proof.
  intros cssv j v [Hlen Hst] Hj. split.
  - rewrite upd_length. exact Hlen.
  - intros i Hi. rewrite nth_upd_other by lia. apply Hst. lia.
Qed.

Lemma stored_le : forall cssv j j', stored cssv j -> j' <= j -> stored cssv j'.
Proof.
  intros cssv j j' [Hlen Hst] Hle. split; [exact Hlen|].
  intros i Hi. apply Hst. lia.
Qed.

Lemma no_fail_le : forall j j', no_fail_before j -> j' <= j -> no_fail_before j'.
Proof. intros j j' H Hle i Hi Hc. apply H; lia. Qed.

Lemma no_fail_step : forall j,
  no_fail_before j -> scsv_fails t0 (suite_at j) = false ->
  no_fail_before (j + 1).
Proof.
  intros j H Hj i Hi Hc.
  destruct (Z.eq_dec i j) as [->|Hne]; [exact Hj|]. apply H; lia.
Qed.

Lemma no_fail_beyond : forall j,
  no_fail_before css_max -> no_fail_before j.
Proof.
  intros j H i Hi Hc. apply H; lia.
Qed.

Lemma finish_cs_tls : forall st cssv cur total reneg hl r sub pl off soff,
  TTLS_HS_FSM_FINISH st
    (mkEnv (cs_tls t0 cssv cur total reneg hl r sub) pl off soff)
  = (cs_tls t0 cssv cur total reneg hl (r + (off - soff)) st, off).
Proof. reflexivity. Qed.

Lemma ch_run_compn : forall fuel e,
  ch_run css_max fuel TTLS_CH_HS_COMPN e = Compression e.
Proof. intros. destruct fuel; reflexivity. Qed.

Lemma u16_small : forall z, 0 <= z < 2 ^ 16 -> u16 z = z.
Proof. intros. unfold u16. apply Z.mod_small. assumption. Qed.

Lemma skipn_nil_iff : forall (l : list Z) n,
  (length l <= n)%nat -> skipn n l = [].
Proof. intros. apply skipn_all2. assumption. Qed.

(** From [CS_SKIP] the call ends in one round. *)
Lemma run_skip : forall fuel k cssv reneg sub pl off,
  pl <> [] ->
  SS <= k < LL ->
  stored cssv css_max ->
  reneg = reneg_upto (Z.to_nat css_max) ->
  no_fail_before css_max ->
  cs_result
    (ch_run css_max (S fuel) TTLS_CH_HS_CS_SKIP
       (mkEnv (cs_tls t0 cssv k LL reneg (hl_at k) 0 sub) pl off off))
    k (Z.of_nat (length pl)) off pl.
Proof.
  intros fuel k cssv reneg sub pl off Hpl Hk Hst Hre Hnf.
  assert (HMM : MM = SS) by (unfold MM; lia).
  assert (Hn : 0 < Z.of_nat (length pl)).
  { destruct pl; [congruence|]. cbn [length]. lia. }
  rewrite ch_run_step by discriminate.
  unfold ch_step. rewrite st_cs_skip_eq.
  set (n := Z.of_nat (length pl)) in *.
  assert (H16 : LL < 65536) by exact LL_16.
  pose proof SS_eq as HSS. pose proof css_max_pos as Hcm.
  rewrite u16_small by (change (2 ^ 16) with 65536; lia).
  right. split; [apply no_fail_beyond; exact Hnf|].
  destruct (Z_lt_le_dec n (LL - k)) as [Hlt|Hge].
  - (* the chunk ends inside the skipped part *)
    rewrite Z.min_l by lia. rewrite hl_at_sub by lia.
    replace (k + n =? LL) with false by (symmetry; apply Z.eqb_neq; lia).
    rewrite move_cs_tls.
    rewrite skipn_nil_iff.
    2:{ unfold n. rewrite Nat2Z.id. lia. }
    rewrite finish_cs_tls.
    left. split; [lia|].
    eexists. split.
    + f_equal. unfold n. rewrite Nat2Z.id. reflexivity.
    + exists cssv, (k + n), reneg, (0 + (off + Z.of_nat (Z.to_nat n)
                                      - (off + Z.of_nat (Z.to_nat n)))).
      cbn [substate cs_tls].
      split; [unfold cs_tls; f_equal; f_equal; lia|].
      split.
      * right. split; [lia|]. split; [left; reflexivity|].
        split; [reflexivity|]. split; [lia|]. split; assumption.
      * apply no_fail_beyond; exact Hnf.
  - rewrite Z.min_r by lia. rewrite hl_at_sub by lia.
    replace (k + (LL - k) =? LL) with true by (symmetry; apply Z.eqb_eq; lia).
    rewrite move_cs_tls.
    assert (Hdone : forall sub',
               cs_done (cs_tls t0 cssv (k + (LL - k)) (sizeof_css css_max)
                               reneg (hl_at (k + (LL - k))) 0 sub')).
    { intro sub'. exists cssv, sub'. split.
      - rewrite HMM. unfold SS. rewrite Hre.
        replace (sizeof_css css_max / 2) with css_max
          by (unfold sizeof_css; rewrite Z.mul_comm, Z.div_mul; lia).
        replace (k + (LL - k)) with LL by lia.
        unfold cs_tls. repeat (f_equal; try lia).
      - rewrite HMM. unfold SS.
        replace (sizeof_css css_max / 2) with css_max
          by (unfold sizeof_css; rewrite Z.mul_comm, Z.div_mul; lia).
        exact Hst. }
    destruct (skipn (Z.to_nat (LL - k)) pl) as [|b rest] eqn:Hsk.
    + assert (n = LL - k).
      { apply (f_equal (@length Z)) in Hsk. rewrite length_skipn in Hsk.
        cbn [length] in Hsk. unfold n in *. lia. }
      rewrite finish_cs_tls.
      right. left. split; [lia|].
      eexists. split; [|split].
      * f_equal. rewrite Z2Nat.id by lia. lia.
      * replace (0 + (off + Z.of_nat (Z.to_nat (LL - k))
                      - (off + Z.of_nat (Z.to_nat (LL - k))))) with 0 by lia.
        apply Hdone.
      * reflexivity.
    + rewrite ch_run_compn.
      assert (LL - k < n).
      { destruct (Z.eq_dec n (LL - k)) as [He|]; [|lia].
        apply (f_equal (@length Z)) in Hsk. rewrite length_skipn in Hsk.
        cbn [length] in Hsk. unfold n in *. lia. }
      right. right. split; [lia|].
      eexists. split; [reflexivity|]. cbn [e_tls e_off e_p].
      split; [apply Hdone|]. split; [rewrite Z2Nat.id by lia; reflexivity|].
      reflexivity.
Qed.

Lemma cs_result_shift : forall R k n off pl d,
  0 <= d -> d <= n -> k + d <= LL ->
  cs_result R (k + d) (n - d) (off + d) (skipn (Z.to_nat d) pl) ->
  cs_result R k n off pl.
Proof.
  intros R k n off pl d Hd Hdn Hk [H|[Hnf H]].
  - left. destruct H as (tls' & j & H1 & H2 & H3 & H4 & H5).
    exists tls', j. repeat split; try tauto; lia.
  - right. replace (k + d + (n - d)) with (k + n) in * by lia.
    split; [exact Hnf|].
    destruct H as [[Hlt (tls' & H1 & H2)]|[[Heq (tls' & H1 & H2)]|
                   [Hgt (e' & H1 & H2 & H3 & H4)]]].
    + left. split; [lia|]. exists tls'. split; [|exact H2].
      rewrite H1. f_equal. lia.
    + right. left. split; [lia|]. exists tls'. split; [|exact H2].
      rewrite H1. f_equal. lia.
    + right. right. split; [lia|]. exists e'.
      split; [exact H1|]. split; [exact H2|].
      split; [lia|].
      rewrite H4, skipn_skipn. f_equal. lia.
Qed.

Lemma reneg_upto_succ : forall j,
  reneg_upto (S j) = scsv_reneg (reneg_upto j) (nth j suites 0).
Proof. reflexivity. Qed.

Lemma half_even : forall j, (2 * j + 2) / 2 = j + 1.
Proof.
  intro j. replace (2 * j + 2) with ((j + 1) * 2) by lia.
  apply Z.div_mul. lia.
Qed.

Lemma half_even0 : forall j, (2 * j) / 2 = j.
Proof. intro j. rewrite Z.mul_comm. apply Z.div_mul. lia. Qed.

Lemma half_odd : forall j, (2 * j + 1) / 2 = j.
Proof.
  intro j. symmetry. apply Z.div_unique with (r := 1); lia.
Qed.

Lemma MM_cases : (MM = LL /\ LL <= SS) \/ (MM = SS /\ SS < LL).
Proof. unfold MM. lia. Qed.

(** What follows the completion of suite [j]. *)
Lemma after_suite : forall fuel j cssv' reneg' r sub rest off' soff,
  0 <= j < css_max -> 2 * j + 2 <= LL ->
  stored cssv' (j + 1) ->
  reneg' = reneg_upto (Z.to_nat (j + 1)) ->
  no_fail_before (j + 1) ->
  (rest <> [] -> 2 * j + 2 < LL ->
   forall cur,
     cur = 2 * j + 2 ->
     cs_result
       (ch_run css_max fuel TTLS_CH_HS_CS
          (mkEnv (cs_tls t0 cssv' cur LL reneg' (hl_at cur) 0 sub)
                 rest off' off'))
       (2 * j + 2) (Z.of_nat (length rest)) off' rest) ->
  cs_result
    (match TTLS_HS_FSM_MOVE
             (if 2 * j + 2 =? LL then TTLS_CH_HS_COMPN else TTLS_CH_HS_CS)
             (mkEnv (cs_tls t0 cssv' (2 * j + 2) LL reneg'
                            (hl_at (2 * j + 2)) r sub)
                    rest off' soff) with
     | Jmp st' e' => ch_run css_max fuel st' e'
     | Exit st' e' =>
         let '(tls, rd) := TTLS_HS_FSM_FINISH st' e' in Postponed tls rd
     | Ret r tls => Returned r tls
     | Bug | Fault => Crashed
     end)
    (2 * j + 2) (Z.of_nat (length rest)) off' rest.
Proof.
  intros fuel j cssv' reneg' r sub rest off' soff Hj HjL Hst Hre Hnf Hrec.
  pose proof MM_cases as HM. pose proof SS_eq as HSS.
  rewrite move_cs_tls.
  destruct rest as [|b rest'].
  - (* the chunk ends with this suite *)
    rewrite finish_cs_tls. cbn [length Z.of_nat].
    replace (0 + (off' - off')) with 0 by lia.
    right. rewrite Z.add_0_r. split.
    { rewrite half_even. apply (no_fail_le (j + 1)); [exact Hnf|]. lia. }
    destruct (Z.eqb_spec (2 * j + 2) LL) as [He|Hne].
    + right. left. split; [exact He|].
      eexists. split; [f_equal; lia|]. split; [|reflexivity].
      exists cssv', TTLS_CH_HS_COMPN.
      assert (HMM : MM = LL) by lia.
      rewrite HMM, <- He, half_even.
      split; [rewrite <- Hre; reflexivity | exact Hst].
    + left. split; [lia|].
      eexists. split; [f_equal; lia|].
      exists cssv', (2 * j + 2), reneg', 0.
      cbn [substate cs_tls].
      split; [reflexivity|]. split.
      * destruct (Z_lt_le_dec (2 * j + 2) MM) as [Hlt|Hge].
        -- left. rewrite half_even.
           split; [exact Hlt|]. split; [reflexivity|].
           split; [lia|]. split.
           { replace (2 * j + 2) with (0 + (j + 1) * 2) by lia.
             rewrite Z.mod_add by lia. reflexivity. }
           split; [exact Hst|]. split; [intros; lia | exact Hre].
        -- right. assert (j + 1 = css_max) by lia.
           split; [lia|]. split; [right; split; [reflexivity|lia]|].
           split; [reflexivity|]. split; [reflexivity|].
           split; [congruence|congruence].
      * rewrite half_even. exact Hnf.
  - destruct (Z.eqb_spec (2 * j + 2) LL) as [He|Hne].
    + rewrite ch_run_compn.
      right. split.
      { apply (no_fail_le (j + 1)); [exact Hnf|].
        rewrite <- He, half_even. lia. }
      right. right. split; [cbn [length]; lia|].
      eexists. split; [reflexivity|]. cbn [e_tls e_off e_p].
      split; [|split].
      * exists cssv', sub.
        assert (HMM : MM = LL) by lia.
        rewrite HMM, <- He, half_even.
        split; [rewrite <- Hre; reflexivity | exact Hst].
      * lia.
      * rewrite <- He, Z.sub_diag. reflexivity.
    + apply Hrec; [discriminate | lia | reflexivity].
Qed.

Lemma phase_after_suite : forall j cssv' reneg',
  0 <= j < css_max -> 2 * j + 2 < LL ->
  stored cssv' (j + 1) ->
  reneg' = reneg_upto (Z.to_nat (j + 1)) ->
  cs_phase (2 * j + 2) TTLS_CH_HS_CS cssv' (2 * j + 2) reneg' 0.
Proof.
  intros j cssv' reneg' Hj HjL Hst Hre.
  pose proof MM_cases as HM. pose proof SS_eq as HSS.
  destruct (Z_lt_le_dec (2 * j + 2) MM) as [Hlt|Hge].
  - left. rewrite half_even.
    split; [exact Hlt|]. split; [reflexivity|].
    split; [lia|]. split.
    { replace (2 * j + 2) with (0 + (j + 1) * 2) by lia.
      rewrite Z.mod_add by lia. reflexivity. }
    split; [exact Hst|]. split; [intros; lia | exact Hre].
  - right. assert (j + 1 = css_max) by lia.
    split; [lia|]. split; [right; split; [reflexivity|lia]|].
    split; [reflexivity|]. split; [reflexivity|].
    split; congruence.
Qed.

Lemma wire_even : forall j, wire_byte (2 * j) = suite_at j / 256.
Proof.
  intro j. unfold wire_byte. rewrite half_even0.
  replace (Z.even (2 * j)) with true; [reflexivity|].
  symmetry. rewrite Z.even_mul. reflexivity.
Qed.

Lemma wire_odd : forall j, wire_byte (2 * j + 1) = suite_at j mod 256.
Proof.
  intro j. unfold wire_byte. rewrite half_odd.
  replace (Z.even (2 * j + 1)) with false; [reflexivity|].
  symmetry. rewrite Z.even_add, Z.even_mul. reflexivity.
Qed.

(** The run of one call from [CS]. *)
Lemma run_cs : forall m fuel k cssv cur reneg r sub pl off,
  length pl = m -> (m + 2 <= fuel)%nat -> m <> O ->
  0 <= k < LL ->
  cs_phase k TTLS_CH_HS_CS cssv cur reneg r ->
  agrees pl k ->
  no_fail_before (k / 2) ->
  cs_result
    (ch_run css_max fuel TTLS_CH_HS_CS
       (mkEnv (cs_tls t0 cssv cur LL reneg (hl_at cur) r sub) pl off off))
    k (Z.of_nat m) off pl.
Proof.
  induction m as [m IH] using lt_wf_ind.
  intros fuel k cssv cur reneg r sub pl off Hlen Hfuel Hm Hk Hph Hag Hnf.
  pose proof MM_cases as HM. pose proof SS_eq as HSS.
  destruct fuel as [|[|fuel]]; try lia.
  rewrite ch_run_step by discriminate. unfold ch_step.
  destruct Hph as [(Hlt & _ & Hcur & Hr & Hst & Hhi & Hre)
                  |(Hge & Hstk & Hcur & Hr & Hst & Hre)].
  - (* a suite is read *)
    set (j := k / 2) in *.
    assert (Hkj : k = 2 * j + r).
    { subst r. unfold j. apply Z.div_mod. lia. }
    assert (Hr01 : r = 0 \/ r = 1).
    { pose proof (Z.mod_pos_bound k 2). lia. }
    assert (Hj : 0 <= j < css_max).
    { unfold j. split; [apply Z.div_pos; lia|].
      apply Z.div_lt_upper_bound; lia. }
    assert (HjL : 2 * j + 2 <= LL).
    { assert (j < Z.of_nat (length suites)).
      { unfold j. apply Z.div_lt_upper_bound; [lia|]. fold LL. lia. }
      unfold LL. lia. }
    assert (Hsr : suite_range (suite_at j)).
    { apply suite_at_range. pose proof LL_half as HH. rewrite HH.
      unfold LL in HjL. lia. }
    assert (Hslot : (Z.to_nat (cur / 2) < length cssv)%nat).
    { rewrite Hcur, half_even0. destruct Hst as [Hl _]. lia. }
    assert (Hcs : cur < sizeof_css css_max).
    { fold SS. lia. }
    destruct Hr01 as [Hr0|Hr1].
    + (* at the first byte of suite [j] *)
      rewrite Hr0 in *. clear Hhi.
      assert (Hk2 : k = 2 * j) by lia.
      destruct pl as [|b0 [|b1 rest]].
      * cbn [length] in Hlen. lia.
      * (* only the high byte is here *)
        rewrite st_cs_first by exact Hcs.
        rewrite finish_cs_tls.
        assert (Hb0 : b0 = suite_at j / 256).
        { rewrite (agrees_head _ _ _ Hag) by lia.
          rewrite Hk2. apply wire_even. }
        cbn [length] in Hlen. subst m. cbn [Z.of_nat Pos.of_succ_nat].
        right. split.
        { apply (no_fail_le (k / 2)); [exact Hnf|].
          fold j. rewrite Hk2, half_odd. lia. }
        left. split; [lia|].
        eexists. split; [reflexivity|].
        exists (upd cssv (Z.to_nat (cur / 2)) (u16 (Z.shiftl b0 8))),
               cur, reneg, 1.
        cbn [substate cs_tls].
        split; [unfold cs_tls; f_equal; f_equal; lia|]. split.
        -- left. rewrite Hk2, half_odd.
           split; [lia|]. split; [reflexivity|]. split; [lia|].
           split.
           { replace (2 * j + 1) with (1 + j * 2) by lia.
             rewrite Z.mod_add by lia. reflexivity. }
           rewrite Hcur, half_even0.
           split; [apply stored_upd_high; assumption|].
           split; [|exact Hre].
           intros _. rewrite nth_upd_same.
           ++ rewrite Hb0. apply u16_high. exact Hsr.
           ++ destruct Hst as [Hl _]. lia.
        -- rewrite Hk2, half_odd. fold j in Hnf. exact Hnf.
      * (* the whole suite is here *)
        rewrite st_cs_full by assumption.
        assert (Hb0 : b0 = suite_at j / 256).
        { rewrite (agrees_head _ _ _ Hag) by lia.
          rewrite Hk2. apply wire_even. }
        assert (Hb1 : b1 = suite_at j mod 256).
        { rewrite (agrees_head _ _ _ (agrees_tail _ _ _ Hag)) by lia.
          rewrite Hk2. apply wire_odd. }
        rewrite Hb0, Hb1, u16_join by exact Hsr.
        rewrite Hcur, half_even0.
        destruct (scsv_fails t0 (suite_at j)) eqn:Hf.
        -- left. eexists. exists j.
           split; [reflexivity|]. split; [reflexivity|].
           split; [exact Hj|]. cbn [length] in Hlen.
           split; [lia|]. split; [lia|]. split; [exact Hf|exact Hnf].
        -- apply (cs_result_shift _ k (Z.of_nat m) off _ 2); try lia.
           { cbn [length] in Hlen. lia. }
           replace (Z.of_nat m - 2) with (Z.of_nat (length rest))
             by (cbn [length] in Hlen; lia).
           change (skipn (Z.to_nat 2) (b0 :: b1 :: rest)) with rest.
           replace (k + 2) with (2 * j + 2) by lia.
           rewrite hl_at_sub by lia.
           assert (Hst' : stored (upd cssv (Z.to_nat j) (suite_at j)) (j + 1))
             by (apply stored_upd; auto).
           assert (Hre' : scsv_reneg reneg (suite_at j)
                          = reneg_upto (Z.to_nat (j + 1))).
           { replace (Z.to_nat (j + 1)) with (S (Z.to_nat j)) by lia.
             rewrite reneg_upto_succ, <- Hre. reflexivity. }
           assert (Hnf' : no_fail_before (j + 1))
             by (apply no_fail_step; assumption).
           apply after_suite; auto.
           intros Hrest HjL' cur' Hcur'. subst cur'.
           apply (IH (length rest)).
           ++ cbn [length] in Hlen. lia.
           ++ reflexivity.
           ++ cbn [length] in *. lia.
           ++ destruct rest; [exfalso; apply Hrest; reflexivity|]. discriminate.
           ++ lia.
           ++ apply phase_after_suite; auto.
           ++ replace (2 * j + 2) with (k + Z.of_nat 2) by lia.
              apply (agrees_skip (b0 :: b1 :: rest) k 2 Hag).
           ++ rewrite half_even. exact Hnf'.
    + (* at the second byte of suite [j] *)
      rewrite Hr1 in *.
      assert (Hk2 : k = 2 * j + 1) by lia.
      destruct pl as [|b1 rest].
      * cbn [length] in Hlen. lia.
      * rewrite st_cs_second by assumption.
        assert (Hb1 : b1 = suite_at j mod 256).
        { rewrite (agrees_head _ _ _ Hag) by lia.
          rewrite Hk2. apply wire_odd. }
        rewrite Hcur, half_even0.
        rewrite (Hhi eq_refl), Hb1, u16_low by exact Hsr.
        destruct (scsv_fails t0 (suite_at j)) eqn:Hf.
        -- left. eexists. exists j.
           split; [reflexivity|]. split; [reflexivity|].
           split; [exact Hj|]. cbn [length] in Hlen.
           split; [lia|]. split; [lia|]. split; [exact Hf|exact Hnf].
        -- apply (cs_result_shift _ k (Z.of_nat m) off _ 1); try lia.
           replace (Z.of_nat m - 1) with (Z.of_nat (length rest))
             by (cbn [length] in Hlen; lia).
           change (skipn (Z.to_nat 1) (b1 :: rest)) with rest.
           replace (k + 1) with (2 * j + 2) by lia.
           rewrite hl_at_sub by lia.
           assert (Hst' : stored (upd cssv (Z.to_nat j) (suite_at j)) (j + 1))
             by (apply stored_upd; auto).
           assert (Hre' : scsv_reneg reneg (suite_at j)
                          = reneg_upto (Z.to_nat (j + 1))).
           { replace (Z.to_nat (j + 1)) with (S (Z.to_nat j)) by lia.
             rewrite reneg_upto_succ, <- Hre. reflexivity. }
           assert (Hnf' : no_fail_before (j + 1))
             by (apply no_fail_step; assumption).
           apply after_suite; auto.
           intros Hrest HjL' cur' Hcur'. subst cur'.
           apply (IH (length rest)).
           ++ cbn [length] in Hlen. lia.
           ++ reflexivity.
           ++ cbn [length] in *. lia.
           ++ destruct rest; [exfalso; apply Hrest; reflexivity|]. discriminate.
           ++ lia.
           ++ apply phase_after_suite; auto.
           ++ replace (2 * j + 2) with (k + 1) by lia.
              apply (agrees_tail _ _ _ Hag).
           ++ rewrite half_even. exact Hnf'.
  - (* the storage is full *)
    destruct Hstk as [Hx|[_ HkS]]; [discriminate|].
    subst r cur.
    rewrite st_cs_overflow by (fold SS; lia).
    rewrite move_cs_tls.
    destruct pl as [|b rest]; [cbn [length] in Hlen; lia|].
    rewrite <- Hlen.
    apply run_skip; auto; try lia; try discriminate.
    intros i Hi Hc. apply Hnf; [|exact Hc].
    rewrite HkS, HSS, half_even0. lia.
Qed.

Hypothesis hstype_ok : hstype (io_in t0) = TTLS_HS_CLIENT_HELLO.

(** One call, [k] bytes into the list. *)
Lemma parse_call : forall k tls c,
  cs_inv k tls -> 0 <= k < LL -> c <> [] -> agrees c k ->
  cs_result (ttls_parse_client_hello css_max tls c)
            k (Z.of_nat (length c)) 0 c.
Proof.
  intros k tls c (cssv & cur & reneg & r & Htls & Hph & Hnf) Hk Hc Hag.
  unfold ttls_parse_client_hello.
  replace (hstype (io_in tls)) with (hstype (io_in t0))
    by (rewrite Htls; reflexivity).
  rewrite hstype_ok, Z.eqb_refl. cbv beta iota delta [negb].
  assert (Hlen : length c <> O) by (destruct c; [congruence|discriminate]).
  remember (substate tls) as st eqn:Hst0. clear Hst0.
  subst tls.
  pose proof MM_cases as HM.
  destruct Hph as [(H1 & Hsub & H2)|(H1 & Hsub & Hcur & Hr & Hst & Hre)].
  - subst st.
    apply (run_cs (length c)); auto; try lia.
    left. tauto.
  - destruct Hsub as [Hsub|[Hsub HkS]]; subst st.
    + subst cur r.
      replace (2 * length c + 8)%nat with (S (2 * length c + 7)) by lia.
      apply run_skip; auto; try lia.
      intros i Hi Hci. apply Hnf; [|exact Hci].
      assert (css_max <= k / 2).
      { apply Z.div_le_lower_bound; [lia|]. pose proof SS_eq. lia. }
      lia.
    + apply (run_cs (length c)); auto; try lia.
      right. split; [exact H1|].
      split; [right; split; [reflexivity|exact HkS]|].
      split; [exact Hcur|]. split; [exact Hr|]. split; assumption.
Qed.

(** Once the list is in, the next call is at the compression methods. *)
Lemma feed_done : forall tls chunks,
  cs_done tls -> substate tls = TTLS_CH_HS_COMPN -> chunks <> [] ->
  exists c, ch_feed css_max tls chunks = (Compression (mkEnv tls c 0 0), 0).
Proof.
  intros tls chunks (cssv & sub & Htls & Hst) Hsub Hne.
  assert (Hp : forall c, ttls_parse_client_hello css_max tls c
                         = Compression (mkEnv tls c 0 0)).
  { intro c. unfold ttls_parse_client_hello.
    replace (hstype (io_in tls)) with (hstype (io_in t0))
      by (rewrite Htls; reflexivity).
    rewrite hstype_ok, Z.eqb_refl. cbv beta iota delta [negb].
    rewrite Hsub. apply ch_run_compn. }
  destruct chunks as [|c [|c2 cs]]; [congruence| |].
  - exists c. cbn [ch_feed]. rewrite Hp. reflexivity.
  - exists c. cbn [ch_feed]. rewrite Hp. reflexivity.
Qed.

(** How feeding ends, [k] bytes into the list, for [n] further bytes. *)
Definition feed_result (R : ch_result) (before : Z) (k n : Z) : Prop :=
  (exists tls' j,
      R = Returned TTLS_ERR_BAD_HS_CLIENT_HELLO tls'
      /\ alerts tls' = alerts t0 ++ [inappropriate_fallback]
      /\ 0 <= j < css_max /\ 2 * j + 2 <= k + n /\ 2 * j + 2 <= LL
      /\ scsv_fails t0 (suite_at j) = true
      /\ no_fail_before j)
  \/ (no_fail_before (Z.min ((k + n) / 2) (LL / 2))
      /\ ((k + n < LL
           /\ exists tls' rd, R = Postponed tls' rd /\ before + rd = n
                              /\ cs_inv (k + n) tls')
          \/ (k + n = LL
              /\ exists tls' rd, R = Postponed tls' rd /\ before + rd = n
                                 /\ cs_done tls'
                                 /\ substate tls' = TTLS_CH_HS_COMPN)
          \/ (LL < k + n
              /\ exists e', R = Compression e'
                            /\ cs_done (e_tls e')
                            /\ before + e_off e' = LL - k))).

Lemma agrees_app_l : forall c rest k, agrees (c ++ rest) k -> agrees c k.
Proof.
  intros c rest k H i Hi Hk.
  rewrite <- (app_nth1 c rest 0 Hi). apply H; [|exact Hk].
  rewrite length_app. lia.
Qed.

Lemma agrees_app_r : forall c rest k,
  agrees (c ++ rest) k -> agrees rest (k + Z.of_nat (length c)).
Proof.
  intros c rest k H.
  apply (agrees_skip _ _ (length c)) in H.
  rewrite skipn_app, skipn_all, Nat.sub_diag in H. exact H.
Qed.

Lemma feed_list : forall chunks k tls,
  cs_inv k tls -> 0 <= k < LL ->
  chunks <> [] -> Forall (fun c => c <> []) chunks ->
  agrees (concat chunks) k ->
  feed_result (fst (ch_feed css_max tls chunks))
              (snd (ch_feed css_max tls chunks))
              k (Z.of_nat (length (concat chunks))).
Proof.
  unfold feed_result.
  induction chunks as [|c cs IH]; intros k tls Hinv Hk Hne Hall Hag;
    [congruence|].
  inversion Hall as [|c' cs' Hc Hcs]; subst c' cs'.
  cbn [concat] in *.
  pose proof (parse_call k tls c Hinv Hk Hc (agrees_app_l _ _ _ Hag)) as Hcall.
  destruct cs as [|c2 cs].
  - (* the last chunk *)
    cbn [ch_feed concat fst snd]. rewrite app_nil_r.
    destruct Hcall as [H|[Hnf H]].
    + left. exact H.
    + right. rewrite Z.add_0_l in *. split; [exact Hnf|].
      destruct H as [[Hlt (tls' & H1 & H2)]|[[Heq (tls' & H1 & H2 & H3)]|
                     [Hgt (e' & H1 & H2 & H3 & H4)]]].
      * left. split; [exact Hlt|]. exists tls'. eexists.
        split; [exact H1|]. split; [lia|exact H2].
      * right. left. split; [exact Heq|]. exists tls'. eexists.
        split; [exact H1|]. split; [lia|]. split; assumption.
      * right. right. split; [exact Hgt|]. exists e'.
        split; [exact H1|]. split; [exact H2|]. lia.
  - assert (Hn2 : 0 < Z.of_nat (length (concat (c2 :: cs)))).
    { inversion Hcs as [|x y Hc2 _]; subst.
      cbn [concat]. rewrite length_app.
      destruct c2; [congruence|]. cbn [length]. lia. }
    rewrite length_app, Nat2Z.inj_add.
    set (n1 := Z.of_nat (length c)) in *.
    set (n2 := Z.of_nat (length (concat (c2 :: cs)))) in *.
    destruct Hcall as [H|[Hnf H]].
    + left. destruct H as (tls' & j & H1 & H2 & H3 & H4 & H5).
      exists tls', j. rewrite ch_feed_cons, H1. cbn [fst snd].
      repeat split; try tauto; lia.
    + destruct H as [[Hlt (tls' & H1 & H2)]|[[Heq (tls' & H1 & H2 & H3)]|
                     [Hgt (e' & H1 & H2 & H3 & H4)]]].
      * (* more of the list is to come *)
        rewrite ch_feed_cons, H1.
        specialize (IH (k + n1) tls' H2).
        assert (Hk' : 0 <= k + n1 < LL) by (unfold n1 in *; lia).
        specialize (IH Hk' ltac:(discriminate) Hcs
                       (agrees_app_r _ _ _ Hag)).
        fold n2 in IH.
        destruct (ch_feed css_max tls' (c2 :: cs)) as [R nb].
        cbn [fst snd] in *.
        replace (k + (n1 + n2)) with (k + n1 + n2) by lia.
        destruct IH as [H|[Hnf' H]].
        -- left. exact H.
        -- right. split; [exact Hnf'|].
           destruct H as [[Hlt' (t & rd & G1 & G2 & G3)]
                         |[[Heq' (t & rd & G1 & G2 & G3 & G4)]
                          |[Hgt' (e' & G1 & G2 & G3)]]].
           ++ left. split; [exact Hlt'|]. exists t, rd.
              split; [exact G1|]. split; [lia|exact G3].
           ++ right. left. split; [exact Heq'|]. exists t, rd.
              split; [exact G1|]. split; [lia|]. split; assumption.
           ++ right. right. split; [exact Hgt'|]. exists e'.
              split; [exact G1|]. split; [exact G2|]. lia.
      * (* the list ended with this chunk; the next call goes on *)
        rewrite ch_feed_cons, H1.
        destruct (feed_done tls' (c2 :: cs) H2 H3 ltac:(discriminate))
          as (c3 & Hfd).
        rewrite Hfd. cbn [fst snd].
        right. split.
        { apply (no_fail_le _ _ Hnf). rewrite Heq. lia. }
        right. right. split; [lia|].
        eexists. split; [reflexivity|]. cbn [e_tls e_off].
        split; [exact H2|]. unfold n1 in *. lia.
      * rewrite ch_feed_cons, H1. cbn [fst snd].
        right. split.
        { apply (no_fail_le _ _ Hnf).
          assert (LL / 2 <= (k + n1) / 2) by (apply Z.div_le_mono; lia).
          lia. }
        right. right. split; [lia|].
        exists e'. split; [reflexivity|]. split; [exact H2|]. lia.
Qed.

Lemma reneg_upto_spec : forall j,
  reneg_upto j
  = if existsb (Z.eqb TTLS_EMPTY_RENEGOTIATION_INFO) (firstn j suites)
    then 1 else secure_renegotiation (hs t0).
Proof.
  induction j as [|j IH]; [reflexivity|].
  rewrite reneg_upto_succ, IH. unfold scsv_reneg.
  destruct (Nat.lt_ge_cases j (length suites)) as [Hlt|Hge].
  - rewrite (firstn_snoc_nth _ _ 0) by exact Hlt.
    rewrite existsb_app. cbn [existsb]. rewrite orb_false_r.
    rewrite (Z.eqb_sym (nth j suites 0)).
    destruct (existsb _ (firstn j suites));
      destruct (TTLS_EMPTY_RENEGOTIATION_INFO =? nth j suites 0); reflexivity.
  - rewrite nth_overflow by exact Hge.
    rewrite !firstn_all2 by lia.
    change (0 =? TTLS_EMPTY_RENEGOTIATION_INFO) with false. reflexivity.
Qed.


End SuiteList.

Lemma nth_suite_bytes : forall suites i,
  (i < 2 * length suites)%nat ->
  nth i (suite_bytes suites) 0 = wire_byte suites (Z.of_nat i).
Proof.
  induction suites as [|v suites IH]; intros i Hi; [cbn in Hi; lia|].
  cbn [suite_bytes flat_map app].
  destruct i as [|[|i]].
  - reflexivity.
  - reflexivity.
  - cbn [nth]. fold (suite_bytes suites).
    rewrite IH by (cbn [length] in Hi; lia).
    unfold wire_byte, suite_at.
    assert (He : Z.even (Z.of_nat (S (S i))) = Z.even (Z.of_nat i)).
    { replace (Z.of_nat (S (S i))) with (Z.of_nat i + 2 * 1) by lia.
      apply Z.even_add_mul_2. }
    assert (Hd : Z.of_nat (S (S i)) / 2 = Z.of_nat i / 2 + 1).
    { replace (Z.of_nat (S (S i))) with (Z.of_nat i + 1 * 2) by lia.
      apply Z.div_add. lia. }
    rewrite He, Hd.
    replace (Z.to_nat (Z.of_nat i / 2 + 1)) with (S (Z.to_nat (Z.of_nat i / 2))).
    + reflexivity.
    + assert (0 <= Z.of_nat i / 2) by (apply Z.div_pos; lia). lia.
Qed.

Lemma length_suite_bytes : forall suites,
  length (suite_bytes suites) = (2 * length suites)%nat.
Proof.
  induction suites as [|v suites IH]; [reflexivity|].
  cbn [suite_bytes flat_map app length]. fold (suite_bytes suites).
  rewrite IH. lia.
Qed.

(** The context when the first byte of the suite list arrives: the list
    length has been read and announces the suites [suites]. *)
Definition at_list_start (css_max : Z) (t0 : TlsCtx) (suites : list Z)
  : Prop :=
  substate t0 = TTLS_CH_HS_CS
  /\ hstype (io_in t0) = TTLS_HS_CLIENT_HELLO
  /\ rlen (io_in t0) = 0
  /\ cs_total_len (hs t0) = 2 * Z.of_nat (length suites)
  /\ cs_cur_len (hs t0) = 0
  /\ Z.of_nat (length (css (hs t0))) = css_max.

(** The chunks are a non-empty cut of a prefix of the bytes that follow. *)
Definition chunks_of (chunks : list (list Z)) (stream : list Z) : Prop :=
  chunks <> []
  /\ Forall (fun c => c <> []) chunks
  /\ exists rest, stream = concat chunks ++ rest.

Lemma cs_inv_start : forall css_max t0 suites,
  0 < css_max -> suites <> [] ->
  at_list_start css_max t0 suites ->
  cs_inv css_max t0 suites 0 t0.
Proof.
  intros css_max t0 suites Hmax Hne (H1 & H2 & H3 & H4 & H5 & H6).
  exists (css (hs t0)), 0, (secure_renegotiation (hs t0)), 0.
  split; [|split].
  - destruct t0 as [ma mi cf se h io st al].
    destruct h; destruct io. cbn in *. subst.
    unfold cs_tls, hl_at, hl0, LL. cbn. reflexivity.
  - left. change (0 / 2) with 0. change (0 mod 2) with 0.
    assert (0 < Z.of_nat (length suites)).
    { destruct suites; [congruence|]. cbn [length]. lia. }
    split; [unfold MM, LL, SS, sizeof_css; lia|].
    split; [exact H1|]. split; [reflexivity|]. split; [reflexivity|].
    split; [split; [exact H6|intros; lia]|].
    split; [intros; lia|reflexivity].
  - intros i Hi. change (0 / 2) with 0 in Hi. lia.
Qed.

Lemma agrees_start : forall suites tail l rest,
  suite_bytes suites ++ tail = l ++ rest ->
  agrees suites l 0.
Proof.
  intros suites tail l rest Heq i Hi Hk.
  rewrite Z.add_0_l in *.
  assert (Hi2 : (i < 2 * length suites)%nat) by (unfold LL in Hk; lia).
  rewrite <- nth_suite_bytes by exact Hi2.
  rewrite <- (app_nth1 l rest 0 Hi), <- Heq.
  apply app_nth1. rewrite length_suite_bytes. exact Hi2.
Qed.

Lemma no_fail_of_absent : forall css_max t0 suites,
  (minor t0 < max_minor_ver (conf t0) ->
   ~ In TTLS_FALLBACK_SCSV_VALUE (firstn (Z.to_nat css_max) suites)) ->
  no_fail_before css_max t0 suites css_max.
Proof.
  intros css_max t0 suites H i Hi _.
  unfold scsv_fails.
  destruct (Z.eqb_spec (suite_at suites i) TTLS_FALLBACK_SCSV_VALUE)
    as [He|Hne]; [|reflexivity].
  destruct (Z.ltb_spec (minor t0) (max_minor_ver (conf t0))) as [Hlt|Hge];
    [|reflexivity].
  exfalso. apply (H Hlt). rewrite <- He. unfold suite_at.
  destruct (Nat.lt_ge_cases (Z.to_nat i) (length suites)) as [Hl|Hl].
  - assert (Hn : nth (Z.to_nat i) (firstn (Z.to_nat css_max) suites) 0
                 = nth (Z.to_nat i) suites 0).
    { rewrite nth_firstn.
      replace (Z.to_nat i <? Z.to_nat css_max)%nat with true; [reflexivity|].
      symmetry. apply Nat.ltb_lt. lia. }
    rewrite <- Hn. apply nth_In. rewrite length_firstn. lia.
  - unfold suite_at in He. rewrite nth_overflow in He by exact Hl.
    discriminate He.
Qed.

(** How feeding ends once the whole list is in: at the compression methods,
    in the context [tls'], [consumed] bytes after the start of the list. *)
Definition list_parsed (css_max : Z) (t0 : TlsCtx) (chunks : list (list Z))
    (tls' : TlsCtx) (consumed : Z) : Prop :=
  (exists rd,
      fst (ch_feed css_max t0 chunks) = Postponed tls' rd
      /\ substate tls' = TTLS_CH_HS_COMPN
      /\ consumed = snd (ch_feed css_max t0 chunks) + rd)
  \/ (exists e',
         fst (ch_feed css_max t0 chunks) = Compression e'
         /\ tls' = e_tls e'
         /\ consumed = snd (ch_feed css_max t0 chunks) + e_off e').

Lemma feed_complete : forall css_max t0 suites chunks tail,
  0 < css_max -> Forall suite_range suites -> suites <> [] ->
  2 * Z.of_nat (length suites) < 2 ^ 16 ->
  at_list_start css_max t0 suites ->
  no_fail_before css_max t0 suites css_max ->
  chunks_of chunks (suite_bytes suites ++ tail) ->
  2 * Z.of_nat (length suites) <= Z.of_nat (length (concat chunks)) ->
  exists tls',
    list_parsed css_max t0 chunks tls' (2 * Z.of_nat (length suites))
    /\ cs_done css_max t0 suites tls'.
Proof.
  intros css_max t0 suites chunks tail Hmax Hsu Hne H16 Hstart Hnf
         (Hc1 & Hc2 & rest & Hc3) Hlen.
  assert (Hty : hstype (io_in t0) = TTLS_HS_CLIENT_HELLO)
    by (destruct Hstart as (_ & H & _); exact H).
  assert (HL : 0 < 2 * Z.of_nat (length suites)).
  { destruct suites; [congruence|]. cbn [length]. lia. }
  pose proof (feed_list css_max t0 suites Hmax Hsu H16 Hty chunks 0 t0
                (cs_inv_start _ _ _ Hmax Hne Hstart)
                ltac:(unfold LL; lia) Hc1 Hc2
                (agrees_start _ _ _ _ Hc3)) as HF.
  unfold feed_result in HF. rewrite !Z.add_0_l in HF. unfold LL in HF.
  destruct HF as [(tls' & j & _ & _ & Hj & _ & _ & Hf & _)|[_ HF]].
  - rewrite (Hnf j) in Hf by lia. discriminate.
  - destruct HF as [[Hlt _]|[[Heq (tls' & rd & H1 & H2 & H3 & H4)]
                            |[Hgt (e' & H1 & H2 & H3)]]].
    + lia.
    + exists tls'. split; [|exact H3].
      left. exists rd. repeat split; auto. lia.
    + exists (e_tls e'). split; [|exact H2].
      right. exists e'. repeat split; auto. lia.
Qed.

(** ** Suite selection *)

Section Choose.

Variable m : TlsCtx -> Z -> Z * option Z * TlsCtx.

(** The matcher leaves the stored peer list alone. *)
Hypothesis m_css : forall t v, css (hs (snd (m t v))) = css (hs t).




End Choose.

(** The zero-terminated preference list [ciphersuites]. *)
Fixpoint own_suites (prefs : list Z) : list Z :=
  match prefs with
  | [] => []
  | v :: rest => if v =? 0 then [] else v :: own_suites rest
  end.

(** [v] is one of [css[idx], ..., css[idx + todo - 1]]. *)
Definition occurs (cssv : list Z) (idx todo : nat) (v : Z) : bool :=
  existsb (fun i => nth i cssv 0 =? v) (seq idx todo).

(** [v] is among the stored suites of the peer. *)
Definition offered (tls : TlsCtx) (v : Z) : bool :=
  occurs (css (hs tls)) 0 (Z.to_nat (cs_total_len (hs tls) / 2)) v.

Definition is_some {A : Type} (o : option A) : bool :=
  match o with Some _ => true | None => false end.

Section ChooseOrder.

(** A matcher that knows every suite it is asked about, whose verdict
    [usable] does not depend on the context, and which leaves the context
    alone when it turns a suite down. *)
Variable m : TlsCtx -> Z -> Z * option Z * TlsCtx.
Variable usable : Z -> option Z.
Hypothesis m_ok : forall t v, fst (fst (m t v)) = 0.
Hypothesis m_verdict : forall t v, snd (fst (m t v)) = usable v.
Hypothesis m_keeps : forall t v, usable v = None -> snd (m t v) = t.

Lemma choose_scan_peer_order : forall todo tls v idx got,
  choose_scan_peer m tls v todo idx got
  = if occurs (css (hs tls)) idx todo v
    then match usable v with
         | Some c => ScanFound c (snd (m tls v))
         | None => ScanNone true tls
         end
    else ScanNone got tls.
Proof.
  induction todo as [|todo IH]; intros tls v idx got; [reflexivity|].
  cbn [choose_scan_peer]. unfold occurs in *. cbn [seq existsb].
  destruct (Z.eqb_spec (nth idx (css (hs tls)) 0) v) as [He|Hne];
    cbn [negb orb].
  - pose proof (m_ok tls v) as H1. pose proof (m_verdict tls v) as H2.
    pose proof (m_keeps tls v) as H3.
    destruct (m tls v) as [[r ci] tls1]. cbn [fst snd] in *. subst r ci.
    cbn [Z.eqb negb]. destruct (usable v) as [c|] eqn:Hu; [reflexivity|].
    rewrite (H3 eq_refl). rewrite IH, Hu.
    destruct (existsb _ _); reflexivity.
  - apply IH.
Qed.

Lemma choose_scan_own_order : forall prefs tls cnt got,
  match find (fun v => occurs (css (hs tls)) 0 cnt v && is_some (usable v))
             (own_suites prefs) with
  | Some v =>
      exists c tls',
        usable v = Some c
        /\ choose_scan_own m tls prefs cnt got = (ScanFound c tls', v)
  | None =>
      exists got', choose_scan_own m tls prefs cnt got = (ScanNone got' tls, 0)
  end.
Proof.
  induction prefs as [|v prefs IH]; intros tls cnt got.
  - exists got. reflexivity.
  - cbn [own_suites choose_scan_own].
    destruct (Z.eqb_spec v 0) as [Hv|Hv]; [exists got; reflexivity|].
    cbn [find]. rewrite choose_scan_peer_order.
    destruct (occurs (css (hs tls)) 0 cnt v) eqn:Ho; cbn [andb].
    + destruct (usable v) as [c|] eqn:Hu; cbn [is_some].
      * exists c, (snd (m tls v)). split; [exact Hu | reflexivity].
      * apply (IH tls cnt true).
    + apply (IH tls cnt got).
Qed.


End ChooseOrder.





Lemma MM_half : forall css_max suites,
  0 < css_max ->
  MM css_max suites / 2 = Z.min (Z.of_nat (length suites)) css_max.
Proof.
  intros. unfold MM, LL, SS, sizeof_css.
  replace (Z.min (2 * Z.of_nat (length suites)) (2 * css_max))
    with (Z.min (Z.of_nat (length suites)) css_max * 2) by lia.
  apply Z.div_mul. lia.
Qed.



(** What the amended C6 promises about the list [suites] fed as
    [chunks] from the context [t0]. *)
Definition scsv_outcome (css_max : Z) (t0 : TlsCtx) (suites : list Z)
    (chunks : list (list Z)) : Prop :=
  (forall j,
      0 <= j < css_max -> j < Z.of_nat (length suites) ->
      nth (Z.to_nat j) suites 0 = TTLS_FALLBACK_SCSV_VALUE ->
      minor t0 < max_minor_ver (conf t0) ->
      2 * j + 2 <= Z.of_nat (length (concat chunks)) ->
      exists tls',
        fst (ch_feed css_max t0 chunks)
        = Returned TTLS_ERR_BAD_HS_CLIENT_HELLO tls'
        /\ alerts tls' = alerts t0 ++ [inappropriate_fallback])
  /\ ((minor t0 < max_minor_ver (conf t0) ->
       ~ In TTLS_FALLBACK_SCSV_VALUE (firstn (Z.to_nat css_max) suites)) ->
      2 * Z.of_nat (length suites) <= Z.of_nat (length (concat chunks)) ->
      exists tls',
        list_parsed css_max t0 chunks tls' (2 * Z.of_nat (length suites))
        /\ alerts tls' = alerts t0
        /\ secure_renegotiation (hs tls')
           = if existsb (Z.eqb TTLS_EMPTY_RENEGOTIATION_INFO)
                        (firstn (Z.to_nat css_max) suites)
             then 1 else secure_renegotiation (hs t0)).

(** C6, as amended: a FALLBACK_SCSV among the first [css_max] suites of the
    list makes the handshake fail with a fatal inappropriate_fallback alert
    when the negotiated minor version is below [max_minor_ver], as soon as
    that suite is in; when no such suite is among the first [css_max], the
    list is parsed to its end without any alert, and
    [secure_renegotiation] is 1 if an EMPTY_RENEGOTIATION_INFO_SCSV is
    among the first [css_max] suites and keeps its value otherwise.  Both
    hold for every cut of the bytes into chunks. *)
Theorem scsv_checked_on_stored_suites :
  forall css_max t0 suites chunks tail,
    0 < css_max -> Forall suite_range suites -> suites <> [] ->
    2 * Z.of_nat (length suites) < 2 ^ 16 ->
    at_list_start css_max t0 suites ->
    chunks_of chunks (suite_bytes suites ++ tail) ->
    scsv_outcome css_max t0 suites chunks.
Proof.
  intros css_max t0 suites chunks tail Hmax Hsu Hne H16 Hstart Hch.
  split.
  - intros j Hj Hjl Hfb Hver Hcov.
    destruct Hch as (Hc1 & Hc2 & rest & Hc3).
    assert (Hty : hstype (io_in t0) = TTLS_HS_CLIENT_HELLO)
      by (destruct Hstart as (_ & H & _); exact H).
    pose proof (feed_list css_max t0 suites Hmax Hsu H16 Hty chunks 0 t0
                  (cs_inv_start _ _ _ Hmax Hne Hstart)
                  ltac:(unfold LL; lia) Hc1 Hc2
                  (agrees_start _ _ _ _ Hc3)) as HF.
    unfold feed_result in HF. rewrite !Z.add_0_l in HF.
    destruct HF as [(tls' & j' & H1 & H2 & _)|[Hnf _]].
    + exists tls'. split; assumption.
    + exfalso.
      assert (Hf : scsv_fails t0 (suite_at suites j) = false).
      { apply Hnf; [|lia]. split; [lia|].
        apply Z.min_glb_lt.
        - assert (j + 1 <= Z.of_nat (length (concat chunks)) / 2)
            by (apply Z.div_le_lower_bound; lia).
          lia.
        - rewrite LL_half. exact Hjl. }
      unfold scsv_fails, suite_at in Hf. rewrite Hfb, Z.eqb_refl in Hf.
      apply Z.ltb_lt in Hver. rewrite Hver in Hf. discriminate Hf.
  - intros Hfb Hlen.
    destruct (feed_complete css_max t0 suites chunks tail Hmax Hsu Hne H16
                Hstart (no_fail_of_absent _ _ _ Hfb) Hch Hlen)
      as (tls' & Hp & cssv & sub & Htls & Hst).
    exists tls'. split; [exact Hp|].
    rewrite Htls. cbn [alerts hs secure_renegotiation cs_tls].
    split; [reflexivity|].
    rewrite reneg_upto_spec, MM_half by exact Hmax.
    destruct (Z_le_gt_dec css_max (Z.of_nat (length suites))) as [Hle|Hgt].
    + rewrite Z.min_r by lia. reflexivity.
    + rewrite Z.min_l by lia. rewrite Nat2Z.id.
      rewrite firstn_all. rewrite firstn_all2 by lia. reflexivity.
Qed.

(** *** Instances *)

(** A context at the first byte of a list of [n] suites, with a storage of
    [css_max] entries; the negotiated minor version is 3. *)
Definition tls_at_suites (css_max n : nat) (max_minor : Z) : TlsCtx :=
  mkTls 3 3 (mkConf max_minor None false) (mkSess 0 (repeat 0 32%nat) 0 [])
        (mkHs (repeat 0 32%nat) (repeat 0 css_max) (2 * Z.of_nat n) 0 0 0 0 0
              0 0 0 (repeat 0 48%nat) 0)
        (mkIO TTLS_HS_CLIENT_HELLO 200 0) TTLS_CH_HS_CS [].


(** The suites [0x2F; 0xFF; 0x35] arrive at a storage of two entries;
    the server prefers [0x35], which was dropped, to [0x2F]: [0x2F] is
    chosen. *)
Lemma dropped_suite_is_not_selected :
  exists e' tls'',
    fst (ch_feed 2 (tls_at_suites 2 3 3) [[0; 0x2F; 0]; [0xFF; 0; 0x35; 1]])
    = Compression e'
    /\ ttls_choose_ciphersuite (fun t v => (0, Some v, t)) (e_tls e')
                               [0x35; 0x2F; 0]
       = inr (T_OK, tls'', Some 0x2F)
    /\ ciphersuite (sess tls'') = 0x2F.
Proof.
  eexists. eexists. split; [vm_compute; reflexivity|].
  split; [vm_compute; reflexivity | reflexivity].
Qed.

Lemma scsv_checked_on_stored_suites_witness :
  scsv_outcome 2 (tls_at_suites 2 3 4) [0x5600; 0xFF; 0x35]
               [[0x56]; [0; 0; 0xFF]].
Proof.
  apply (scsv_checked_on_stored_suites 2 (tls_at_suites 2 3 4)
           [0x5600; 0xFF; 0x35] [[0x56]; [0; 0; 0xFF]] [1]).
  - lia.
  - repeat constructor; unfold suite_range; lia.
  - discriminate.
  - cbn. lia.
  - repeat split; reflexivity.
  - split; [discriminate|]. split; [repeat constructor; discriminate|].
    exists [0; 0x35; 1]. reflexivity.
Defined.

(** C6 as the specification words it, for a message that arrives in one
    chunk: a FALLBACK_SCSV anywhere in the list is refused when the version
    is below the configured maximum. *)
Definition fallback_scsv_always_rejected (css_max : Z) : Prop :=
  forall t0 suites tail,
    Forall suite_range suites ->
    2 * Z.of_nat (length suites) < 2 ^ 16 ->
    at_list_start css_max t0 suites ->
    tail <> [] ->
    In TTLS_FALLBACK_SCSV_VALUE suites ->
    minor t0 < max_minor_ver (conf t0) ->
    exists tls',
      ttls_parse_client_hello css_max t0 (suite_bytes suites ++ tail)
      = Returned TTLS_ERR_BAD_HS_CLIENT_HELLO tls'
      /\ In inappropriate_fallback (alerts tls').

(** C6, counterexample: with a storage of 32 suites, a list of 32 ordinary
    suites followed by FALLBACK_SCSV is accepted although the version (3) is
    below the configured maximum (4): the 33rd entry is skipped, not
    checked. *)
Lemma fallback_scsv_past_storage_unchecked :
  ~ fallback_scsv_always_rejected 32.
Proof.
  intro H.
  destruct (H (tls_at_suites 32 33 4)
              (repeat 0x2F 32 ++ [TTLS_FALLBACK_SCSV_VALUE]) [1])
    as (tls' & Heq & _).
  - apply Forall_app. split.
    + apply Forall_forall. intros x Hx. apply repeat_spec in Hx. subst x.
      unfold suite_range. lia.
    + constructor; [unfold suite_range, TTLS_FALLBACK_SCSV_VALUE; lia
                   | constructor].
  - vm_compute. reflexivity.
  - repeat split; reflexivity.
  - discriminate.
  - apply in_or_app. right. left. reflexivity.
  - vm_compute. reflexivity.
  - vm_compute in Heq. discriminate Heq.
Qed.

(** ** The supported curves extension *)

Section CurvesFacts.

Variable CurveInfo : Type.
Variable from_tls_id : Z -> option CurveInfo.

(** The two-byte words of a byte string, high byte first. *)
Fixpoint words (l : list Z) : list Z :=
  match l with
  | a :: b :: l' => u16 (Z.lor (Z.shiftl a 8) b) :: words l'
  | _ => []
  end.

(** The curves of the table among a list of ids, in the order of the ids. *)
Definition known_curves (ids : list Z) : list CurveInfo :=
  flat_map (fun w => match from_tls_id w with
                     | Some ci => [ci]
                     | None => []
                     end) ids.

(** [curves] with the entries from [c] on overwritten by [ks]. *)
Definition curves_stored (curves : list (option CurveInfo)) (c : nat)
    (ks : list CurveInfo) : list (option CurveInfo) :=
  firstn c curves ++ map Some ks ++ skipn (c + length ks) curves.

Lemma curves_upd_eq : forall (l : list (option CurveInfo)) c ci,
  (c < length l)%nat ->
  curves_upd CurveInfo l c ci = firstn c l ++ Some ci :: skipn (S c) l.
Proof.
  induction l as [|x l IH]; intros c ci Hc; [cbn in Hc; lia|].
  destruct c as [|c]; [reflexivity|].
  cbn [curves_upd firstn skipn app]. f_equal. apply IH. cbn in Hc. lia.
Qed.

Lemma curves_stored_cons : forall curves c ci ks,
  (c < length curves)%nat ->
  curves_stored (curves_upd CurveInfo curves c ci) (S c) ks
  = curves_stored curves c (ci :: ks).
Proof.
  intros curves c ci ks Hc. unfold curves_stored.
  rewrite (curves_upd_eq curves c ci Hc).
  assert (Hl : length (firstn c curves) = c)
    by (rewrite length_firstn; lia).
  replace (firstn (S c) (firstn c curves ++ Some ci :: skipn (S c) curves))
    with (firstn c curves ++ [Some ci]).
  2:{ rewrite firstn_app, Hl.
      replace (S c - c)%nat with 1%nat by lia.
      assert (E : firstn (S c) (firstn c curves) = firstn c curves)
        by (apply firstn_all2; lia).
      rewrite E. reflexivity. }
  replace (skipn (S c + length ks)
                 (firstn c curves ++ Some ci :: skipn (S c) curves))
    with (skipn (c + length (ci :: ks)) curves).
  2:{ rewrite skipn_app, Hl.
      assert (E : skipn (S c + length ks) (firstn c curves) = [])
        by (apply skipn_all2; lia).
      rewrite E.
      replace (S c + length ks - c)%nat with (S (length ks)) by lia.
      cbn [app length].
      change (skipn (S (length ks)) (Some ci :: skipn (S c) curves))
        with (skipn (length ks) (skipn (S c) curves)).
      rewrite skipn_skipn. f_equal. lia. }
  rewrite <- app_assoc. reflexivity.
Qed.

Lemma curves_stored_nil : forall curves c,
  curves_stored curves c [] = curves.
Proof.
  intros curves c. unfold curves_stored. cbn [map length app].
  rewrite Nat.add_0_r. apply firstn_skipn.
Qed.

(** The scan looks at [todo] words and stores the known ones. *)
Lemma curves_scan_spec : forall todo p curves c,
  (2 * todo <= length p)%nat ->
  (c + length (known_curves (words (firstn (2 * todo) p)))
   <= length curves)%nat ->
  curves_scan CurveInfo from_tls_id todo p curves c
  = Some (Some (curves_stored curves c
                  (known_curves (words (firstn (2 * todo) p))))).
Proof.
  induction todo as [|todo IH]; intros p curves c Hp Hcap.
  - cbn [curves_scan Nat.mul firstn words known_curves flat_map].
    rewrite curves_stored_nil. reflexivity.
  - destruct p as [|p0 [|p1 p']]; [cbn in Hp; lia | cbn in Hp; lia |].
    replace (2 * S todo)%nat with (S (S (2 * todo))) in * by lia.
    cbn [firstn words known_curves flat_map] in *.
    fold (known_curves (words (firstn (2 * todo) p'))) in *.
    cbn [curves_scan length] in *.
    destruct (from_tls_id (u16 (Z.lor (Z.shiftl p0 8) p1))) as [ci|].
    + cbn [app length] in *.
      assert (Hc : (c < length curves)%nat) by lia.
      replace (c <? length curves)%nat with true
        by (symmetry; apply Nat.ltb_lt; exact Hc).
      rewrite IH.
      * rewrite curves_stored_cons by exact Hc. reflexivity.
      * lia.
      * rewrite (curves_upd_eq curves c ci Hc).
        rewrite length_app. cbn [length]. rewrite length_firstn, length_skipn.
        lia.
    + cbn [app] in *. apply IH; [lia | exact Hcap].
Qed.

(** X29: tls_srv.c:178-225.  The loop counts [list_size] rounds and moves two
    bytes in each: for a list of [n] bytes it looks at [n] two-byte words
    ([TTLS_ECP_DP_MAX - 1] of them when [n / 2 + 1] is more than
    [TTLS_ECP_DP_MAX]).  Up to 22 bytes the words past the [n / 2] of the
    list are what lies behind the extension in the buffer, and every one of
    them that is the id of a known curve is stored as well. *)
Theorem curves_scan_counts_bytes_as_words : forall tls curves ext stale,
  let len := Z.of_nat (length ext) in
  let n := len - 2 in
  let cnt := if TTLS_ECP_DP_MAX <? n / 2 + 1
             then TTLS_ECP_DP_MAX - 1 else n in
  let ks := known_curves
              (words (firstn (Z.to_nat (2 * cnt)) (skipn 2 ext ++ stale))) in
  2 <= len ->
  Z.lor (Z.shiftl (nth 0 ext 0) 8) (nth 1 ext 0) = n ->
  n mod 2 = 0 ->
  curves_ext (hs tls) = 0 ->
  2 * cnt <= n + Z.of_nat (length stale) ->
  (length ks <= length curves)%nat ->
  ttls_parse_supported_elliptic_curves CurveInfo from_tls_id tls curves
                                       (ext ++ stale) len
  = CurvesRet CurveInfo T_OK (set_hs tls (set_curves_ext (hs tls) 1))
              (curves_stored curves 0 ks).
Proof.
  intros tls curves ext stale len n cnt ks Hlen Hsize Heven Hdup Hmem Hcap.
  destruct ext as [|b0 [|b1 rest]];
    [cbn in len; unfold len in Hlen; lia
    |cbn in len; unfold len in Hlen; lia|].
  cbn [nth] in Hsize. cbn [skipn] in ks.
  unfold ttls_parse_supported_elliptic_curves.
  replace (len <? 2) with false by (symmetry; apply Z.ltb_ge; lia).
  cbn [app]. rewrite Hsize.
  replace (n + 2 =? len) with true
    by (symmetry; apply Z.eqb_eq; unfold n; lia).
  rewrite Heven, Hdup. cbn [negb orb Z.eqb].
  fold cnt.
  assert (Hn : n = Z.of_nat (length rest)).
  { unfold n, len. cbn [length]. lia. }
  assert (Hcnt : 0 <= cnt).
  { unfold cnt. destruct (TTLS_ECP_DP_MAX <? n / 2 + 1).
    - unfold TTLS_ECP_DP_MAX. lia.
    - lia. }
  assert (E : Z.to_nat (2 * cnt) = (2 * Z.to_nat cnt)%nat) by lia.
  unfold ks in *. rewrite E in *.
  rewrite curves_scan_spec.
  - reflexivity.
  - rewrite length_app. lia.
  - exact Hcap.
Qed.

End CurvesFacts.

(** A context in which no extension was seen yet. *)
Definition tls_at_ext : TlsCtx :=
  mkTls 3 3 (mkConf 3 None false) (mkSess 0 (repeat 0 32%nat) 0 [])
        (mkHs (repeat 0 32%nat) (repeat 0 4%nat) 0 0 0 0 0 0 0 0 0
              (repeat 0 48%nat) 0)
        (mkIO TTLS_HS_CLIENT_HELLO 100 0) TTLS_CH_HS_COMPN [].

Lemma curves_scan_counts_bytes_as_words_witness :
  ttls_parse_supported_elliptic_curves Z
    (fun w => if (w =? 23) || (w =? 24) then Some w else None)
    tls_at_ext (repeat None 12) ([0; 2; 0; 23] ++ [0; 24; 0; 0]) 4
  = CurvesRet Z T_OK (set_hs tls_at_ext (set_curves_ext (hs tls_at_ext) 1))
              ([Some 23; Some 24] ++ repeat None 10).
Proof.
  apply (curves_scan_counts_bytes_as_words Z
           (fun w => if (w =? 23) || (w =? 24) then Some w else None)
           tls_at_ext (repeat None 12) [0; 2; 0; 23] [0; 24; 0; 0]).
  - cbn. lia.
  - reflexivity.
  - reflexivity.
  - reflexivity.
  - vm_compute. discriminate.
  - vm_compute. lia.
Defined.

(** ** Suite selection *)

Section ServerOrder.

(** A matcher that knows every suite it is asked about, whose verdict
    [usable] does not depend on the context, and which leaves the context
    alone when it turns a suite down. *)
Variable m : TlsCtx -> Z -> Z * option Z * TlsCtx.
Variable usable : Z -> option Z.
Hypothesis m_ok : forall t v, fst (fst (m t v)) = 0.
Hypothesis m_verdict : forall t v, snd (fst (m t v)) = usable v.
Hypothesis m_keeps : forall t v, usable v = None -> snd (m t v) = t.

(** X30: tls_srv.c:556-613.  The order of the server decides: the suite chosen
    is the first of the server's list that the peer offered and that the
    matcher accepts, wherever it stands in the peer's list; without one the
    handshake fails with [handshake_failure]. *)
Theorem choose_follows_server_order : forall tls prefs,
  match find (fun v => offered tls v && is_some (usable v))
             (own_suites prefs) with
  | Some v =>
      exists tls',
        ttls_choose_ciphersuite m tls prefs = inr (T_OK, tls', usable v)
        /\ ciphersuite (sess tls') = v
  | None =>
      ttls_choose_ciphersuite m tls prefs
      = inr (EINVAL,
             ttls_send_alert tls TTLS_ALERT_LEVEL_FATAL
                             TTLS_ALERT_MSG_HANDSHAKE_FAILURE,
             None)
  end.
Proof.
  intros tls prefs. unfold ttls_choose_ciphersuite, offered.
  pose proof (choose_scan_own_order m usable m_ok m_verdict m_keeps prefs tls
                (Z.to_nat (cs_total_len (hs tls) / 2)) false) as H.
  destruct (find _ (own_suites prefs)) as [v|].
  - destruct H as (c & tls' & Hu & Hrun). rewrite Hrun, Hu.
    eexists. split; reflexivity.
  - destruct H as (got' & Hrun). rewrite Hrun. reflexivity.
Qed.

End ServerOrder.

(** The peer lists 0xC02F, 0xC030 and 0x009C in this order; the server
    prefers 0x009D, which the peer does not offer, then 0xC030, which the
    matcher turns down, then 0x009C and 0xC02F. *)
Definition tls_three_suites : TlsCtx :=
  mkTls 3 3 (mkConf 3 None false) (mkSess 0 (repeat 0 32%nat) 0 [])
        (mkHs (repeat 0 32%nat) [0xC02F; 0xC030; 0x009C; 0] 6 6 0 0 0 0 0 0 0
              (repeat 0 48%nat) 0)
        (mkIO TTLS_HS_CLIENT_HELLO 100 0) TTLS_CH_HS_COMPN [].

Definition no_c030 (v : Z) : option Z :=
  if v =? 0xC030 then None else Some v.

Lemma choose_follows_server_order_witness :
  exists tls',
    ttls_choose_ciphersuite (fun t v => (0, no_c030 v, t)) tls_three_suites
                            [0x009D; 0xC030; 0x009C; 0xC02F; 0]
    = inr (T_OK, tls', no_c030 0x009C)
    /\ ciphersuite (sess tls') = 0x009C.
Proof.
  apply (choose_follows_server_order (fun t v => (0, no_c030 v, t)) no_c030
           (fun _ _ => eq_refl) (fun _ _ => eq_refl)
           (fun t v (H : no_c030 v = None) => eq_refl)
           tls_three_suites [0x009D; 0xC030; 0x009C; 0xC02F; 0]).
Defined.

End TlsSrvProofs.

(** * Properties of the MPI library *)

Module BignumProofs.
Import Bignum BignumMore ListFacts.

(** ** The number an MPI stands for *)

(** Little-endian value of a limb array. *)
Fixpoint limbs_val (l : list Z) : Z :=
  match l with
  | [] => 0
  | x :: t => x + 2 ^ 64 * limbs_val t
  end.

Definition mpi_abs (X : TlsMpi) : Z :=
  limbs_val (firstn (Z.to_nat (used X)) (p X)).

Definition mpi_val (X : TlsMpi) : Z := s X * mpi_abs X.

Definition is_limb (x : Z) : Prop := 0 <= x < 2 ^ 64.

(** The layout every routine relies on: [p] has [limbs] cells of 64 bits and
    [used] of them are in use. *)
Definition mpi_wf (X : TlsMpi) : Prop :=
  0 <= used X <= limbs X
  /\ Z.of_nat (length (p X)) = limbs X
  /\ Forall is_limb (p X).

(** Invariant (ii): the top limb in use is not zero, unless it is the only
    one. *)
Definition normalised (X : TlsMpi) : Prop :=
  1 < used X -> nth (Z.to_nat (used X - 1)) (p X) 0 <> 0.

(** The MPI of one limb that holds the [long] [z]. *)
Definition mpi_of_long (z : Z) : TlsMpi :=
  mkMpi (if z <? 0 then -1 else 1) 1 1 [Z.abs z].

(** Every test [TTLS_MPI_MAX_LIMBS < n] with [n < 8] computes once the three
    low bits of a bound of at least 8 are known. *)
Ltac split_bound ML :=
  destruct ML as [|[[[?|?|]|[?|?|]|]|[[?|?|]|[?|?|]|]|]|]; try lia.

(** C4: [ttls_mpi_fill_random] sets [used] to the number of limbs that the
    requested size covers and does not bring it down to the top limb that
    is not zero.  For 9 bytes of which the last is zero, the destination is
    left with [used = 2] and a zero top limb, against invariant (ii). *)
Theorem fill_random_leaves_zero_top_limb :
  forall junk max_limbs max_size,
    8 <= max_limbs -> 16 <= max_size ->
    exists X,
      ttls_mpi_fill_random junk max_limbs max_size ttls_mpi_init 9
                           [1; 2; 3; 4; 5; 6; 7; 8; 0] = Ok X
      /\ used X = 2 /\ nth 1 (p X) 0 = 0 /\ ~ normalised X.
Proof.
  intros junk ML MS HML HMS.
  unfold ttls_mpi_fill_random.
  replace (MS <? 9) with false by (symmetry; apply Z.ltb_ge; lia).
  unfold __mpi_realloc.
  change (CHARS_TO_LIMBS 9) with 2.
  replace (ML <? 2) with false by (symmetry; apply Z.ltb_ge; lia).
  cbn.
  eexists. split; [reflexivity|]. cbn.
  split; [reflexivity|]. split; [reflexivity|].
  unfold normalised. cbn. intro H. apply H; [lia | reflexivity].
Qed.

Lemma fill_random_leaves_zero_top_limb_witness :
  exists X,
    ttls_mpi_fill_random (fun _ => 0) 8 16 ttls_mpi_init 9
                         [1; 2; 3; 4; 5; 6; 7; 8; 0] = Ok X
    /\ used X = 2 /\ nth 1 (p X) 0 = 0 /\ ~ normalised X.
Proof.
  apply (fill_random_leaves_zero_top_limb (fun _ => 0) 8 16); lia.
Defined.

(** C2: for [A = -3], [E = 1] and [N = 3] the call succeeds and leaves
    [X = 3], which is [N] itself and not the residue 0 of [(-3)^1]: the final
    correction [X = N - X] is applied to [X = 0] as well. *)
Theorem exp_mod_negative_multiple_yields_modulus :
  forall junk max_limbs,
    8 <= max_limbs ->
    exists X RR,
      ttls_mpi_exp_mod junk max_limbs ttls_mpi_init (mpi_of_long (-3))
                       (mpi_of_long 1) (mpi_of_long 3) ttls_mpi_init
      = Ok (X, RR)
      /\ mpi_val X = 3
      /\ ~ (0 <= mpi_val X < mpi_val (mpi_of_long 3)).
Proof.
  intros junk ML HML.
  split_bound ML;
    (eexists; eexists; split; [vm_compute; reflexivity|];
     split; [vm_compute; reflexivity|]; vm_compute; intros [_ H]; discriminate H).
Qed.

Lemma exp_mod_negative_multiple_yields_modulus_witness :
  exists X RR,
    ttls_mpi_exp_mod (fun _ => 0) 8 ttls_mpi_init (mpi_of_long (-3))
                     (mpi_of_long 1) (mpi_of_long 3) ttls_mpi_init
    = Ok (X, RR)
    /\ mpi_val X = 3
    /\ ~ (0 <= mpi_val X < mpi_val (mpi_of_long 3)).
Proof.
  apply (exp_mod_negative_multiple_yields_modulus (fun _ => 0) 8). lia.
Defined.

(** The base has fewer limbs than the modulus: the limb above it in the
    window entry [W[1]] is whatever [kmalloc] returned, and the Montgomery
    product reads it.  With every fresh limb equal to 1, [3 ^ 1] modulo
    [2 ^ 64 + 13] comes out as [2 ^ 64 + 3]. *)
Lemma exp_mod_reads_uninitialised_limb :
  exists X RR,
    ttls_mpi_exp_mod (fun _ => 1) 64 ttls_mpi_init (mpi_of_long 3)
                     (mpi_of_long 1) (mkMpi 1 2 2 [13; 1]) ttls_mpi_init
    = Ok (X, RR)
    /\ mpi_val X = 2 ^ 64 + 3.
Proof.
  eexists. eexists. split; vm_compute; reflexivity.
Qed.

(** ** Bits of limbs and bytes *)

Lemma pow256 : forall j, 0 <= j -> 256 ^ j = 2 ^ (8 * j).
Proof.
  intros j Hj. change 256 with (2 ^ 8). rewrite <- Z.pow_mul_r by lia.
  reflexivity.
Qed.

(** Bit [m] of the [b]-bit field of [v] that starts at bit [a]. *)
Lemma field_bits : forall v a b m,
  0 <= a -> 0 <= b -> 0 <= m ->
  Z.testbit ((v / 2 ^ a) mod 2 ^ b) m = (m <? b) && Z.testbit v (a + m).
Proof.
  intros v a b m Ha Hb Hm.
  destruct (Z.ltb_spec m b) as [Hlt|Hge].
  - rewrite Z.mod_pow2_bits_low by lia.
    rewrite Z.div_pow2_bits by lia. rewrite (Z.add_comm m a). reflexivity.
  - rewrite Z.mod_pow2_bits_high by lia. reflexivity.
Qed.


Lemma limbs_val_nonneg : forall l, Forall is_limb l -> 0 <= limbs_val l.
Proof.
  induction 1 as [|x t Hx Ht IH]; cbn [limbs_val]; [lia|].
  unfold is_limb in Hx. change (2 ^ 64) with 18446744073709551616 in *. nia.
Qed.

Lemma limbs_val_bound : forall l,
  Forall is_limb l -> 0 <= limbs_val l < 2 ^ (64 * Z.of_nat (length l)).
Proof.
  induction 1 as [|x t Hx Ht IH]; cbn [limbs_val length].
  - cbn. lia.
  - replace (64 * Z.of_nat (S (length t)))
      with (64 + 64 * Z.of_nat (length t)) by lia.
    rewrite Z.pow_add_r by lia. unfold is_limb in Hx.
    assert (HP : 0 < 2 ^ (64 * Z.of_nat (length t)))
      by (apply Z.pow_pos_nonneg; lia).
    set (P := 2 ^ (64 * Z.of_nat (length t))) in *.
    change (2 ^ 64) with 18446744073709551616 in *.
    destruct IH as [IH1 IH2]. split; [nia|].
    assert (limbs_val t <= P - 1) by lia.
    assert (18446744073709551616 * limbs_val t
            <= 18446744073709551616 * (P - 1))
      by (apply Z.mul_le_mono_nonneg_l; lia).
    lia.
Qed.

Lemma limbs_val_app : forall l1 l2,
  limbs_val (l1 ++ l2)
  = limbs_val l1 + 2 ^ (64 * Z.of_nat (length l1)) * limbs_val l2.
Proof.
  induction l1 as [|x t IH]; intro l2; cbn [limbs_val length app].
  - change (2 ^ (64 * Z.of_nat 0)) with 1. lia.
  - rewrite IH.
    replace (64 * Z.of_nat (S (length t)))
      with (64 + 64 * Z.of_nat (length t)) by lia.
    rewrite Z.pow_add_r by lia. ring.
Qed.


Lemma limbs_val_firstn_zero : forall l n,
  (forall k, (n <= k < length l)%nat -> nth k l 0 = 0) ->
  limbs_val l = limbs_val (firstn n l).
Proof.
  induction l as [|x t IH]; intros n H.
  - rewrite firstn_nil. reflexivity.
  - destruct n as [|n].
    + cbn [firstn limbs_val].
      assert (Hx : x = 0) by (apply (H 0%nat); cbn; lia).
      rewrite (IH 0%nat).
      * rewrite firstn_O. cbn. lia.
      * intros k Hk. apply (H (S k)). cbn. lia.
    + cbn [firstn limbs_val]. f_equal. f_equal. apply IH.
      intros k Hk. apply (H (S k)). cbn. lia.
Qed.

Lemma Forall_firstn_limb : forall n l, Forall is_limb l -> Forall is_limb (firstn n l).
Proof.
  intros n l H. revert n.
  induction H as [|x t Hx Ht IH]; intros [|n]; cbn [firstn];
    constructor; auto.
Qed.

(** ** Sizes *)

(** Number of bytes of the shortest base-256 numeral of [v]. *)
Definition byte_length (v : Z) : Z :=
  if v =? 0 then 0 else Z.log2 v / 8 + 1.




(** The value of [used] limbs of which the top one is [top]. *)
Lemma mpi_abs_top : forall X,
  mpi_wf X -> 1 <= used X ->
  exists lo,
    0 <= lo < 2 ^ (64 * (used X - 1))
    /\ mpi_abs X
       = lo + 2 ^ (64 * (used X - 1)) * nth (Z.to_nat (used X - 1)) (p X) 0.
Proof.
  intros X (Hu & Hlen & Hl) H1. unfold mpi_abs.
  replace (Z.to_nat (used X)) with (S (Z.to_nat (used X - 1))) by lia.
  rewrite (firstn_snoc_nth _ _ 0) by lia.
  rewrite limbs_val_app. cbn [limbs_val].
  exists (limbs_val (firstn (Z.to_nat (used X - 1)) (p X))).
  assert (Hlf : length (firstn (Z.to_nat (used X - 1)) (p X))
                = Z.to_nat (used X - 1)).
  { rewrite length_firstn. lia. }
  pose proof (limbs_val_bound _ (Forall_firstn_limb (Z.to_nat (used X - 1))
                                   _ Hl)) as Hb.
  rewrite Hlf in *. rewrite Z2Nat.id in * by lia.
  split; [exact Hb | ring].
Qed.

Lemma log2_shifted : forall lo k top,
  0 <= k -> 0 <= lo < 2 ^ k -> 0 < top ->
  Z.log2 (lo + 2 ^ k * top) = k + Z.log2 top.
Proof.
  intros lo k top Hk Hlo Htop.
  pose proof (Z.log2_spec top Htop) as [Hle Hlt].
  pose proof (Z.log2_nonneg top) as Hn.
  assert (HP : 0 < 2 ^ k) by (apply Z.pow_pos_nonneg; lia).
  apply Z.log2_unique; [lia|].
  rewrite Z.pow_succ_r in Hlt by lia.
  rewrite Z.pow_succ_r, Z.pow_add_r by lia.
  set (P := 2 ^ k) in *. set (T := 2 ^ Z.log2 top) in *.
  split; nia.
Qed.

(** bignum.c:356-360 on a normalised MPI. *)
Lemma mpi_size_spec : forall X,
  mpi_wf X -> normalised X ->
  ttls_mpi_size X = Ok (byte_length (mpi_abs X)).
Proof.
  intros X Hwf Hn. pose proof Hwf as (Hu & Hlen & Hl).
  unfold ttls_mpi_size, ttls_mpi_bitlen.
  destruct (Z.eqb_spec (used X) 0) as [H0|H0].
  - unfold mpi_abs. rewrite H0. reflexivity.
  - unfold rd.
    replace ((0 <=? used X - 1) && (used X - 1 <? Z.of_nat (length (p X))))
      with true by (symmetry; apply andb_true_iff; split;
                    [apply Z.leb_le | apply Z.ltb_lt]; lia).
    cbn [bind].
    destruct (mpi_abs_top X Hwf ltac:(lia)) as (lo & Hlo & Hv).
    set (top := nth (Z.to_nat (used X - 1)) (p X) 0) in *.
    assert (Htop : is_limb top).
    { rewrite Forall_forall in Hl. apply Hl. apply nth_In. lia. }
    unfold is_limb in Htop.
    destruct (Z.eqb_spec top 0) as [Ht|Ht].
    + cbn [bind]. f_equal.
      assert (Hu1 : used X = 1).
      { destruct (Z.ltb_spec 1 (used X)) as [Hgt|]; [|lia].
        exfalso. apply (Hn Hgt). exact Ht. }
      rewrite Hv, Ht, Hu1 in *. change (2 ^ (64 * (1 - 1))) with 1 in Hlo.
      replace lo with 0 by lia. reflexivity.
    + cbn [bind]. f_equal. unfold fls64.
      replace (top =? 0) with false by (symmetry; apply Z.eqb_neq; lia).
      rewrite Hv. unfold byte_length.
      assert (HP : 0 < 2 ^ (64 * (used X - 1)))
        by (apply Z.pow_pos_nonneg; lia).
      replace (lo + 2 ^ (64 * (used X - 1)) * top =? 0) with false
        by (symmetry; apply Z.eqb_neq; nia).
      rewrite log2_shifted by lia.
      rewrite Z.shiftr_div_pow2 by lia. unfold BIL.
      change (2 ^ 3) with 8.
      replace ((used X - 1) * 64 + (Z.log2 top + 1) + 7)
        with (64 * (used X - 1) + Z.log2 top + 1 * 8) by lia.
      rewrite Z.div_add by lia. reflexivity.
Qed.

(** ** Export *)






(** ** Import *)


Lemma small_high_bits : forall v a m,
  0 <= v < 2 ^ a -> 0 <= a <= m -> Z.testbit v m = false.
Proof.
  intros v a m Hv Hm. rewrite <- (Z.mod_small v (2 ^ a)) by lia.
  apply Z.mod_pow2_bits_high. lia.
Qed.












(** ** [mpi_fixup_used] *)

Lemma fixup_scan_spec : forall l u,
  (fixup_scan l u <= u)%nat
  /\ ((1 <= u)%nat -> (1 <= fixup_scan l u)%nat)
  /\ (forall k, (fixup_scan l u <= k < u)%nat -> nth k l 0 = 0)
  /\ ((1 < fixup_scan l u)%nat -> nth (fixup_scan l u - 1) l 0 <> 0).
Proof.
  intros l u. induction u as [|u IH].
  - cbn. repeat split; intros; lia.
  - cbn [fixup_scan]. destruct u as [|u'].
    + repeat split; intros; lia.
    + destruct (Z.eqb_spec (nth (S u') l 0) 0) as [Hz|Hz].
      * destruct IH as (I1 & I2 & I3 & I4).
        split; [lia|]. split; [intros; apply I2; lia|].
        split; [|exact I4].
        intros k Hk. destruct (Nat.eq_dec k (S u')) as [->|Hne];
          [exact Hz | apply I3; lia].
      * split; [lia|]. split; [lia|].
        split; [intros; lia|].
        intros _. cbn [Nat.sub]. exact Hz.
Qed.


Lemma mpi_fixup_used_normalised : forall X n,
  0 <= n -> normalised (mpi_fixup_used X n).
Proof.
  intros X n Hn. unfold normalised, mpi_fixup_used.
  cbn [used p set_used].
  set (m := if limbs X <? n then limbs X else n).
  destruct (fixup_scan_spec (p X) (Z.to_nat m)) as (_ & _ & _ & S4).
  intro H1.
  replace (Z.to_nat (Z.of_nat (fixup_scan (p X) (Z.to_nat m)) - 1))
    with (fixup_scan (p X) (Z.to_nat m) - 1)%nat by lia.
  apply S4. lia.
Qed.

Lemma kmalloc_length : forall junk n, length (kmalloc junk n) = Z.to_nat n.
Proof.
  intros junk n. unfold kmalloc. rewrite length_map, length_seq. reflexivity.
Qed.




Lemma mpi_abs_range : forall X,
  mpi_wf X -> 0 <= mpi_abs X < 2 ^ (64 * used X).
Proof.
  intros X (Hu & Hlen & Hl). unfold mpi_abs.
  pose proof (limbs_val_bound _ (Forall_firstn_limb (Z.to_nat (used X))
                                   _ Hl)) as Hb.
  rewrite length_firstn in Hb.
  replace (Z.of_nat (Nat.min (Z.to_nat (used X)) (length (p X))))
    with (used X) in Hb by lia.
  exact Hb.
Qed.

(** A normalised MPI that is not zero has a top limb that is not zero. *)
Lemma nonzero_top : forall X,
  mpi_wf X -> normalised X -> mpi_abs X <> 0 ->
  1 <= used X
  /\ nth (Z.to_nat (used X - 1)) (p X) 0 <> 0
  /\ 2 ^ (64 * (used X - 1)) <= mpi_abs X.
Proof.
  intros X Hwf Hn Hv. pose proof Hwf as (Hu & Hlen & Hl).
  assert (H1 : 1 <= used X).
  { destruct (Z.eq_dec (used X) 0) as [H0|H0]; [|lia].
    exfalso. apply Hv. unfold mpi_abs. rewrite H0. reflexivity. }
  destruct (mpi_abs_top X Hwf H1) as (lo & Hlo & Heq).
  set (top := nth (Z.to_nat (used X - 1)) (p X) 0) in *.
  assert (Htop : is_limb top).
  { rewrite Forall_forall in Hl. apply Hl. apply nth_In. lia. }
  unfold is_limb in Htop.
  assert (Hnz : top <> 0).
  { intro Ht. destruct (Z.ltb_spec 1 (used X)) as [Hgt|Hle].
    - apply (Hn Hgt). exact Ht.
    - apply Hv. rewrite Heq, Ht.
      replace (used X) with 1 in * by lia.
      change (2 ^ (64 * (1 - 1))) with 1 in Hlo. lia. }
  split; [exact H1|]. split; [exact Hnz|].
  rewrite Heq.
  assert (0 < 2 ^ (64 * (used X - 1))) by (apply Z.pow_pos_nonneg; lia).
  nia.
Qed.




(** ** Loops *)

(** [iter k body st]: at most [k] rounds of [body]. *)
Fixpoint iter {St Rt : Type} (k : nat) (body : St -> res (St + Rt)) (st : St)
  : res (St + Rt) :=
  match k with
  | O => Ok (inl st)
  | S k' =>
      r <- body st ;;
      match r with
      | inl st' => iter k' body st'
      | inr x => Ok (inr x)
      end
  end.

Lemma iter_add : forall (St Rt : Type) (body : St -> res (St + Rt)) a b st,
  iter (a + b) body st
  = (r <- iter a body st ;;
     match r with
     | inl st' => iter b body st'
     | inr x => Ok (inr x)
     end).
Proof.
  intros St Rt body a. induction a as [|a IH]; intros b st.
  - reflexivity.
  - cbn [Nat.add iter]. destruct (body st) as [[st'|x]|e| |]; cbn [bind];
      try reflexivity.
    apply IH.
Qed.

Lemma loop_iter : forall (St Rt : Type) (body : St -> res (St + Rt)) n st,
  loop n body st = iter (Pos.to_nat n) body st.
Proof.
  intros St Rt body n. induction n as [n IH|n IH|]; intro st.
  - rewrite Pos2Nat.inj_xI. cbn [loop iter].
    destruct (body st) as [[st0|x]|e| |]; cbn [bind]; try reflexivity.
    replace (2 * Pos.to_nat n)%nat with (Pos.to_nat n + Pos.to_nat n)%nat
      by lia.
    rewrite iter_add, IH.
    destruct (iter (Pos.to_nat n) body st0) as [[st'|x]|e| |]; cbn [bind];
      try reflexivity.
    apply IH.
  - rewrite Pos2Nat.inj_xO. cbn [loop].
    replace (2 * Pos.to_nat n)%nat with (Pos.to_nat n + Pos.to_nat n)%nat
      by lia.
    rewrite iter_add, IH.
    destruct (iter (Pos.to_nat n) body st) as [[st'|x]|e| |]; cbn [bind];
      try reflexivity.
    apply IH.
  - cbn [loop]. change (Pos.to_nat 1) with 1%nat. cbn [iter].
    destruct (body st) as [[st'|x]|e| |]; reflexivity.
Qed.

Lemma loop_budget_nat : Z.of_nat (Pos.to_nat loop_budget) = 2 ^ 64.
Proof. rewrite positive_nat_Z. reflexivity. Qed.

(** A loop that leaves within the budget. *)
Lemma while_iter : forall (St Rt : Type) (body : St -> res (St + Rt)) st k x,
  iter k body st = Ok (inr x) -> Z.of_nat k <= 2 ^ 64 ->
  while body st = Ok x.
Proof.
  intros St Rt body st k x Hk Hle. unfold while. rewrite loop_iter.
  rewrite <- loop_budget_nat in Hle.
  revert Hle. generalize (Pos.to_nat loop_budget). intros N Hle.
  replace N with (k + (N - k))%nat by lia.
  rewrite iter_add, Hk. reflexivity.
Qed.

(** Termination by a measure: from a state in [Inv] the loop leaves within
    [m st] rounds. *)
Lemma iter_measure : forall (St Rt : Type) (body : St -> res (St + Rt))
    (Inv : St -> Prop) (m : St -> Z) (Post : Rt -> Prop),
  (forall st, Inv st ->
     1 <= m st
     /\ match body st with
        | Ok (inl st') => Inv st' /\ m st' < m st
        | Ok (inr x) => Post x
        | _ => False
        end) ->
  forall st, Inv st ->
    exists k x, Z.of_nat k <= m st /\ iter k body st = Ok (inr x) /\ Post x.
Proof.
  intros St Rt body Inv m Post Hstep.
  assert (H : forall n st, Inv st -> m st <= Z.of_nat n ->
            exists k x, Z.of_nat k <= m st
                        /\ iter k body st = Ok (inr x) /\ Post x).
  { induction n as [|n IH]; intros st Hinv Hm.
    - destruct (Hstep st Hinv) as [H1 _]. lia.
    - destruct (Hstep st Hinv) as [H1 Hb].
      destruct (body st) as [[st'|x]|e| |] eqn:Hbody; try contradiction.
      + destruct Hb as [Hinv' Hlt].
        destruct (IH st' Hinv' ltac:(lia)) as (k & x & Hk & Hit & Hp).
        exists (S k), x. split; [lia|]. split; [|exact Hp].
        cbn [iter]. rewrite Hbody. cbn [bind]. exact Hit.
      + exists 1%nat, x. split; [lia|]. split; [|exact Hb].
        cbn [iter]. rewrite Hbody. reflexivity. }
  intros st Hinv. apply (H (Z.to_nat (m st))); [exact Hinv|].
  destruct (Hstep st Hinv) as [H1 _]. lia.
Qed.

Lemma while_measure : forall (St Rt : Type) (body : St -> res (St + Rt))
    (Inv : St -> Prop) (m : St -> Z) (Post : Rt -> Prop),
  (forall st, Inv st ->
     1 <= m st
     /\ match body st with
        | Ok (inl st') => Inv st' /\ m st' < m st
        | Ok (inr x) => Post x
        | _ => False
        end) ->
  forall st, Inv st -> m st <= 2 ^ 64 ->
    exists x, while body st = Ok x /\ Post x.
Proof.
  intros St Rt body Inv m Post Hstep st Hinv Hm.
  destruct (iter_measure St Rt body Inv m Post Hstep st Hinv)
    as (k & x & Hk & Hit & Hp).
  exists x. split; [|exact Hp].
  apply (while_iter St Rt body st k x Hit). lia.
Qed.

(** ** Well-formed numbers *)

(** An MPI as every routine leaves it: at least one limb in use, a top limb
    that is not zero unless it is the only one, and a sign. *)
Definition mpi_good (X : TlsMpi) : Prop :=
  mpi_wf X /\ normalised X /\ 1 <= used X /\ (s X = 1 \/ s X = -1).

Lemma good_intro : forall X,
  mpi_wf X -> normalised X -> 1 <= used X -> s X = 1 \/ s X = -1 ->
  mpi_good X.
Proof. intros X H1 H2 H3 H4. repeat split; try apply H1; auto. Qed.

Lemma mpi_abs_nonneg : forall X, mpi_wf X -> 0 <= mpi_abs X.
Proof. intros X H. apply (mpi_abs_range X H). Qed.

Lemma wf_set_s : forall X v, mpi_wf X -> mpi_wf (set_s X v).
Proof. intros X v H. exact H. Qed.


Lemma abs_set_s : forall X v, mpi_abs (set_s X v) = mpi_abs X.
Proof. reflexivity. Qed.

(** A normalised number with more limbs is larger. *)
Lemma good_abs_lower : forall X,
  mpi_good X -> 2 <= used X -> 2 ^ (64 * (used X - 1)) <= mpi_abs X.
Proof.
  intros X (Hwf & Hn & Hu & Hs) H2.
  destruct (mpi_abs_top X Hwf Hu) as (lo & Hlo & Heq).
  pose proof Hwf as (Hu' & Hlen & Hl).
  set (top := nth (Z.to_nat (used X - 1)) (p X) 0) in *.
  assert (Htop : is_limb top).
  { rewrite Forall_forall in Hl. apply Hl. apply nth_In. lia. }
  unfold is_limb in Htop.
  assert (top <> 0) by (apply Hn; lia).
  assert (0 < 2 ^ (64 * (used X - 1))) by (apply Z.pow_pos_nonneg; lia).
  rewrite Heq. nia.
Qed.

Lemma good_used_lt : forall X Y,
  mpi_good X -> mpi_good Y -> used X < used Y -> mpi_abs X < mpi_abs Y.
Proof.
  intros X Y HX HY Hlt.
  pose proof HX as (HwX & _ & HuX & _).
  pose proof (mpi_abs_range X HwX) as Hr.
  pose proof (good_abs_lower Y HY ltac:(lia)) as Hl.
  eapply Z.lt_le_trans; [apply Hr|].
  eapply Z.le_trans; [|exact Hl].
  apply Z.pow_le_mono_r; lia.
Qed.

(** ** Comparison *)

Lemma cmp_limbs_spec : forall n x y,
  Forall is_limb x -> Forall is_limb y ->
  (n <= length x)%nat -> (n <= length y)%nat ->
  cmp_limbs x y n = Z.sgn (limbs_val (firstn n x) - limbs_val (firstn n y)).
Proof.
  induction n as [|n IH]; intros x y Hx Hy Hlx Hly.
  - reflexivity.
  - cbn [cmp_limbs].
    rewrite (firstn_snoc_nth x n 0), (firstn_snoc_nth y n 0) by lia.
    rewrite !limbs_val_app. cbn [limbs_val].
    rewrite !length_firstn, !Nat.min_l by lia.
    pose proof (limbs_val_bound _ (Forall_firstn_limb n x Hx)) as Bx.
    pose proof (limbs_val_bound _ (Forall_firstn_limb n y Hy)) as By.
    rewrite length_firstn, Nat.min_l in Bx, By by lia.
    assert (HP : 0 < 2 ^ (64 * Z.of_nat n)) by (apply Z.pow_pos_nonneg; lia).
    set (P := 2 ^ (64 * Z.of_nat n)) in *.
    set (a := nth n x 0). set (b := nth n y 0).
    destruct (Z.eqb_spec a b) as [Hab|Hab].
    + rewrite IH by (auto; lia). f_equal. rewrite Hab. ring.
    + destruct (Z.ltb_spec b a) as [Hlt|Hge].
      * symmetry. apply Z.sgn_pos. nia.
      * symmetry. apply Z.sgn_neg. nia.
Qed.

Lemma cmp_abs_spec : forall X Y,
  mpi_good X -> mpi_good Y ->
  ttls_mpi_cmp_abs X Y = Z.sgn (mpi_abs X - mpi_abs Y).
Proof.
  intros X Y HX HY. pose proof HX as (HwX & _ & HuX & _).
  pose proof HY as (HwY & _ & HuY & _).
  destruct HwX as (HX1 & HX2 & HX3). destruct HwY as (HY1 & HY2 & HY3).
  unfold ttls_mpi_cmp_abs.
  replace (used X =? 0) with false by (symmetry; apply Z.eqb_neq; lia).
  cbn [andb].
  destruct (Z.ltb_spec (used Y) (used X)) as [H1|H1].
  - pose proof (good_used_lt Y X HY HX H1). symmetry. apply Z.sgn_pos. lia.
  - destruct (Z.ltb_spec (used X) (used Y)) as [H2|H2].
    + pose proof (good_used_lt X Y HX HY H2). symmetry. apply Z.sgn_neg. lia.
    + assert (He : used Y = used X) by lia.
      unfold mpi_abs. rewrite He. apply cmp_limbs_spec; auto; lia.
Qed.


Lemma abs_one_limb : forall X,
  mpi_wf X -> used X = 1 -> mpi_abs X = nth 0 (p X) 0.
Proof.
  intros X (Hu & Hlen & Hl) H1. unfold mpi_abs. rewrite H1.
  destruct (p X) as [|x t]; [cbn in Hlen; lia|].
  change (Z.to_nat 1) with 1%nat. cbn [firstn limbs_val nth]. lia.
Qed.




(** ** Allocation, copy, assignment *)

(** A destination: its array has [limbs] cells of 64 bits. *)
Definition dest_ok (X : TlsMpi) : Prop :=
  Z.of_nat (length (p X)) = limbs X /\ Forall is_limb (p X).

Lemma wf_dest_ok : forall X, mpi_wf X -> dest_ok X.
Proof. intros X (_ & H1 & H2). split; assumption. Qed.

Lemma good_dest_ok : forall X, mpi_good X -> dest_ok X.
Proof. intros X (H & _). apply wf_dest_ok. exact H. Qed.


Lemma wrap64_limb : forall z, is_limb (wrap64 z).
Proof.
  intro z. unfold is_limb, wrap64. apply Z.mod_pos_bound.
  apply Z.pow_pos_nonneg; lia.
Qed.

Lemma wrap64_small : forall z, is_limb z -> wrap64 z = z.
Proof. intros z Hz. unfold wrap64. apply Z.mod_small. exact Hz. Qed.

Lemma kmalloc_limbs : forall junk n, Forall is_limb (kmalloc junk n).
Proof.
  intros junk n. unfold kmalloc. apply Forall_forall. intros x Hx.
  apply in_map_iff in Hx. destruct Hx as (i & <- & _). apply wrap64_limb.
Qed.

Lemma kmalloc_dest : forall junk sg u n,
  0 <= n -> dest_ok (mkMpi sg u n (kmalloc junk n)).
Proof.
  intros junk sg u n Hn. split; cbn [p limbs].
  - rewrite kmalloc_length. lia.
  - apply kmalloc_limbs.
Qed.

(** [__mpi_realloc] without the copy and zero flags. *)
Lemma realloc_plain : forall junk ML X n,
  n <= ML ->
  __mpi_realloc junk ML X n false false
  = Ok (if n <=? limbs X then X
        else mkMpi (s X) (used X) n (kmalloc junk n)).
Proof.
  intros junk ML X n Hn. unfold __mpi_realloc.
  replace (ML <? n) with false by (symmetry; apply Z.ltb_ge; lia).
  destruct (n <=? limbs X); [reflexivity|].
  rewrite andb_false_r. reflexivity.
Qed.

Lemma realloc_plain_dest : forall junk X n,
  dest_ok X -> 0 <= n ->
  let X1 := if n <=? limbs X then X
            else mkMpi (s X) (used X) n (kmalloc junk n) in
  dest_ok X1 /\ n <= limbs X1 /\ limbs X <= limbs X1
  /\ s X1 = s X /\ used X1 = used X.
Proof.
  intros junk X n HX Hn. cbv zeta.
  destruct (Z.leb_spec n (limbs X)) as [H|H].
  - repeat split; try apply HX; lia.
  - split; [apply kmalloc_dest; lia|]. cbn [limbs s used]. lia.
Qed.

Lemma Forall_app_limb : forall l1 l2,
  Forall is_limb l1 -> Forall is_limb l2 -> Forall is_limb (l1 ++ l2).
Proof. intros. apply Forall_app. split; assumption. Qed.

Lemma Forall_skipn_limb : forall n l,
  Forall is_limb l -> Forall is_limb (skipn n l).
Proof.
  intros n l H. revert n.
  induction H as [|x t Hx Ht IH]; intros [|n]; cbn [skipn]; auto.
Qed.

Lemma memcpy_limbs : forall dst src n,
  Forall is_limb dst -> Forall is_limb src -> Forall is_limb (memcpy dst src n).
Proof.
  intros. unfold memcpy.
  apply Forall_app_limb; [apply Forall_firstn_limb | apply Forall_skipn_limb];
    assumption.
Qed.

Lemma memcpy_length : forall dst src n,
  (n <= length src)%nat -> (n <= length dst)%nat ->
  length (memcpy dst src n) = length dst.
Proof.
  intros dst src n Hs Hd. unfold memcpy.
  rewrite length_app, length_firstn, length_skipn. lia.
Qed.

Lemma memcpy_prefix : forall dst src n,
  (n <= length src)%nat -> firstn n (memcpy dst src n) = firstn n src.
Proof.
  intros dst src n Hs. unfold memcpy.
  rewrite firstn_app, firstn_firstn, Nat.min_id.
  rewrite length_firstn, Nat.min_l by lia.
  rewrite Nat.sub_diag. cbn [firstn]. apply app_nil_r.
Qed.




(** bignum.c:263-279 with [z = 0]. *)
Lemma lset_zero_spec : forall junk ML X,
  dest_ok X -> 1 <= ML ->
  exists X',
    ttls_mpi_lset junk ML X 0 = Ok X'
    /\ mpi_good X' /\ s X' = 1 /\ used X' = 1 /\ mpi_abs X' = 0.
Proof.
  intros junk ML X HX HML. unfold ttls_mpi_lset.
  rewrite realloc_plain by lia. cbn [bind].
  destruct (realloc_plain_dest junk X 1 HX ltac:(lia))
    as ((Hl & Hf) & Hcap & _).
  set (X1 := if 1 <=? limbs X then X
             else mkMpi (s X) (used X) 1 (kmalloc junk 1)) in *.
  change (0 <? 0) with false. cbv iota. unfold wr.
  replace ((0 <=? 0) && (0 <? Z.of_nat (length (p X1)))) with true
    by (symmetry; apply andb_true_iff; split;
        [apply Z.leb_le | apply Z.ltb_lt]; lia).
  cbn [bind]. eexists. split; [reflexivity|].
  assert (Hab : mpi_abs (mkMpi 1 1 (limbs X1)
                  (upd (p X1) (Z.to_nat 0) (wrap64 0))) = 0).
  { unfold mpi_abs. cbn [used p]. change (Z.to_nat 1) with 1%nat.
    change (Z.to_nat 0) with 0%nat.
    destruct (p X1) as [|x t]; [cbn in Hl; lia|]. reflexivity. }
  split.
  { apply good_intro; cbn [used limbs p s]; [|unfold normalised; cbn [used] |
                                              | ]; try lia; auto.
    split; cbn [used limbs p]; [lia|].
    split; [rewrite upd_length; lia|].
    apply Forall_upd; [exact Hf | apply wrap64_limb]. }
  cbn [s used]. auto.
Qed.

(** ** [mpi_fixup_used] *)

Lemma fixup_spec : forall X n,
  dest_ok X -> 1 <= n <= limbs X ->
  let X' := mpi_fixup_used X n in
  mpi_wf X' /\ normalised X' /\ 1 <= used X' <= n
  /\ s X' = s X /\ p X' = p X /\ limbs X' = limbs X
  /\ mpi_abs X' = limbs_val (firstn (Z.to_nat n) (p X)).
Proof.
  intros X n (Hl & Hf) Hn. cbv zeta.
  assert (Hnorm : normalised (mpi_fixup_used X n))
    by (apply mpi_fixup_used_normalised; lia).
  unfold mpi_fixup_used in *. cbn [used p s limbs set_used] in *.
  replace (limbs X <? n) with false in * by (symmetry; apply Z.ltb_ge; lia).
  destruct (fixup_scan_spec (p X) (Z.to_nat n)) as (S1 & S2 & S3 & S4).
  set (u := fixup_scan (p X) (Z.to_nat n)) in *.
  assert (1 <= u)%nat by (apply S2; lia).
  unfold mpi_wf, mpi_abs. unfold set_used at 1 2 3 4 5 7 8.
  cbn [used p s limbs].
  split; [split; [lia | split; assumption]|].
  split; [exact Hnorm|]. split; [lia|].
  repeat split; auto.
  rewrite Nat2Z.id.
  rewrite (limbs_val_firstn_zero (firstn (Z.to_nat n) (p X)) u).
  - rewrite firstn_firstn. f_equal. f_equal. lia.
  - intros k Hk. rewrite length_firstn in Hk.
    rewrite nth_firstn_lt by lia. apply S3. lia.
Qed.

Lemma fixup_good : forall X n,
  dest_ok X -> 1 <= n <= limbs X -> s X = 1 \/ s X = -1 ->
  mpi_good (mpi_fixup_used X n).
Proof.
  intros X n HX Hn Hs.
  destruct (fixup_spec X n HX Hn) as (H1 & H2 & H3 & H4 & _).
  apply good_intro; auto; try lia; rewrite H4; exact Hs.
Qed.

(** ** Values of limb ranges *)

(** [dsum f i n]: the number whose [n] base-[2^64] digits are
    [f i], ..., [f (i + n - 1)], least significant first. *)
Fixpoint dsum (f : nat -> Z) (i n : nat) : Z :=
  match n with
  | O => 0
  | S n' => f i + 2 ^ 64 * dsum f (S i) n'
  end.

(** The value of limbs [i], ..., [i + n - 1] of an array. *)
Definition lv (l : list Z) (i n : nat) : Z := dsum (fun k => nth k l 0) i n.

Lemma dsum_ext : forall f g n i,
  (forall k, (i <= k < i + n)%nat -> f k = g k) -> dsum f i n = dsum g i n.
Proof.
  intros f g n. induction n as [|n IH]; intros i H; [reflexivity|].
  cbn [dsum]. rewrite (H i) by lia. f_equal. f_equal.
  apply IH. intros k Hk. apply H. lia.
Qed.

Lemma pow64_succ : forall n : nat,
  2 ^ (64 * Z.of_nat (S n)) = 2 ^ 64 * 2 ^ (64 * Z.of_nat n).
Proof.
  intro n. replace (64 * Z.of_nat (S n)) with (64 + 64 * Z.of_nat n) by lia.
  apply Z.pow_add_r; lia.
Qed.

Lemma pow64_pos : forall n : nat, 0 < 2 ^ (64 * Z.of_nat n).
Proof. intro n. apply Z.pow_pos_nonneg; lia. Qed.

Lemma dsum_split : forall f n m i,
  dsum f i (n + m)
  = dsum f i n + 2 ^ (64 * Z.of_nat n) * dsum f (i + n) m.
Proof.
  intros f n. induction n as [|n IH]; intros m i.
  - cbn [Nat.add dsum]. rewrite Nat.add_0_r.
    change (2 ^ (64 * Z.of_nat 0)) with 1. lia.
  - cbn [Nat.add dsum]. rewrite IH, pow64_succ.
    replace (S i + n)%nat with (i + S n)%nat by lia. ring.
Qed.

Lemma dsum_snoc : forall f n i,
  dsum f i (S n) = dsum f i n + 2 ^ (64 * Z.of_nat n) * f (i + n)%nat.
Proof.
  intros f n i. replace (S n) with (n + 1)%nat by lia.
  rewrite dsum_split. cbn [dsum]. ring.
Qed.

Lemma dsum_bound : forall f n i,
  (forall k, (i <= k < i + n)%nat -> is_limb (f k)) ->
  0 <= dsum f i n < 2 ^ (64 * Z.of_nat n).
Proof.
  intros f n. induction n as [|n IH]; intros i H.
  - cbn [dsum]. change (2 ^ (64 * Z.of_nat 0)) with 1. lia.
  - cbn [dsum]. rewrite pow64_succ.
    pose proof (H i ltac:(lia)) as Hi. unfold is_limb in Hi.
    pose proof (IH (S i) ltac:(intros k Hk; apply H; lia)) as [I1 I2].
    pose proof (pow64_pos n) as HP.
    set (P := 2 ^ (64 * Z.of_nat n)) in *.
    change (2 ^ 64) with 18446744073709551616 in *.
    split; [nia|].
    assert (dsum f (S i) n <= P - 1) by lia.
    assert (18446744073709551616 * dsum f (S i) n
            <= 18446744073709551616 * (P - 1))
      by (apply Z.mul_le_mono_nonneg_l; lia).
    lia.
Qed.

Lemma dsum_zero : forall f n i,
  (forall k, (i <= k < i + n)%nat -> f k = 0) -> dsum f i n = 0.
Proof.
  intros f n. induction n as [|n IH]; intros i H; [reflexivity|].
  cbn [dsum]. rewrite (H i) by lia. rewrite IH; [lia|].
  intros k Hk. apply H. lia.
Qed.

Lemma lv_ext : forall l1 l2 i n,
  (forall k, (i <= k < i + n)%nat -> nth k l1 0 = nth k l2 0) ->
  lv l1 i n = lv l2 i n.
Proof. intros. apply dsum_ext. assumption. Qed.

Lemma lv_split : forall l n m i,
  lv l i (n + m) = lv l i n + 2 ^ (64 * Z.of_nat n) * lv l (i + n) m.
Proof. intros. apply dsum_split. Qed.

Lemma lv_cons : forall l n i,
  lv l i (S n) = nth i l 0 + 2 ^ 64 * lv l (S i) n.
Proof. reflexivity. Qed.

Lemma lv_snoc : forall l n i,
  lv l i (S n) = lv l i n + 2 ^ (64 * Z.of_nat n) * nth (i + n) l 0.
Proof. intros. unfold lv. rewrite dsum_snoc. reflexivity. Qed.

Lemma nth_limb : forall l k, Forall is_limb l -> is_limb (nth k l 0).
Proof.
  intros l k Hl. destruct (Nat.lt_ge_cases k (length l)) as [H|H].
  - rewrite Forall_forall in Hl. apply Hl. apply nth_In. exact H.
  - rewrite nth_overflow by lia. unfold is_limb. lia.
Qed.

Lemma lv_bound : forall l i n,
  Forall is_limb l -> 0 <= lv l i n < 2 ^ (64 * Z.of_nat n).
Proof.
  intros l i n Hl. apply dsum_bound. intros k _. apply nth_limb. exact Hl.
Qed.

Lemma lv_shift_cons : forall x l i n, lv (x :: l) (S i) n = lv l i n.
Proof.
  intros x l i n. revert i. induction n as [|n IH]; intro i; [reflexivity|].
  rewrite !lv_cons. cbn [nth]. rewrite IH. reflexivity.
Qed.

Lemma lv_firstn : forall l n, limbs_val (firstn n l) = lv l 0 n.
Proof.
  induction l as [|x t IH]; intro n.
  - rewrite firstn_nil. cbn [limbs_val]. symmetry. apply dsum_zero.
    intros k _. destruct k; reflexivity.
  - destruct n as [|n]; [reflexivity|].
    cbn [firstn limbs_val]. rewrite lv_cons. cbn [nth].
    rewrite lv_shift_cons, IH. reflexivity.
Qed.

Lemma mpi_abs_lv : forall X, mpi_abs X = lv (p X) 0 (Z.to_nat (used X)).
Proof. intro X. apply lv_firstn. Qed.


Lemma nth_upd : forall l i k v,
  nth k (upd l i v) 0
  = if (k =? i)%nat && (i <? length l)%nat then v else nth k l 0.
Proof.
  intros l i k v. destruct (Nat.eqb_spec k i) as [->|Hne]; cbn [andb].
  - destruct (Nat.ltb_spec i (length l)) as [H|H].
    + apply nth_upd_same. exact H.
    + rewrite !nth_overflow; try lia. rewrite upd_length. lia.
  - apply nth_upd_other. lia.
Qed.

(** ** Array accesses inside the bounds *)

Lemma rd_ok : forall a (i : nat),
  (i < length a)%nat -> rd a (Z.of_nat i) = Ok (nth i a 0).
Proof.
  intros a i H. unfold rd.
  replace ((0 <=? Z.of_nat i) && (Z.of_nat i <? Z.of_nat (length a)))
    with true
    by (symmetry; apply andb_true_iff; split;
        [apply Z.leb_le | apply Z.ltb_lt]; lia).
  rewrite Nat2Z.id. reflexivity.
Qed.

Lemma wr_ok : forall a (i : nat) v,
  (i < length a)%nat -> wr a (Z.of_nat i) v = Ok (upd a i v).
Proof.
  intros a i v H. unfold wr.
  replace ((0 <=? Z.of_nat i) && (Z.of_nat i <? Z.of_nat (length a)))
    with true
    by (symmetry; apply andb_true_iff; split;
        [apply Z.leb_le | apply Z.ltb_lt]; lia).
  rewrite Nat2Z.id. reflexivity.
Qed.

Lemma wrap64_eq : forall x k, is_limb (x + k * 2 ^ 64) -> wrap64 x = x + k * 2 ^ 64.
Proof.
  intros x k H. unfold wrap64. rewrite <- (Z.mod_add x k) by lia.
  apply Z.mod_small. exact H.
Qed.

(** ** Subtraction *)

(** One limb of the first loop of [__mpi_sub]. *)
Lemma sub_limb : forall ai bi c,
  is_limb ai -> is_limb bi -> c = 0 \/ c = 1 ->
  let ri := wrap64 (ai - c) in
  let c' := b2z (ri <? bi) + b2z (ai <? c) in
  (c' = 0 \/ c' = 1) /\ wrap64 (ri - bi) = ai - c - bi + c' * 2 ^ 64.
Proof.
  intros ai bi c Ha Hb Hc. cbv zeta. unfold is_limb in *.
  destruct (Z.ltb_spec ai c) as [H1|H1]; cbn [b2z].
  - assert (ai = 0 /\ c = 1) as [-> ->] by lia.
    rewrite (wrap64_eq (0 - 1) 1) by (unfold is_limb; lia).
    replace (0 - 1 + 1 * 2 ^ 64 <? bi) with false
      by (symmetry; apply Z.ltb_ge; lia).
    cbn [b2z]. split; [right; reflexivity|].
    rewrite (wrap64_eq _ 0) by (unfold is_limb; lia). lia.
  - assert (Hw : wrap64 (ai - c) = ai - c).
    { rewrite (wrap64_eq (ai - c) 0) by (unfold is_limb; lia). lia. }
    rewrite Hw.
    destruct (Z.ltb_spec (ai - c) bi) as [H2|H2]; cbn [b2z].
    + split; [right; reflexivity|].
      rewrite (wrap64_eq _ 1) by (unfold is_limb; lia). lia.
    + split; [left; reflexivity|].
      rewrite (wrap64_eq _ 0) by (unfold is_limb; lia). lia.
Qed.

Lemma sub_loop1_spec : forall todo a b r i c,
  Forall is_limb a -> Forall is_limb b ->
  (i + todo <= length a)%nat -> (i + todo <= length b)%nat ->
  (i + todo <= length r)%nat ->
  c = 0 \/ c = 1 ->
  exists r' c',
    sub_loop1 a b r (Z.of_nat i) todo c = Ok (r', c')
    /\ (c' = 0 \/ c' = 1)
    /\ length r' = length r
    /\ (Forall is_limb r -> Forall is_limb r')
    /\ (forall k, (k < i \/ i + todo <= k)%nat -> nth k r' 0 = nth k r 0)
    /\ lv r' i todo
       = lv a i todo - lv b i todo - c + c' * 2 ^ (64 * Z.of_nat todo).
Proof.
  induction todo as [|todo IH]; intros a b r i c Ha Hb Hla Hlb Hlr Hc.
  - exists r, c. cbn [sub_loop1]. split; [reflexivity|].
    split; [exact Hc|]. split; [reflexivity|]. split; [auto|].
    split; [reflexivity|].
    unfold lv. cbn [dsum]. change (2 ^ (64 * Z.of_nat 0)) with 1. lia.
  - cbn [sub_loop1]. rewrite !rd_ok by lia. cbn [bind].
    rewrite wr_ok by lia. cbn [bind].
    destruct (sub_limb (nth i a 0) (nth i b 0) c
                (nth_limb a i Ha) (nth_limb b i Hb) Hc) as [Hc1 Hv].
    set (c1 := b2z (wrap64 (nth i a 0 - c) <? nth i b 0)
               + b2z (nth i a 0 <? c)) in *.
    set (v := wrap64 (wrap64 (nth i a 0 - c) - nth i b 0)) in *.
    replace (Z.of_nat i + 1) with (Z.of_nat (S i)) by lia.
    destruct (IH a b (upd r i v) (S i) c1 Ha Hb)
      as (r' & c' & Hrun & Hc' & Hlen & Hlimb & Hout & Hval);
      try rewrite upd_length; try lia; auto.
    exists r', c'. split; [exact Hrun|]. split; [exact Hc'|].
    split; [rewrite Hlen; apply upd_length|].
    split.
    { intro Hr. apply Hlimb. apply Forall_upd; [exact Hr|].
      unfold v. apply wrap64_limb. }
    split.
    { intros k Hk. rewrite Hout by lia. apply nth_upd_other. lia. }
    rewrite !lv_cons, Hval. rewrite Hout by lia.
    rewrite nth_upd_same by lia. rewrite Hv, pow64_succ. ring.
Qed.

Lemma sub_loop2_spec : forall room a r i c,
  Forall is_limb a ->
  (i + room <= length a)%nat -> (i + room <= length r)%nat ->
  c = 0 \/ c = 1 -> c <= lv a i room ->
  exists r' j,
    sub_loop2 a r (Z.of_nat i) room c = Ok (r', Z.of_nat j)
    /\ (i <= j <= i + room)%nat
    /\ length r' = length r
    /\ (Forall is_limb r -> Forall is_limb r')
    /\ (forall k, (k < i \/ j <= k)%nat -> nth k r' 0 = nth k r 0)
    /\ lv r' i (j - i) = lv a i (j - i) - c.
Proof.
  induction room as [|room IH]; intros a r i c Ha Hla Hlr Hc Hge.
  - assert (c = 0) by (unfold lv in Hge; cbn [dsum] in Hge; lia). subst c.
    exists r, i. cbn [sub_loop2]. change (0 =? 0) with true. cbv iota.
    split; [reflexivity|]. split; [lia|]. split; [reflexivity|].
    split; [auto|]. split; [reflexivity|].
    rewrite Nat.sub_diag. unfold lv. cbn [dsum]. lia.
  - cbn [sub_loop2]. destruct Hc as [->| ->].
    + change (0 =? 0) with true. cbv iota.
      exists r, i. split; [reflexivity|]. split; [lia|].
      split; [reflexivity|]. split; [auto|]. split; [reflexivity|].
      rewrite Nat.sub_diag. unfold lv. cbn [dsum]. lia.
    + change (1 =? 0) with false. cbv iota.
      rewrite rd_ok by lia. cbn [bind]. rewrite wr_ok by lia. cbn [bind].
      pose proof (nth_limb a i Ha) as Hai. unfold is_limb in Hai.
      replace (Z.of_nat i + 1) with (Z.of_nat (S i)) by lia.
      rewrite lv_cons in Hge.
      pose proof (lv_bound a (S i) room Ha) as Hb.
      destruct (Z.ltb_spec (nth i a 0) 1) as [H0|H0]; cbn [b2z].
      * assert (Ha0 : nth i a 0 = 0) by lia.
        destruct (IH a (upd r i (wrap64 (nth i a 0 - 1))) (S i) 1 Ha)
          as (r' & j & Hrun & Hj & Hlen & Hlimb & Hout & Hval);
          try rewrite upd_length; try lia; auto.
        exists r', j. split; [exact Hrun|]. split; [lia|].
        split; [rewrite Hlen; apply upd_length|].
        split.
        { intro Hr. apply Hlimb. apply Forall_upd; [exact Hr|].
          apply wrap64_limb. }
        split.
        { intros k Hk. rewrite Hout by lia. apply nth_upd_other. lia. }
        replace (j - i)%nat with (S (j - S i)) by lia.
        rewrite !lv_cons, Hval. rewrite Hout by lia.
        rewrite nth_upd_same by lia. rewrite Ha0.
        rewrite (wrap64_eq (0 - 1) 1) by (unfold is_limb; lia). ring.
      * exists (upd r i (wrap64 (nth i a 0 - 1))), (S i).
        destruct room as [|room']; cbn [sub_loop2]; change (0 =? 0) with true;
          cbv iota.
        all: split; [reflexivity|]; split; [lia|];
          split; [apply upd_length|];
          (split; [intro Hr; apply Forall_upd;
                   [exact Hr | apply wrap64_limb]|]);
          (split; [intros k Hk; apply nth_upd_other; lia|]);
          replace (S i - i)%nat with 1%nat by lia;
          rewrite !lv_cons; unfold lv; cbn [dsum];
          rewrite nth_upd_same by lia;
          rewrite (wrap64_eq _ 0) by (unfold is_limb; lia); lia.
Qed.

Lemma nth_splice : forall (r2 a : list Z) j n k,
  (j + n <= length a)%nat -> (j + n <= length r2)%nat ->
  nth k (firstn j r2 ++ memcpy (skipn j r2) (skipn j a) n) 0
  = if (k <? j)%nat then nth k r2 0
    else if (k <? j + n)%nat then nth k a 0 else nth k r2 0.
Proof.
  intros r2 a j n k Ha Hr. unfold memcpy.
  destruct (Nat.ltb_spec k j) as [H1|H1].
  - rewrite app_nth1 by (rewrite length_firstn; lia).
    apply nth_firstn_lt. exact H1.
  - rewrite app_nth2 by (rewrite length_firstn; lia).
    rewrite length_firstn, Nat.min_l by lia.
    destruct (Nat.ltb_spec k (j + n)) as [H2|H2].
    + rewrite app_nth1 by (rewrite length_firstn, length_skipn; lia).
      rewrite nth_firstn_lt by lia. rewrite nth_skipn. f_equal. lia.
    + rewrite app_nth2 by (rewrite length_firstn, length_skipn; lia).
      rewrite length_firstn, length_skipn, Nat.min_l by lia.
      rewrite !nth_skipn. f_equal. lia.
Qed.

Lemma splice_length : forall (r2 a : list Z) j n,
  (j + n <= length a)%nat -> (j + n <= length r2)%nat ->
  length (firstn j r2 ++ memcpy (skipn j r2) (skipn j a) n) = length r2.
Proof.
  intros r2 a j n Ha Hr. unfold memcpy.
  rewrite !length_app, !length_firstn, !length_skipn. lia.
Qed.

Lemma splice_limbs : forall (r2 a : list Z) j n,
  Forall is_limb r2 -> Forall is_limb a ->
  Forall is_limb (firstn j r2 ++ memcpy (skipn j r2) (skipn j a) n).
Proof.
  intros r2 a j n Hr Ha.
  apply Forall_app_limb; [apply Forall_firstn_limb; exact Hr|].
  apply memcpy_limbs; apply Forall_skipn_limb; assumption.
Qed.

(** bignum.c:718-742: [r] receives [a - b] on [al] limbs. *)
Lemma mpi_sub_spec : forall a b r al bl,
  Forall is_limb a -> Forall is_limb b -> Forall is_limb r ->
  (bl <= al)%nat -> (al <= length a)%nat -> (bl <= length b)%nat ->
  (al <= length r)%nat ->
  lv b 0 bl <= lv a 0 al ->
  exists r',
    __mpi_sub a (Z.of_nat al) b (Z.of_nat bl) r = Ok r'
    /\ length r' = length r
    /\ Forall is_limb r'
    /\ lv r' 0 al = lv a 0 al - lv b 0 bl
    /\ (forall k, (al <= k)%nat -> nth k r' 0 = nth k r 0).
Proof.
  intros a b r al bl Ha Hb Hr Hle Hla Hlb Hlr Hval. unfold __mpi_sub.
  replace (Z.of_nat al <? Z.of_nat bl) with false
    by (symmetry; apply Z.ltb_ge; lia).
  rewrite Nat2Z.id.
  destruct (sub_loop1_spec bl a b r 0 0 Ha Hb)
    as (r1 & c & Hrun1 & Hc & Hlen1 & Hlimb1 & Hout1 & Hval1);
    try lia; auto.
  change (Z.of_nat 0) with 0 in Hrun1. rewrite Hrun1. cbn [bind].
  replace (Z.to_nat (Z.of_nat al - Z.of_nat bl)) with (al - bl)%nat by lia.
  assert (Hsplit : lv a 0 al
                   = lv a 0 bl + 2 ^ (64 * Z.of_nat bl) * lv a bl (al - bl)).
  { replace al with (bl + (al - bl))%nat at 1 by lia. apply lv_split. }
  pose proof (lv_bound r1 0 bl (Hlimb1 Hr)) as Hb1.
  pose proof (lv_bound a bl (al - bl) Ha) as Hbh.
  pose proof (pow64_pos bl) as HP.
  assert (Hc2 : c <= lv a bl (al - bl)).
  { destruct Hc as [->| ->]; [lia|].
    destruct (Z.eq_dec (lv a bl (al - bl)) 0) as [H0|H0]; [|lia].
    rewrite H0 in Hsplit. lia. }
  destruct (sub_loop2_spec (al - bl) a r1 bl c Ha)
    as (r2 & j & Hrun2 & Hj & Hlen2 & Hlimb2 & Hout2 & Hval2);
    try lia; auto.
  rewrite Hrun2. cbn [bind]. rewrite Nat2Z.id.
  replace (Z.to_nat (Z.of_nat al - Z.of_nat j)) with (al - j)%nat by lia.
  eexists. split; [reflexivity|].
  split; [rewrite splice_length by lia; lia|].
  split; [apply splice_limbs; auto|].
  assert (Hnth : forall k,
            nth k (firstn j r2 ++ memcpy (skipn j r2) (skipn j a) (al - j)) 0
            = if (k <? j)%nat then nth k r2 0
              else if (k <? al)%nat then nth k a 0 else nth k r2 0).
  { intro k. rewrite nth_splice by lia.
    replace (j + (al - j))%nat with al by lia. reflexivity. }
  split.
  - set (r3 := firstn j r2 ++ memcpy (skipn j r2) (skipn j a) (al - j)) in *.
    replace al with (bl + ((j - bl) + (al - j)))%nat at 1 by lia.
    rewrite !lv_split.
    replace (lv r3 0 bl) with (lv r1 0 bl).
    2:{ apply lv_ext. intros k Hk. rewrite Hnth.
        replace (k <? j)%nat with true by (symmetry; apply Nat.ltb_lt; lia).
        symmetry. apply Hout2. lia. }
    replace (lv r3 (0 + bl) (j - bl)) with (lv r2 bl (j - bl)).
    2:{ apply lv_ext. intros k Hk. rewrite Hnth.
        replace (k <? j)%nat with true by (symmetry; apply Nat.ltb_lt; lia).
        reflexivity. }
    replace (lv r3 (0 + bl + (j - bl)) (al - j)) with (lv a j (al - j)).
    2:{ replace (0 + bl + (j - bl))%nat with j by lia.
        apply lv_ext. intros k Hk. rewrite Hnth.
        replace (k <? j)%nat with false by (symmetry; apply Nat.ltb_ge; lia).
        replace (k <? al)%nat with true by (symmetry; apply Nat.ltb_lt; lia).
        reflexivity. }
    rewrite Hval1, Hval2, Hsplit.
    replace (al - bl)%nat with ((j - bl) + (al - j))%nat by lia.
    rewrite lv_split. replace (bl + (j - bl))%nat with j by lia.
    ring.
  - intros k Hk. rewrite Hnth.
    replace (k <? j)%nat with false by (symmetry; apply Nat.ltb_ge; lia).
    replace (k <? al)%nat with false by (symmetry; apply Nat.ltb_ge; lia).
    rewrite Hout2 by lia. apply Hout1. lia.
Qed.

Lemma good_used_le : forall A B,
  mpi_good A -> mpi_good B -> mpi_abs B <= mpi_abs A -> used B <= used A.
Proof.
  intros A B HA HB Hle.
  destruct (Z.le_gt_cases (used B) (used A)) as [H|H]; [exact H|].
  pose proof (good_used_lt A B HA HB H). lia.
Qed.






(** ** Bit operations as arithmetic *)

Lemma lor_disjoint : forall a b t,
  0 <= t -> 0 <= b < 2 ^ t -> Z.lor (a * 2 ^ t) b = a * 2 ^ t + b.
Proof.
  intros a b t Ht Hb.
  rewrite <- Z.add_lor_land.
  replace (Z.land (a * 2 ^ t) b) with 0; [lia|].
  symmetry. apply Z.bits_inj'. intros m Hm.
  rewrite Z.land_spec, Z.bits_0.
  destruct (Z.lt_ge_cases m t) as [H|H].
  - rewrite Z.mul_pow2_bits_low by lia. reflexivity.
  - rewrite (small_high_bits b t m) by lia. apply andb_false_r.
Qed.

Lemma pow2_split : forall a b, 0 <= a <= b -> 2 ^ b = 2 ^ a * 2 ^ (b - a).
Proof.
  intros a b H. rewrite <- Z.pow_add_r by lia. f_equal. lia.
Qed.

(** [x << t] in 64 bits and the bits that fall off. *)
Lemma shl_limb : forall x t,
  is_limb x -> 0 < t < 64 ->
  wrap64 (Z.shiftl x t) = (x mod 2 ^ (64 - t)) * 2 ^ t
  /\ Z.shiftr x (64 - t) = x / 2 ^ (64 - t)
  /\ 0 <= x / 2 ^ (64 - t) < 2 ^ t
  /\ x * 2 ^ t = (x mod 2 ^ (64 - t)) * 2 ^ t + (x / 2 ^ (64 - t)) * 2 ^ 64.
Proof.
  intros x t Hx Ht. unfold is_limb in Hx.
  assert (HP : 0 < 2 ^ (64 - t)) by (apply Z.pow_pos_nonneg; lia).
  assert (HT : 0 < 2 ^ t) by (apply Z.pow_pos_nonneg; lia).
  assert (H64 : 2 ^ 64 = 2 ^ (64 - t) * 2 ^ t).
  { rewrite <- Z.pow_add_r by lia. f_equal. lia. }
  pose proof (Z.div_mod x (2 ^ (64 - t)) ltac:(lia)) as Hdm.
  pose proof (Z.mod_pos_bound x (2 ^ (64 - t)) HP) as Hm.
  assert (Hq : 0 <= x / 2 ^ (64 - t) < 2 ^ t).
  { split; [apply Z.div_pos; lia|].
    apply Z.div_lt_upper_bound; [lia|]. rewrite <- H64. lia. }
  assert (Hmul : x * 2 ^ t
                 = x mod 2 ^ (64 - t) * 2 ^ t + x / 2 ^ (64 - t) * 2 ^ 64).
  { rewrite H64. rewrite Hdm at 1. ring. }
  split.
  - rewrite Z.shiftl_mul_pow2 by lia. unfold wrap64.
    rewrite Hmul. rewrite Z.mod_add by lia.
    apply Z.mod_small. split; [nia|]. rewrite H64. nia.
  - split; [apply Z.shiftr_div_pow2; lia|]. split; [exact Hq | exact Hmul].
Qed.

(** ** Bit length *)

Lemma bitlen_spec : forall X,
  mpi_good X ->
  ttls_mpi_bitlen X
  = Ok (if mpi_abs X =? 0 then 0 else Z.log2 (mpi_abs X) + 1).
Proof.
  intros X (Hwf & Hn & Hu1 & _). pose proof Hwf as (Hu & Hlen & Hl).
  unfold ttls_mpi_bitlen.
  replace (used X =? 0) with false by (symmetry; apply Z.eqb_neq; lia).
  replace (used X - 1) with (Z.of_nat (Z.to_nat (used X - 1))) by lia.
  rewrite rd_ok by lia. cbn [bind].
  destruct (mpi_abs_top X Hwf Hu1) as (lo & Hlo & Hv).
  set (top := nth (Z.to_nat (used X - 1)) (p X) 0) in *.
  assert (Htop : is_limb top) by (apply nth_limb; exact Hl).
  unfold is_limb in Htop.
  assert (HP : 0 < 2 ^ (64 * (used X - 1))) by (apply Z.pow_pos_nonneg; lia).
  destruct (Z.eqb_spec top 0) as [Ht|Ht].
  - f_equal.
    assert (Hu1' : used X = 1).
    { destruct (Z.ltb_spec 1 (used X)) as [Hgt|]; [|lia].
      exfalso. apply (Hn Hgt). exact Ht. }
    rewrite Hv, Ht, Hu1' in *. change (2 ^ (64 * (1 - 1))) with 1 in Hlo.
    replace lo with 0 by lia. reflexivity.
  - f_equal. unfold fls64, BIL.
    replace (top =? 0) with false by (symmetry; apply Z.eqb_neq; lia).
    rewrite Hv.
    replace (lo + 2 ^ (64 * (used X - 1)) * top =? 0) with false
      by (symmetry; apply Z.eqb_neq; nia).
    rewrite log2_shifted by lia. rewrite Z2Nat.id by lia. lia.
Qed.

Lemma bitlen_bounds : forall v,
  0 < v -> 2 ^ Z.log2 v <= v < 2 ^ (Z.log2 v + 1).
Proof.
  intros v Hv. pose proof (Z.log2_spec v Hv) as H.
  replace (Z.log2 v + 1) with (Z.succ (Z.log2 v)) by lia. exact H.
Qed.


Lemma dsum_ext_shift : forall f g n i j,
  (forall k, (k < n)%nat -> f (i + k)%nat = g (j + k)%nat) ->
  dsum f i n = dsum g j n.
Proof.
  intros f g n. induction n as [|n IH]; intros i j H; [reflexivity|].
  cbn [dsum]. rewrite <- (Nat.add_0_r i) at 1. rewrite (H 0%nat) by lia.
  rewrite Nat.add_0_r. f_equal. f_equal. apply IH.
  intros k Hk. replace (S i + k)%nat with (i + S k)%nat by lia.
  replace (S j + k)%nat with (j + S k)%nat by lia. apply H. lia.
Qed.

Lemma lv_ext_shift : forall l1 l2 n i j,
  (forall k, (k < n)%nat -> nth (i + k) l1 0 = nth (j + k) l2 0) ->
  lv l1 i n = lv l2 j n.
Proof. intros. apply dsum_ext_shift. assumption. Qed.

(** ** Left shift *)



Lemma Forall_limb_nth : forall l,
  (forall k, (k < length l)%nat -> is_limb (nth k l 0)) -> Forall is_limb l.
Proof.
  intros l H. apply Forall_forall. intros x Hx.
  apply (In_nth _ _ 0) in Hx. destruct Hx as (k & Hk & <-). apply H. exact Hk.
Qed.

Lemma zero_limb : is_limb 0.
Proof. unfold is_limb. lia. Qed.


Lemma shiftr6 : forall z, Z.shiftr z BSHIFT = z / 64.
Proof. intro z. unfold BSHIFT. apply Z.shiftr_div_pow2. lia. Qed.

Lemma land63 : forall z, Z.land z BMASK = z mod 64.
Proof.
  intro z. unfold BMASK. change 63 with (Z.ones 6).
  rewrite Z.land_ones by lia. reflexivity.
Qed.


Lemma rd_ok_z : forall a i,
  0 <= i < Z.of_nat (length a) -> rd a i = Ok (nth (Z.to_nat i) a 0).
Proof.
  intros a i H. replace i with (Z.of_nat (Z.to_nat i)) at 1 by lia.
  apply rd_ok. lia.
Qed.

Lemma wr_ok_z : forall a i v,
  0 <= i < Z.of_nat (length a) -> wr a i v = Ok (upd a (Z.to_nat i) v).
Proof.
  intros a i v H. replace i with (Z.of_nat (Z.to_nat i)) at 1 by lia.
  apply wr_ok. lia.
Qed.



(** ** Right shift *)

Lemma shr_limbs_spec : forall todo a v0 i,
  (i + todo + v0 <= length a)%nat ->
  exists a',
    shr_limbs a (Z.of_nat v0) (Z.of_nat i) todo = Ok a'
    /\ length a' = length a
    /\ (forall k, (i <= k < i + todo)%nat -> nth k a' 0 = nth (k + v0) a 0)
    /\ (forall k, (k < i \/ i + todo <= k)%nat -> nth k a' 0 = nth k a 0).
Proof.
  induction todo as [|todo IH]; intros a v0 i Hlen.
  - exists a. cbn [shr_limbs]. split; [reflexivity|].
    split; [reflexivity|]. split; [intros k Hk; lia | reflexivity].
  - cbn [shr_limbs].
    replace (Z.of_nat i + Z.of_nat v0) with (Z.of_nat (i + v0)) by lia.
    rewrite rd_ok by lia. cbn [bind]. rewrite wr_ok by lia. cbn [bind].
    replace (Z.of_nat i + 1) with (Z.of_nat (S i)) by lia.
    destruct (IH (upd a i (nth (i + v0) a 0)) v0 (S i))
      as (a' & Hrun & Hl' & Hin & Hout); [rewrite upd_length; lia|].
    exists a'. split; [exact Hrun|].
    split; [rewrite Hl'; apply upd_length|]. split.
    + intros k Hk. destruct (Nat.eq_dec k i) as [->|Hne].
      * rewrite Hout by lia. apply nth_upd_same. lia.
      * rewrite Hin by lia. apply nth_upd_other. lia.
    + intros k Hk. rewrite Hout by lia. apply nth_upd_other. lia.
Qed.

Lemma shr_bits_spec : forall i a v1 cin,
  Forall is_limb a -> 0 < v1 < 64 -> (i <= length a)%nat ->
  0 <= cin < 2 ^ v1 ->
  exists a',
    shr_bits a v1 i (cin * 2 ^ (64 - v1)) = Ok a'
    /\ length a' = length a
    /\ Forall is_limb a'
    /\ (forall k, (i <= k)%nat -> nth k a' 0 = nth k a 0)
    /\ lv a' 0 i = (lv a 0 i + cin * 2 ^ (64 * Z.of_nat i)) / 2 ^ v1.
Proof.
  induction i as [|i IH]; intros a v1 cin Ha Hv Hlen Hc.
  - exists a. cbn [shr_bits]. split; [reflexivity|].
    split; [reflexivity|]. split; [exact Ha|]. split; [reflexivity|].
    unfold lv. cbn [dsum]. change (2 ^ (64 * Z.of_nat 0)) with 1.
    symmetry. apply Z.div_small. lia.
  - cbn [shr_bits]. rewrite rd_ok by lia. cbn [bind].
    rewrite wr_ok by lia. cbn [bind]. unfold BIL.
    set (x := nth i a 0).
    assert (Hx : is_limb x) by (apply nth_limb; exact Ha).
    destruct (shl_limb x (64 - v1) Hx ltac:(lia)) as (Hlo & _ & _ & _).
    replace (64 - (64 - v1)) with v1 in Hlo by lia.
    rewrite Hlo. rewrite Z.shiftr_div_pow2 by lia.
    assert (HV : 0 < 2 ^ v1) by (apply Z.pow_pos_nonneg; lia).
    assert (HW : 0 < 2 ^ (64 - v1)) by (apply Z.pow_pos_nonneg; lia).
    assert (H64 : 2 ^ 64 = 2 ^ v1 * 2 ^ (64 - v1)).
    { rewrite <- Z.pow_add_r by lia. f_equal. lia. }
    pose proof (Z.div_mod x (2 ^ v1) ltac:(lia)) as Hdm.
    pose proof (Z.mod_pos_bound x (2 ^ v1) HV) as Hm.
    unfold is_limb in Hx.
    assert (Hq : 0 <= x / 2 ^ v1 < 2 ^ (64 - v1)).
    { split; [apply Z.div_pos; lia|].
      apply Z.div_lt_upper_bound; [lia|]. rewrite <- H64. lia. }
    rewrite Z.lor_comm, lor_disjoint by lia.
    set (new := cin * 2 ^ (64 - v1) + x / 2 ^ v1).
    assert (Hnew : is_limb new).
    { unfold is_limb, new. split; [nia|]. rewrite H64. nia. }
    destruct (IH (upd a i new) v1 (x mod 2 ^ v1))
      as (a' & Hrun & Hl' & Hf' & Hout & Hval);
      try rewrite upd_length; try lia; auto.
    { apply Forall_upd; assumption. }
    exists a'. split; [exact Hrun|].
    split; [rewrite Hl'; apply upd_length|]. split; [exact Hf'|].
    split.
    { intros k Hk. rewrite Hout by lia. apply nth_upd_other. lia. }
    rewrite !lv_snoc. cbn [Nat.add]. rewrite Hval.
    rewrite Hout by lia. rewrite nth_upd_same by lia.
    assert (Hrest : lv (upd a i new) 0 i = lv a 0 i).
    { apply lv_ext. intros k Hk. apply nth_upd_other. lia. }
    rewrite Hrest, pow64_succ. fold x.
    pose proof (pow64_pos i) as HP.
    set (P := 2 ^ (64 * Z.of_nat i)) in *. set (L := lv a 0 i) in *.
    replace (L + P * x + cin * (2 ^ 64 * P))
      with (L + x mod 2 ^ v1 * P + (P * new) * 2 ^ v1).
    2:{ unfold new. rewrite H64.
        set (q := x / 2 ^ v1) in *. set (r := x mod 2 ^ v1) in *.
        clearbody q r x. subst x. ring. }
    rewrite Z.div_add by lia. reflexivity.
Qed.

Lemma good_top_limb : forall X,
  mpi_good X -> mpi_abs X <> 0 ->
  nth (Z.to_nat (used X - 1)) (p X) 0 <> 0.
Proof.
  intros X (Hwf & Hn & _) H0. apply (nonzero_top X Hwf Hn H0).
Qed.



(** ** Multiplication by a limb *)

Lemma b2z_ltb_carry : forall v a c,
  is_limb a -> is_limb c -> v = wrap64 (a + c) ->
  a + c = v + b2z (v <? c) * 2 ^ 64 /\ (b2z (v <? c) = 0 \/ b2z (v <? c) = 1).
Proof.
  intros v a c Ha Hc ->. unfold is_limb in *.
  destruct (Z.lt_ge_cases (a + c) (2 ^ 64)) as [H|H].
  - rewrite (wrap64_eq (a + c) 0) by (unfold is_limb; lia).
    replace (a + c + 0 * 2 ^ 64 <? c) with false
      by (symmetry; apply Z.ltb_ge; lia).
    cbn [b2z]. lia.
  - rewrite (wrap64_eq (a + c) (-1)) by (unfold is_limb; lia).
    replace (a + c + -1 * 2 ^ 64 <? c) with true
      by (symmetry; apply Z.ltb_lt; lia).
    cbn [b2z]. lia.
Qed.

(** One [MULADDC_CORE]: [d + 2^64 * carry = s * b + d0 + c]. *)
Lemma muladdc_core_spec : forall si di b c,
  is_limb si -> is_limb di -> is_limb b -> is_limb c ->
  let '(di1, c1) := muladdc_core si di b c in
  is_limb di1 /\ is_limb c1 /\ di1 + c1 * 2 ^ 64 = si * b + di + c.
Proof.
  intros si di b c Hs Hd Hb Hc. unfold muladdc_core.
  set (rax := wrap64 (si * b)).
  set (rdx := Z.shiftr (si * b) 64).
  assert (Hprod : 0 <= si * b <= (2 ^ 64 - 1) * (2 ^ 64 - 1))
    by (unfold is_limb in *; nia).
  assert (Hsplit : si * b = rax + rdx * 2 ^ 64).
  { unfold rax, rdx, wrap64. rewrite Z.shiftr_div_pow2 by lia.
    pose proof (Z.div_mod (si * b) (2 ^ 64) ltac:(lia)). lia. }
  assert (Hrax : is_limb rax) by apply wrap64_limb.
  assert (Hrdx : 0 <= rdx <= 2 ^ 64 - 2).
  { unfold is_limb in Hrax. change (2 ^ 64) with 18446744073709551616 in *.
    lia. }
  set (rax1 := wrap64 (rax + c)).
  destruct (b2z_ltb_carry rax1 rax c Hrax Hc eq_refl) as [E1 C1].
  set (k1 := b2z (rax1 <? c)) in *.
  assert (Hrax1 : is_limb rax1) by apply wrap64_limb.
  assert (Hrdx1 : wrap64 (rdx + k1) = rdx + k1).
  { rewrite (wrap64_eq _ 0); [lia|]. unfold is_limb.
    change (2 ^ 64) with 18446744073709551616 in *. lia. }
  rewrite Hrdx1.
  set (di1 := wrap64 (di + rax1)).
  destruct (b2z_ltb_carry di1 di rax1 Hd Hrax1 eq_refl) as [E2 C2].
  set (k2 := b2z (di1 <? rax1)) in *.
  assert (Hdi1 : is_limb di1) by apply wrap64_limb.
  assert (Htot : di1 + (rdx + k1 + k2) * 2 ^ 64 = si * b + di + c) by lia.
  assert (Hfit : rdx + k1 + k2 < 2 ^ 64).
  { unfold is_limb in *. change (2 ^ 64) with 18446744073709551616 in *.
    nia. }
  assert (Hrcx : wrap64 (rdx + k1 + k2) = rdx + k1 + k2).
  { rewrite (wrap64_eq _ 0); [lia|]. unfold is_limb. lia. }
  rewrite Hrcx. split; [exact Hdi1|]. split; [unfold is_limb; lia | exact Htot].
Qed.

Lemma mul_core_spec : forall todo sl dl off b i c,
  Forall is_limb sl -> Forall is_limb dl -> is_limb b -> is_limb c ->
  (i + todo <= length sl)%nat -> (off + i + todo <= length dl)%nat ->
  exists dl' c',
    mul_core sl dl (Z.of_nat off) b (Z.of_nat i) todo c = Ok (dl', c')
    /\ is_limb c'
    /\ length dl' = length dl
    /\ Forall is_limb dl'
    /\ (forall k, (k < off + i \/ off + i + todo <= k)%nat ->
          nth k dl' 0 = nth k dl 0)
    /\ lv dl' (off + i) todo + c' * 2 ^ (64 * Z.of_nat todo)
       = lv sl i todo * b + lv dl (off + i) todo + c.
Proof.
  induction todo as [|todo IH]; intros sl dl off b i c Hs Hd Hb Hc Hls Hld.
  - exists dl, c. cbn [mul_core]. split; [reflexivity|].
    split; [exact Hc|]. split; [reflexivity|]. split; [exact Hd|].
    split; [reflexivity|].
    unfold lv. cbn [dsum]. change (2 ^ (64 * Z.of_nat 0)) with 1. lia.
  - cbn [mul_core]. rewrite rd_ok by lia. cbn [bind].
    replace (Z.of_nat off + Z.of_nat i) with (Z.of_nat (off + i)) by lia.
    rewrite rd_ok by lia. cbn [bind].
    pose proof (muladdc_core_spec (nth i sl 0) (nth (off + i) dl 0) b c
                  (nth_limb sl i Hs) (nth_limb dl (off + i) Hd) Hb Hc) as Hm.
    destruct (muladdc_core (nth i sl 0) (nth (off + i) dl 0) b c)
      as [di1 c1].
    destruct Hm as (Hdi1 & Hc1 & Heq).
    rewrite wr_ok by lia. cbn [bind].
    replace (Z.of_nat i + 1) with (Z.of_nat (S i)) by lia.
    destruct (IH sl (upd dl (off + i) di1) off b (S i) c1 Hs)
      as (dl' & c' & Hrun & Hc' & Hl' & Hf' & Hout & Hval);
      try rewrite upd_length; try lia; auto.
    { apply Forall_upd; assumption. }
    exists dl', c'. split; [exact Hrun|]. split; [exact Hc'|].
    split; [rewrite Hl'; apply upd_length|]. split; [exact Hf'|].
    split.
    { intros k Hk. rewrite Hout by lia. apply nth_upd_other. lia. }
    rewrite !lv_cons. rewrite Hout by lia. rewrite nth_upd_same by lia.
    replace (off + S i)%nat with (S (off + i)) in Hval by lia.
    assert (Hrest : lv (upd dl (off + i) di1) (S (off + i)) todo
                    = lv dl (S (off + i)) todo).
    { apply lv_ext. intros k Hk. apply nth_upd_other. lia. }
    rewrite Hrest in Hval. rewrite pow64_succ.
    set (P := 2 ^ (64 * Z.of_nat todo)) in *. nia.
Qed.

Lemma mul_carry_spec : forall r dl i room c,
  Forall is_limb dl -> is_limb c ->
  (1 <= r <= room)%nat -> (i + r <= length dl)%nat ->
  lv dl i r + c < 2 ^ (64 * Z.of_nat r) ->
  exists dl',
    mul_carry dl (Z.of_nat i) room c = Ok dl'
    /\ length dl' = length dl
    /\ Forall is_limb dl'
    /\ (forall k, (k < i \/ i + r <= k)%nat -> nth k dl' 0 = nth k dl 0)
    /\ lv dl' i r = lv dl i r + c.
Proof.
  induction r as [|r IH]; intros dl i room c Hd Hc Hr Hlen Hfit; [lia|].
  destruct room as [|room]; [lia|].
  cbn [mul_carry]. rewrite rd_ok by lia. cbn [bind].
  rewrite wr_ok by lia. cbn [bind].
  set (di := nth i dl 0) in *.
  assert (Hdi : is_limb di) by (apply nth_limb; exact Hd).
  destruct (b2z_ltb_carry (wrap64 (di + c)) di c Hdi Hc eq_refl) as [E C].
  set (v := wrap64 (di + c)) in *.
  assert (Hv : is_limb v) by apply wrap64_limb.
  rewrite lv_cons in Hfit. fold di in Hfit. rewrite pow64_succ in Hfit.
  pose proof (lv_bound dl (S i) r Hd) as Hb.
  pose proof (pow64_pos r) as HP.
  set (dl1 := upd dl i v).
  assert (Hrest : lv dl1 (S i) r = lv dl (S i) r).
  { apply lv_ext. intros k Hk. apply nth_upd_other. lia. }
  destruct (Z.ltb_spec v c) as [Hcar|Hcar]; cbn [b2z] in E.
  - replace (Z.of_nat i + 1) with (Z.of_nat (S i)) by lia.
    unfold is_limb in Hv, Hc, Hdi.
    assert (Hr1 : (1 <= r)%nat).
    { destruct r; [|lia]. unfold lv in *. cbn [dsum] in *.
      change (2 ^ (64 * Z.of_nat 0)) with 1 in *. lia. }
    assert (Hl1 : length dl1 = length dl) by apply upd_length.
    assert (Hf1 : Forall is_limb dl1) by (apply Forall_upd; assumption).
    assert (H1 : is_limb 1) by (unfold is_limb; lia).
    assert (Hfit1 : lv dl1 (S i) r + 1 < 2 ^ (64 * Z.of_nat r)).
    { rewrite Hrest. set (P := 2 ^ (64 * Z.of_nat r)) in *.
      change (2 ^ 64) with 18446744073709551616 in *. nia. }
    destruct (IH dl1 (S i) room 1 Hf1 H1 ltac:(lia) ltac:(lia) Hfit1)
      as (dl' & Hrun & Hl' & Hf' & Hout & Hval).
    exists dl'. split; [exact Hrun|].
    split; [rewrite Hl'; apply upd_length|]. split; [exact Hf'|].
    split.
    { intros k Hk. rewrite Hout by lia. apply nth_upd_other. lia. }
    rewrite !lv_cons, Hval, Hrest. rewrite Hout by lia.
    unfold dl1. rewrite nth_upd_same by lia. fold di. lia.
  - exists dl1. split; [reflexivity|].
    split; [apply upd_length|].
    split; [apply Forall_upd; assumption|].
    split; [intros k Hk; apply nth_upd_other; lia|].
    rewrite !lv_cons, Hrest. unfold dl1. rewrite nth_upd_same by lia.
    fold di. lia.
Qed.





(** ** Division of two limbs by one *)

Lemma wrap64_id : forall z, 0 <= z < 2 ^ 64 -> wrap64 z = z.
Proof. intros z H. apply wrap64_small. exact H. Qed.

(** Arithmetic of the correction loop, for a radix [R] and a divisor
    [D = d1 * R + d0]. *)
Lemma hd_test : forall q D V u d1 d0 r R,
  D = d1 * R + d0 -> r = V - q * d1 ->
  (R * r + u < q * d0 <-> V * R + u < q * D).
Proof.
  intros q D V u d1 d0 r R HD Hr.
  assert (E : q * D - (V * R + u) = q * d0 - (R * r + u))
    by (subst D r; ring).
  lia.
Qed.

Lemma hd_break : forall q D V u d1 d0 r R,
  0 < R -> D = d1 * R + d0 -> 0 <= d0 < R -> r = V - q * d1 ->
  1 <= q <= R + 1 -> R <= r + d1 -> 0 <= u ->
  (q - 1) * D <= V * R + u.
Proof.
  intros q D V u d1 d0 r R HR HD Hd0 Hr Hq Hbr Hu.
  assert (E1 : (q - 1) * D = V * R - (r + d1) * R + (q - 1) * d0)
    by (subst D r; ring).
  assert (F1 : R * R <= (r + d1) * R)
    by (apply Z.mul_le_mono_nonneg_r; lia).
  assert (F2 : (q - 1) * d0 <= R * (R - 1))
    by (apply Z.mul_le_mono_nonneg; lia).
  assert (E2 : R * (R - 1) = R * R - R) by ring.
  lia.
Qed.

Lemma hd_quot : forall D N Qh,
  0 < D -> Qh = N / D -> forall q, q <= Qh <-> q * D <= N.
Proof.
  intros D N Qh HD -> q.
  pose proof (Z.div_mod N D ltac:(lia)) as Hdm.
  pose proof (Z.mod_pos_bound N D HD) as Hm.
  split; intro H.
  - assert (q * D <= N / D * D) by (apply Z.mul_le_mono_nonneg_r; lia). lia.
  - destruct (Z.le_gt_cases q (N / D)) as [Hc|Hc]; [exact Hc|].
    assert ((N / D + 1) * D <= q * D)
      by (apply Z.mul_le_mono_nonneg_r; lia).
    lia.
Qed.

Lemma hd_init : forall D V u d1 d0 R,
  0 < R -> D = d1 * R + d0 -> 0 <= d0 < R -> R <= 2 * d1 ->
  0 <= V < D -> 0 <= u < R ->
  (V * R + u) / D <= V / d1 <= R + 1.
Proof.
  intros D V u d1 d0 R HR HD Hd0 Hd1 HV Hu.
  assert (Hd1p : 0 < d1) by lia.
  assert (HDp : 0 < D) by lia.
  pose proof (Z.div_mod V d1 ltac:(lia)) as Hdm.
  pose proof (Z.mod_pos_bound V d1 Hd1p) as Hm.
  set (q0 := V / d1) in *.
  split.
  - apply (hd_quot d1 V q0 Hd1p eq_refl).
    set (Qh := (V * R + u) / D).
    assert (HQ : Qh * D <= V * R + u)
      by (apply (hd_quot D (V * R + u) Qh HDp eq_refl); lia).
    assert (HQ0 : 0 <= Qh) by (apply Z.div_pos; nia).
    assert (E : Qh * D = Qh * d1 * R + Qh * d0) by (subst D; ring).
    assert (0 <= Qh * d0) by (apply Z.mul_nonneg_nonneg; lia).
    assert (Hlt : Qh * d1 * R < (V + 1) * R).
    { replace ((V + 1) * R) with (V * R + R) by ring. lia. }
    apply Z.mul_lt_mono_pos_r in Hlt; lia.
  - destruct (Z.le_gt_cases q0 (R + 1)) as [Hc|Hc]; [exact Hc|].
    assert ((R + 2) * d1 <= q0 * d1)
      by (apply Z.mul_le_mono_nonneg_r; lia).
    assert (E : (R + 2) * d1 = d1 * R + 2 * d1) by ring.
    lia.
Qed.

(** One half digit of the quotient (bignum.c:1034-1042 and 1044-1053): for
    a divisor [D] with its top bit set, written [d1 * 2^32 + d0], and a
    partial remainder [V < D], the correction loop started from [V / d1]
    ends on the quotient of [V * 2^32 + u] by [D]. *)
Lemma half_digit : forall D V u,
  2 ^ 63 <= D < 2 ^ 64 -> 0 <= V < D -> 0 <= u < 2 ^ 32 ->
  let d1 := Z.shiftr D BIH in
  let d0 := Z.land D (2 ^ BIH - 1) in
  exists r,
    while (div_adjust d0 d1 u)
          (V / d1, wrap64 (V - wrap64 (d1 * (V / d1))))
    = Ok ((V * 2 ^ 32 + u) / D, r).
Proof.
  intros D V u HD HV Hu. cbv zeta. unfold BIH.
  rewrite Z.shiftr_div_pow2 by lia.
  change (2 ^ 32 - 1) with (Z.ones 32). rewrite Z.land_ones by lia.
  set (d1 := D / 2 ^ 32). set (d0 := D mod 2 ^ 32).
  assert (HDsplit : D = d1 * 2 ^ 32 + d0).
  { unfold d1, d0. pose proof (Z.div_mod D (2 ^ 32) ltac:(lia)). lia. }
  assert (Hd0 : 0 <= d0 < 2 ^ 32)
    by (unfold d0; apply Z.mod_pos_bound; lia).
  assert (Hd1 : 2 ^ 31 <= d1 < 2 ^ 32).
  { change (2 ^ 63) with (2 ^ 31 * 2 ^ 32) in HD.
    change (2 ^ 64) with (2 ^ 32 * 2 ^ 32) in HD.
    unfold d1. split.
    - apply Z.div_le_lower_bound; lia.
    - apply Z.div_lt_upper_bound; lia. }
  assert (HR : 0 < 2 ^ 32) by lia.
  assert (HRR : 2 ^ 64 = 2 ^ 32 * 2 ^ 32) by reflexivity.
  assert (HR2 : 2 ^ 32 = 2 * 2 ^ 31) by reflexivity.
  set (R := 2 ^ 32) in *.
  set (Qh := (V * R + u) / D).
  assert (HDp : 0 < D) by lia.
  pose proof (hd_quot D (V * R + u) Qh HDp eq_refl) as Hle.
  assert (HQh0 : 0 <= Qh < R).
  { unfold Qh. split.
    - apply Z.div_pos; [|lia]. apply Z.add_nonneg_nonneg; [|lia].
      apply Z.mul_nonneg_nonneg; lia.
    - apply Z.div_lt_upper_bound; [lia|].
      assert ((V + 1) * R <= D * R)
        by (apply Z.mul_le_mono_nonneg_r; lia).
      replace ((V + 1) * R) with (V * R + R) in H by ring. lia. }
  pose proof (hd_init D V u d1 d0 R HR HDsplit Hd0 ltac:(lia) HV Hu) as Hq0b.
  fold Qh in Hq0b.
  set (q0 := V / d1) in *.
  assert (Hq0 : q0 * d1 <= V).
  { unfold q0. pose proof (Z.div_mod V d1 ltac:(lia)).
    pose proof (Z.mod_pos_bound V d1 ltac:(lia)). lia. }
  assert (Hq0r : V - q0 * d1 < d1).
  { unfold q0. pose proof (Z.div_mod V d1 ltac:(lia)).
    pose proof (Z.mod_pos_bound V d1 ltac:(lia)). lia. }
  assert (Hq0n : 0 <= q0) by (unfold q0; apply Z.div_pos; lia).
  assert (Hq0d : 0 <= q0 * d1) by (apply Z.mul_nonneg_nonneg; lia).
  assert (Hr0 : wrap64 (V - wrap64 (d1 * q0)) = V - q0 * d1).
  { replace (d1 * q0) with (q0 * d1) by ring.
    rewrite (wrap64_id (q0 * d1)) by lia.
    apply wrap64_id. lia. }
  rewrite Hr0.
  set (Inv := fun st : Z * Z =>
                Qh <= fst st <= R + 1
                /\ snd st = V - fst st * d1 /\ 0 <= snd st < R).
  set (Post := fun x : Z * Z => fst x = Qh).
  destruct (while_measure (Z * Z) (Z * Z) (div_adjust d0 d1 u) Inv
              (fun st => fst st - Qh + 1) Post) with (st := (q0, V - q0 * d1))
    as (x & Hrun & Hpost).
  - intros [q r] (Hq & Hr & Hrb). cbn [fst snd] in *.
    split; [lia|]. unfold div_adjust, BIH. fold R.
    assert (Hw1 : wrap64 (R * r + u) = R * r + u).
    { apply wrap64_id.
      assert (R * r <= R * (R - 1)) by (apply Z.mul_le_mono_nonneg_l; lia).
      assert (0 <= R * r) by (apply Z.mul_nonneg_nonneg; lia).
      replace (R * (R - 1)) with (R * R - R) in H by ring. lia. }
    rewrite Hw1.
    assert (Hdec : Qh < q ->
              match (if R <=? wrap64 (r + d1)
                     then Ok (inr (wrap64 (q - 1), wrap64 (r + d1)))
                     else Ok (inl (wrap64 (q - 1), wrap64 (r + d1))))
              with
              | Ok (inl st') => Inv st' /\ fst st' - Qh + 1 < q - Qh + 1
              | Ok (inr x) => Post x
              | _ => False
              end).
    { intro Hgt.
      rewrite (wrap64_id (q - 1)) by lia.
      rewrite (wrap64_id (r + d1)) by lia.
      destruct (Z.leb_spec R (r + d1)) as [Hbr|Hbr].
      - unfold Post. cbn [fst].
        assert (Hb : (q - 1) * D <= V * R + u)
          by (apply (hd_break q D V u d1 d0 r R); auto; lia).
        apply Hle in Hb. lia.
      - unfold Inv. cbn [fst snd]. split; [|lia].
        split; [lia|]. split; [rewrite Hr; ring | lia]. }
    destruct (Z.leb_spec R q) as [Hbig|Hsmall]; cbn [orb].
    + apply Hdec. lia.
    + assert (Hw2 : wrap64 (q * d0) = q * d0).
      { apply wrap64_id.
        assert (0 <= q * d0) by (apply Z.mul_nonneg_nonneg; lia).
        assert (q * d0 <= R * R) by (apply Z.mul_le_mono_nonneg; lia).
        assert (q * d0 <= (R - 1) * (R - 1))
          by (apply Z.mul_le_mono_nonneg; lia).
        replace ((R - 1) * (R - 1)) with (R * R - 2 * R + 1) in H1 by ring.
        lia. }
      rewrite Hw2.
      pose proof (hd_test q D V u d1 d0 r R HDsplit Hr) as Ht.
      destruct (Z.ltb_spec (R * r + u) (q * d0)) as [Hgt|Hok].
      * apply Hdec.
        destruct (Z.le_gt_cases q Qh) as [Hc|Hc]; [|lia].
        apply Hle in Hc. lia.
      * unfold Post. cbn [fst].
        assert (q * D <= V * R + u) by lia.
        apply Hle in H. lia.
  - unfold Inv. cbn [fst snd]. split; [lia|]. split; [reflexivity|lia].
  - cbn [fst]. lia.
  - destruct x as [q r]. unfold Post in Hpost. cbn [fst] in Hpost. subst q.
    exists r. exact Hrun.
Qed.

Lemma wrap64_combine : forall a b c,
  wrap64 (wrap64 a + wrap64 (b - wrap64 c)) = wrap64 (a + b - c).
Proof.
  intros a b c. unfold wrap64.
  rewrite Zminus_mod_idemp_r, Z.add_mod_idemp_l, Z.add_mod_idemp_r by lia.
  f_equal. ring.
Qed.

Lemma wrap64_combine2 : forall a b,
  wrap64 (wrap64 a + b) = wrap64 (a + b).
Proof.
  intros a b. unfold wrap64. rewrite Z.add_mod_idemp_l by lia. reflexivity.
Qed.

(** The normalisation shift of [ttls_int_div_int]. *)
Lemma div_norm_shift : forall d,
  is_limb d -> 0 < d ->
  let sh := BIL - fls64 d in
  0 <= sh < 64 /\ 2 ^ 63 <= d * 2 ^ sh < 2 ^ 64.
Proof.
  intros d Hd Hpos. cbv zeta. unfold BIL, fls64.
  replace (d =? 0) with false by (symmetry; apply Z.eqb_neq; lia).
  unfold is_limb in Hd.
  pose proof (bitlen_bounds d Hpos) as [B1 B2].
  pose proof (Z.log2_nonneg d) as Hl.
  assert (Hl2 : Z.log2 d < 64) by (apply (Z.log2_lt_pow2 d 64); lia).
  set (l := Z.log2 d) in *.
  assert (HS : 0 < 2 ^ (64 - (l + 1))) by (apply Z.pow_pos_nonneg; lia).
  split; [lia|]. split.
  - replace 63 with (l + (64 - (l + 1))) by lia.
    rewrite Z.pow_add_r by lia.
    apply Z.mul_le_mono_nonneg_r; lia.
  - replace 64 with ((l + 1) + (64 - (l + 1))) at 2 by lia.
    rewrite Z.pow_add_r by lia.
    apply Z.mul_lt_mono_pos_r; lia.
Qed.

(** [x << sh] in 64 bits and the part of [x] that leaves on the left, for
    any shift below 64. *)
Lemma shl_limb0 : forall x sh,
  is_limb x -> 0 <= sh < 64 ->
  let hi := Z.land (Z.shiftr x (BIL - sh))
                   (if sh =? 0 then 0 else 2 ^ 64 - 1) in
  let lo := wrap64 (Z.shiftl x sh) in
  0 <= hi < 2 ^ sh /\ is_limb lo /\ x * 2 ^ sh = hi * 2 ^ 64 + lo.
Proof.
  intros x sh Hx Hsh. cbv zeta. unfold BIL.
  destruct (Z.eqb_spec sh 0) as [->|Hnz].
  - rewrite Z.land_0_r. rewrite Z.shiftl_0_r. rewrite wrap64_id by exact Hx.
    change (2 ^ 0) with 1. split; [lia|]. split; [exact Hx | lia].
  - destruct (shl_limb x sh Hx ltac:(lia)) as (Hlo & Hhi & Hhib & Hmul).
    rewrite Hlo, Hhi.
    change (2 ^ 64 - 1) with (Z.ones 64). rewrite Z.land_ones by lia.
    assert (HS : 2 ^ sh <= 2 ^ 64) by (apply Z.pow_le_mono_r; lia).
    rewrite Z.mod_small by lia.
    split; [exact Hhib|]. split; [|lia].
    rewrite <- Hlo. apply wrap64_limb.
Qed.


(** ** The quotient digit estimate

    [Bb] is the radix, [Bt = Bb ^ t] and [Bj = Bb ^ j]; the divisor [Yv]
    has [t + 1] digits, the remainder [X] is below [Yv * Bj * Bb], and the
    digit sought is the quotient of [X] by [D = Yv * Bj].  [X3 / Y2] is the
    estimate from three digits of [X] and two of [Yv], [X2 / yt] the one
    from two digits of [X] and one of [Yv]. *)
Section Estimate.

Variables Bb Bt Bj Yv X : Z.
Hypothesis HBb : 1 < Bb.
Hypothesis HBt : 0 < Bt.
Hypothesis HBj : 0 < Bj.
Hypothesis HYv : Bt <= Yv < Bt * Bb.
Hypothesis HX : 0 <= X < Yv * Bj * Bb.

Variables I D X3 Y2 X2 yt : Z.
Hypothesis HI : I = Bt * Bb * Bj.
Hypothesis HD : D = Yv * Bj.
Hypothesis HX3 : X3 = X * Bb * Bb / I.
Hypothesis HY2 : Y2 = Yv * Bb / Bt.
Hypothesis HX2 : X2 = X * Bb / I.
Hypothesis Hyt : yt = Yv / Bt.











End Estimate.

(** ** Limbs above [used] *)



Lemma lv_div : forall l a b,
  Forall is_limb l -> lv l 0 (a + b) / 2 ^ (64 * Z.of_nat a) = lv l a b.
Proof.
  intros l a b Hl. rewrite lv_split. cbn [Nat.add].
  pose proof (lv_bound l 0 a Hl) as Hb. pose proof (pow64_pos a) as HP.
  rewrite Z.mul_comm, Z.div_add by lia.
  rewrite Z.div_small by lia. lia.
Qed.




(** ** The refinement of the quotient digit (bignum.c:1163-1173) *)



(** ** The limbs the estimate is made from *)

Lemma pow64_add : forall a b : nat,
  2 ^ (64 * Z.of_nat (a + b))
  = 2 ^ (64 * Z.of_nat a) * 2 ^ (64 * Z.of_nat b).
Proof.
  intros a b. rewrite Nat2Z.inj_add, Z.mul_add_distr_l.
  apply Z.pow_add_r; lia.
Qed.









(** ** The digit loop (bignum.c:1147-1190) *)




(** ** The subtractions before the digit loop (bignum.c:1139-1143) *)


(** ** The remainder of [ttls_mpi_div_mpi] (bignum.c:1069-1213) *)




(** ** The corrective loops of [ttls_mpi_mod_mpi] (bignum.c:1235-1241) *)



(** ** [ttls_mpi_mod_mpi] *)





(** The two corrections are reached: [-6 mod 3] leaves a zero with the sign
    of [A], which is taken for negative, brought to [B] by the addition and
    to 0 by the subtraction. *)
Lemma mod_mpi_two_corrections :
  mod_mpi_counted (fun _ => 0) 16 ttls_mpi_init
                  (mkMpi (-1) 1 1 [6]) (mkMpi 1 1 1 [3])
  = Ok (mkMpi 1 1 1 [0], 2%nat).
Proof. vm_compute. reflexivity. Qed.

(** The two limbs of room are used: the divisor is shifted left by up to 63
    bits and then multiplied by a digit into [T1], which
    [__mpi_realloc] refuses to grow past the limit.  Here with a limit of
    three limbs, [A = 2 ^ 191] and [B = 2 ^ 127 + 1]; with a limit of four
    the same call succeeds. *)
Lemma mod_mpi_needs_room :
  ttls_mpi_mod_mpi (fun _ => 0) 3 ttls_mpi_init
                   (mkMpi 1 3 3 [0; 0; 2 ^ 63]) (mkMpi 1 2 2 [1; 2 ^ 63])
  = Err ENOMEM
  /\ exists R',
       ttls_mpi_mod_mpi (fun _ => 0) 4 ttls_mpi_init
                        (mkMpi 1 3 3 [0; 0; 2 ^ 63]) (mkMpi 1 2 2 [1; 2 ^ 63])
       = Ok R'
       /\ mpi_val R' = 2 ^ 191 mod (2 ^ 127 + 1).
Proof.
  split; [vm_compute; reflexivity|].
  eexists. split; [vm_compute; reflexivity|]. vm_compute. reflexivity.
Qed.


(** * Further properties of the MPI library *)

(** ** The invariants, as a test *)

Definition is_limbb (x : Z) : bool := (0 <=? x) && (x <? 2 ^ 64).

Definition mpi_goodb (X : TlsMpi) : bool :=
  (1 <=? used X) && (used X <=? limbs X)
  && (Z.of_nat (length (p X)) =? limbs X)
  && forallb is_limbb (p X)
  && ((used X <=? 1) || negb (nth (Z.to_nat (used X - 1)) (p X) 0 =? 0))
  && ((s X =? 1) || (s X =? -1)).

Lemma is_limbb_ok : forall x, is_limbb x = true -> is_limb x.
Proof.
  intros x H. unfold is_limbb in H. apply andb_true_iff in H.
  destruct H as [H1 H2]. apply Z.leb_le in H1. apply Z.ltb_lt in H2.
  split; assumption.
Qed.

Lemma forallb_limbs : forall l, forallb is_limbb l = true -> Forall is_limb l.
Proof.
  induction l as [|x t IH]; intro H; [constructor|].
  cbn [forallb] in H. apply andb_true_iff in H. destruct H as [H1 H2].
  constructor; [apply is_limbb_ok; exact H1 | apply IH; exact H2].
Qed.

Lemma mpi_goodb_ok : forall X, mpi_goodb X = true -> mpi_good X.
Proof.
  intros X H. unfold mpi_goodb in H.
  repeat (apply andb_true_iff in H; destruct H as [H ?]).
  apply Z.leb_le in H. apply Z.leb_le in H4. apply Z.eqb_eq in H3.
  apply forallb_limbs in H2.
  apply good_intro.
  - split; [lia|]. split; assumption.
  - intros Hu Htop. apply orb_true_iff in H1. destruct H1 as [H1|H1].
    + apply Z.leb_le in H1. lia.
    + rewrite Htop in H1. discriminate H1.
  - exact H.
  - apply orb_true_iff in H0. destruct H0 as [H0|H0];
      apply Z.eqb_eq in H0; auto.
Qed.

Definition dest_okb (X : TlsMpi) : bool :=
  (Z.of_nat (length (p X)) =? limbs X) && forallb is_limbb (p X).

Lemma dest_okb_ok : forall X, dest_okb X = true -> dest_ok X.
Proof.
  intros X H. unfold dest_okb in H. apply andb_true_iff in H.
  destruct H as [H1 H2]. apply Z.eqb_eq in H1. apply forallb_limbs in H2.
  split; assumption.
Qed.

(** Invariant (iii): a zero has the sign [+1]. *)
Definition canonical (X : TlsMpi) : Prop := mpi_abs X = 0 -> s X = 1.

Lemma good_sign_cases : forall X,
  mpi_good X -> (s X = 1 /\ mpi_val X = mpi_abs X)
                \/ (s X = -1 /\ mpi_val X = - mpi_abs X).
Proof.
  intros X (_ & _ & _ & [H|H]); [left|right]; unfold mpi_val; rewrite H;
    split; lia.
Qed.

(** ** [ttls_mpi_copy] *)




(** The freed destination: copying a fresh MPI over the number 7 returns 0
    and leaves the destination as [ttls_mpi_init] does. *)
Lemma copy_of_fresh_frees :
  ttls_mpi_copy (fun _ => 0) 16 (mkMpi 1 1 1 [7]) ttls_mpi_init
  = Ok ttls_mpi_init.
Proof. reflexivity. Qed.

(** ** [ttls_mpi_lset] *)




(** ** Comparison *)

Lemma sgn_scale : forall sg z, sg = 1 \/ sg = -1 -> Z.sgn (sg * z) = Z.sgn z * sg.
Proof. intros sg z [-> | ->]; destruct z; reflexivity. Qed.

(** X3: [ttls_mpi_cmp_abs] and [ttls_mpi_cmp_mpi] are the three-way comparisons
    of the magnitudes and of the values: 1, 0 or -1.  For
    [ttls_mpi_cmp_mpi] both numbers keep invariant (iii); a zero of sign
    [-1] compares below a zero of sign [+1]. *)
Theorem cmp_mpi_is_sign_of_difference : forall X Y,
  mpi_good X -> mpi_good Y ->
  ttls_mpi_cmp_abs X Y = Z.sgn (mpi_abs X - mpi_abs Y)
  /\ (canonical X -> canonical Y ->
      ttls_mpi_cmp_mpi X Y = Z.sgn (mpi_val X - mpi_val Y))
  /\ (mpi_abs X = 0 -> mpi_abs Y = 0 -> s X = -1 -> s Y = 1 ->
      ttls_mpi_cmp_mpi X Y = -1).
Proof.
  intros X Y HX HY. split; [apply cmp_abs_spec; assumption|].
  pose proof HX as (HwX & _ & HuX & HsX).
  pose proof HY as (HwY & _ & HuY & HsY).
  pose proof (mpi_abs_nonneg X HwX) as HXnn.
  pose proof (mpi_abs_nonneg Y HwY) as HYnn.
  destruct HwX as (HX1 & HX2 & HX3). destruct HwY as (HY1 & HY2 & HY3).
  split.
  - intros HcX HcY. unfold canonical in *.
    unfold ttls_mpi_cmp_mpi, mpi_val.
    replace (used X =? 0) with false by (symmetry; apply Z.eqb_neq; lia).
    cbn [andb].
    destruct (Z.ltb_spec (used Y) (used X)) as [H1|H1].
    { pose proof (good_used_lt Y X HY HX H1).
      destruct HsX as [-> | ->], HsY as [-> | ->]; symmetry;
        first [apply Z.sgn_pos; lia | apply Z.sgn_neg; lia]. }
    destruct (Z.ltb_spec (used X) (used Y)) as [H2|H2].
    { pose proof (good_used_lt X Y HX HY H2).
      destruct HsX as [-> | ->], HsY as [-> | ->]; symmetry;
        first [apply Z.sgn_pos; lia | apply Z.sgn_neg; lia]. }
    assert (He : used Y = used X) by lia.
    assert (Hc : cmp_limbs (p X) (p Y) (Z.to_nat (used X))
                 = Z.sgn (mpi_abs X - mpi_abs Y)).
    { unfold mpi_abs. rewrite He. apply cmp_limbs_spec; auto; lia. }
    rewrite Hc.
    destruct HsX as [HsX | HsX], HsY as [HsY | HsY]; rewrite HsX, HsY;
      cbn [Z.ltb Z.compare andb].
    + rewrite !Z.mul_1_l, Z.mul_1_r. reflexivity.
    + assert (mpi_abs Y <> 0) by (intro H0; specialize (HcY H0); lia).
      symmetry. apply Z.sgn_pos. lia.
    + assert (mpi_abs X <> 0) by (intro H0; specialize (HcX H0); lia).
      symmetry. apply Z.sgn_neg. lia.
    + replace (-1 * mpi_abs X - -1 * mpi_abs Y)
        with (-1 * (mpi_abs X - mpi_abs Y)) by ring.
      rewrite sgn_scale by auto. reflexivity.
  - intros HaX HaY HsX1 HsY1.
    assert (HuX1 : used X = 1).
    { destruct (Z.eq_dec (used X) 1) as [E|E]; [exact E|].
      pose proof (good_abs_lower X HX ltac:(lia)) as Hlow.
      assert (0 < 2 ^ (64 * (used X - 1))) by (apply Z.pow_pos_nonneg; lia).
      lia. }
    assert (HuY1 : used Y = 1).
    { destruct (Z.eq_dec (used Y) 1) as [E|E]; [exact E|].
      pose proof (good_abs_lower Y HY ltac:(lia)) as Hlow.
      assert (0 < 2 ^ (64 * (used Y - 1))) by (apply Z.pow_pos_nonneg; lia).
      lia. }
    unfold ttls_mpi_cmp_mpi. rewrite HuX1, HuY1, HsX1, HsY1. reflexivity.
Qed.

Lemma cmp_mpi_is_sign_of_difference_witness :
  ttls_mpi_cmp_abs (mkMpi (-1) 2 2 [0; 1]) (mkMpi 1 1 1 [7])
  = Z.sgn (mpi_abs (mkMpi (-1) 2 2 [0; 1]) - mpi_abs (mkMpi 1 1 1 [7]))
  /\ (canonical (mkMpi (-1) 2 2 [0; 1]) -> canonical (mkMpi 1 1 1 [7]) ->
      ttls_mpi_cmp_mpi (mkMpi (-1) 2 2 [0; 1]) (mkMpi 1 1 1 [7])
      = Z.sgn (mpi_val (mkMpi (-1) 2 2 [0; 1]) - mpi_val (mkMpi 1 1 1 [7])))
  /\ (mpi_abs (mkMpi (-1) 2 2 [0; 1]) = 0 -> mpi_abs (mkMpi 1 1 1 [7]) = 0 ->
      s (mkMpi (-1) 2 2 [0; 1]) = -1 -> s (mkMpi 1 1 1 [7]) = 1 ->
      ttls_mpi_cmp_mpi (mkMpi (-1) 2 2 [0; 1]) (mkMpi 1 1 1 [7]) = -1).
Proof.
  apply (cmp_mpi_is_sign_of_difference (mkMpi (-1) 2 2 [0; 1])
           (mkMpi 1 1 1 [7])); apply mpi_goodb_ok; reflexivity.
Defined.

(** X4: [ttls_mpi_cmp_int(X, z)] for a [long] [z] is the three-way comparison
    of the value of [X] with [z]. *)
Theorem cmp_int_is_sign_of_difference : forall X z,
  mpi_good X -> canonical X -> - 2 ^ 63 <= z < 2 ^ 63 ->
  ttls_mpi_cmp_int X z = Z.sgn (mpi_val X - z).
Proof.
  intros X z HX Hc Hz. pose proof HX as (Hwf & _ & Hu & Hs).
  pose proof (mpi_abs_nonneg X Hwf) as Hnn.
  unfold canonical in Hc. unfold ttls_mpi_cmp_int, mpi_val.
  change (2 ^ 63) with 9223372036854775808 in Hz.
  destruct (Z.ltb_spec 1 (used X)) as [H1|H1].
  - pose proof (good_abs_lower X HX ltac:(lia)) as Hlow.
    assert (2 ^ (64 * 1) <= 2 ^ (64 * (used X - 1)))
      by (apply Z.pow_le_mono_r; lia).
    change (2 ^ (64 * 1)) with 18446744073709551616 in *.
    destruct Hs as [-> | ->]; symmetry;
      [apply Z.sgn_pos | apply Z.sgn_neg]; lia.
  - replace (used X =? 0) with false by (symmetry; apply Z.eqb_neq; lia).
    rewrite (abs_one_limb X Hwf) in * by lia.
    set (x0 := nth 0 (p X) 0) in *.
    assert (Hw : wrap64 (Z.abs z) = Z.abs z).
    { apply wrap64_id. change (2 ^ 64) with 18446744073709551616. lia. }
    rewrite Hw.
    destruct (Z.ltb_spec z 0) as [Hzn|Hzp];
      destruct Hs as [Hs | Hs]; rewrite Hs;
      cbn [Z.ltb Z.compare andb negb].
    + symmetry. apply Z.sgn_pos. lia.
    + destruct (Z.eqb_spec (Z.abs z) x0) as [E|E].
      * symmetry. apply Z.sgn_null_iff. lia.
      * destruct (Z.ltb_spec (Z.abs z) x0); symmetry;
          [apply Z.sgn_neg | apply Z.sgn_pos]; lia.
    + destruct (Z.eqb_spec (Z.abs z) x0) as [E|E].
      * symmetry. apply Z.sgn_null_iff. lia.
      * destruct (Z.ltb_spec (Z.abs z) x0); symmetry;
          [apply Z.sgn_pos | apply Z.sgn_neg]; lia.
    + assert (x0 <> 0) by (intro H0; specialize (Hc H0); lia).
      symmetry. apply Z.sgn_neg. lia.
Qed.

Lemma cmp_int_is_sign_of_difference_witness :
  ttls_mpi_cmp_int (mkMpi (-1) 1 1 [5]) (-7)
  = Z.sgn (mpi_val (mkMpi (-1) 1 1 [5]) - -7).
Proof.
  apply (cmp_int_is_sign_of_difference (mkMpi (-1) 1 1 [5]) (-7)).
  - apply mpi_goodb_ok. reflexivity.
  - intro H. vm_compute in H. discriminate H.
  - lia.
Defined.

(** ** Sizes *)

(** X5: [ttls_mpi_bitlen] is the number of bits of the magnitude and
    [ttls_mpi_size] the number of bytes: [2 ^ (bitlen - 1) <= |X| <
    2 ^ bitlen] and [256 ^ (size - 1) <= |X| < 256 ^ size] for a number
    other than zero, and both are 0 for zero. *)
Theorem bitlen_and_size_measure_the_value : forall X,
  mpi_good X ->
  exists nbits nbytes,
    ttls_mpi_bitlen X = Ok nbits /\ ttls_mpi_size X = Ok nbytes
    /\ (mpi_abs X = 0 -> nbits = 0 /\ nbytes = 0)
    /\ (mpi_abs X <> 0 ->
        2 ^ (nbits - 1) <= mpi_abs X < 2 ^ nbits
        /\ 2 ^ (8 * (nbytes - 1)) <= mpi_abs X < 2 ^ (8 * nbytes)
        /\ 1 <= nbits /\ 1 <= nbytes).
Proof.
  intros X HX. pose proof HX as (Hwf & Hn & _).
  pose proof (mpi_abs_nonneg X Hwf) as Hnn.
  rewrite (bitlen_spec X HX), (mpi_size_spec X Hwf Hn).
  eexists _, _. split; [reflexivity|]. split; [reflexivity|].
  unfold byte_length.
  destruct (Z.eqb_spec (mpi_abs X) 0) as [H0|H0].
  - split; [auto | contradiction].
  - split; [contradiction|]. intros _.
    assert (Hpos : 0 < mpi_abs X) by lia.
    pose proof (bitlen_bounds (mpi_abs X) Hpos) as Hb.
    pose proof (Z.log2_nonneg (mpi_abs X)) as Hl.
    replace (Z.log2 (mpi_abs X) + 1 - 1) with (Z.log2 (mpi_abs X)) by lia.
    replace (Z.log2 (mpi_abs X) / 8 + 1 - 1) with (Z.log2 (mpi_abs X) / 8)
      by lia.
    pose proof (Z.div_mod (Z.log2 (mpi_abs X)) 8 ltac:(lia)) as Hdm.
    pose proof (Z.mod_pos_bound (Z.log2 (mpi_abs X)) 8 ltac:(lia)) as Hm.
    assert (0 <= Z.log2 (mpi_abs X) / 8) by (apply Z.div_pos; lia).
    split; [exact Hb|]. split; [|lia].
    split.
    + eapply Z.le_trans; [|apply Hb]. apply Z.pow_le_mono_r; lia.
    + eapply Z.lt_le_trans; [apply Hb|]. apply Z.pow_le_mono_r; lia.
Qed.

Lemma bitlen_and_size_measure_the_value_witness :
  exists nbits nbytes,
    ttls_mpi_bitlen (mkMpi 1 2 2 [0; 256]) = Ok nbits
    /\ ttls_mpi_size (mkMpi 1 2 2 [0; 256]) = Ok nbytes
    /\ (mpi_abs (mkMpi 1 2 2 [0; 256]) = 0 -> nbits = 0 /\ nbytes = 0)
    /\ (mpi_abs (mkMpi 1 2 2 [0; 256]) <> 0 ->
        2 ^ (nbits - 1) <= mpi_abs (mkMpi 1 2 2 [0; 256]) < 2 ^ nbits
        /\ 2 ^ (8 * (nbytes - 1)) <= mpi_abs (mkMpi 1 2 2 [0; 256])
           < 2 ^ (8 * nbytes)
        /\ 1 <= nbits /\ 1 <= nbytes).
Proof.
  apply (bitlen_and_size_measure_the_value (mkMpi 1 2 2 [0; 256])).
  apply mpi_goodb_ok. reflexivity.
Defined.

(** ** Addition of magnitudes *)























(** ** Addition and subtraction, for every destination and sign *)

















(** ** Bits of a number *)

Lemma lv_limb : forall l i n,
  Forall is_limb l -> (i < n)%nat ->
  (lv l 0 n / 2 ^ (64 * Z.of_nat i)) mod 2 ^ 64 = nth i l 0.
Proof.
  intros l i n Hl Hi.
  replace n with (i + S (n - i - 1))%nat by lia.
  rewrite lv_div by exact Hl. rewrite lv_cons.
  pose proof (nth_limb l i Hl) as Hx. unfold is_limb in Hx.
  rewrite Z.mul_comm, Z.mod_add by lia.
  apply Z.mod_small. exact Hx.
Qed.

Lemma lv_testbit : forall l n m,
  Forall is_limb l -> 0 <= m ->
  Z.testbit (lv l 0 n) m
  = (m <? 64 * Z.of_nat n)
    && Z.testbit (nth (Z.to_nat (m / 64)) l 0) (m mod 64).
Proof.
  intros l n m Hl Hm.
  pose proof (Z.mod_pos_bound m 64 ltac:(lia)) as Hr.
  pose proof (Z.div_mod m 64 ltac:(lia)) as Hdm.
  destruct (Z.ltb_spec m (64 * Z.of_nat n)) as [Hlt|Hge]; cbn [andb].
  - assert (Hi : (Z.to_nat (m / 64) < n)%nat).
    { assert (m / 64 < Z.of_nat n)
        by (apply Z.div_lt_upper_bound; lia).
      assert (0 <= m / 64) by (apply Z.div_pos; lia). lia. }
    rewrite <- (lv_limb l _ n Hl Hi).
    rewrite field_bits by lia.
    replace (m mod 64 <? 64) with true by (symmetry; apply Z.ltb_lt; lia).
    cbn [andb]. f_equal.
    assert (0 <= m / 64) by (apply Z.div_pos; lia). lia.
  - pose proof (lv_bound l 0 n Hl) as Hb.
    rewrite <- (Z.mod_small (lv l 0 n) (2 ^ (64 * Z.of_nat n))) by exact Hb.
    apply Z.mod_pow2_bits_high. lia.
Qed.

Lemma abs_testbit : forall X m,
  mpi_wf X -> 0 <= m ->
  Z.testbit (mpi_abs X) m
  = (m <? 64 * used X)
    && Z.testbit (nth (Z.to_nat (m / 64)) (p X) 0) (m mod 64).
Proof.
  intros X m (Hu & _ & Hl) Hm. rewrite mpi_abs_lv.
  rewrite lv_testbit by assumption. rewrite Z2Nat.id by lia. reflexivity.
Qed.

Lemma land1_bit : forall y, Z.land y 1 = b2z (Z.testbit y 0).
Proof.
  intro y. change 1 with (Z.ones 1) at 1. rewrite Z.land_ones by lia.
  change (2 ^ 1) with 2. rewrite <- Z.bit0_mod.
  destruct (Z.testbit y 0); reflexivity.
Qed.

Lemma shl6 : forall z, Z.shiftl z BSHIFT = 64 * z.
Proof.
  intro z. unfold BSHIFT. rewrite Z.shiftl_mul_pow2 by lia.
  change (2 ^ 6) with 64. ring.
Qed.

(** X10: bignum.c:281-288.  [ttls_mpi_get_bit(X, pos)] is bit [pos] of [|X|];
    positions from [64 * used] on read as 0 without touching the array. *)
Theorem get_bit_reads_value_bit : forall X pos,
  mpi_wf X -> 0 <= pos ->
  ttls_mpi_get_bit X pos = Ok (b2z (Z.testbit (mpi_abs X) pos)).
Proof.
  intros X pos HX Hpos. rewrite (abs_testbit X pos HX Hpos).
  destruct HX as (Hu & Hlen & Hl).
  unfold ttls_mpi_get_bit. rewrite shl6, shiftr6, land63.
  destruct (Z.leb_spec (64 * used X) pos) as [Hge|Hlt].
  - replace (pos <? 64 * used X) with false
      by (symmetry; apply Z.ltb_ge; lia).
    reflexivity.
  - replace (pos <? 64 * used X) with true
      by (symmetry; apply Z.ltb_lt; lia).
    cbn [andb].
    assert (0 <= pos / 64 < used X).
    { split; [apply Z.div_pos; lia | apply Z.div_lt_upper_bound; lia]. }
    rewrite rd_ok_z by lia. cbn [bind].
    rewrite land1_bit, Z.shiftr_spec by lia. reflexivity.
Qed.

Lemma get_bit_reads_value_bit_witness :
  ttls_mpi_get_bit (mkMpi (-1) 2 3 [0; 5; 7]) 66
  = Ok (b2z (Z.testbit (mpi_abs (mkMpi (-1) 2 3 [0; 5; 7])) 66)).
Proof.
  apply (get_bit_reads_value_bit (mkMpi (-1) 2 3 [0; 5; 7]) 66).
  - apply mpi_goodb_ok. reflexivity.
  - lia.
Defined.

(** ** The lowest set bit *)

Lemma ctz_spec : forall q,
  0 <= ctz q
  /\ Z.testbit (Zpos q) (ctz q) = true
  /\ forall m, 0 <= m < ctz q -> Z.testbit (Zpos q) m = false.
Proof.
  induction q as [q IH|q IH|]; cbn [ctz].
  - split; [lia|]. split; [reflexivity|]. intros m Hm. lia.
  - destruct IH as (I1 & I2 & I3). split; [lia|].
    change (Zpos q~0) with (2 * Zpos q). split.
    + replace (1 + ctz q) with (Z.succ (ctz q)) by lia.
      rewrite Z.double_bits_succ. exact I2.
    + intros m Hm. destruct (Z.eq_dec m 0) as [->|Hne].
      * apply Z.testbit_even_0.
      * replace m with (Z.succ (m - 1)) by lia.
        rewrite Z.double_bits_succ. apply I3. lia.
  - split; [lia|]. split; [reflexivity|]. intros m Hm. lia.
Qed.

Lemma ffs_spec : forall x,
  0 < x < 2 ^ 64 ->
  0 <= __ffs x < 64
  /\ Z.testbit x (__ffs x) = true
  /\ forall m, 0 <= m < __ffs x -> Z.testbit x m = false.
Proof.
  intros x Hx. destruct x as [|q|q]; try lia.
  cbn [__ffs]. destruct (ctz_spec q) as (C1 & C2 & C3).
  split; [|split; assumption].
  split; [exact C1|].
  destruct (Z.lt_ge_cases (ctz q) 64) as [H|H]; [exact H|].
  rewrite <- (Z.mod_small (Zpos q) (2 ^ 64)) in C2 by lia.
  rewrite Z.mod_pow2_bits_high in C2 by lia. discriminate C2.
Qed.

(** The index of the lowest set bit of [v], or nothing to say for 0. *)
Definition lowest_set_bit (v n : Z) : Prop :=
  Z.testbit v n = true /\ forall m, 0 <= m < n -> Z.testbit v m = false.

Lemma lsb_scan_spec : forall todo a i,
  Forall is_limb a -> (i + todo <= length a)%nat ->
  (forall k, (k < i)%nat -> nth k a 0 = 0) ->
  exists n,
    lsb_scan a (Z.of_nat i) todo = Ok n
    /\ 0 <= n
    /\ (lv a 0 (i + todo) = 0 -> n = 0)
    /\ (lv a 0 (i + todo) <> 0 -> lowest_set_bit (lv a 0 (i + todo)) n).
Proof.
  induction todo as [|todo IH]; intros a i Ha Hlen Hz.
  - exists 0. split; [reflexivity|]. split; [lia|]. split; [reflexivity|].
    intro Hne. exfalso. apply Hne. apply dsum_zero. intros k Hk.
    apply Hz. lia.
  - cbn [lsb_scan]. rewrite rd_ok by lia. cbn [bind].
    pose proof (nth_limb a i Ha) as Hx. unfold is_limb in Hx.
    destruct (Z.eqb_spec (nth i a 0) 0) as [Hx0|Hx0].
    + destruct (IH a (S i) Ha ltac:(lia)) as (n & Hrun & Hn & Hzero & Hlow).
      { intros k Hk. destruct (Nat.eq_dec k i) as [->|Hne];
          [exact Hx0 | apply Hz; lia]. }
      replace (Z.of_nat i + 1) with (Z.of_nat (S i)) by lia.
      replace (i + S todo)%nat with (S i + todo)%nat by lia.
      exists n. auto.
    + destruct (ffs_spec (nth i a 0) ltac:(lia)) as (F1 & F2 & F3).
      set (x := nth i a 0) in *.
      exists (Z.of_nat i * BIL + __ffs x). split; [reflexivity|].
      unfold BIL. split; [lia|].
      assert (Hdiv : (Z.of_nat i * 64 + __ffs x) / 64 = Z.of_nat i).
      { rewrite Z.add_comm, Z.div_add by lia.
        rewrite Z.div_small by lia. lia. }
      assert (Hmod : (Z.of_nat i * 64 + __ffs x) mod 64 = __ffs x).
      { rewrite Z.add_comm, Z.mod_add by lia. apply Z.mod_small. lia. }
      assert (Hbit : Z.testbit (lv a 0 (i + S todo))
                       (Z.of_nat i * 64 + __ffs x) = true).
      { rewrite lv_testbit by (try assumption; lia).
        rewrite Hdiv, Hmod, Nat2Z.id. fold x. rewrite F2.
        replace (Z.of_nat i * 64 + __ffs x <? 64 * Z.of_nat (i + S todo))
          with true by (symmetry; apply Z.ltb_lt; lia).
        reflexivity. }
      split.
      * intro H0. rewrite H0 in Hbit. rewrite Z.bits_0 in Hbit.
        discriminate Hbit.
      * intros _. split; [exact Hbit|]. intros m Hm.
        rewrite lv_testbit by (try assumption; lia).
        pose proof (Z.mod_pos_bound m 64 ltac:(lia)) as Hr.
        pose proof (Z.div_mod m 64 ltac:(lia)) as Hdm.
        assert (0 <= m / 64) by (apply Z.div_pos; lia).
        destruct (Z.lt_ge_cases (m / 64) (Z.of_nat i)) as [Hlo|Hhi].
        -- rewrite (Hz (Z.to_nat (m / 64))) by lia.
           rewrite Z.bits_0. apply andb_false_r.
        -- assert (m / 64 = Z.of_nat i) by lia.
           replace (Z.to_nat (m / 64)) with i by lia. fold x.
           rewrite (F3 (m mod 64)) by lia. apply andb_false_r.
Qed.

Lemma lsb_spec : forall X,
  mpi_wf X ->
  exists n,
    ttls_mpi_lsb X = Ok n
    /\ 0 <= n
    /\ (mpi_abs X = 0 -> n = 0)
    /\ (mpi_abs X <> 0 -> lowest_set_bit (mpi_abs X) n).
Proof.
  intros X (Hu & Hlen & Hl). unfold ttls_mpi_lsb. rewrite mpi_abs_lv.
  destruct (lsb_scan_spec (Z.to_nat (used X)) (p X) 0 Hl ltac:(lia)
              ltac:(intros k Hk; lia))
    as (n & Hrun & Hn & Hz & Hlow).
  exists n. cbn [Nat.add] in *. auto.
Qed.

(** X11: bignum.c:327-339.  [ttls_mpi_lsb(X)] is the index of the lowest set bit
    of [|X|], and 0 for the number 0. *)
Theorem lsb_is_lowest_set_bit : forall X,
  mpi_wf X ->
  exists n,
    ttls_mpi_lsb X = Ok n
    /\ (mpi_abs X = 0 -> n = 0)
    /\ (mpi_abs X <> 0 -> lowest_set_bit (mpi_abs X) n).
Proof.
  intros X HX. destruct (lsb_spec X HX) as (n & Hrun & _ & Hz & Hlow).
  exists n. auto.
Qed.

Lemma lsb_is_lowest_set_bit_witness :
  exists n,
    ttls_mpi_lsb (mkMpi 1 3 3 [0; 40; 1]) = Ok n
    /\ (mpi_abs (mkMpi 1 3 3 [0; 40; 1]) = 0 -> n = 0)
    /\ (mpi_abs (mkMpi 1 3 3 [0; 40; 1]) <> 0 ->
        lowest_set_bit (mpi_abs (mkMpi 1 3 3 [0; 40; 1])) n).
Proof.
  apply (lsb_is_lowest_set_bit (mkMpi 1 3 3 [0; 40; 1])).
  apply mpi_goodb_ok. reflexivity.
Defined.


(** ** Addition of a [long] *)






(** ** [ttls_mpi_shrink] *)



(** ** [ttls_mpi_set_bit] *)

Lemma bits_limb : forall x,
  0 <= x -> (forall j, 64 <= j -> Z.testbit x j = false) -> is_limb x.
Proof.
  intros x Hx Hhi. unfold is_limb. split; [exact Hx|].
  replace x with (x mod 2 ^ 64); [apply Z.mod_pos_bound; lia|].
  apply Z.bits_inj'. intros j Hj.
  destruct (Z.lt_ge_cases j 64) as [H|H].
  - apply Z.mod_pow2_bits_low. lia.
  - rewrite Z.mod_pow2_bits_high by lia. symmetry. apply Hhi. exact H.
Qed.

Lemma limb_bits_high : forall x j, is_limb x -> 64 <= j -> Z.testbit x j = false.
Proof.
  intros x j Hx Hj. unfold is_limb in Hx.
  rewrite <- (Z.mod_small x (2 ^ 64)) by exact Hx.
  apply Z.mod_pow2_bits_high. lia.
Qed.

(** The two assignments to [X->p[off]] (bignum.c:314-315). *)
Lemma set_limb_bit : forall x idx val,
  is_limb x -> 0 <= idx < 64 -> val = 0 \/ val = 1 ->
  let y := Z.lor (Z.land x (wrap64 (Z.lnot (Z.shiftl 1 idx))))
                 (wrap64 (Z.shiftl val idx)) in
  is_limb y
  /\ forall j, 0 <= j ->
       Z.testbit y j = if j =? idx then val =? 1 else Z.testbit x j.
Proof.
  intros x idx val Hx Hidx Hval y.
  assert (Hbits : forall j, 0 <= j ->
            Z.testbit y j = if j =? idx then val =? 1 else Z.testbit x j).
  { intros j Hj. unfold y, wrap64.
    rewrite Z.lor_spec, Z.land_spec.
    rewrite !Z.shiftl_mul_pow2 by lia. rewrite Z.mul_1_l.
    destruct (Z.lt_ge_cases j 64) as [Hlo|Hhi].
    - rewrite !Z.mod_pow2_bits_low by lia.
      rewrite Z.lnot_spec by lia. rewrite Z.pow2_bits_eqb by lia.
      rewrite (Z.eqb_sym idx j).
      destruct Hval as [-> | ->].
      + rewrite Z.mul_0_l, Z.bits_0.
        destruct (j =? idx), (Z.testbit x j); reflexivity.
      + rewrite Z.mul_1_l, Z.pow2_bits_eqb by lia.
        rewrite (Z.eqb_sym idx j).
        destruct (j =? idx), (Z.testbit x j); reflexivity.
    - rewrite !Z.mod_pow2_bits_high by lia.
      rewrite (limb_bits_high x j Hx Hhi).
      replace (j =? idx) with false by (symmetry; apply Z.eqb_neq; lia).
      reflexivity. }
  split; [|exact Hbits].
  apply bits_limb.
  - unfold y, wrap64, is_limb in *. apply Z.lor_nonneg. split.
    + apply Z.land_nonneg. left. lia.
    + apply Z.mod_pos_bound. lia.
  - intros j Hj. rewrite Hbits by lia.
    replace (j =? idx) with false by (symmetry; apply Z.eqb_neq; lia).
    apply limb_bits_high; assumption.
Qed.

Lemma nth_memset0 : forall a i n k,
  (i + n <= length a)%nat ->
  nth k (firstn i a ++ repeat 0 n ++ skipn (i + n) a) 0
  = if ((i <=? k) && (k <? i + n))%nat then 0 else nth k a 0.
Proof.
  intros a i n k H.
  destruct (Nat.lt_ge_cases k i) as [K1|K1].
  - rewrite app_nth1 by (rewrite length_firstn; lia).
    replace (i <=? k)%nat with false by (symmetry; apply Nat.leb_gt; lia).
    cbn [andb]. apply nth_firstn_lt. exact K1.
  - rewrite app_nth2 by (rewrite length_firstn; lia).
    rewrite length_firstn. replace (Nat.min i (length a)) with i by lia.
    replace (i <=? k)%nat with true by (symmetry; apply Nat.leb_le; lia).
    cbn [andb].
    destruct (Nat.ltb_spec k (i + n)) as [K2|K2].
    + rewrite app_nth1 by (rewrite repeat_length; lia).
      apply nth_repeat.
    + rewrite app_nth2 by (rewrite repeat_length; lia).
      rewrite repeat_length, nth_skipn. f_equal. lia.
Qed.

Lemma memset0_length : forall a i n,
  (i + n <= length a)%nat ->
  length (firstn i a ++ repeat 0 n ++ skipn (i + n) a) = length a.
Proof.
  intros a i n H. rewrite !length_app, length_firstn, repeat_length,
    length_skipn. lia.
Qed.

Lemma memset0_limbs : forall a i n,
  Forall is_limb a ->
  Forall is_limb (firstn i a ++ repeat 0 n ++ skipn (i + n) a).
Proof.
  intros a i n Ha. apply Forall_app. split.
  - apply Forall_firstn_limb. exact Ha.
  - apply Forall_app. split.
    + apply Forall_forall. intros x Hx. apply repeat_spec in Hx. subst x.
      unfold is_limb. lia.
    + apply Forall_skipn_limb. exact Ha.
Qed.

(** X14: bignum.c:296-318, for a position within the limbs allocated.
    [ttls_mpi_set_bit(X, pos, val)] makes bit [pos] of [|X|] equal to [val]
    and changes no other bit; [used] grows to reach the limb of a bit that
    gets set, and never shrinks, so clearing the top bit can leave a top
    limb of zero. *)
Theorem set_bit_sets_one_bit : forall junk ML X pos val,
  mpi_wf X -> 0 <= pos < 64 * limbs X -> val = 0 \/ val = 1 ->
  exists X',
    ttls_mpi_set_bit junk ML X pos val = Ok X'
    /\ mpi_wf X' /\ s X' = s X /\ limbs X' = limbs X
    /\ used X' = (if val =? 1 then Z.max (used X) (pos / 64 + 1) else used X)
    /\ forall m, 0 <= m ->
         Z.testbit (mpi_abs X') m
         = if m =? pos then val =? 1 else Z.testbit (mpi_abs X) m.
Proof.
  intros junk ML X pos val HX Hpos Hval.
  pose proof HX as (Hu & Hlen & Hl).
  unfold ttls_mpi_set_bit. rewrite !shl6, shiftr6, land63.
  set (off := pos / 64). set (idx := pos mod 64).
  assert (Hidx : 0 <= idx < 64) by (apply Z.mod_pos_bound; lia).
  assert (Hoff : 0 <= off < limbs X).
  { split; [apply Z.div_pos; lia | apply Z.div_lt_upper_bound; lia]. }
  assert (Hpo : pos = 64 * off + idx) by (apply Z.div_mod; lia).
  assert (Hsplit : forall m, 0 <= m -> m <> pos ->
            m / 64 <> off \/ m mod 64 <> idx).
  { intros m Hm Hne.
    destruct (Z.eq_dec (m / 64) off) as [E|E]; [right | left; exact E].
    intro E2. apply Hne. rewrite Hpo, <- E, <- E2. apply Z.div_mod. lia. }
  replace (64 * limbs X <=? pos) with false
    by (symmetry; apply Z.leb_gt; lia).
  destruct (Z.leb_spec (64 * used X) pos) as [Hbey|Hin]; cbn [andb].
  - (* beyond the limbs in use *)
    assert (Huo : used X <= off) by lia.
    destruct Hval as [-> | ->].
    + change (0 =? 0) with true. change (0 =? 1) with false. cbv iota.
      exists X. split; [reflexivity|].
      split; [exact HX|]. do 3 (split; [reflexivity|]).
      intros m Hm. destruct (Z.eqb_spec m pos) as [->|Hne]; [|reflexivity].
      rewrite abs_testbit by assumption.
      replace (pos <? 64 * used X) with false
        by (symmetry; apply Z.ltb_ge; lia).
      reflexivity.
    + change (1 =? 0) with false. change (1 =? 1) with true. cbv iota.
      cbn [bind]. unfold memset0.
      replace ((0 <=? used X) && (0 <=? off - used X + 1)
               && (used X + (off - used X + 1) <=? Z.of_nat (length (p X))))
        with true
        by (symmetry; rewrite !andb_true_iff; repeat split; apply Z.leb_le;
            lia).
      cbn [bind p].
      set (i := Z.to_nat (used X)). set (n := Z.to_nat (off - used X + 1)).
      replace (Z.to_nat (used X + (off - used X + 1))) with (i + n)%nat
        by lia.
      set (p1 := firstn i (p X) ++ repeat 0 n ++ skipn (i + n) (p X)).
      assert (Hin : (i + n <= length (p X))%nat) by lia.
      assert (Hl1 : length p1 = length (p X))
        by (apply memset0_length; exact Hin).
      assert (Hf1 : Forall is_limb p1) by (apply memset0_limbs; exact Hl).
      assert (Hn1 : forall k, nth k p1 0
                = if ((i <=? k) && (k <? i + n))%nat then 0
                  else nth k (p X) 0)
        by (intro k; apply nth_memset0; exact Hin).
      rewrite rd_ok_z by lia. cbn [bind].
      rewrite wr_ok_z by lia. cbn [bind].
      assert (Hx0 : nth (Z.to_nat off) p1 0 = 0).
      { rewrite Hn1.
        replace ((i <=? Z.to_nat off) && (Z.to_nat off <? i + n))%nat
          with true; [reflexivity|].
        symmetry. apply andb_true_iff.
        split; [apply Nat.leb_le | apply Nat.ltb_lt]; lia. }
      rewrite Hx0.
      destruct (set_limb_bit 0 idx 1 ltac:(unfold is_limb; lia) Hidx
                  ltac:(auto)) as (Hy & Hyb).
      set (y := Z.lor (Z.land 0 (wrap64 (Z.lnot (Z.shiftl 1 idx))))
                      (wrap64 (Z.shiftl 1 idx))) in *.
      eexists. split; [reflexivity|].
      assert (Hw' : mpi_wf (set_p (mkMpi (s X) (off + 1) (limbs X) p1)
                              (upd p1 (Z.to_nat off) y))).
      { split; cbn [used limbs p set_p]; [lia|]. split.
        - rewrite upd_length. lia.
        - apply Forall_upd; assumption. }
      split; [exact Hw'|]. split; [reflexivity|]. split; [reflexivity|].
      split; [cbn [used set_p]; lia|].
      intros m Hm. rewrite abs_testbit by assumption.
      cbn [used p set_p].
      pose proof (Z.mod_pos_bound m 64 ltac:(lia)) as Hr.
      pose proof (Z.div_mod m 64 ltac:(lia)) as Hdm.
      assert (0 <= m / 64) by (apply Z.div_pos; lia).
      destruct (Z.eqb_spec m pos) as [->|Hne].
      * fold off idx. rewrite nth_upd_same by lia.
        rewrite Hyb by lia. rewrite Z.eqb_refl.
        replace (pos <? 64 * (off + 1)) with true
          by (symmetry; apply Z.ltb_lt; lia).
        reflexivity.
      * rewrite abs_testbit by assumption.
        destruct (Z.eq_dec (m / 64) off) as [E|E].
        -- rewrite E, nth_upd_same by lia.
           rewrite Hyb by lia.
           destruct (Hsplit m Hm Hne) as [K|K]; [contradiction|].
           fold idx in K.
           replace (m mod 64 =? idx) with false
             by (symmetry; apply Z.eqb_neq; exact K).
           rewrite Z.bits_0.
           replace (m <? 64 * used X) with false
             by (symmetry; apply Z.ltb_ge; lia).
           apply andb_false_r.
        -- rewrite nth_upd_other by lia. rewrite Hn1.
           destruct (Z.ltb_spec m (64 * used X)) as [Hlo|Hhi].
           ++ replace (m <? 64 * (off + 1)) with true
                by (symmetry; apply Z.ltb_lt; lia).
              replace (i <=? Z.to_nat (m / 64))%nat with false;
                [reflexivity|].
              symmetry. apply Nat.leb_gt.
              assert (m / 64 < used X)
                by (apply Z.div_lt_upper_bound; lia).
              lia.
           ++ cbn [andb].
              destruct (Z.ltb_spec m (64 * (off + 1))) as [Hlo2|Hhi2];
                [|reflexivity].
              cbn [andb].
              assert (used X <= m / 64)
                by (apply Z.div_le_lower_bound; lia).
              assert (m / 64 < off + 1)
                by (apply Z.div_lt_upper_bound; lia).
              replace ((i <=? Z.to_nat (m / 64))
                       && (Z.to_nat (m / 64) <? i + n))%nat with true.
              { apply Z.bits_0. }
              symmetry. apply andb_true_iff.
              split; [apply Nat.leb_le | apply Nat.ltb_lt]; lia.
  - (* within the limbs in use *)
    assert (Hou : off < used X) by lia.
    cbn [bind]. rewrite rd_ok_z by lia. cbn [bind].
    rewrite wr_ok_z by lia. cbn [bind].
    pose proof (nth_limb (p X) (Z.to_nat off) Hl) as Hx.
    destruct (set_limb_bit _ idx val Hx Hidx Hval) as (Hy & Hyb).
    set (y := Z.lor (Z.land (nth (Z.to_nat off) (p X) 0)
                            (wrap64 (Z.lnot (Z.shiftl 1 idx))))
                    (wrap64 (Z.shiftl val idx))) in *.
    eexists. split; [reflexivity|].
    assert (Hw' : mpi_wf (set_p X (upd (p X) (Z.to_nat off) y))).
    { split; cbn [used limbs p set_p]; [lia|]. split.
      - rewrite upd_length. lia.
      - apply Forall_upd; assumption. }
    split; [exact Hw'|]. split; [reflexivity|]. split; [reflexivity|].
    split.
    { cbn [used set_p]. fold off. destruct (val =? 1); lia. }
    intros m Hm. rewrite !abs_testbit by assumption.
    cbn [used p set_p].
    destruct (Z.eqb_spec m pos) as [->|Hne].
    + fold off idx. rewrite nth_upd_same by lia.
      rewrite Hyb by lia. rewrite Z.eqb_refl.
      replace (pos <? 64 * used X) with true
        by (symmetry; apply Z.ltb_lt; lia).
      reflexivity.
    + f_equal. assert (0 <= m / 64) by (apply Z.div_pos; lia).
      pose proof (Z.mod_pos_bound m 64 ltac:(lia)) as Hr.
      destruct (Z.eq_dec (m / 64) off) as [E|E].
      * rewrite E, nth_upd_same by lia. rewrite Hyb by lia.
        destruct (Hsplit m Hm Hne) as [K|K]; [contradiction|].
        fold idx in K.
        replace (m mod 64 =? idx) with false
          by (symmetry; apply Z.eqb_neq; exact K).
        reflexivity.
      * rewrite nth_upd_other by lia. reflexivity.
Qed.

Lemma set_bit_sets_one_bit_witness :
  exists X',
    ttls_mpi_set_bit (fun _ => 5) 16 (mkMpi 1 2 3 [7; 1; 9]) 64 0 = Ok X'
    /\ mpi_wf X' /\ s X' = s (mkMpi 1 2 3 [7; 1; 9])
    /\ limbs X' = limbs (mkMpi 1 2 3 [7; 1; 9])
    /\ used X' = (if 0 =? 1
                  then Z.max (used (mkMpi 1 2 3 [7; 1; 9])) (64 / 64 + 1)
                  else used (mkMpi 1 2 3 [7; 1; 9]))
    /\ forall m, 0 <= m ->
         Z.testbit (mpi_abs X') m
         = if m =? 64 then 0 =? 1
           else Z.testbit (mpi_abs (mkMpi 1 2 3 [7; 1; 9])) m.
Proof.
  apply (set_bit_sets_one_bit (fun _ => 5) 16 (mkMpi 1 2 3 [7; 1; 9]) 64 0).
  - apply mpi_goodb_ok. reflexivity.
  - cbn. lia.
  - left. reflexivity.
Defined.

(** ** Right shift by any count *)

Lemma div_pow_lower : forall v a c,
  0 <= c <= a -> 2 ^ a <= v -> 2 ^ (a - c) <= v / 2 ^ c.
Proof.
  intros v a c Hc Hv.
  apply Z.div_le_lower_bound; [apply Z.pow_pos_nonneg; lia|].
  rewrite <- Z.pow_add_r by lia.
  replace (c + (a - c)) with a by lia. exact Hv.
Qed.

Lemma count_split : forall count,
  0 <= count ->
  0 <= count / 64 /\ 0 <= count mod 64 < 64
  /\ count = 64 * (count / 64) + count mod 64
  /\ 2 ^ count = 2 ^ (64 * (count / 64)) * 2 ^ (count mod 64).
Proof.
  intros count Hc.
  pose proof (Z.mod_pos_bound count 64 ltac:(lia)) as Hr.
  pose proof (Z.div_mod count 64 ltac:(lia)) as Hdm.
  assert (Hq : 0 <= count / 64) by (apply Z.div_pos; lia).
  split; [exact Hq|]. split; [exact Hr|]. split; [exact Hdm|].
  rewrite <- Z.pow_add_r by lia. f_equal. exact Hdm.
Qed.

(** An MPI that may have no limb in use. *)
Lemma wf_norm_of_value : forall X,
  dest_ok X -> 0 <= used X <= limbs X ->
  (2 <= used X -> 2 ^ (64 * (used X - 1)) <= mpi_abs X) ->
  mpi_wf X /\ normalised X.
Proof.
  intros X (Hlen & Hl) Hu Hv. split; [split; [lia | split; assumption]|].
  unfold normalised. intros H1 Htop.
  specialize (Hv ltac:(lia)).
  rewrite mpi_abs_lv in Hv.
  replace (Z.to_nat (used X)) with (S (Z.to_nat (used X - 1))) in Hv by lia.
  rewrite lv_snoc in Hv. cbn [Nat.add] in Hv. rewrite Htop in Hv.
  pose proof (lv_bound (p X) 0 (Z.to_nat (used X - 1)) Hl) as Hb.
  rewrite Z2Nat.id in * by lia. lia.
Qed.

Lemma good_zero_used : forall X, mpi_good X -> mpi_abs X = 0 -> used X = 1.
Proof.
  intros X HX H0. pose proof HX as (_ & _ & Hu & _).
  destruct (Z.le_gt_cases (used X) 1) as [H|H]; [lia|].
  pose proof (good_abs_lower X HX ltac:(lia)) as Hlow.
  assert (0 < 2 ^ (64 * (used X - 1))) by (apply Z.pow_pos_nonneg; lia).
  lia.
Qed.

(** The limb part of [ttls_mpi_shift_r] (bignum.c:445-448). *)
Lemma shift_r_limb_part : forall X m,
  mpi_wf X -> 0 <= m <= used X ->
  let u1 := if 0 <? m then used X - m else used X in
  u1 = used X - m
  /\ exists p1,
       (if 0 <? m then shr_limbs (p X) m 0 (Z.to_nat u1) else Ok (p X))
       = Ok p1
       /\ length p1 = length (p X) /\ Forall is_limb p1
       /\ lv p1 0 (Z.to_nat u1) = mpi_abs X / 2 ^ (64 * m).
Proof.
  intros X m (Hu & Hlen & Hl) Hm u1.
  assert (Hu1 : u1 = used X - m)
    by (unfold u1; destruct (Z.ltb_spec 0 m); lia).
  split; [exact Hu1|]. clearbody u1.
  assert (Hsplit : mpi_abs X
                   = lv (p X) 0 (Z.to_nat m)
                     + 2 ^ (64 * m) * lv (p X) (Z.to_nat m) (Z.to_nat u1)).
  { rewrite mpi_abs_lv.
    replace (Z.to_nat (used X)) with (Z.to_nat m + Z.to_nat u1)%nat by lia.
    rewrite lv_split, Z2Nat.id by lia. reflexivity. }
  pose proof (lv_bound (p X) 0 (Z.to_nat m) Hl) as Hb.
  rewrite Z2Nat.id in Hb by lia.
  assert (HP : 0 < 2 ^ (64 * m)) by (apply Z.pow_pos_nonneg; lia).
  assert (Hdiv : mpi_abs X / 2 ^ (64 * m)
                 = lv (p X) (Z.to_nat m) (Z.to_nat u1)).
  { rewrite Hsplit. rewrite Z.mul_comm, Z.div_add by lia.
    rewrite Z.div_small by lia. lia. }
  rewrite Hdiv.
  destruct (Z.ltb_spec 0 m) as [Hm0|Hm0].
  - destruct (shr_limbs_spec (Z.to_nat u1) (p X) (Z.to_nat m) 0)
      as (p1 & Hrun & Hl1 & Hin & Hout); [lia|].
    rewrite Z2Nat.id in Hrun by lia. change (Z.of_nat 0) with 0 in Hrun.
    exists p1. split; [exact Hrun|]. split; [exact Hl1|].
    split.
    { apply Forall_limb_nth. intros j Hj.
      destruct (Nat.lt_ge_cases j (Z.to_nat u1)) as [H|H].
      - rewrite Hin by lia. apply nth_limb. exact Hl.
      - rewrite Hout by lia. apply nth_limb. exact Hl. }
    apply lv_ext_shift. intros j Hj. rewrite Hin by lia. f_equal. lia.
  - exists (p X). split; [reflexivity|]. split; [reflexivity|].
    split; [exact Hl|]. replace (Z.to_nat m) with 0%nat by lia.
    reflexivity.
Qed.

Lemma shift_r_spec : forall junk ML X count,
  mpi_good X -> 0 <= count -> 1 <= ML ->
  exists X',
    ttls_mpi_shift_r junk ML X count = Ok X'
    /\ mpi_wf X' /\ normalised X'
    /\ mpi_abs X' = mpi_abs X / 2 ^ count
    /\ (s X' = 1 \/ s X' = -1)
    /\ (mpi_abs X' <> 0 -> s X' = s X)
    /\ (mpi_abs X = 0 -> X' = X)
    /\ (used X' = 0 <->
        mpi_abs X <> 0 /\ mpi_abs X < 2 ^ count /\ count <= 64 * used X).
Proof.
  intros junk ML X count HX Hcount HML.
  pose proof HX as (Hwf & Hn & Hu & Hs).
  pose proof Hwf as (Hu' & Hlen & Hl).
  pose proof (mpi_abs_range X Hwf) as Hrange.
  assert (HC : 0 < 2 ^ count) by (apply Z.pow_pos_nonneg; lia).
  unfold ttls_mpi_shift_r.
  replace (used X =? 0) with false by (symmetry; apply Z.eqb_neq; lia).
  rewrite rd_ok_z by lia. cbn [bind].
  destruct (Z.eq_dec (mpi_abs X) 0) as [H0|H0].
  { pose proof (good_zero_used X HX H0) as Hu1.
    pose proof H0 as H0'.
    rewrite (abs_one_limb X Hwf Hu1) in H0'. rewrite Hu1.
    change (Z.to_nat (1 - 1)) with 0%nat. rewrite H0'.
    change (0 =? 0) with true. cbv iota.
    exists X. split; [reflexivity|]. split; [exact Hwf|].
    split; [exact Hn|].
    split; [rewrite H0; symmetry; apply Z.div_0_l; lia|].
    split; [exact Hs|]. split; [reflexivity|]. split; [reflexivity|].
    split; [intro; lia | intros (K & _); contradiction]. }
  replace (nth (Z.to_nat (used X - 1)) (p X) 0 =? 0) with false
    by (symmetry; apply Z.eqb_neq; apply good_top_limb; assumption).
  destruct (nonzero_top X Hwf Hn H0) as (_ & _ & Hlow).
  rewrite shiftr6, land63.
  destruct (count_split count Hcount) as (Hm & Hk & Hcnt & Hpow).
  set (m := count / 64) in *. set (k := count mod 64) in *.
  clearbody m k.
  assert (HPm : 0 < 2 ^ (64 * m)) by (apply Z.pow_pos_nonneg; lia).
  assert (HPk : 0 < 2 ^ k) by (apply Z.pow_pos_nonneg; lia).
  destruct ((used X <? m) || ((m =? used X) && (0 <? k))) eqn:Hout.
  - (* everything is shifted out *)
    assert (Hbig : 64 * used X < count \/ (used X < m)).
    { apply orb_true_iff in Hout. destruct Hout as [H|H].
      - apply Z.ltb_lt in H. right. exact H.
      - apply andb_true_iff in H. destruct H as [H1 H2].
        apply Z.eqb_eq in H1. apply Z.ltb_lt in H2. left. lia. }
    assert (Hlt : 64 * used X < count) by lia.
    destruct (lset_zero_spec junk ML X (good_dest_ok X HX) HML)
      as (X' & Hrun & Hg & Hs' & Hu1 & Hab).
    exists X'. split; [exact Hrun|].
    destruct Hg as (Hw' & Hn' & _).
    split; [exact Hw'|]. split; [exact Hn'|].
    split.
    { rewrite Hab. symmetry. apply Z.div_small. split; [lia|].
      eapply Z.lt_le_trans; [apply Hrange|].
      apply Z.pow_le_mono_r; lia. }
    split; [left; exact Hs'|]. split; [intro K; contradiction|].
    split; [intro K; contradiction|].
    split; [intro; lia | intros (_ & _ & K); lia].
  - assert (Hin : m <= used X /\ (m = used X -> k = 0)).
    { apply orb_false_iff in Hout. destruct Hout as [H1 H2].
      apply Z.ltb_ge in H1. split; [exact H1|]. intro E.
      apply andb_false_iff in H2. destruct H2 as [H2|H2].
      - apply Z.eqb_neq in H2. lia.
      - apply Z.ltb_ge in H2. lia. }
    clear Hout. destruct Hin as (Hmu & Hmk).
    destruct (shift_r_limb_part X m Hwf ltac:(lia)) as (Hu1 & p1 & Hp1 &
                                                        Hl1 & Hf1 & Hv1).
    set (u1 := if 0 <? m then used X - m else used X) in *. clearbody u1.
    rewrite Hp1. cbn [bind]. clear Hp1.
    assert (Hq : mpi_abs X / 2 ^ count = mpi_abs X / 2 ^ (64 * m) / 2 ^ k)
      by (rewrite Hpow, Z.div_div by lia; reflexivity).
    destruct (Z.ltb_spec 0 k) as [Hk0|Hk0].
    + (* bits as well *)
      assert (Hmlt : m < used X) by lia.
      destruct (shr_bits_spec (Z.to_nat u1) p1 k 0 Hf1 ltac:(lia))
        as (p2 & Hrun & Hl2 & Hf2 & _ & Hval); try lia.
      rewrite Z.mul_0_l in Hrun, Hval. rewrite Z.add_0_r in Hval.
      rewrite Hrun. cbn [bind]. rewrite rd_ok_z by lia. cbn [bind].
      rewrite Hv1, <- Hq in Hval. clear Hrun Hv1.
      set (top' := nth (Z.to_nat (u1 - 1)) p2 0).
      assert (Hsn : lv p2 0 (Z.to_nat u1)
                    = lv p2 0 (Z.to_nat (u1 - 1))
                      + 2 ^ (64 * (u1 - 1)) * top').
      { replace (Z.to_nat u1) with (S (Z.to_nat (u1 - 1))) by lia.
        rewrite lv_snoc. cbn [Nat.add]. rewrite Z2Nat.id by lia.
        reflexivity. }
      pose proof (lv_bound p2 0 (Z.to_nat (u1 - 1)) Hf2) as Hb.
      rewrite Z2Nat.id in Hb by lia.
      assert (Htop' : is_limb top') by (apply nth_limb; exact Hf2).
      unfold is_limb in Htop'.
      assert (HP : 0 < 2 ^ (64 * (u1 - 1)))
        by (apply Z.pow_pos_nonneg; lia).
      assert (Hqlow : 2 <= u1 ->
                2 ^ (64 * (u1 - 2)) <= mpi_abs X / 2 ^ count).
      { intro H2.
        eapply Z.le_trans;
          [|apply (div_pow_lower (mpi_abs X) (64 * (used X - 1)) count);
            [lia | exact Hlow]].
        apply Z.pow_le_mono_r; lia. }
      assert (Hqnn : 0 <= mpi_abs X / 2 ^ count)
        by (apply Z.div_pos; lia).
      eexists. split; [reflexivity|].
      destruct (Z.eqb_spec top' 0) as [Ht|Ht].
      * assert (Habs : mpi_abs (mkMpi (s X) (u1 - 1) (limbs X) p2)
                       = mpi_abs X / 2 ^ count).
        { rewrite mpi_abs_lv. cbn [p used]. rewrite <- Hval, Hsn, Ht. lia. }
        destruct (wf_norm_of_value (mkMpi (s X) (u1 - 1) (limbs X) p2))
          as (Hw' & Hn').
        { split; cbn [p limbs]; [lia | exact Hf2]. }
        { cbn [used limbs]. lia. }
        { cbn [used]. intro H2. rewrite Habs.
          replace (u1 - 1 - 1) with (u1 - 2) by lia. apply Hqlow. lia. }
        split; [exact Hw'|]. split; [exact Hn'|]. split; [exact Habs|].
        split; [exact Hs|]. split; [reflexivity|].
        split; [intro K; contradiction|].
        cbn [used]. split.
        -- intro E. split; [exact H0|]. split; [|lia].
           assert (Hz : mpi_abs X / 2 ^ count = 0).
           { rewrite <- Hval, Hsn, Ht.
             replace (u1 - 1) with 0 by lia. reflexivity. }
           apply Z.div_small_iff in Hz; [|lia]. lia.
        -- intros (_ & Hlt & _).
           assert (Hz : mpi_abs X / 2 ^ count = 0)
             by (apply Z.div_small; lia).
           destruct (Z.le_gt_cases 2 u1) as [H2|H2]; [|lia].
           specialize (Hqlow H2).
           assert (0 < 2 ^ (64 * (u1 - 2)))
             by (apply Z.pow_pos_nonneg; lia).
           lia.
      * assert (Habs : mpi_abs (mkMpi (s X) u1 (limbs X) p2)
                       = mpi_abs X / 2 ^ count).
        { rewrite mpi_abs_lv. cbn [p used]. exact Hval. }
        assert (Hge : 2 ^ (64 * (u1 - 1)) <= mpi_abs X / 2 ^ count).
        { rewrite <- Hval, Hsn.
          assert (2 ^ (64 * (u1 - 1)) * 1 <= 2 ^ (64 * (u1 - 1)) * top')
            by (apply Z.mul_le_mono_nonneg_l; lia).
          lia. }
        destruct (wf_norm_of_value (mkMpi (s X) u1 (limbs X) p2))
          as (Hw' & Hn').
        { split; cbn [p limbs]; [lia | exact Hf2]. }
        { cbn [used limbs]. lia. }
        { cbn [used]. intros _. rewrite Habs. exact Hge. }
        split; [exact Hw'|]. split; [exact Hn'|]. split; [exact Habs|].
        split; [exact Hs|]. split; [reflexivity|].
        split; [intro K; contradiction|].
        cbn [used]. split; [intro; lia|].
        intros (_ & Hlt & _).
        assert (Hz : mpi_abs X / 2 ^ count = 0)
          by (apply Z.div_small; lia).
        lia.
    + (* whole limbs only *)
      assert (k = 0) by lia. subst k.
      change (2 ^ 0) with 1 in *. rewrite Z.div_1_r in Hq.
      rewrite <- Hq in Hv1.
      eexists. split; [reflexivity|].
      assert (Habs : mpi_abs (mkMpi (s X) u1 (limbs X) p1)
                     = mpi_abs X / 2 ^ count).
      { rewrite mpi_abs_lv. cbn [p used]. exact Hv1. }
      destruct (wf_norm_of_value (mkMpi (s X) u1 (limbs X) p1))
        as (Hw' & Hn').
      { split; cbn [p limbs]; [lia | exact Hf1]. }
      { cbn [used limbs]. lia. }
      { cbn [used]. intros H2. rewrite Habs.
        eapply Z.le_trans;
          [|apply (div_pow_lower (mpi_abs X) (64 * (used X - 1)) count);
            [lia | exact Hlow]].
        apply Z.pow_le_mono_r; lia. }
      split; [exact Hw'|]. split; [exact Hn'|]. split; [exact Habs|].
      split; [exact Hs|]. split; [reflexivity|].
      split; [intro K; contradiction|].
      cbn [used]. split.
      * intro E. split; [exact H0|]. split; [|lia].
        replace count with (64 * used X) by lia. apply Hrange.
      * intros (_ & Hlt & _).
        destruct (Z.le_gt_cases (used X) m) as [H|H]; [lia|].
        assert (2 ^ count <= 2 ^ (64 * (used X - 1)))
          by (apply Z.pow_le_mono_r; lia).
        lia.
Qed.


(** X15: bignum.c:423-463.  [ttls_mpi_shift_r(X, count)] leaves
    [|X| / 2^count] for every [count], with the sign of [X] unless the
    result is zero.  When bits are left over it keeps the invariants; when a
    number that is not zero loses all its bits to a [count] of at most
    [64 * used], [used] is left at 0 instead of 1. *)
Theorem shift_r_divides_by_power_of_two : forall junk ML X count,
  mpi_good X -> 0 <= count -> 1 <= ML ->
  exists X',
    ttls_mpi_shift_r junk ML X count = Ok X'
    /\ mpi_wf X' /\ normalised X'
    /\ mpi_abs X' = mpi_abs X / 2 ^ count
    /\ (mpi_abs X' <> 0 -> s X' = s X)
    /\ (used X' = 0 <->
        mpi_abs X <> 0 /\ mpi_abs X < 2 ^ count /\ count <= 64 * used X).
Proof.
  intros junk ML X count HX Hcount HML.
  destruct (shift_r_spec junk ML X count HX Hcount HML)
    as (X' & Hrun & Hw & Hn & Hab & _ & Hsame & _ & Hused).
  exists X'. repeat (split; [assumption|]). exact Hused.
Qed.

Lemma shift_r_divides_by_power_of_two_witness :
  exists X',
    ttls_mpi_shift_r (fun _ => 5) 16 (mkMpi (-1) 2 2 [7; 1]) 128 = Ok X'
    /\ mpi_wf X' /\ normalised X'
    /\ mpi_abs X' = mpi_abs (mkMpi (-1) 2 2 [7; 1]) / 2 ^ 128
    /\ (mpi_abs X' <> 0 -> s X' = s (mkMpi (-1) 2 2 [7; 1]))
    /\ (used X' = 0 <->
        mpi_abs (mkMpi (-1) 2 2 [7; 1]) <> 0
        /\ mpi_abs (mkMpi (-1) 2 2 [7; 1]) < 2 ^ 128
        /\ 128 <= 64 * used (mkMpi (-1) 2 2 [7; 1])).
Proof.
  apply (shift_r_divides_by_power_of_two (fun _ => 5) 16
           (mkMpi (-1) 2 2 [7; 1]) 128).
  - apply mpi_goodb_ok. reflexivity.
  - lia.
  - lia.
Defined.

(** ** Left shift by any count *)

















(** Past that bound the sum [i += count] wraps: for [X = 2 ^ 127] in two
    limbs and [count = 2 ^ 64 - 64] it is 64, for [X = 2 ^ 63] in one limb
    and [count = 2 ^ 64 - 63] it is 1.  Both calls return 0 and leave the
    value 0 in one limb; no limb behind the array is read. *)
Lemma shift_l_count_wraps :
  ttls_mpi_shift_l (fun _ => 5) (mkMpi 1 2 2 [0; 2 ^ 63]) (2 ^ 64 - 64)
  = Ok (mkMpi 1 1 2 [0; 2 ^ 63])
  /\ ttls_mpi_shift_l (fun _ => 5) (mkMpi 1 1 1 [2 ^ 63]) (2 ^ 64 - 63)
     = Ok (mkMpi 1 1 1 [0]).
Proof. split; vm_compute; reflexivity. Qed.

(** ** The greatest common divisor *)

(** *** Arithmetic of the binary algorithm *)















(** *** The loop *)












(** *** A zero operand *)









(** ** Multiplication of two numbers *)

(** bignum.c:890-928 at limb [off] of the destination: [d += s * b]. *)
Lemma mpi_mul_off_spec : forall n sl dl off b r,
  Forall is_limb sl -> Forall is_limb dl -> is_limb b ->
  (n <= length sl)%nat -> (1 <= r)%nat -> (off + n + r <= length dl)%nat ->
  lv sl 0 n * b + lv dl off (n + r) < 2 ^ (64 * Z.of_nat (n + r)) ->
  exists dl',
    __mpi_mul (Z.of_nat n) sl dl (Z.of_nat off) b = Ok dl'
    /\ length dl' = length dl
    /\ Forall is_limb dl'
    /\ (forall k, (k < off \/ off + n + r <= k)%nat ->
          nth k dl' 0 = nth k dl 0)
    /\ lv dl' off (n + r) = lv sl 0 n * b + lv dl off (n + r).
Proof.
  intros n sl dl off b r Hs Hd Hb Hls Hr Hld Hfit. unfold __mpi_mul.
  rewrite Nat2Z.id.
  destruct (mul_core_spec n sl dl off b 0 0 Hs Hd Hb zero_limb)
    as (dl1 & c & Hrun & Hc & Hl1 & Hf1 & Hout1 & Hval1); try lia.
  change (Z.of_nat 0) with 0 in Hrun. rewrite Hrun. cbn [bind].
  rewrite Nat.add_0_r in Hval1, Hout1.
  rewrite lv_split in Hfit.
  assert (Hhi : lv dl1 (off + n) r = lv dl (off + n) r).
  { apply lv_ext. intros k Hk. apply Hout1. lia. }
  pose proof (lv_bound dl1 off n Hf1) as Hb1.
  pose proof (pow64_pos n) as HP.
  replace (64 * Z.of_nat (n + r)) with (64 * Z.of_nat n + 64 * Z.of_nat r)
    in Hfit by lia.
  rewrite Z.pow_add_r in Hfit by lia.
  assert (Hfit2 : lv dl1 (off + n) r + c < 2 ^ (64 * Z.of_nat r)).
  { rewrite Hhi. clear - Hfit Hval1 Hb1 HP.
    set (P := 2 ^ (64 * Z.of_nat n)) in *.
    set (R := 2 ^ (64 * Z.of_nat r)) in *. nia. }
  replace (Z.of_nat off + Z.of_nat n) with (Z.of_nat (off + n)) by lia.
  rewrite Nat2Z.id.
  destruct (mul_carry_spec r dl1 (off + n) (length dl1 - (off + n)) c Hf1 Hc)
    as (dl2 & Hrun2 & Hl2 & Hf2 & Hout2 & Hval2); try lia.
  rewrite Hrun2. exists dl2. split; [reflexivity|].
  split; [lia|]. split; [exact Hf2|].
  split.
  { intros k Hk. rewrite Hout2 by lia. apply Hout1. lia. }
  rewrite !lv_split.
  replace (lv dl2 off n) with (lv dl1 off n)
    by (apply lv_ext; intros k Hk; symmetry; apply Hout2; lia).
  rewrite Hval2, Hhi. clear - Hval1. lia.
Qed.








(** ** Division of two limbs by one *)

Lemma wrap64_sub3 : forall a b c,
  wrap64 (wrap64 a + b - wrap64 c) = wrap64 (a + b - c).
Proof.
  intros a b c. unfold wrap64.
  rewrite Zminus_mod_idemp_r.
  replace (a mod 2 ^ 64 + b - c) with (a mod 2 ^ 64 + (b - c)) by ring.
  rewrite Z.add_mod_idemp_l by lia. f_equal. ring.
Qed.

Lemma int_div_int_full : forall u1 u0 d,
  is_limb u1 -> is_limb u0 -> is_limb d -> u1 < d ->
  ttls_int_div_int u1 u0 d
  = Ok ((u1 * 2 ^ 64 + u0) / d, (u1 * 2 ^ 64 + u0) mod d).
Proof.
  intros u1 u0 d Hu1 Hu0 Hd Hlt.
  assert (Hpos : 0 < d) by (unfold is_limb in *; lia).
  unfold ttls_int_div_int.
  replace (d =? 0) with false by (symmetry; apply Z.eqb_neq; lia).
  replace (d <=? u1) with false by (symmetry; apply Z.leb_gt; lia).
  cbn [orb].
  destruct (div_norm_shift d Hd Hpos) as (Hsh & HDb).
  set (sh := BIL - fls64 d) in *.
  destruct (shl_limb0 u0 sh Hu0 Hsh) as (Hhi & Hlo & Hu0s).
  set (hi := Z.land (Z.shiftr u0 (BIL - sh))
                    (if sh =? 0 then 0 else 2 ^ 64 - 1)) in *.
  set (U0 := wrap64 (Z.shiftl u0 sh)) in *.
  assert (HS : 0 < 2 ^ sh) by (apply Z.pow_pos_nonneg; lia).
  assert (HD : wrap64 (Z.shiftl d sh) = d * 2 ^ sh).
  { rewrite Z.shiftl_mul_pow2 by lia. apply wrap64_id. lia. }
  rewrite HD. set (D := d * 2 ^ sh) in *.
  unfold is_limb in Hu1, Hu0, Hd.
  assert (HU1a : wrap64 (Z.shiftl u1 sh) = u1 * 2 ^ sh).
  { rewrite Z.shiftl_mul_pow2 by lia. apply wrap64_id.
    assert (u1 * 2 ^ sh <= d * 2 ^ sh)
      by (apply Z.mul_le_mono_nonneg_r; lia).
    assert (0 <= u1 * 2 ^ sh) by (apply Z.mul_nonneg_nonneg; lia).
    fold D in H. lia. }
  rewrite HU1a. rewrite lor_disjoint by lia.
  set (U1 := u1 * 2 ^ sh + hi).
  assert (HU1 : 0 <= U1 < D).
  { unfold U1, D.
    assert ((u1 + 1) * 2 ^ sh <= d * 2 ^ sh)
      by (apply Z.mul_le_mono_nonneg_r; lia).
    assert (0 <= u1 * 2 ^ sh) by (apply Z.mul_nonneg_nonneg; lia).
    replace ((u1 + 1) * 2 ^ sh) with (u1 * 2 ^ sh + 2 ^ sh) in H by ring.
    lia. }
  assert (Hnum : (u1 * 2 ^ 64 + u0) * 2 ^ sh = U1 * 2 ^ 64 + U0).
  { unfold U1. rewrite Z.mul_add_distr_r, Hu0s. ring. }
  unfold BIH. rewrite (Z.shiftr_div_pow2 U0 32) by lia.
  change (2 ^ 32 - 1) with (Z.ones 32).
  rewrite (Z.land_ones U0 32) by lia.
  change (Z.ones 32) with (2 ^ 32 - 1).
  set (un1 := U0 / 2 ^ 32). set (un0 := U0 mod 2 ^ 32).
  unfold is_limb in Hlo.
  assert (HU0 : U0 = un1 * 2 ^ 32 + un0).
  { unfold un1, un0. pose proof (Z.div_mod U0 (2 ^ 32) ltac:(lia)). lia. }
  assert (Hun0 : 0 <= un0 < 2 ^ 32)
    by (unfold un0; apply Z.mod_pos_bound; lia).
  assert (Hun1 : 0 <= un1 < 2 ^ 32).
  { unfold un1. split; [apply Z.div_pos; lia|].
    apply Z.div_lt_upper_bound; [lia|].
    change (2 ^ 32 * 2 ^ 32) with (2 ^ 64). lia. }
  destruct (half_digit D U1 un1 HDb HU1 Hun1) as (r1 & Hw1).
  unfold BIH in Hw1. change (2 ^ 32 - 1) with (2 ^ 32 - 1) in Hw1.
  rewrite Hw1. cbn [bind].
  set (Q1 := (U1 * 2 ^ 32 + un1) / D) in *.
  set (R1 := (U1 * 2 ^ 32 + un1) mod D).
  assert (HDp : 0 < D) by lia.
  assert (HR1 : 0 <= R1 < D) by (unfold R1; apply Z.mod_pos_bound; lia).
  assert (HQR1 : U1 * 2 ^ 32 + un1 = D * Q1 + R1).
  { unfold Q1, R1. apply Z.div_mod. lia. }
  assert (HrAX : wrap64 (wrap64 (U1 * 2 ^ 32)
                         + wrap64 (un1 - wrap64 (Q1 * D))) = R1).
  { rewrite wrap64_combine.
    replace (U1 * 2 ^ 32 + un1 - Q1 * D) with R1 by lia.
    apply wrap64_id. lia. }
  rewrite HrAX.
  destruct (half_digit D R1 un0 HDb HR1 Hun0) as (r0 & Hw0).
  unfold BIH in Hw0.
  rewrite (Z.mul_comm (R1 / Z.shiftr D 32) (Z.shiftr D 32)).
  rewrite Hw0. cbn [bind].
  set (Q0 := (R1 * 2 ^ 32 + un0) / D) in *.
  set (R0 := (R1 * 2 ^ 32 + un0) mod D).
  assert (HR0 : 0 <= R0 < D) by (unfold R0; apply Z.mod_pos_bound; lia).
  assert (HQR0 : R1 * 2 ^ 32 + un0 = D * Q0 + R0).
  { unfold Q0, R0. apply Z.div_mod. lia. }
  assert (HQ : (u1 * 2 ^ 64 + u0) / d = Q1 * 2 ^ 32 + Q0).
  { rewrite <- (Z.div_mul_cancel_r _ _ (2 ^ sh)) by lia.
    fold D. rewrite Hnum.
    symmetry. apply (Z.div_unique _ _ _ R0); [left; lia|].
    rewrite HU0. change (2 ^ 64) with (2 ^ 32 * 2 ^ 32).
    replace (U1 * (2 ^ 32 * 2 ^ 32) + (un1 * 2 ^ 32 + un0))
      with ((U1 * 2 ^ 32 + un1) * 2 ^ 32 + un0) by ring.
    rewrite HQR1.
    replace ((D * Q1 + R1) * 2 ^ 32 + un0)
      with (D * Q1 * 2 ^ 32 + (R1 * 2 ^ 32 + un0)) by ring.
    rewrite HQR0. ring. }
  assert (HQb : 0 <= (u1 * 2 ^ 64 + u0) / d < 2 ^ 64).
  { split.
    - apply Z.div_pos; [|lia].
      assert (0 <= u1 * 2 ^ 64) by (apply Z.mul_nonneg_nonneg; lia). lia.
    - apply Z.div_lt_upper_bound; [lia|].
      assert ((u1 + 1) * 2 ^ 64 <= d * 2 ^ 64)
        by (apply Z.mul_le_mono_nonneg_r; lia).
      replace ((u1 + 1) * 2 ^ 64) with (u1 * 2 ^ 64 + 2 ^ 64) in H by ring.
      lia. }
  assert (HQv : wrap64 (wrap64 (Q1 * 2 ^ 32) + Q0)
                = (u1 * 2 ^ 64 + u0) / d).
  { rewrite wrap64_combine2, HQ. rewrite HQ in HQb. apply wrap64_id.
    exact HQb. }
  assert (HRw : wrap64 (wrap64 (R1 * 2 ^ 32) + un0 - wrap64 (Q0 * D)) = R0).
  { rewrite wrap64_sub3.
    replace (R1 * 2 ^ 32 + un0 - Q0 * D) with R0 by lia.
    apply wrap64_id. lia. }
  assert (HRv : Z.shiftr R0 sh = (u1 * 2 ^ 64 + u0) mod d).
  { rewrite Z.shiftr_div_pow2 by lia.
    assert (HR0' : R0 = ((u1 * 2 ^ 64 + u0) * 2 ^ sh) mod D).
    { rewrite Hnum.
      apply (Z.mod_unique _ _ (Q1 * 2 ^ 32 + Q0)); [left; lia|].
      rewrite HU0. change (2 ^ 64) with (2 ^ 32 * 2 ^ 32).
      replace (U1 * (2 ^ 32 * 2 ^ 32) + (un1 * 2 ^ 32 + un0))
        with ((U1 * 2 ^ 32 + un1) * 2 ^ 32 + un0) by ring.
      rewrite HQR1.
      replace ((D * Q1 + R1) * 2 ^ 32 + un0)
        with (D * Q1 * 2 ^ 32 + (R1 * 2 ^ 32 + un0)) by ring.
      rewrite HQR0. ring. }
    rewrite HR0'. unfold D.
    rewrite Z.mul_mod_distr_r by lia.
    apply Z.div_mul. lia. }
  rewrite HQv, HRw, HRv. reflexivity.
Qed.

(** X22: bignum.c:997-1059.  For [u1 < d], [ttls_int_div_int(u1, u0, d, r)]
    returns the quotient of the two-limb number [u1 : u0] by [d] and stores
    the remainder; for [d = 0] or [u1 >= d], where the quotient does not
    fit a limb, both are all ones. *)
Theorem int_div_int_quotient_and_remainder : forall u1 u0 d,
  is_limb u1 -> is_limb u0 -> is_limb d ->
  ttls_int_div_int u1 u0 d
  = if (d =? 0) || (d <=? u1) then Ok (2 ^ 64 - 1, 2 ^ 64 - 1)
    else Ok ((u1 * 2 ^ 64 + u0) / d, (u1 * 2 ^ 64 + u0) mod d).
Proof.
  intros u1 u0 d Hu1 Hu0 Hd.
  destruct ((d =? 0) || (d <=? u1)) eqn:E.
  - unfold ttls_int_div_int. rewrite E. reflexivity.
  - apply orb_false_iff in E. destruct E as (_ & E).
    apply Z.leb_gt in E. apply int_div_int_full; assumption.
Qed.

Lemma int_div_int_quotient_and_remainder_witness :
  ttls_int_div_int 3 (2 ^ 64 - 1) 5
  = if (5 =? 0) || (5 <=? 3) then Ok (2 ^ 64 - 1, 2 ^ 64 - 1)
    else Ok ((3 * 2 ^ 64 + (2 ^ 64 - 1)) / 5,
             (3 * 2 ^ 64 + (2 ^ 64 - 1)) mod 5).
Proof.
  apply (int_div_int_quotient_and_remainder 3 (2 ^ 64 - 1) 5);
    unfold is_limb; lia.
Defined.

(** ** Import of any byte string *)








(** ** The Montgomery constant *)

Lemma land4 : forall y, Z.land y 4 = 4 * ((y / 4) mod 2).
Proof.
  intro y.
  replace (4 * ((y / 4) mod 2)) with (((y / 2 ^ 2) mod 2 ^ 1) * 2 ^ 2)
    by (change (2 ^ 2) with 4; change (2 ^ 1) with 2; ring).
  change 4 with (2 ^ 2).
  apply Z.bits_inj'. intros n Hn.
  rewrite Z.land_spec, Z.pow2_bits_eqb by lia.
  destruct (Z.ltb_spec n 2) as [Hlt|Hge].
  - rewrite Z.mul_pow2_bits_low by lia.
    replace (2 =? n) with false by (symmetry; apply Z.eqb_neq; lia).
    apply andb_false_r.
  - rewrite Z.mul_pow2_bits by lia.
    rewrite field_bits by lia.
    destruct (Z.eqb_spec 2 n) as [<-|Hne].
    + rewrite andb_true_r. reflexivity.
    + replace (n - 2 <? 1) with false by (symmetry; apply Z.ltb_ge; lia).
      apply andb_false_r.
Qed.

(** The start value is an inverse of [m0] modulo 16. *)
Lemma inverse_mod_16_small : forall r,
  0 <= r < 16 -> r mod 2 = 1 ->
  (r * (r + 2 * (4 * (((r + 2) / 4) mod 2)))) mod 16 = 1.
Proof.
  intros r Hr Hodd.
  assert (H : r = 1 \/ r = 3 \/ r = 5 \/ r = 7 \/ r = 9 \/ r = 11
              \/ r = 13 \/ r = 15).
  { pose proof (Z.div_mod r 2 ltac:(lia)). lia. }
  destruct H as [-> | [-> | [-> | [-> | [-> | [-> | [-> | ->]]]]]]];
    reflexivity.
Qed.

Lemma div4_mod2 : forall a, (a / 4) mod 2 = ((a mod 16) / 4) mod 2.
Proof.
  intro a. rewrite (Z.div_mod a 16) at 1 by lia.
  replace (16 * (a / 16) + a mod 16)
    with (a mod 16 + (4 * (a / 16)) * 4) by ring.
  rewrite Z.div_add by lia.
  replace (a mod 16 / 4 + 4 * (a / 16))
    with (a mod 16 / 4 + (2 * (a / 16)) * 2) by ring.
  rewrite Z.mod_add by lia. reflexivity.
Qed.

Lemma div16 : (16 | 2 ^ 64).
Proof. exists (2 ^ 60). reflexivity. Qed.

Lemma wrap64_mod16 : forall z, wrap64 z mod 16 = z mod 16.
Proof. intro z. unfold wrap64. apply Z.mod_mod_divide. exact div16. Qed.

Lemma montg_start : forall m0,
  is_limb m0 -> Z.odd m0 = true ->
  (m0 * wrap64 (m0 + Z.shiftl (Z.land (wrap64 (m0 + 2)) 4) 1)) mod 2 ^ 4 = 1.
Proof.
  intros m0 Hm Hodd. unfold is_limb in Hm.
  rewrite Z.shiftl_mul_pow2 by lia. change (2 ^ 1) with 2.
  rewrite land4. change (2 ^ 4) with 16.
  set (r := m0 mod 16).
  assert (Hr : 0 <= r < 16) by (apply Z.mod_pos_bound; lia).
  assert (Hr2 : r mod 2 = 1).
  { unfold r. rewrite Z.mod_mod_divide by (exists 8; reflexivity).
    rewrite Zmod_odd, Hodd. reflexivity. }
  (* the bit that is tested depends on [m0 mod 16] only *)
  assert (Hbit : (wrap64 (m0 + 2) / 4) mod 2 = ((r + 2) / 4) mod 2).
  { assert (E : wrap64 (m0 + 2) mod 16 = (r + 2) mod 16).
    { rewrite wrap64_mod16. unfold r.
      rewrite Zplus_mod_idemp_l. reflexivity. }
    rewrite div4_mod2, E, <- div4_mod2. reflexivity. }
  rewrite Hbit.
  set (t := 4 * (((r + 2) / 4) mod 2) * 2).
  rewrite <- Z.mul_mod_idemp_r by lia.
  rewrite wrap64_mod16.
  rewrite Z.mul_mod_idemp_r by lia.
  pose proof (Z.div_mod m0 16 ltac:(lia)) as Hdm. fold r in Hdm.
  set (q := m0 / 16) in *. clearbody q r.
  replace (m0 * (m0 + t))
    with (r * (r + t) + (q * (16 * q + r + t) + r * q) * 16)
    by (rewrite Hdm; ring).
  rewrite Z.mod_add by lia.
  unfold t. rewrite <- (inverse_mod_16_small r Hr Hr2). f_equal. ring.
Qed.

(** One round of the loop doubles the number of bits that are right. *)
Lemma montg_round : forall e m0 x,
  1 <= e -> 2 * e <= 64 -> (m0 * x) mod 2 ^ e = 1 ->
  (m0 * wrap64 (x * wrap64 (2 - wrap64 (m0 * x)))) mod 2 ^ (2 * e) = 1.
Proof.
  intros e m0 x He H2e Hinv.
  assert (HE : 0 < 2 ^ e) by (apply Z.pow_pos_nonneg; lia).
  assert (HE2 : 2 ^ (2 * e) = 2 ^ e * 2 ^ e)
    by (rewrite <- Z.pow_add_r by lia; f_equal; lia).
  assert (Hdiv : (2 ^ (2 * e) | 2 ^ 64)).
  { exists (2 ^ (64 - 2 * e)). rewrite <- Z.pow_add_r by lia.
    f_equal. lia. }
  assert (Hw : wrap64 (x * wrap64 (2 - wrap64 (m0 * x)))
               = (x * (2 - m0 * x)) mod 2 ^ 64).
  { unfold wrap64. rewrite Zminus_mod_idemp_r.
    rewrite Z.mul_mod_idemp_r by lia. reflexivity. }
  rewrite Hw.
  rewrite <- (Z.mod_mod_divide _ (2 ^ 64) (2 ^ (2 * e)) Hdiv).
  rewrite Z.mul_mod_idemp_r by lia.
  rewrite (Z.mod_mod_divide _ (2 ^ 64) (2 ^ (2 * e)) Hdiv).
  pose proof (Z.div_mod (m0 * x) (2 ^ e) ltac:(lia)) as Hdm.
  rewrite Hinv in Hdm. set (t := m0 * x / 2 ^ e) in *.
  replace (m0 * (x * (2 - m0 * x))) with ((m0 * x) * (2 - m0 * x)) by ring.
  rewrite Hdm.
  replace ((2 ^ e * t + 1) * (2 - (2 ^ e * t + 1)))
    with (1 + (- (t * t)) * 2 ^ (2 * e)) by (rewrite HE2; ring).
  rewrite Z.mod_add by lia.
  assert (H2 : 2 ^ 1 <= 2 ^ e) by (apply Z.pow_le_mono_r; lia).
  change (2 ^ 1) with 2 in H2.
  apply Z.mod_small. rewrite HE2. clear - H2. nia.
Qed.

Lemma montg_init_spec : forall m0,
  is_limb m0 -> Z.odd m0 = true ->
  let mm := wrap64 (- montg_lift 8 BIL m0
                        (wrap64 (m0 + Z.shiftl (Z.land (wrap64 (m0 + 2)) 4) 1)))
  in is_limb mm /\ (m0 * mm) mod 2 ^ 64 = 2 ^ 64 - 1.
Proof.
  intros m0 Hm Hodd mm. split; [apply wrap64_limb|].
  pose proof (montg_start m0 Hm Hodd) as H4.
  set (x0 := wrap64 (m0 + Z.shiftl (Z.land (wrap64 (m0 + 2)) 4) 1)) in *.
  set (f := fun x => wrap64 (x * wrap64 (2 - wrap64 (m0 * x)))).
  assert (Hl : montg_lift 8 BIL m0 x0 = f (f (f (f x0)))) by reflexivity.
  pose proof (montg_round 4 m0 x0 ltac:(lia) ltac:(lia) H4) as H8.
  fold (f x0) in H8. change (2 * 4) with 8 in H8.
  pose proof (montg_round 8 m0 (f x0) ltac:(lia) ltac:(lia) H8) as H16.
  fold (f (f x0)) in H16. change (2 * 8) with 16 in H16.
  pose proof (montg_round 16 m0 (f (f x0)) ltac:(lia) ltac:(lia) H16) as H32.
  fold (f (f (f x0))) in H32. change (2 * 16) with 32 in H32.
  pose proof (montg_round 32 m0 (f (f (f x0))) ltac:(lia) ltac:(lia) H32)
    as H64.
  fold (f (f (f (f x0)))) in H64. change (2 * 32) with 64 in H64.
  unfold mm. rewrite Hl. clearbody f x0.
  set (x4 := f (f (f (f x0)))) in *. clearbody x4.
  unfold wrap64. rewrite Z.mul_mod_idemp_r by lia.
  replace (m0 * - x4) with (- (m0 * x4)) by ring.
  rewrite Z.mod_opp_l_nz; [rewrite H64; reflexivity | lia | rewrite H64; lia].
Qed.

(** X24: bignum.c:1249-1262.  For an odd [N], [__mpi_montg_init] gives the
    limb [mm] with [N * mm = -1] modulo [2^64]. *)
Theorem montg_init_negated_inverse : forall N,
  mpi_wf N -> 1 <= used N -> Z.odd (mpi_abs N) = true ->
  is_limb (__mpi_montg_init N)
  /\ (mpi_abs N * __mpi_montg_init N) mod 2 ^ 64 = 2 ^ 64 - 1.
Proof.
  intros N HN Hu Hodd. pose proof HN as (_ & Hlen & Hl).
  set (m0 := nth 0 (p N) 0).
  assert (Hm0 : is_limb m0) by (apply nth_limb; exact Hl).
  assert (Hlow : mpi_abs N mod 2 ^ 64 = m0).
  { rewrite mpi_abs_lv.
    replace (Z.to_nat (used N)) with (S (Z.to_nat (used N) - 1)) by lia.
    rewrite lv_cons. fold m0.
    rewrite Z.mul_comm, Z.mod_add by lia.
    apply Z.mod_small. exact Hm0. }
  assert (Hodd0 : Z.odd m0 = true).
  { rewrite <- Hlow.
    rewrite <- Hodd. rewrite <- !Z.bit0_odd.
    apply Z.mod_pow2_bits_low. lia. }
  destruct (montg_init_spec m0 Hm0 Hodd0) as (H1 & H2).
  unfold __mpi_montg_init. fold m0. split; [exact H1|].
  rewrite <- Z.mul_mod_idemp_l by lia. rewrite Hlow. exact H2.
Qed.

Lemma montg_init_negated_inverse_witness :
  is_limb (__mpi_montg_init (mkMpi 1 2 2 [2 ^ 64 - 3; 7]))
  /\ (mpi_abs (mkMpi 1 2 2 [2 ^ 64 - 3; 7])
      * __mpi_montg_init (mkMpi 1 2 2 [2 ^ 64 - 3; 7])) mod 2 ^ 64
     = 2 ^ 64 - 1.
Proof.
  apply (montg_init_negated_inverse (mkMpi 1 2 2 [2 ^ 64 - 3; 7])).
  - apply mpi_goodb_ok. reflexivity.
  - cbn. lia.
  - reflexivity.
Defined.

(** ** The remainder of [ttls_mpi_div_mpi] *)




(** ** A divisor that is zero *)








(** ** Montgomery multiplication *)

(** The arithmetic of one row [T = (T + u0 * B + u1 * N) / 2^64]. *)
Lemma montg_row_identity : forall d0 qt b0 qb u0 mm Nv qn qu,
  Nv * mm = 2 ^ 64 * qn + (2 ^ 64 - 1) ->
  (2 ^ 64 * qt + d0) + u0 * (2 ^ 64 * qb + b0)
    + ((d0 + u0 * b0) * mm - 2 ^ 64 * qu) * Nv
  = 2 ^ 64 * ((d0 + u0 * b0) * (qn + 1) + qt + u0 * qb - qu * Nv).
Proof.
  intros d0 qt b0 qb u0 mm Nv qn qu H.
  transitivity ((d0 + u0 * b0) * (1 + Nv * mm)
                + 2 ^ 64 * (qt + u0 * qb - qu * Nv)); [ring|].
  rewrite H. ring.
Qed.

Lemma montg_u1 : forall d0 u0 b0 mm,
  wrap64 (wrap64 (d0 + wrap64 (u0 * b0)) * mm)
  = ((d0 + u0 * b0) * mm) mod 2 ^ 64.
Proof.
  intros d0 u0 b0 mm. unfold wrap64.
  rewrite Zplus_mod_idemp_r. rewrite Z.mul_mod_idemp_l by lia. reflexivity.
Qed.

(** The row sum is a multiple of [2^64]. *)
Lemma montg_row_divides : forall t Bv Nv u0 mm,
  (Nv * mm) mod 2 ^ 64 = 2 ^ 64 - 1 ->
  exists K,
    t + u0 * Bv
      + wrap64 (wrap64 (t mod 2 ^ 64 + wrap64 (u0 * (Bv mod 2 ^ 64))) * mm)
        * Nv
    = 2 ^ 64 * K.
Proof.
  intros t Bv Nv u0 mm Hmm. rewrite montg_u1.
  set (d0 := t mod 2 ^ 64). set (b0 := Bv mod 2 ^ 64).
  pose proof (Z.div_mod t (2 ^ 64) ltac:(lia)) as Ht. fold d0 in Ht.
  pose proof (Z.div_mod Bv (2 ^ 64) ltac:(lia)) as HB. fold b0 in HB.
  pose proof (Z.div_mod (Nv * mm) (2 ^ 64) ltac:(lia)) as HN.
  rewrite Hmm in HN.
  pose proof (Z.div_mod ((d0 + u0 * b0) * mm) (2 ^ 64) ltac:(lia)) as Hu.
  set (qt := t / 2 ^ 64) in *. set (qb := Bv / 2 ^ 64) in *.
  set (qn := Nv * mm / 2 ^ 64) in *.
  set (qu := (d0 + u0 * b0) * mm / 2 ^ 64) in *.
  set (u1 := ((d0 + u0 * b0) * mm) mod 2 ^ 64) in *.
  exists ((d0 + u0 * b0) * (qn + 1) + qt + u0 * qb - qu * Nv).
  rewrite <- (montg_row_identity d0 qt b0 qb u0 mm Nv qn qu HN).
  replace ((d0 + u0 * b0) * mm - 2 ^ 64 * qu) with u1 by lia.
  rewrite <- Ht, <- HB. reflexivity.
Qed.

Lemma montg_row_fits : forall P Bv Nv u0 u1 t,
  0 < P -> 0 <= Bv < P -> 0 <= Nv < P ->
  0 <= u0 < 2 ^ 64 -> 0 <= u1 < 2 ^ 64 -> 0 <= t < Bv + Nv ->
  Bv * u0 + t < P * (2 ^ 64 * 2 ^ 64)
  /\ Nv * u1 + (Bv * u0 + t) < P * (2 ^ 64 * 2 ^ 64).
Proof.
  intros P Bv Nv u0 u1 t HP HB HN Hu0 Hu1 Ht.
  change (2 ^ 64) with 18446744073709551616 in *.
  assert (Bv * u0 <= Bv * 18446744073709551615)
    by (apply Z.mul_le_mono_nonneg_l; lia).
  assert (Nv * u1 <= Nv * 18446744073709551615)
    by (apply Z.mul_le_mono_nonneg_l; lia).
  split; lia.
Qed.

Lemma montg_row_bound : forall K Bv Nv u0 u1 t,
  2 ^ 64 * K = t + u0 * Bv + u1 * Nv ->
  0 <= Bv -> 0 <= Nv ->
  0 <= u0 < 2 ^ 64 -> 0 <= u1 < 2 ^ 64 -> 0 <= t < Bv + Nv ->
  0 <= K < Bv + Nv.
Proof.
  intros K Bv Nv u0 u1 t HK HB HN Hu0 Hu1 Ht.
  change (2 ^ 64) with 18446744073709551616 in *.
  assert (u0 * Bv <= 18446744073709551615 * Bv)
    by (apply Z.mul_le_mono_nonneg_r; lia).
  assert (u1 * Nv <= 18446744073709551615 * Nv)
    by (apply Z.mul_le_mono_nonneg_r; lia).
  assert (0 <= u0 * Bv) by (apply Z.mul_nonneg_nonneg; lia).
  assert (0 <= u1 * Nv) by (apply Z.mul_nonneg_nonneg; lia).
  lia.
Qed.

Lemma lv_low_limb : forall l i n,
  Forall is_limb l -> lv l i (S n) mod 2 ^ 64 = nth i l 0.
Proof.
  intros l i n Hl. rewrite lv_cons.
  rewrite Z.mul_comm, Z.mod_add by lia.
  apply Z.mod_small. apply nth_limb. exact Hl.
Qed.

(** The loop of [__mpi_montmul]: row [i] works on the limbs
    [i, ..., i + n + 1] of [T], which hold a number below [B + N]; it adds
    [u0 * B + u1 * N], which clears limb [i], and moves on by one limb. *)
Lemma montmul_rows_spec : forall todo i a b nl (m n : nat) mm tl,
  Forall is_limb a -> Forall is_limb b -> Forall is_limb nl ->
  Forall is_limb tl -> is_limb mm ->
  (i + todo <= length a)%nat -> (1 <= m <= n)%nat -> (m <= length b)%nat ->
  (n <= length nl)%nat -> (i + todo + n + 2 <= length tl)%nat ->
  (lv nl 0 n * mm) mod 2 ^ 64 = 2 ^ 64 - 1 ->
  lv tl i (n + 2) < lv b 0 m + lv nl 0 n ->
  exists tl' U,
    montmul_rows a b nl (Z.of_nat m) (Z.of_nat n) mm tl (Z.of_nat i) todo
    = Ok tl'
    /\ length tl' = length tl /\ Forall is_limb tl'
    /\ lv tl' (i + todo) (n + 2) < lv b 0 m + lv nl 0 n
    /\ lv tl' (i + todo) (n + 2) * 2 ^ (64 * Z.of_nat todo)
       = lv tl i (n + 2) + lv a i todo * lv b 0 m + U * lv nl 0 n.
Proof.
  induction todo as [|todo IH];
    intros i a b nl m n mm tl Ha Hb Hnl Htl Hmm Hla Hm Hlb Hln Hlt Hinv Ht.
  { exists tl, 0. cbn [montmul_rows]. rewrite Nat.add_0_r.
    split; [reflexivity|]. split; [reflexivity|]. split; [exact Htl|].
    split; [exact Ht|]. change (lv a i 0) with 0.
    change (2 ^ (64 * Z.of_nat 0)) with 1. ring. }
  set (Bv := lv b 0 m) in *. set (Nv := lv nl 0 n) in *.
  set (t := lv tl i (n + 2)) in *.
  pose proof (lv_bound b 0 m Hb) as HBv. fold Bv in HBv.
  pose proof (lv_bound nl 0 n Hnl) as HNv. fold Nv in HNv.
  pose proof (lv_bound tl i (n + 2) Htl) as Htb. fold t in Htb.
  set (P := 2 ^ (64 * Z.of_nat n)) in *.
  assert (HP : 0 < P) by apply pow64_pos.
  assert (HBP : Bv < P).
  { assert (2 ^ (64 * Z.of_nat m) <= P)
      by (apply Z.pow_le_mono_r; lia). lia. }
  assert (Hpow : 2 ^ (64 * Z.of_nat (n + 2)) = P * (2 ^ 64 * 2 ^ 64)).
  { rewrite pow64_add. reflexivity. }
  set (u0 := nth i a 0).
  assert (Hu0 : is_limb u0) by (apply nth_limb; exact Ha).
  assert (Hd0 : t mod 2 ^ 64 = nth i tl 0).
  { unfold t. replace (n + 2)%nat with (S (n + 1)) by lia.
    apply lv_low_limb. exact Htl. }
  assert (Hb0 : Bv mod 2 ^ 64 = nth 0 b 0).
  { unfold Bv. replace m with (S (m - 1)) by lia.
    apply lv_low_limb. exact Hb. }
  cbn [montmul_rows].
  rewrite rd_ok by lia. cbn [bind]. rewrite rd_ok by lia. cbn [bind].
  rewrite (rd_ok_z b 0) by lia. cbn [bind]. change (Z.to_nat 0) with 0%nat.
  fold u0. rewrite <- Hd0, <- Hb0.
  destruct (montg_row_divides t Bv Nv u0 mm Hinv) as (K & HK).
  set (u1 := wrap64 (wrap64 (t mod 2 ^ 64 + wrap64 (u0 * (Bv mod 2 ^ 64)))
                     * mm)) in *.
  assert (Hu1 : is_limb u1) by apply wrap64_limb.
  destruct (montg_row_fits P Bv Nv u0 u1 t HP ltac:(lia) ltac:(lia) Hu0 Hu1
              ltac:(lia)) as (Hfit1 & Hfit2).
  (* T += u0 * B *)
  destruct (mpi_mul_off_spec m b tl i u0 (n + 2 - m) Hb Htl Hu0 Hlb
              ltac:(lia) ltac:(lia)) as (t1 & Hr1 & Hl1 & Hf1 & _ & Hv1).
  { replace (m + (n + 2 - m))%nat with (n + 2)%nat by lia.
    rewrite Hpow. fold Bv t. exact Hfit1. }
  replace (m + (n + 2 - m))%nat with (n + 2)%nat in Hv1 by lia.
  fold Bv t in Hv1.
  rewrite Hr1. cbn [bind].
  (* T += u1 * N *)
  destruct (mpi_mul_off_spec n nl t1 i u1 2 Hnl Hf1 Hu1 Hln
              ltac:(lia) ltac:(lia)) as (t2 & Hr2 & Hl2 & Hf2 & _ & Hv2).
  { rewrite Hpow, Hv1. fold Nv. exact Hfit2. }
  fold Nv in Hv2. rewrite Hv1 in Hv2.
  rewrite Hr2. cbn [bind].
  rewrite wr_ok by lia. cbn [bind].
  replace (Z.of_nat i + 1 + Z.of_nat n + 1) with (Z.of_nat (i + n + 2))
    by lia.
  rewrite wr_ok by (rewrite upd_length; lia). cbn [bind].
  replace (Z.of_nat i + 1) with (Z.of_nat (S i)) by lia.
  set (t4 := upd (upd t2 i u0) (i + n + 2) 0).
  assert (Hl4 : length t4 = length tl).
  { unfold t4. rewrite !upd_length. lia. }
  assert (Hf4 : Forall is_limb t4).
  { unfold t4. apply Forall_upd; [apply Forall_upd; assumption|].
    apply zero_limb. }
  (* the window of the next row *)
  assert (HW : lv t2 i (n + 2) = 2 ^ 64 * K).
  { rewrite Hv2, <- HK. ring. }
  assert (Hnext : lv t4 (S i) (n + 2) = K).
  { replace (n + 2)%nat with (S (n + 1)) by lia. rewrite lv_snoc.
    assert (E0 : nth (S i + (n + 1)) t4 0 = 0).
    { unfold t4. rewrite nth_upd, upd_length.
      replace (S i + (n + 1) =? i + n + 2)%nat with true
        by (symmetry; apply Nat.eqb_eq; lia).
      replace (i + n + 2 <? length t2)%nat with true
        by (symmetry; apply Nat.ltb_lt; lia).
      reflexivity. }
    rewrite E0, Z.mul_0_r, Z.add_0_r.
    assert (E1 : lv t4 (S i) (n + 1) = lv t2 (S i) (n + 1)).
    { apply lv_ext. intros k Hk. unfold t4. rewrite !nth_upd.
      replace (k =? i + n + 2)%nat with false
        by (symmetry; apply Nat.eqb_neq; lia).
      replace (k =? i)%nat with false
        by (symmetry; apply Nat.eqb_neq; lia).
      reflexivity. }
    rewrite E1.
    replace (n + 2)%nat with (S (n + 1)) in HW by lia.
    rewrite lv_cons in HW.
    pose proof (nth_limb t2 i Hf2) as Hx. unfold is_limb in Hx.
    clear - HW Hx. change (2 ^ 64) with 18446744073709551616 in *. lia. }
  assert (HKb : 0 <= K < Bv + Nv).
  { apply (montg_row_bound K Bv Nv u0 u1 t); try assumption; try lia. }
  destruct (IH (S i) a b nl m n mm t4 Ha Hb Hnl Hf4 Hmm ltac:(lia) Hm Hlb
              Hln ltac:(lia) Hinv ltac:(fold Bv Nv; lia))
    as (tl' & U & Hrun & Hl' & Hf' & Hb' & Hv').
  fold Bv Nv in Hb', Hv'. rewrite Hnext in Hv'.
  exists tl', (u1 + 2 ^ 64 * U). rewrite Hrun.
  split; [reflexivity|]. split; [lia|]. split; [exact Hf'|].
  replace (i + S todo)%nat with (S i + todo)%nat by lia.
  split; [exact Hb'|].
  rewrite pow64_succ, lv_cons. fold u0.
  set (X := lv tl' (S i + todo) (n + 2)) in *.
  set (E := 2 ^ (64 * Z.of_nat todo)) in *.
  set (la := lv a (S i) todo) in *.
  transitivity (2 ^ 64 * (X * E)); [ring|]. rewrite Hv'.
  transitivity (2 ^ 64 * K + 2 ^ 64 * la * Bv + 2 ^ 64 * U * Nv); [ring|].
  rewrite <- HK. ring.
Qed.

Lemma lv_skipn : forall l k i n, lv (skipn k l) i n = lv l (k + i) n.
Proof.
  intros l k i n. apply lv_ext_shift. intros j Hj.
  rewrite nth_skipn. f_equal. lia.
Qed.

Lemma lv_zero_map : forall (l : list Z) i n,
  lv (map (fun _ => 0) l) i n = 0.
Proof.
  intros l i n. apply dsum_zero. intros k _. revert k.
  induction l as [|x l IH]; intros [|k]; cbn [map nth]; auto.
Qed.

Lemma zero_map_limbs : forall l : list Z,
  Forall is_limb (map (fun _ => 0) l).
Proof.
  intro l. apply Forall_forall. intros x Hx. apply in_map_iff in Hx.
  destruct Hx as (_ & <- & _). apply zero_limb.
Qed.

(** A number below [2^(64 n)] in [n + r] limbs has its top [r] limbs
    zero. *)
Lemma lv_top_zero : forall l i n r,
  Forall is_limb l -> lv l i (n + r) < 2 ^ (64 * Z.of_nat n) ->
  lv l i (n + r) = lv l i n.
Proof.
  intros l i n r Hl Hlt. rewrite lv_split in *.
  pose proof (lv_bound l i n Hl) as H1.
  pose proof (lv_bound l (i + n) r Hl) as H2.
  pose proof (pow64_pos n) as HP.
  set (P := 2 ^ (64 * Z.of_nat n)) in *.
  set (hi := lv l (i + n) r) in *.
  assert (hi = 0); [|subst hi; lia].
  destruct (Z.eq_dec hi 0) as [E|E]; [exact E|].
  assert (P * 1 <= P * hi) by (apply Z.mul_le_mono_nonneg_l; lia). lia.
Qed.

Lemma lv_low_le : forall l n r,
  Forall is_limb l -> lv l n r <= lv l 0 (n + r).
Proof.
  intros l n r Hl. rewrite lv_split. cbn [Nat.add].
  pose proof (lv_bound l 0 n Hl) as H1.
  pose proof (lv_bound l n r Hl) as H2.
  pose proof (pow64_pos n) as HP.
  assert (1 * lv l n r <= 2 ^ (64 * Z.of_nat n) * lv l n r)
    by (apply Z.mul_le_mono_nonneg_r; lia).
  lia.
Qed.

Lemma montg_congruence : forall X R a Bv U Nv k,
  0 < Nv -> X * R = 0 + a * Bv + U * Nv ->
  ((X - k * Nv) * R) mod Nv = (a * Bv) mod Nv.
Proof.
  intros X R a Bv U Nv k HN HX.
  replace ((X - k * Nv) * R) with (a * Bv + (U - k * R) * Nv)
    by (transitivity (X * R - k * R * Nv); [rewrite HX; ring | ring]).
  apply Z.mod_add. lia.
Qed.

(** X25: bignum.c:1267-1307.  With [mm = -1 / N] modulo [2^64], an operand [B]
    of at most [N], an [A] whose first [N->used] limbs hold its value and a
    scratch [T] of [2 * N->used + 2] limbs, [__mpi_montmul] leaves in [A]
    the Montgomery product: a number below [N] that is [A * B / R] modulo
    [N], for [R = 2^(64 * N->used)]. *)
Theorem montmul_is_montgomery_product : forall A B N mm T,
  mpi_wf A -> s A = 1 \/ s A = -1 -> mpi_good B -> mpi_good N ->
  dest_ok T ->
  used N + 1 <= limbs A -> 2 * used N + 2 <= limbs T ->
  lv (p A) 0 (Z.to_nat (used N)) = mpi_abs A ->
  mpi_abs B <= mpi_abs N ->
  is_limb mm -> (mpi_abs N * mm) mod 2 ^ 64 = 2 ^ 64 - 1 ->
  exists A' T',
    __mpi_montmul A B N mm T = Ok (A', T')
    /\ mpi_good A' /\ s A' = s A
    /\ mpi_abs A' < mpi_abs N
    /\ (mpi_abs A' * 2 ^ (64 * used N)) mod mpi_abs N
       = (mpi_abs A * mpi_abs B) mod mpi_abs N.
Proof.
  intros A B N mm T HA HsA HB HN HT HlA HlT HAv HBN Hmm Hinv.
  pose proof HA as (HuA & HlenA & HfA).
  pose proof HB as (HwB & _ & HuB1 & _). pose proof HwB as (HuB & HlenB & HfB).
  pose proof HN as (HwN & _ & HuN1 & _). pose proof HwN as (HuN & HlenN & HfN).
  destruct HT as (HlenT & HfT).
  pose proof (good_used_le N B HN HB HBN) as HuBN.
  pose proof (mpi_abs_nonneg B HwB) as HBnn.
  pose proof (mpi_abs_nonneg N HwN) as HNnn.
  assert (HNpos : 0 < mpi_abs N).
  { destruct (Z.eq_dec (mpi_abs N) 0) as [E|E]; [|lia].
    rewrite E in Hinv. discriminate Hinv. }
  set (n := Z.to_nat (used N)). set (m := Z.to_nat (used B)).
  assert (En : used N = Z.of_nat n) by (unfold n; lia).
  assert (Em : used B = Z.of_nat m) by (unfold m; lia).
  assert (HBv : lv (p B) 0 m = mpi_abs B) by (symmetry; apply mpi_abs_lv).
  assert (HNv : lv (p N) 0 n = mpi_abs N) by (symmetry; apply mpi_abs_lv).
  fold n in HAv.
  unfold __mpi_montmul. cbv zeta.
  replace (limbs T <? used N + 1) with false
    by (symmetry; apply Z.ltb_ge; lia).
  assert (Hnull : is_null (p T) = false)
    by (destruct (p T); [cbn [length] in HlenT; lia | reflexivity]).
  rewrite Hnull. cbn [orb].
  replace (if used B <? used N then used B else used N) with (used B)
    by (destruct (Z.ltb_spec (used B) (used N)); lia).
  fold n.
  set (tl0 := map (fun _ => 0) (p T)).
  assert (Hl0 : length tl0 = length (p T)) by apply length_map.
  destruct (montmul_rows_spec n 0 (p A) (p B) (p N) m n mm tl0
              HfA HfB HfN (zero_map_limbs (p T)) Hmm
              ltac:(lia) ltac:(lia) ltac:(lia) ltac:(lia) ltac:(lia))
    as (tl & U & Hrun & Hltl & Hftl & Hbound & Hval).
  { rewrite HNv. exact Hinv. }
  { unfold tl0. rewrite lv_zero_map, HBv, HNv. lia. }
  change (Z.of_nat 0) with 0 in Hrun. rewrite <- En, <- Em in Hrun.
  rewrite Hrun. cbn [bind].
  cbn [Nat.add] in Hbound, Hval.
  unfold tl0 in Hval. rewrite lv_zero_map in Hval.
  rewrite HBv, HNv in Hbound. rewrite HBv, HNv, HAv in Hval.
  set (X := lv tl n (n + 2)) in *.
  pose proof (lv_bound tl n (n + 2) Hftl) as HXb. fold X in HXb.
  set (R := 2 ^ (64 * Z.of_nat n)) in *.
  assert (HR : 0 < R) by apply pow64_pos.
  pose proof (mpi_abs_range N HwN) as HNr. rewrite En in HNr. fold R in HNr.
  (* the new A *)
  replace (Z.of_nat (length (p A)) <? used N + 1) with false
    by (symmetry; apply Z.ltb_ge; lia).
  replace (Z.to_nat (used N + 1)) with (n + 1)%nat by lia.
  set (pa := memcpy (p A) (skipn n tl) (n + 1)).
  assert (Hsk : (n + 1 <= length (skipn n tl))%nat)
    by (rewrite length_skipn; lia).
  assert (Hlpa : length pa = length (p A))
    by (apply memcpy_length; lia).
  assert (Hfpa : Forall is_limb pa)
    by (apply memcpy_limbs; [exact HfA | apply Forall_skipn_limb; exact Hftl]).
  destruct (fixup_spec (set_p A pa) (used N + 1))
    as (F1 & F2 & F3 & F4 & F5 & F6 & F7).
  { split; [cbn [p limbs set_p]; lia | exact Hfpa]. }
  { cbn [limbs set_p]. lia. }
  set (A1 := mpi_fixup_used (set_p A pa) (used N + 1)) in *.
  cbn [s p limbs set_p] in F4, F5, F6, F7.
  assert (HgA1 : mpi_good A1).
  { apply good_intro; [exact F1 | exact F2 | lia | rewrite F4; exact HsA]. }
  assert (HaA1 : mpi_abs A1 = X).
  { rewrite F7. replace (Z.to_nat (used N + 1)) with (n + 1)%nat by lia.
    unfold pa. rewrite memcpy_prefix by lia.
    rewrite lv_firstn, lv_skipn, Nat.add_0_r.
    unfold X. replace (n + 2)%nat with (n + 1 + 1)%nat by lia.
    symmetry. apply lv_top_zero; [exact Hftl|].
    replace (n + 1 + 1)%nat with (n + 2)%nat by lia. fold X.
    rewrite pow64_add. fold R. change (2 ^ (64 * Z.of_nat 1)) with (2 ^ 64).
    clear - Hbound HBN HNr HR. change (2 ^ 64) with 18446744073709551616.
    lia. }
  rewrite (cmp_abs_spec A1 N HgA1 HN), HaA1.
  destruct (Z.leb_spec 0 (Z.sgn (X - mpi_abs N))) as [Hge|Hlt].
  - (* A >= N: A -= N *)
    assert (HXN : mpi_abs N <= X).
    { destruct (Z.le_gt_cases (mpi_abs N) X) as [H|H]; [exact H|].
      rewrite Z.sgn_neg in Hge by lia. lia. }
    pose proof (good_used_le A1 N HgA1 HN ltac:(rewrite HaA1; exact HXN))
      as HuNA.
    set (al := Z.to_nat (used A1)).
    destruct (mpi_sub_spec (p A1) (p N) (p A1) al n)
      as (a' & Hsub & Hla' & Hfa' & Hva' & _).
    { rewrite F5. exact Hfpa. }
    { exact HfN. }
    { rewrite F5. exact Hfpa. }
    { unfold al. lia. }
    { destruct F1 as (Hu1 & Hl1 & _). unfold al. lia. }
    { lia. }
    { destruct F1 as (Hu1 & Hl1 & _). unfold al. lia. }
    { rewrite HNv. unfold al. rewrite <- mpi_abs_lv, HaA1. exact HXN. }
    replace (Z.of_nat al) with (used A1) in Hsub by (unfold al; lia).
    rewrite <- En in Hsub. rewrite Hsub. cbn [bind].
    rewrite HNv in Hva'. unfold al in Hva' at 2.
    rewrite <- mpi_abs_lv, HaA1 in Hva'.
    destruct (fixup_spec (set_p A1 a') (used A1))
      as (G1 & G2 & G3 & G4 & G5 & G6 & G7).
    { split; [cbn [p limbs set_p]; destruct F1 as (_ & Hl1 & _); lia
             | exact Hfa']. }
    { cbn [limbs set_p]. destruct F1 as (Hu1 & _). lia. }
    cbn [s p limbs set_p] in G4, G5, G6, G7.
    fold al in G7. rewrite lv_firstn, Hva' in G7.
    eexists. eexists. split; [reflexivity|].
    split.
    { apply good_intro; [exact G1 | exact G2 | lia |].
      rewrite G4, F4. exact HsA. }
    split; [rewrite G4, F4; reflexivity|].
    rewrite G7. split; [lia|].
    rewrite En. fold R.
    replace (X - mpi_abs N) with (X - 1 * mpi_abs N) by ring.
    apply (montg_congruence X R (mpi_abs A) (mpi_abs B) U (mpi_abs N) 1
             HNpos Hval).
  - (* A < N: the same work on T *)
    assert (HXN : X < mpi_abs N).
    { destruct (Z.le_gt_cases (mpi_abs N) X) as [H|H]; [|lia].
      assert (0 <= Z.sgn (X - mpi_abs N))
        by (apply Z.sgn_nonneg; lia). lia. }
    destruct (fixup_spec (set_p T tl) (limbs T))
      as (T1w & T2n & T3 & T4 & T5 & T6 & T7).
    { split; [cbn [p limbs set_p]; lia | exact Hftl]. }
    { cbn [limbs set_p]. lia. }
    set (T1 := mpi_fixup_used (set_p T tl) (limbs T)) in *.
    cbn [s p limbs set_p] in T4, T5, T6, T7.
    assert (HgT1 : mpi_good (set_s T1 1)).
    { apply good_intro; [apply wf_set_s; exact T1w | exact T2n
                        | cbn [used set_s]; lia | left; reflexivity]. }
    assert (HaT1 : X <= mpi_abs T1).
    { rewrite T7, lv_firstn.
      replace (Z.to_nat (limbs T))
        with (n + ((n + 2) + (Z.to_nat (limbs T) - n - (n + 2))))%nat
        by lia.
      pose proof (lv_low_le tl n
                    ((n + 2) + (Z.to_nat (limbs T) - n - (n + 2))) Hftl)
        as H1.
      rewrite (lv_split tl (n + 2)) in H1. fold X in H1.
      pose proof (lv_bound tl (n + (n + 2))
                    (Z.to_nat (limbs T) - n - (n + 2)) Hftl) as H2.
      pose proof (pow64_pos (n + 2)) as H3.
      assert (0 <= 2 ^ (64 * Z.of_nat (n + 2))
                   * lv tl (n + (n + 2)) (Z.to_nat (limbs T) - n - (n + 2)))
        by (apply Z.mul_nonneg_nonneg; lia).
      lia. }
    pose proof (good_used_le (set_s T1 1) A1 HgT1 HgA1
                  ltac:(rewrite abs_set_s, HaA1; exact HaT1)) as HuAT.
    cbn [used set_s] in HuAT.
    set (al := Z.to_nat (used A1)). set (tu := Z.to_nat (used T1)).
    destruct (mpi_sub_spec (p T1) (p A1) (p T1) tu al)
      as (t' & Hsub & _).
    { rewrite T5. exact Hftl. }
    { rewrite F5. exact Hfpa. }
    { rewrite T5. exact Hftl. }
    { unfold al, tu. lia. }
    { destruct T1w as (Hu1 & Hl1 & _). unfold tu. lia. }
    { destruct F1 as (Hu1 & Hl1 & _). unfold al. lia. }
    { destruct T1w as (Hu1 & Hl1 & _). unfold tu. lia. }
    { unfold al, tu. rewrite <- !mpi_abs_lv, HaA1. exact HaT1. }
    replace (Z.of_nat tu) with (used T1) in Hsub by (unfold tu; lia).
    replace (Z.of_nat al) with (used A1) in Hsub by (unfold al; lia).
    rewrite Hsub. cbn [bind].
    eexists. eexists. split; [reflexivity|].
    split; [exact HgA1|]. split; [exact F4|].
    rewrite HaA1. split; [exact HXN|].
    rewrite En. fold R.
    replace X with (X - 0 * mpi_abs N) at 1 by ring.
    apply (montg_congruence X R (mpi_abs A) (mpi_abs B) U (mpi_abs N) 0
             HNpos Hval).
Qed.

Lemma montmul_is_montgomery_product_witness :
  exists A' T',
    __mpi_montmul (mkMpi 1 1 2 [3; 0]) (mkMpi 1 1 1 [5]) (mkMpi 1 1 1 [7])
                  (__mpi_montg_init (mkMpi 1 1 1 [7]))
                  (mkMpi 1 0 4 [9; 9; 9; 9]) = Ok (A', T')
    /\ mpi_good A' /\ s A' = s (mkMpi 1 1 2 [3; 0])
    /\ mpi_abs A' < mpi_abs (mkMpi 1 1 1 [7])
    /\ (mpi_abs A' * 2 ^ (64 * used (mkMpi 1 1 1 [7])))
         mod mpi_abs (mkMpi 1 1 1 [7])
       = (mpi_abs (mkMpi 1 1 2 [3; 0]) * mpi_abs (mkMpi 1 1 1 [5]))
           mod mpi_abs (mkMpi 1 1 1 [7]).
Proof.
  apply (montmul_is_montgomery_product (mkMpi 1 1 2 [3; 0])
           (mkMpi 1 1 1 [5]) (mkMpi 1 1 1 [7])
           (__mpi_montg_init (mkMpi 1 1 1 [7])) (mkMpi 1 0 4 [9; 9; 9; 9])).
  - apply (proj1 (mpi_goodb_ok (mkMpi 1 1 2 [3; 0]) eq_refl)).
  - left. reflexivity.
  - apply mpi_goodb_ok. reflexivity.
  - apply mpi_goodb_ok. reflexivity.
  - apply dest_okb_ok. reflexivity.
  - cbn. lia.
  - cbn. lia.
  - reflexivity.
  - vm_compute. discriminate.
  - vm_compute. split; [discriminate | reflexivity].
  - reflexivity.
Defined.

(** ** Conditional assignment and swap *)

Lemma ct_flag_table :
  forallb (fun b => ct_flag b =? (if b =? 0 then 0 else 1))
          (map Z.of_nat (seq 0 256)) = true.
Proof. vm_compute. reflexivity. Qed.

(** The flag is 1 for every byte but 0. *)
Lemma ct_flag_spec : forall b,
  0 <= b < 256 -> ct_flag b = if b =? 0 then 0 else 1.
Proof.
  intros b Hb. pose proof ct_flag_table as H.
  rewrite forallb_forall in H. apply Z.eqb_eq. apply H.
  apply in_map_iff. exists (Z.to_nat b). split; [lia|].
  apply in_seq. lia.
Qed.

Lemma upd_nth_same : forall (l : list Z) i, upd l i (nth i l 0) = l.
Proof.
  induction l as [|x l IH]; intros [|i]; cbn [upd nth]; try reflexivity.
  rewrite IH. reflexivity.
Qed.

(** With the flag 0 the loop writes every limb back. *)
Lemma cond_assign_limbs_keep : forall todo xp yp i,
  Forall is_limb xp ->
  (i + todo <= length xp)%nat -> (i + todo <= length yp)%nat ->
  cond_assign_limbs xp yp 0 (Z.of_nat i) todo = Ok xp.
Proof.
  induction todo as [|todo IH]; intros xp yp i Hx Hlx Hly; [reflexivity|].
  cbn [cond_assign_limbs]. rewrite !rd_ok by lia. cbn [bind].
  rewrite Z.sub_0_r, Z.mul_1_r, Z.mul_0_r, Z.add_0_r.
  rewrite wrap64_small by (apply nth_limb; exact Hx).
  rewrite wr_ok by lia. cbn [bind]. rewrite upd_nth_same.
  replace (Z.of_nat i + 1) with (Z.of_nat (S i)) by lia.
  apply IH; [exact Hx | lia | lia].
Qed.

(** With the flag 1 it copies the limbs [i, ..., i + todo - 1]. *)
Lemma cond_assign_limbs_take : forall todo xp yp i,
  Forall is_limb yp ->
  (i + todo <= length xp)%nat -> (i + todo <= length yp)%nat ->
  exists xp',
    cond_assign_limbs xp yp 1 (Z.of_nat i) todo = Ok xp'
    /\ length xp' = length xp
    /\ forall k, nth k xp' 0
                 = if ((i <=? k) && (k <? i + todo))%nat
                   then nth k yp 0 else nth k xp 0.
Proof.
  induction todo as [|todo IH]; intros xp yp i Hy Hlx Hly.
  { exists xp. split; [reflexivity|]. split; [reflexivity|].
    intro k. replace ((i <=? k) && (k <? i + 0))%nat with false;
      [reflexivity|].
    symmetry. apply andb_false_iff.
    destruct (Nat.leb_spec i k); [right; apply Nat.ltb_ge; lia | left; auto]. }
  cbn [cond_assign_limbs]. rewrite !rd_ok by lia. cbn [bind].
  change (1 - 1) with 0. rewrite Z.mul_0_r, Z.mul_1_r, Z.add_0_l.
  rewrite wrap64_small by (apply nth_limb; exact Hy).
  rewrite wr_ok by lia. cbn [bind].
  replace (Z.of_nat i + 1) with (Z.of_nat (S i)) by lia.
  destruct (IH (upd xp i (nth i yp 0)) yp (S i) Hy
              ltac:(rewrite upd_length; lia) ltac:(lia))
    as (xp' & Hrun & Hlen & Hnth).
  exists xp'. split; [exact Hrun|]. rewrite upd_length in Hlen.
  split; [exact Hlen|]. intro k. rewrite Hnth, nth_upd.
  destruct (Nat.eqb_spec k i) as [->|Hne].
  - replace (S i <=? i)%nat with false by (symmetry; apply Nat.leb_gt; lia).
    replace (i <? length xp)%nat with true
      by (symmetry; apply Nat.ltb_lt; lia).
    replace (i <=? i)%nat with true by (symmetry; apply Nat.leb_le; lia).
    replace (i <? i + S todo)%nat with true
      by (symmetry; apply Nat.ltb_lt; lia).
    reflexivity.
  - cbn [andb].
    destruct (Nat.leb_spec (S i) k); destruct (Nat.leb_spec i k); try lia;
      cbn [andb]; try reflexivity.
    destruct (Nat.ltb_spec k (S i + todo));
      destruct (Nat.ltb_spec k (i + S todo)); try lia; reflexivity.
Qed.

Lemma mpi_eta : forall X, mkMpi (s X) (used X) (limbs X) (p X) = X.
Proof. intros []. reflexivity. Qed.

Lemma grow_enough : forall junk ML X n,
  n <= ML -> n <= limbs X -> ttls_mpi_grow junk ML X n = Ok X.
Proof.
  intros junk ML X n H1 H2. unfold ttls_mpi_grow, __mpi_realloc.
  replace (ML <? n) with false by (symmetry; apply Z.ltb_ge; lia).
  replace (n <=? limbs X) with true by (symmetry; apply Z.leb_le; lia).
  reflexivity.
Qed.

Lemma cond_assign_spec : forall junk ML X Y assign,
  mpi_wf X -> mpi_wf Y -> used Y <= limbs X -> used Y <= ML ->
  0 <= assign < 256 ->
  exists X',
    ttls_mpi_safe_cond_assign junk ML X Y assign = Ok X'
    /\ (assign = 0 -> X' = X)
    /\ (assign <> 0 ->
        s X' = s Y /\ used X' = used Y /\ limbs X' = limbs X
        /\ mpi_abs X' = mpi_abs Y).
Proof.
  intros junk ML X Y assign HX HY Hroom HML Hb.
  destruct HX as (HuX & HlX & HfX). destruct HY as (HuY & HlY & HfY).
  unfold ttls_mpi_safe_cond_assign. cbv zeta.
  rewrite (ct_flag_spec assign Hb).
  rewrite (grow_enough junk ML X (used Y) HML Hroom). cbn [or_enomem bind].
  destruct (Z.eqb_spec assign 0) as [H0|H0].
  - pose proof (cond_assign_limbs_keep (Z.to_nat (used Y)) (p X) (p Y) 0
                  HfX ltac:(lia) ltac:(lia)) as Hrun.
    change (Z.of_nat 0) with 0 in Hrun. rewrite Hrun.
    cbn [bind]. eexists. split; [reflexivity|].
    split; [|intro; contradiction].
    intros _. rewrite <- (mpi_eta X) at 5. f_equal; lia.
  - destruct (cond_assign_limbs_take (Z.to_nat (used Y)) (p X) (p Y) 0 HfY
                ltac:(lia) ltac:(lia)) as (xp' & Hrun & Hlen & Hnth).
    change (Z.of_nat 0) with 0 in Hrun. rewrite Hrun.
    cbn [bind]. eexists. split; [reflexivity|].
    split; [intro; contradiction|]. intros _. cbn [s used limbs].
    split; [lia|]. split; [lia|]. split; [reflexivity|].
    rewrite !mpi_abs_lv. cbn [p used].
    replace (used X * (1 - 1) + used Y * 1) with (used Y) by lia.
    apply lv_ext. intros k Hk. rewrite Hnth.
    replace ((0 <=? k) && (k <? 0 + Z.to_nat (used Y)))%nat with true;
      [reflexivity|].
    symmetry. apply andb_true_iff. split;
      [apply Nat.leb_le | apply Nat.ltb_lt]; lia.
Qed.

Lemma cond_swap_limbs_keep : forall todo xp yp i,
  Forall is_limb xp -> Forall is_limb yp ->
  (i + todo <= length xp)%nat -> (i + todo <= length yp)%nat ->
  cond_swap_limbs xp yp 0 (Z.of_nat i) todo = Ok (xp, yp).
Proof.
  induction todo as [|todo IH]; intros xp yp i Hx Hy Hlx Hly; [reflexivity|].
  cbn [cond_swap_limbs]. rewrite !rd_ok by lia. cbn [bind].
  rewrite Z.sub_0_r, !Z.mul_1_r, !Z.mul_0_r, !Z.add_0_r.
  rewrite !wrap64_small by (apply nth_limb; assumption).
  rewrite !wr_ok by lia. cbn [bind]. rewrite !upd_nth_same.
  replace (Z.of_nat i + 1) with (Z.of_nat (S i)) by lia.
  apply IH; try assumption; lia.
Qed.

Lemma nth_upd_window : forall (l : list Z) i todo k v (f g : nat -> Z),
  (i < length l)%nat ->
  (if ((S i <=? k) && (k <? S i + todo))%nat then f k
   else if ((k =? i) && (i <? length l))%nat then v else g k)
  = if ((i <=? k) && (k <? i + S todo))%nat
    then (if (k =? i)%nat then v else f k) else g k.
Proof.
  intros l i todo k v f g Hi.
  replace (i <? length l)%nat with true by (symmetry; apply Nat.ltb_lt; lia).
  destruct (Nat.eqb_spec k i) as [->|Hne].
  - replace (S i <=? i)%nat with false by (symmetry; apply Nat.leb_gt; lia).
    replace (i <=? i)%nat with true by (symmetry; apply Nat.leb_le; lia).
    replace (i <? i + S todo)%nat with true
      by (symmetry; apply Nat.ltb_lt; lia).
    reflexivity.
  - cbn [andb].
    destruct (Nat.leb_spec (S i) k); destruct (Nat.leb_spec i k); try lia;
      cbn [andb]; try reflexivity.
    destruct (Nat.ltb_spec k (S i + todo));
      destruct (Nat.ltb_spec k (i + S todo)); try lia; reflexivity.
Qed.

Lemma cond_swap_limbs_take : forall todo xp yp i,
  Forall is_limb xp -> Forall is_limb yp ->
  (i + todo <= length xp)%nat -> (i + todo <= length yp)%nat ->
  exists xp' yp',
    cond_swap_limbs xp yp 1 (Z.of_nat i) todo = Ok (xp', yp')
    /\ (forall k, nth k xp' 0
                  = if ((i <=? k) && (k <? i + todo))%nat
                    then nth k yp 0 else nth k xp 0)
    /\ (forall k, nth k yp' 0
                  = if ((i <=? k) && (k <? i + todo))%nat
                    then nth k xp 0 else nth k yp 0).
Proof.
  induction todo as [|todo IH]; intros xp yp i Hx Hy Hlx Hly.
  { exists xp, yp. split; [reflexivity|].
    assert (E : forall k, ((i <=? k) && (k <? i + 0))%nat = false).
    { intro k. apply andb_false_iff.
      destruct (Nat.leb_spec i k);
        [right; apply Nat.ltb_ge; lia | left; auto]. }
    split; intro k; rewrite E; reflexivity. }
  cbn [cond_swap_limbs]. rewrite !rd_ok by lia. cbn [bind].
  change (1 - 1) with 0. rewrite !Z.mul_0_r, !Z.mul_1_r, !Z.add_0_l.
  rewrite !wrap64_small by (apply nth_limb; assumption).
  rewrite !wr_ok by lia. cbn [bind].
  replace (Z.of_nat i + 1) with (Z.of_nat (S i)) by lia.
  destruct (IH (upd xp i (nth i yp 0)) (upd yp i (nth i xp 0)) (S i))
    as (xp' & yp' & Hrun & Hnx & Hny).
  { apply Forall_upd; [exact Hx | apply nth_limb; exact Hy]. }
  { apply Forall_upd; [exact Hy | apply nth_limb; exact Hx]. }
  { rewrite upd_length. lia. }
  { rewrite upd_length. lia. }
  exists xp', yp'. split; [exact Hrun|].
  split; intro k.
  - rewrite Hnx, !nth_upd.
    rewrite (nth_upd_window xp i todo k (nth i yp 0)
               (fun k => if ((k =? i) && (i <? length yp))%nat
                         then nth i xp 0 else nth k yp 0)
               (fun k => nth k xp 0)) by lia.
    destruct ((i <=? k) && (k <? i + S todo))%nat; [|reflexivity].
    destruct (Nat.eqb_spec k i) as [->|Hne]; reflexivity.
  - rewrite Hny, !nth_upd.
    rewrite (nth_upd_window yp i todo k (nth i xp 0)
               (fun k => if ((k =? i) && (i <? length xp))%nat
                         then nth i yp 0 else nth k xp 0)
               (fun k => nth k yp 0)) by lia.
    destruct ((i <=? k) && (k <? i + S todo))%nat; [|reflexivity].
    destruct (Nat.eqb_spec k i) as [->|Hne]; reflexivity.
Qed.

Lemma cond_swap_spec : forall junk ML X Y swap,
  mpi_wf X -> mpi_wf Y -> used Y <= limbs X -> used X <= limbs Y ->
  used X <= ML -> used Y <= ML -> 0 <= swap < 256 ->
  exists X' Y',
    ttls_mpi_safe_cond_swap junk ML X Y swap = Ok (X', Y')
    /\ (swap = 0 -> X' = X /\ Y' = Y)
    /\ (swap <> 0 ->
        s X' = s Y /\ used X' = used Y /\ mpi_abs X' = mpi_abs Y
        /\ s Y' = s X /\ used Y' = used X /\ mpi_abs Y' = mpi_abs X).
Proof.
  intros junk ML X Y swap HX HY HrX HrY HMX HMY Hb.
  destruct HX as (HuX & HlX & HfX). destruct HY as (HuY & HlY & HfY).
  unfold ttls_mpi_safe_cond_swap. cbv zeta.
  rewrite (ct_flag_spec swap Hb).
  rewrite (grow_enough junk ML X (used Y) HMY HrX). cbn [or_enomem bind].
  rewrite (grow_enough junk ML Y (used X) HMX HrY). cbn [or_enomem bind].
  destruct (Z.eqb_spec swap 0) as [H0|H0].
  - rewrite !Z.sub_0_r, !Z.mul_1_r, !Z.mul_0_r, !Z.add_0_r.
    set (n := Z.to_nat (if used X <? used Y then used Y else used X)).
    assert (Hn : (n <= length (p X))%nat /\ (n <= length (p Y))%nat)
      by (unfold n; destruct (used X <? used Y); lia).
    pose proof (cond_swap_limbs_keep n (p X) (p Y) 0 HfX HfY
                  ltac:(lia) ltac:(lia)) as Hrun.
    change (Z.of_nat 0) with 0 in Hrun. rewrite Hrun. cbn [bind].
    eexists. eexists. split; [reflexivity|].
    split; [|intro; contradiction].
    intros _. rewrite !mpi_eta. split; reflexivity.
  - change (1 - 1) with 0. rewrite !Z.mul_0_r, !Z.mul_1_r, !Z.add_0_l.
    set (n := Z.to_nat (if used Y <? used X then used X else used Y)).
    assert (Hn : (n <= length (p X))%nat /\ (n <= length (p Y))%nat)
      by (unfold n; destruct (used Y <? used X); lia).
    assert (Hnu : (Z.to_nat (used X) <= n)%nat /\ (Z.to_nat (used Y) <= n)%nat)
      by (unfold n; destruct (Z.ltb_spec (used Y) (used X)); lia).
    destruct (cond_swap_limbs_take n (p X) (p Y) 0 HfX HfY
                ltac:(lia) ltac:(lia)) as (xp' & yp' & Hrun & Hnx & Hny).
    change (Z.of_nat 0) with 0 in Hrun. rewrite Hrun. cbn [bind].
    eexists. eexists. split; [reflexivity|].
    split; [intro; contradiction|]. intros _. cbn [s used].
    rewrite !mpi_abs_lv. cbn [p used].
    assert (Ein : forall k u, (k < 0 + u)%nat -> (u <= n)%nat ->
              ((0 <=? k) && (k <? 0 + n))%nat = true).
    { intros k u Hk Hu. apply andb_true_iff. split;
        [apply Nat.leb_le | apply Nat.ltb_lt]; lia. }
    repeat split.
    + apply lv_ext. intros k Hk. rewrite Hnx.
      rewrite (Ein k (Z.to_nat (used Y))) by lia. reflexivity.
    + apply lv_ext. intros k Hk. rewrite Hny.
      rewrite (Ein k (Z.to_nat (used X))) by lia. reflexivity.
Qed.

(** X28: bignum.c:199-217 and 225-258.  When the destinations have room for the
    limbs of the other operand: a flag of 0 leaves the numbers as they
    are, every other byte gives [X] the sign, the length and the value of
    [Y], and for the swap [Y] those of [X]. *)
Theorem safe_cond_assign_and_swap_select : forall junk ML X Y flag,
  mpi_wf X -> mpi_wf Y -> used Y <= limbs X -> used X <= limbs Y ->
  used X <= ML -> used Y <= ML -> 0 <= flag < 256 ->
  (exists X',
     ttls_mpi_safe_cond_assign junk ML X Y flag = Ok X'
     /\ (flag = 0 -> X' = X)
     /\ (flag <> 0 ->
         s X' = s Y /\ used X' = used Y /\ limbs X' = limbs X
         /\ mpi_abs X' = mpi_abs Y))
  /\ (exists X' Y',
        ttls_mpi_safe_cond_swap junk ML X Y flag = Ok (X', Y')
        /\ (flag = 0 -> X' = X /\ Y' = Y)
        /\ (flag <> 0 ->
            s X' = s Y /\ used X' = used Y /\ mpi_abs X' = mpi_abs Y
            /\ s Y' = s X /\ used Y' = used X /\ mpi_abs Y' = mpi_abs X)).
Proof.
  intros junk ML X Y flag HX HY HrX HrY HMX HMY Hb. split.
  - apply cond_assign_spec; assumption.
  - apply cond_swap_spec; assumption.
Qed.

Lemma safe_cond_assign_and_swap_select_witness :
  (exists X',
     ttls_mpi_safe_cond_assign (fun _ => 0) 16 (mkMpi (-1) 2 2 [9; 9])
                               (mkMpi 1 1 2 [5; 0]) 128 = Ok X'
     /\ (128 = 0 -> X' = mkMpi (-1) 2 2 [9; 9])
     /\ (128 <> 0 ->
         s X' = s (mkMpi 1 1 2 [5; 0])
         /\ used X' = used (mkMpi 1 1 2 [5; 0])
         /\ limbs X' = limbs (mkMpi (-1) 2 2 [9; 9])
         /\ mpi_abs X' = mpi_abs (mkMpi 1 1 2 [5; 0])))
  /\ (exists X' Y',
        ttls_mpi_safe_cond_swap (fun _ => 0) 16 (mkMpi (-1) 2 2 [9; 9])
                                (mkMpi 1 1 2 [5; 0]) 128 = Ok (X', Y')
        /\ (128 = 0 ->
            X' = mkMpi (-1) 2 2 [9; 9] /\ Y' = mkMpi 1 1 2 [5; 0])
        /\ (128 <> 0 ->
            s X' = s (mkMpi 1 1 2 [5; 0])
            /\ used X' = used (mkMpi 1 1 2 [5; 0])
            /\ mpi_abs X' = mpi_abs (mkMpi 1 1 2 [5; 0])
            /\ s Y' = s (mkMpi (-1) 2 2 [9; 9])
            /\ used Y' = used (mkMpi (-1) 2 2 [9; 9])
            /\ mpi_abs Y' = mpi_abs (mkMpi (-1) 2 2 [9; 9]))).
Proof.
  apply (safe_cond_assign_and_swap_select (fun _ => 0) 16
           (mkMpi (-1) 2 2 [9; 9]) (mkMpi 1 1 2 [5; 0]) 128).
  - apply (proj1 (mpi_goodb_ok (mkMpi (-1) 2 2 [9; 9]) eq_refl)).
  - apply (proj1 (mpi_goodb_ok (mkMpi 1 1 2 [5; 0]) eq_refl)).
  - cbn. lia.
  - cbn. lia.
  - cbn. lia.
  - cbn. lia.
  - lia.
Defined.

End BignumProofs.
